(** * BIND 9: Robin Hood hash map ([lib/isc/hashmap.c]) and TLS context
    helpers ([lib/isc/tls.c]) -- a shallow embedding and its properties.

    Conventions of the embedding.
    - A C integer of width [w] is a [Z] in [0, 2^w); every operation that can
      leave that range is followed by [wrap w].
    - A function that in C may fail an assertion (REQUIRE / INSIST /
      RUNTIME_CHECK), dereference NULL or loop forever returns [option]:
      [None] stands for "the call does not return normally".
    - The platform is LP64: [size_t] and [long] have 64 bits, [unsigned
      int] and [uint32_t] have 32.
    - A C loop is [while fuel body s]: [body] is one trip through the loop,
      [fuel] bounds the number of trips and is binary, so that the model
      still evaluates on tables of 2^32 slots. *)

From Stdlib Require Import ZArith List Bool Lia.
Import ListNotations.
Open Scope Z_scope.

(* ===================================================================== *)
(** * Machine integers and loops                                          *)
(* ===================================================================== *)

Definition wrap (w x : Z) : Z := x mod 2 ^ w.
Definition u8 (x : Z) : Z := wrap 8 x.
Definition u16 (x : Z) : Z := wrap 16 x.
Definition u32 (x : Z) : Z := wrap 32 x.
Definition u64 (x : Z) : Z := wrap 64 x.

Definition UINT16_MAX : Z := 65535.
Definition UINT32_MAX : Z := 4294967295.

Definition b2z (b : bool) : Z := if b then 1 else 0.

(** One trip through a loop body either goes round again or leaves. *)
Inductive step (S R : Type) : Type :=
| Continue (s : S)
| Break (r : R).
Arguments Continue {S R} s.
Arguments Break {S R} r.

(** [while_nat body n s] runs at most [n] trips. *)
Fixpoint while_nat {S R : Type} (body : S -> step S R) (n : nat) (s : S)
  : step S R :=
  match n with
  | O => Continue s
  | Datatypes.S n' =>
      match body s with
      | Continue s' => while_nat body n' s'
      | Break r => Break r
      end
  end.

(** The same with binary fuel: [while_pos body p s] runs at most
    [Pos.to_nat p] trips and stops at the first [Break]. *)
Fixpoint while_pos {S R : Type} (body : S -> step S R) (p : positive) (s : S)
  : step S R :=
  match p with
  | xH => body s
  | xO q =>
      match while_pos body q s with
      | Continue s' => while_pos body q s'
      | Break r => Break r
      end
  | xI q =>
      match body s with
      | Continue s0 =>
          match while_pos body q s0 with
          | Continue s' => while_pos body q s'
          | Break r => Break r
          end
      | Break r => Break r
      end
  end.

Definition while {S R : Type} (fuel : Z) (body : S -> step S R) (s : S)
  : option R :=
  match fuel with
  | Zpos p => match while_pos body p s with
              | Break r => Some r
              | Continue _ => None
              end
  | _ => None
  end.

(** Sequencing of calls that may not return. *)
Definition bind {A B : Type} (m : option A) (f : A -> option B) : option B :=
  match m with
  | Some a => f a
  | None => None
  end.

Notation "x <- m ;; f" := (bind m (fun x => f))
  (at level 61, m at next level, right associativity).
Notation "' pat <- m ;; f" := (bind m (fun x => match x with pat => f end))
  (at level 61, pat pattern, m at next level, right associativity).

(** REQUIRE / INSIST / RUNTIME_CHECK. *)
Definition REQUIRE (c : bool) : option unit := if c then Some tt else None.

(** [isc_result_t], the codes this part of the library returns. *)
Inductive isc_result : Type :=
| ISC_R_SUCCESS
| ISC_R_NOTFOUND
| ISC_R_EXISTS
| ISC_R_NOMORE
| ISC_R_FAILURE.

Definition isc_result_eqb (a b : isc_result) : bool :=
  match a, b with
  | ISC_R_SUCCESS, ISC_R_SUCCESS
  | ISC_R_NOTFOUND, ISC_R_NOTFOUND
  | ISC_R_EXISTS, ISC_R_EXISTS
  | ISC_R_NOMORE, ISC_R_NOMORE
  | ISC_R_FAILURE, ISC_R_FAILURE => true
  | _, _ => false
  end.

(** Bytes of a buffer: [memcmp(a, b, n) == 0]. *)
Fixpoint bytes_eqb (a b : list Z) : bool :=
  match a, b with
  | [], [] => true
  | x :: a', y :: b' => (x =? y) && bytes_eqb a' b'
  | _, _ => false
  end.

Definition memcmp_eq (a b : list Z) (n : Z) : bool :=
  bytes_eqb (firstn (Z.to_nat n) a) (firstn (Z.to_nat n) b).

(** [buf[i]]; a read past the end of the list yields 0. *)
Definition byte_at (buf : list Z) (i : Z) : Z := nth (Z.to_nat i) buf 0.

(* ===================================================================== *)
(** * TLS context helpers ([tls.c])                                       *)
(* ===================================================================== *)

(** Modelled from the spec: [isc_tls_protocol_version_t] is declared in
    [isc/tls.h], which is not among the sources.  The spec takes the mask
    "over {1.2, 1.3}" and the source notes that the versions "are defined as
    powers of two"; the enumerator after the last version closes the list. *)
Definition ISC_TLS_PROTO_VER_1_2 : Z := 1.
Definition ISC_TLS_PROTO_VER_1_3 : Z := 2.
Definition ISC_TLS_PROTO_VER_UNDEFINED : Z := 3.

(** Modelled from the spec: [isc_tlsctx_cache_transport_t] is declared in
    [isc/tls.h]; the spec has transport kinds DoT and DoH between the
    [none] and [count] enumerators, and [transport_offset = transport - 1]. *)
Definition isc_tlsctx_cache_none : Z := 0.
Definition isc_tlsctx_cache_tls : Z := 1.
Definition isc_tlsctx_cache_https : Z := 2.
Definition isc_tlsctx_cache_count : Z := 3.

(** Modelled from the spec: [ISC_TLS_DOT_PROTO_ALPN_ID] is declared in
    [isc/tls.h]; the spec gives the DoT identifier as 0x03 then "dot". *)
Definition ISC_TLS_DOT_PROTO_ALPN_ID : list Z := [100; 111; 116].

(** A TLS context, as far as this file looks into it: the option word that
    [SSL_CTX_set_options] and [SSL_CTX_clear_options] act on. *)
Record isc_tlsctx : Type := mk_tlsctx { ssl_options : Z }.

Definition SSL_CTX_set_options (ctx : isc_tlsctx) (op : Z) : isc_tlsctx :=
  mk_tlsctx (Z.lor (ssl_options ctx) op).

Definition SSL_CTX_clear_options (ctx : isc_tlsctx) (op : Z) : isc_tlsctx :=
  mk_tlsctx (Z.land (ssl_options ctx) (Z.lnot op)).

(** ** ALPN scan *)

(** The state of the [for] loop of [protoneg_check_protocol] is [i]. *)
Definition protoneg_body (inb : list Z) (in_len : Z) (key : list Z)
  (key_len : Z) (i : Z) : step Z (option (Z * Z)) :=
  if i + key_len <=? in_len then
    if memcmp_eq (skipn (Z.to_nat i) inb) key key_len then
      (* *pout = &in[i + 1]; *pout_len = in[i]; return true *)
      Break (Some (i + 1, byte_at inb i))
    else Continue (i + (byte_at inb i + 1))
  else Break None.

(** [protoneg_check_protocol]: [Some (off, len)] is "true, with [*pout =
    &in[off]] and [*pout_len = len]"; [None] is "false". *)
Definition protoneg_check_protocol (inb : list Z) (in_len : Z)
  (key : list Z) (key_len : Z) : option (option (Z * Z)) :=
  while (in_len + 1) (protoneg_body inb in_len key key_len) 0.

Definition DOT_PROTO_ALPN : list Z := 3 :: ISC_TLS_DOT_PROTO_ALPN_ID.
Definition DOT_PROTO_ALPN_LEN : Z := Z.of_nat (length DOT_PROTO_ALPN).

Definition dot_select_next_protocol (inb : list Z) (in_len : Z)
  : option (option (Z * Z)) :=
  protoneg_check_protocol inb in_len DOT_PROTO_ALPN DOT_PROTO_ALPN_LEN.

(** The wire form of an ALPN list: each protocol name behind its length. *)
Definition alpn_record (p : list Z) : list Z := Z.of_nat (length p) :: p.

Definition alpn_wire (recs : list (list Z)) : list Z :=
  flat_map alpn_record recs.

(** A protocol name that fits a record: bytes, at most 255 of them. *)
Definition alpn_name_ok (p : list Z) : Prop :=
  Z.of_nat (length p) <= 255 /\ Forall (fun b => 0 <= b <= 255) p.

Section Tls.

(** The build's OpenSSL: the two option bits, [None] when the header does
    not define the macro, and the two address families of <sys/socket.h>. *)
Variable SSL_OP_NO_TLSv1_2 : option Z.
Variable SSL_OP_NO_TLSv1_3 : option Z.
Variable AF_INET : Z.
Variable AF_INET6 : Z.

(** ** Protocol-version mask *)

(** [None]: the [default:] branch, [INSIST(0)]. *)
Definition get_tls_version_disable_bit (tls_ver : Z) : option Z :=
  if tls_ver =? ISC_TLS_PROTO_VER_1_2 then
    Some (match SSL_OP_NO_TLSv1_2 with Some b => b | None => 0 end)
  else if tls_ver =? ISC_TLS_PROTO_VER_1_3 then
    Some (match SSL_OP_NO_TLSv1_3 with Some b => b | None => 0 end)
  else None.

Definition isc_tls_protocol_supported (tls_ver : Z) : option bool :=
  bit <- get_tls_version_disable_bit tls_ver ;;
  Some (negb (bit =? 0)).

(** The loop state of [isc_tlsctx_set_protocols]. *)
Record protocols_state : Type := mk_protocols_state {
  ps_tls_ver : Z;
  ps_set_options : Z;
  ps_clear_options : Z;
  ps_versions : Z
}.

(** One trip of [for (tls_ver = ISC_TLS_PROTO_VER_1_2; tls_ver <
    ISC_TLS_PROTO_VER_UNDEFINED; tls_ver <<= 1)]; the loop leaves with
    [None] when an assertion fails. *)
Definition set_protocols_body (tls_versions : Z) (s : protocols_state)
  : step protocols_state (option protocols_state) :=
  let tls_ver := ps_tls_ver s in
  if tls_ver <? ISC_TLS_PROTO_VER_UNDEFINED then
    let next (set_options clear_options : Z) :=
      Continue (mk_protocols_state (u32 (Z.shiftl tls_ver 1))
                  set_options clear_options
                  (Z.land (ps_versions s) (u32 (Z.lnot tls_ver)))) in
    if Z.land tls_versions tls_ver =? 0 then
      match get_tls_version_disable_bit tls_ver with
      | Some bit => next (Z.lor (ps_set_options s) bit) (ps_clear_options s)
      | None => Break None
      end
    else
      match isc_tls_protocol_supported tls_ver,
            get_tls_version_disable_bit tls_ver with
      | Some true, Some bit =>
          next (ps_set_options s) (Z.lor (ps_clear_options s) bit)
      | _, _ => Break None
      end
  else Break (Some s).

Definition isc_tlsctx_set_protocols (ctx : isc_tlsctx) (tls_versions : Z)
  : option isc_tlsctx :=
  _ <- REQUIRE (negb (tls_versions =? 0)) ;;
  r <- while 33 (set_protocols_body tls_versions)
         (mk_protocols_state ISC_TLS_PROTO_VER_1_2 0 0 tls_versions) ;;
  s <- r ;;
  _ <- REQUIRE (ps_versions s =? 0) ;;
  Some (SSL_CTX_clear_options
          (SSL_CTX_set_options ctx (ps_set_options s))
          (ps_clear_options s)).

(** ** TLS context cache *)

(** [isc_tlsctx_cache_entry_t]: the matrix [ctx[count - 1][2]] of context
    pointers; a context pointer is an address, 0 is NULL. *)
Definition isc_tlsctx_cache_entry : Type := Z -> bool -> Z.

Definition entry_zero : isc_tlsctx_cache_entry := fun _ _ => 0.

Definition entry_set (e : isc_tlsctx_cache_entry) (tr_offset : Z)
  (ipv6 : bool) (ctx : Z) : isc_tlsctx_cache_entry :=
  fun t f => if (t =? tr_offset) && Bool.eqb f ipv6 then ctx else e t f.

(** Modelled from the spec: the hash table behind the cache ([isc_ht_find],
    [isc_ht_add]) is not among the sources.  After the spec, [find] is a pure
    read that yields the value stored under the key or NOT_FOUND, and [add]
    inserts or reports a duplicate.  A value is the address of an entry. *)
Definition isc_ht : Type := list (list Z * Z).

Fixpoint isc_ht_find (ht : isc_ht) (key : list Z) : isc_result * Z :=
  match ht with
  | [] => (ISC_R_NOTFOUND, 0)
  | (k, v) :: ht' =>
      if bytes_eqb k key then (ISC_R_SUCCESS, v) else isc_ht_find ht' key
  end.

Definition isc_ht_add (ht : isc_ht) (key : list Z) (v : Z)
  : isc_result * isc_ht :=
  match isc_ht_find ht key with
  | (ISC_R_SUCCESS, _) => (ISC_R_EXISTS, ht)
  | _ => (ISC_R_SUCCESS, ht ++ [(key, v)])
  end.

(** [isc_tlsctx_cache_t] with the memory its entries live in: [heap] maps
    the address of an entry to its contents, [brk] is the next address
    [isc_mem_get] hands out. *)
Record isc_tlsctx_cache : Type := mk_cache {
  data : isc_ht;
  heap : Z -> isc_tlsctx_cache_entry;
  brk : Z
}.

Definition heap_store (h : Z -> isc_tlsctx_cache_entry) (a : Z)
  (e : isc_tlsctx_cache_entry) : Z -> isc_tlsctx_cache_entry :=
  fun x => if x =? a then e else h x.

(** [isc_tlsctx_cache_new]: the table is empty ([isc_ht_init]) and no entry
    has been allocated; [isc_mem_get] does not hand out NULL. *)
Definition isc_tlsctx_cache_new : isc_tlsctx_cache :=
  mk_cache [] (fun _ => entry_zero) 1.

(** The preconditions that add and find share; a name is the bytes of the
    C string before its terminator. *)
Definition cache_REQUIRE (name : list Z) (transport family : Z)
  : option unit :=
  _ <- REQUIRE (negb (Nat.eqb (length name) 0)) ;;
  _ <- REQUIRE ((isc_tlsctx_cache_none <? transport)
                && (transport <? isc_tlsctx_cache_count)) ;;
  REQUIRE ((family =? AF_INET) || (family =? AF_INET6)).

(** [pfound] is [None] for a NULL pointer and [Some x] for a pointer to
    a cell holding [x]; the result carries the cell after the call. *)
Definition isc_tlsctx_cache_add (cache : isc_tlsctx_cache) (name : list Z)
  (transport family : Z) (ctx : Z) (pfound : option Z)
  : option (isc_result * isc_tlsctx_cache * option Z) :=
  _ <- cache_REQUIRE name transport family ;;
  _ <- REQUIRE (negb (ctx =? 0)) ;;
  let tr_offset := transport - 1 in
  let ipv6 := family =? AF_INET6 in
  let '(result, entry) := isc_ht_find (data cache) name in
  if isc_result_eqb result ISC_R_SUCCESS
     && negb (heap cache entry tr_offset ipv6 =? 0) then
    (* The entry exists. *)
    match pfound with
    | Some x =>
        _ <- REQUIRE (x =? 0) ;;
        Some (ISC_R_EXISTS, cache, Some (heap cache entry tr_offset ipv6))
    | None => Some (ISC_R_EXISTS, cache, None)
    end
  else if isc_result_eqb result ISC_R_SUCCESS
          && (heap cache entry tr_offset ipv6 =? 0) then
    (* The hash table entry exists, but is not filled for this
       transport / IP type combination. *)
    Some (ISC_R_SUCCESS,
          mk_cache (data cache)
            (heap_store (heap cache) entry
               (entry_set (heap cache entry) tr_offset ipv6 ctx))
            (brk cache),
          pfound)
  else
    (* The hash table entry does not exist, let's create one. *)
    _ <- REQUIRE (negb (isc_result_eqb result ISC_R_SUCCESS)) ;;
    let entry := brk cache in
    let '(r, ht) := isc_ht_add (data cache) name entry in
    _ <- REQUIRE (isc_result_eqb r ISC_R_SUCCESS) ;;
    Some (ISC_R_SUCCESS,
          mk_cache ht
            (heap_store (heap cache) entry
               (entry_set entry_zero tr_offset ipv6 ctx))
            (brk cache + 1),
          pfound).

(** [*pctx] is NULL on entry (REQUIRE); the result carries it after. *)
Definition isc_tlsctx_cache_find (cache : isc_tlsctx_cache) (name : list Z)
  (transport family : Z) : option (isc_result * Z) :=
  _ <- cache_REQUIRE name transport family ;;
  let tr_offset := transport - 1 in
  let ipv6 := family =? AF_INET6 in
  let '(result, entry) := isc_ht_find (data cache) name in
  if isc_result_eqb result ISC_R_SUCCESS
     && negb (heap cache entry tr_offset ipv6 =? 0) then
    Some (result, heap cache entry tr_offset ipv6)
  else if isc_result_eqb result ISC_R_SUCCESS
          && (heap cache entry tr_offset ipv6 =? 0) then
    Some (ISC_R_NOTFOUND, 0)
  else
    _ <- REQUIRE (negb (isc_result_eqb result ISC_R_SUCCESS)) ;;
    Some (result, 0).

(** What the cache holds for a name and a slot: the context pointer, or 0
    when the name has no entry or the slot is NULL. *)
Definition cache_slot (cache : isc_tlsctx_cache) (name : list Z)
  (transport family : Z) : Z :=
  match isc_ht_find (data cache) name with
  | (ISC_R_SUCCESS, entry) =>
      heap cache entry (transport - 1) (family =? AF_INET6)
  | _ => 0
  end.

Definition cache_has_entry (cache : isc_tlsctx_cache) (name : list Z)
  : bool :=
  isc_result_eqb (fst (isc_ht_find (data cache) name)) ISC_R_SUCCESS.

End Tls.

(** ** The terms of the properties *)

(** The versions that the loop of [isc_tlsctx_set_protocols] goes
    through. *)
Definition known_versions : list Z :=
  [ISC_TLS_PROTO_VER_1_2; ISC_TLS_PROTO_VER_1_3].

(** The disable-bit of a known version in a build, 0 when the build has
    none. *)
Definition disable_bit (no_tls1_2 no_tls1_3 : option Z) (tls_ver : Z) : Z :=
  match get_tls_version_disable_bit no_tls1_2 no_tls1_3 tls_ver with
  | Some b => b
  | None => 0
  end.

(** The disable-bits of the known versions that [sel] selects, or-ed. *)
Definition options_of (no_tls1_2 no_tls1_3 : option Z) (sel : Z -> bool)
  : Z :=
  fold_left
    (fun acc v =>
       if sel v then Z.lor acc (disable_bit no_tls1_2 no_tls1_3 v) else acc)
    known_versions 0.

Definition in_mask (tls_versions tls_ver : Z) : bool :=
  negb (Z.land tls_versions tls_ver =? 0).

(** What [isc_tlsctx_cache_add] and [isc_tlsctx_cache_find] REQUIRE of their
    arguments. *)
Definition cache_args_ok (AF_INET AF_INET6 : Z) (name : list Z)
  (transport family : Z) : Prop :=
  name <> [] /\
  (transport = isc_tlsctx_cache_tls \/ transport = isc_tlsctx_cache_https) /\
  (family = AF_INET \/ family = AF_INET6).

(** [*pfound] is NULL when [pfound] is not. *)
Definition pfound_ok (pfound : option Z) : Prop :=
  pfound = None \/ pfound = Some 0.


(* ===================================================================== *)
(** * Robin Hood hash map ([hashmap.c])                                   *)
(* ===================================================================== *)

(** The percentages are taken of a [size_t]. *)
Definition APPROX_90_PERCENT (x : Z) : Z := Z.shiftr (u64 (x * 921)) 10.
Definition APPROX_40_PERCENT (x : Z) : Z := Z.shiftr (u64 (x * 409)) 10.
Definition APPROX_20_PERCENT (x : Z) : Z := Z.shiftr (u64 (x * 205)) 10.

(** [UINT64_C(1) << bits]. *)
Definition HASHSIZE (bits : Z) : Z := u64 (Z.shiftl 1 bits).

Definition HASHMAP_NO_BITS : Z := 0.
Definition HASHMAP_MIN_BITS : Z := 1.
Definition HASHMAP_MAX_BITS : Z := 32.

(** Modelled from the spec: the option flag is declared in [isc/hashmap.h],
    which is not among the sources; the spec has one option,
    case-insensitive keys. *)
Definition ISC_HASHMAP_CASE_INSENSITIVE : Z := 1.

(** Modelled from the spec: [isc_ascii_lowerequal] is declared in
    [isc/ascii.h], which is not among the sources; the spec has "ASCII fold
    on compare". *)
Definition isc_ascii_tolower (c : Z) : Z :=
  if (65 <=? c) && (c <=? 90) then c + 32 else c.

Definition isc_ascii_lowerequal (a b : list Z) (len : Z) : bool :=
  bytes_eqb (map isc_ascii_tolower (firstn (Z.to_nat len) a))
            (map isc_ascii_tolower (firstn (Z.to_nat len) b)).

(** [hashmap_node_t].  The key is borrowed: [key] is NULL ([None]) or the
    bytes the stored pointer points to; [value] is an address. *)
Record hashmap_node : Type := mk_node {
  key : option (list Z);
  value : Z;
  hashval : Z;
  psl : Z;
  keysize : Z
}.

(** [(hashmap_node_t){ 0 }] *)
Definition node_zero : hashmap_node := mk_node None 0 0 0 0.

Definition set_psl (node : hashmap_node) (p : Z) : hashmap_node :=
  mk_node (key node) (value node) (hashval node) p (keysize node).

(** [node->key == NULL] *)
Definition key_is_null (node : hashmap_node) : bool :=
  match key node with
  | None => true
  | Some _ => false
  end.

(** [hashmap_table_t]; [table] is NULL or the array of nodes. *)
Record hashmap_table : Type := mk_table {
  size : Z;
  hashbits : Z;
  hashmask : Z;
  table : option (Z -> hashmap_node)
}.

(** [(hashmap_table_t){ .hashbits = HASHMAP_NO_BITS }] *)
Definition table_none : hashmap_table := mk_table 0 HASHMAP_NO_BITS 0 None.

(** [struct isc_hashmap], without the magic number and the memory context. *)
Record isc_hashmap : Type := mk_hashmap {
  case_sensitive : bool;
  hindex : Z;
  hiter : Z;
  count : Z;
  hash_key : list Z;
  tables : Z -> hashmap_table
}.

(** [struct isc_hashmap_iter]; the map it points to is passed along with
    it, [cur] is NULL or the table and the slot of the current node. *)
Record isc_hashmap_iter : Type := mk_iter {
  iter_i : Z;
  iter_hindex : Z;
  iter_cur : option (Z * Z)
}.

(** Stores into arrays and fields. *)
Definition upd (t : Z -> hashmap_node) (pos : Z) (node : hashmap_node)
  : Z -> hashmap_node :=
  fun p => if p =? pos then node else t p.

Definition set_tables (hashmap : isc_hashmap) (idx : Z) (tb : hashmap_table)
  : isc_hashmap :=
  mk_hashmap (case_sensitive hashmap) (hindex hashmap) (hiter hashmap)
    (count hashmap) (hash_key hashmap)
    (fun i => if i =? idx then tb else tables hashmap i).

Definition set_table (hashmap : isc_hashmap) (idx : Z)
  (t : Z -> hashmap_node) : isc_hashmap :=
  let tb := tables hashmap idx in
  set_tables hashmap idx
    (mk_table (size tb) (hashbits tb) (hashmask tb) (Some t)).

Definition set_count (hashmap : isc_hashmap) (c : Z) : isc_hashmap :=
  mk_hashmap (case_sensitive hashmap) (hindex hashmap) (hiter hashmap)
    c (hash_key hashmap) (tables hashmap).

Definition set_hiter (hashmap : isc_hashmap) (h : Z) : isc_hashmap :=
  mk_hashmap (case_sensitive hashmap) (hindex hashmap) h
    (count hashmap) (hash_key hashmap) (tables hashmap).

Definition set_hindex (hashmap : isc_hashmap) (h : Z) : isc_hashmap :=
  mk_hashmap (case_sensitive hashmap) h (hiter hashmap)
    (count hashmap) (hash_key hashmap) (tables hashmap).

Definition hashmap_nexttable (idx : Z) : Z := if idx =? 0 then 1 else 0.

Definition rehashing_in_progress (hashmap : isc_hashmap) : bool :=
  match table (tables hashmap (hashmap_nexttable (hindex hashmap))) with
  | Some _ => true
  | None => false
  end.

Definition try_nexttable (hashmap : isc_hashmap) (idx : Z) : bool :=
  (idx =? hindex hashmap) && rehashing_in_progress hashmap.

(** The key pointer is not NULL by its type here. *)
Definition hashmap_node_init (hv : Z) (k : list Z) (ksz : Z) (v : Z)
  : option hashmap_node :=
  _ <- REQUIRE (ksz <=? UINT16_MAX) ;;
  Some (mk_node (Some k) v hv 0 (u16 ksz)).

Definition hashmap_create_table (hashmap : isc_hashmap) (idx bits : Z)
  : option isc_hashmap :=
  _ <- REQUIRE (hashbits (tables hashmap idx) =? HASHMAP_NO_BITS) ;;
  _ <- REQUIRE (negb (match table (tables hashmap idx) with
                      | Some _ => true | None => false end)) ;;
  _ <- REQUIRE (HASHMAP_MIN_BITS <=? bits) ;;
  _ <- REQUIRE (bits <=? HASHMAP_MAX_BITS) ;;
  Some (set_tables hashmap idx
          (mk_table (HASHSIZE bits) bits (u32 (HASHSIZE bits - 1))
             (* isc_mem_getx(..., ISC_MEM_ZERO) *)
             (Some (fun _ => node_zero)))).

(** One trip of the clean-up loop of [hashmap_free_table]; the state is
    [(i, table, count)]. *)
Definition free_table_body (sz : Z)
  (s : Z * (Z -> hashmap_node) * Z)
  : step (Z * (Z -> hashmap_node) * Z) ((Z -> hashmap_node) * Z) :=
  let '(i, t, c) := s in
  if i <? sz then
    if key_is_null (t i) then Continue (i + 1, t, c)
    else Continue (i + 1, upd t i node_zero, u64 (c - 1))
  else Break (t, c).

Definition hashmap_free_table (hashmap : isc_hashmap) (idx : Z)
  (cleanup : bool) : option isc_hashmap :=
  hashmap' <-
    (if cleanup then
       t <- table (tables hashmap idx) ;;
       ' (_, c) <- while (size (tables hashmap idx) + 1)
                     (free_table_body (size (tables hashmap idx)))
                     (0, t, count hashmap) ;;
       Some (set_count hashmap c)
     else Some hashmap) ;;
  Some (set_tables hashmap' idx table_none).

(** [entropy] is what [isc_entropy_get] fills the hash key with. *)
Definition isc_hashmap_create (bits options : Z) (entropy : list Z)
  : option isc_hashmap :=
  let case_sensitive := Z.land options ISC_HASHMAP_CASE_INSENSITIVE =? 0 in
  _ <- REQUIRE ((HASHMAP_MIN_BITS <=? bits) && (bits <=? HASHMAP_MAX_BITS)) ;;
  hashmap_create_table
    (mk_hashmap case_sensitive 0 0 0 entropy (fun _ => table_none)) 0 bits.

(** [isc_hashmap_destroy]: each table that is not NULL is freed with
    [cleanup], then [INSIST(hashmap->count == 0)]. *)
Definition isc_hashmap_destroy (hashmap : isc_hashmap) : option unit :=
  hashmap <-
    (match table (tables hashmap 0) with
     | Some _ => hashmap_free_table hashmap 0 true
     | None => Some hashmap
     end) ;;
  hashmap <-
    (match table (tables hashmap 1) with
     | Some _ => hashmap_free_table hashmap 1 true
     | None => Some hashmap
     end) ;;
  REQUIRE (count hashmap =? 0).

(** On a node whose key is NULL the C code never calls this. *)
Definition hashmap_match (node : hashmap_node) (hv : Z) (k : list Z)
  (ksz : Z) (cs : bool) : bool :=
  (hashval node =? hv) && (keysize node =? ksz) &&
  match key node with
  | Some nk =>
      if cs then memcmp_eq nk k ksz else isc_ascii_lowerequal nk k ksz
  | None => false
  end.

Section Hashmap.

(** [isc_hash_bits32] ([isc/hash.h]) and [isc_halfsiphash24]
    ([isc/siphash.h]) are not among the sources; the map is verified for
    whatever they compute.  [isc_halfsiphash24 k in inlen case_sensitive] is
    the 32-bit word the C function stores through its last argument. *)
Variable isc_hash_bits32 : Z -> Z -> Z.
Variable isc_halfsiphash24 : list Z -> list Z -> Z -> bool -> Z.

(** One trip of the probe loop of [hashmap_find]; the state is [psl]. *)
Definition find_body (t : Z -> hashmap_node) (mask hash hv : Z)
  (k : list Z) (ksz : Z) (cs : bool) (psl0 : Z)
  : step Z (option (Z * Z)) :=
  let pos := Z.land (u32 (hash + psl0)) mask in
  let node := t pos in
  if key_is_null node || (psl node <? psl0) then Break None
  else if hashmap_match node hv k ksz cs then Break (Some (pos, psl0))
  else Continue (u32 (psl0 + 1)).

(** The probe loop on table [idx]: [None] when it does not end or the
    table is NULL, [Some None] when it leaves by [break]. *)
Definition hashmap_find_table (hashmap : isc_hashmap) (hv : Z)
  (k : list Z) (ksz : Z) (idx : Z) : option (option (Z * Z)) :=
  t <- table (tables hashmap idx) ;;
  let hash := u32 (isc_hash_bits32 hv (hashbits (tables hashmap idx))) in
  while 4294967296
    (find_body t (hashmask (tables hashmap idx)) hash hv k ksz
       (case_sensitive hashmap)) 0.

(** [hashmap_find]: [Some (pos, psl, idx)] is the node
    [&hashmap->tables[idx].table[pos]] with [*pslp = psl], [*idxp = idx];
    the trips of the outer loop are the jumps to [nexttable]. *)
Definition hashmap_find (hashmap : isc_hashmap) (hv : Z) (k : list Z)
  (ksz : Z) (idx : Z) : option (option (Z * Z * Z)) :=
  r <- while 3
         (fun idx =>
            match hashmap_find_table hashmap hv k ksz idx with
            | None => Break None
            | Some (Some (pos, psl0)) => Break (Some (Some (pos, psl0, idx)))
            | Some None =>
                if try_nexttable hashmap idx
                then Continue (hashmap_nexttable idx)
                else Break (Some None)
            end) idx ;;
  r.

Definition isc_hashmap_hash (hashmap : isc_hashmap) (k : list Z) (ksz : Z)
  : Z :=
  u32 (isc_halfsiphash24 (hash_key hashmap) k ksz (case_sensitive hashmap)).

(** [hashvalp != NULL ? *hashvalp : isc_hashmap_hash(...)] *)
Definition hashval_of (hashmap : isc_hashmap) (hashvalp : option Z)
  (k : list Z) (ksz : Z) : Z :=
  match hashvalp with
  | Some hv => u32 hv
  | None => isc_hashmap_hash hashmap k ksz
  end.

(** The preconditions on a key. *)
Definition key_REQUIRE (ksz : Z) : option unit :=
  REQUIRE (ksz <=? UINT16_MAX).

(** The result carries [*valuep], NULL before the call. *)
Definition isc_hashmap_find (hashmap : isc_hashmap) (hashvalp : option Z)
  (k : list Z) (ksz : Z) : option (isc_result * Z) :=
  _ <- key_REQUIRE ksz ;;
  let idx := hindex hashmap in
  let hv := hashval_of hashmap hashvalp k ksz in
  node <- hashmap_find hashmap hv k ksz idx ;;
  match node with
  | None => Some (ISC_R_NOTFOUND, 0)
  | Some (pos, _, idx) =>
      t <- table (tables hashmap idx) ;;
      _ <- REQUIRE (negb (key_is_null (t pos))) ;;
      Some (ISC_R_SUCCESS, value (t pos))
  end.

(** One trip of the shift loop of [hashmap_delete_node]; the state is
    [(table, entry, pos)], [entry] being the slot [entry] points to. *)
Definition delete_body (mask sz : Z)
  (s : (Z -> hashmap_node) * Z * Z)
  : step ((Z -> hashmap_node) * Z * Z) (option ((Z -> hashmap_node) * Z)) :=
  let '(t, entry, pos) := s in
  let pos := Z.land (u32 (pos + 1)) mask in
  if negb (pos <? sz) then Break None
  else
    let node := t pos in
    if key_is_null node || (psl node =? 0) then Break (Some (t, entry))
    else
      (* node->psl--; *entry = *node; entry = &table[pos]; *)
      let t1 := upd t pos (set_psl node (u32 (psl node - 1))) in
      let t2 := upd t1 entry (t1 pos) in
      Continue (t2, pos, pos).

Definition hashmap_delete_node (hashmap : isc_hashmap) (entry : Z)
  (hv psl0 idx : Z) : option isc_hashmap :=
  let hashmap := set_count hashmap (u64 (count hashmap - 1)) in
  let tb := tables hashmap idx in
  let hash := u32 (isc_hash_bits32 hv (hashbits tb)) in
  let pos := u32 (hash + psl0) in
  t <- table tb ;;
  r <- while 4294967297 (delete_body (hashmask tb) (size tb))
         (t, entry, pos) ;;
  ' (t, entry) <- r ;;
  Some (set_table hashmap idx (upd t entry node_zero)).

(** One trip of the loop of [hashmap_add]; the state is [(table, node,
    psl)].  The loop leaves with [inl (table, node, pos)] by [break] at the
    empty slot [pos] and with [inr table] by [return (ISC_R_EXISTS)]. *)
Definition add_body (mask hash hv : Z) (k : list Z) (ksz : Z) (cs : bool)
  (s : (Z -> hashmap_node) * hashmap_node * Z)
  : step ((Z -> hashmap_node) * hashmap_node * Z)
         ((Z -> hashmap_node) * hashmap_node * Z + (Z -> hashmap_node)) :=
  let '(t, node, psl0) := s in
  let pos := Z.land (u32 (hash + psl0)) mask in
  let current := t pos in
  if key_is_null current then Break (inl (t, node, pos))
  else if hashmap_match current hv k ksz cs then Break (inr t)
  else
    let '(t, node) :=
      if psl current <? psl node
      then (upd t pos node, current)   (* ISC_SWAP( *current, node) *)
      else (t, node) in
    Continue (t, set_psl node (u32 (psl node + 1)), u32 (psl0 + 1)).

Definition hashmap_add (hashmap : isc_hashmap) (hv : Z) (k : list Z)
  (ksz : Z) (v : Z) (idx : Z) : option (isc_result * isc_hashmap) :=
  let tb := tables hashmap idx in
  let hash := u32 (isc_hash_bits32 hv (hashbits tb)) in
  node <- hashmap_node_init hv k ksz v ;;
  t <- table tb ;;
  r <- while 8589934593
         (add_body (hashmask tb) hash hv k ksz (case_sensitive hashmap))
         (t, node, 0) ;;
  match r with
  | inr t => Some (ISC_R_EXISTS, set_table hashmap idx t)
  | inl (t, node, pos) =>
      let hashmap := set_count hashmap (u64 (count hashmap + 1)) in
      Some (ISC_R_SUCCESS, set_table hashmap idx (upd t pos node))
  end.

(** One trip of "find first non-empty node"; the state is [hiter]. *)
Definition rehash_skip_body (oldtable : option (Z -> hashmap_node))
  (oldsize : Z) (h : Z) : step Z (option Z) :=
  if h <? oldsize then
    match oldtable with
    | None => Break None
    | Some t => if key_is_null (t h) then Continue (u32 (h + 1))
                else Break (Some h)
    end
  else Break (Some h).

Definition hashmap_rehash_one (hashmap : isc_hashmap)
  : option isc_hashmap :=
  let oldidx := hashmap_nexttable (hindex hashmap) in
  let oldsize := u32 (size (tables hashmap oldidx)) in
  let oldtable := table (tables hashmap oldidx) in
  r <- while 4294967297 (rehash_skip_body oldtable oldsize)
         (hiter hashmap) ;;
  h <- r ;;
  let hashmap := set_hiter hashmap h in
  if h =? oldsize then
    (* Rehashing complete *)
    hashmap <- hashmap_free_table hashmap
                 (hashmap_nexttable (hindex hashmap)) false ;;
    Some (set_hiter hashmap 0)
  else
    (* Move the first non-empty node from old table to new table *)
    oldtable <- oldtable ;;
    _ <- REQUIRE (h <? size (tables hashmap oldidx)) ;;
    let node := oldtable h in
    hashmap <- hashmap_delete_node hashmap h (hashval node) (psl node)
                 oldidx ;;
    k <- key node ;;
    ' (result, hashmap) <- hashmap_add hashmap (hashval node) k
                             (keysize node) (value node)
                             (hindex hashmap) ;;
    _ <- REQUIRE (isc_result_eqb result ISC_R_SUCCESS) ;;
    Some hashmap.

(** One trip of the loop of [grow_bits]; the state is [newbits], and a
    shift by 64 or more is not defined. *)
Definition grow_bits_body (c : Z) (newbits : Z) : step Z (option Z) :=
  if 64 <=? newbits then Break None
  else if APPROX_40_PERCENT (HASHSIZE newbits) <? c
       then Continue (u32 (newbits + 1))
       else Break (Some newbits).

Definition grow_bits (hashmap : isc_hashmap) : option Z :=
  let newbits := u32 (hashbits (tables hashmap (hindex hashmap)) + 1) in
  r <- while 65 (grow_bits_body (count hashmap)) newbits ;;
  newbits <- r ;;
  Some (if HASHMAP_MAX_BITS <? newbits then HASHMAP_MAX_BITS else newbits).

Definition shrink_bits (hashmap : isc_hashmap) : Z :=
  let newbits := u32 (hashbits (tables hashmap (hindex hashmap)) - 1) in
  if newbits <=? HASHMAP_MIN_BITS then HASHMAP_MIN_BITS else newbits.

Definition hashmap_rehash_start_grow (hashmap : isc_hashmap)
  : option isc_hashmap :=
  let oldindex := hindex hashmap in
  let oldbits := hashbits (tables hashmap oldindex) in
  let newindex := hashmap_nexttable oldindex in
  _ <- REQUIRE (negb (rehashing_in_progress hashmap)) ;;
  newbits <- grow_bits hashmap ;;
  if oldbits <? newbits then
    hashmap <- hashmap_create_table hashmap newindex (u8 newbits) ;;
    Some (set_hindex hashmap newindex)
  else Some hashmap.

Definition hashmap_rehash_start_shrink (hashmap : isc_hashmap)
  : option isc_hashmap :=
  let oldindex := hindex hashmap in
  let oldbits := hashbits (tables hashmap oldindex) in
  let newindex := hashmap_nexttable oldindex in
  _ <- REQUIRE (negb (rehashing_in_progress hashmap)) ;;
  let newbits := shrink_bits hashmap in
  if newbits <? oldbits then
    hashmap <- hashmap_create_table hashmap newindex (u8 newbits) ;;
    Some (set_hindex hashmap newindex)
  else Some hashmap.

Definition over_threshold (hashmap : isc_hashmap) : bool :=
  let bits := hashbits (tables hashmap (hindex hashmap)) in
  if bits =? HASHMAP_MAX_BITS then false
  else
    let threshold := APPROX_90_PERCENT (HASHSIZE bits) in
    threshold <? count hashmap.

Definition under_threshold (hashmap : isc_hashmap) : bool :=
  let bits := hashbits (tables hashmap (hindex hashmap)) in
  if bits =? HASHMAP_MIN_BITS then false
  else
    let threshold := APPROX_20_PERCENT (HASHSIZE bits) in
    count hashmap <? threshold.

Definition isc_hashmap_delete (hashmap : isc_hashmap) (hashvalp : option Z)
  (k : list Z) (ksz : Z) : option (isc_result * isc_hashmap) :=
  _ <- key_REQUIRE ksz ;;
  let hv := hashval_of hashmap hashvalp k ksz in
  hashmap <-
    (if rehashing_in_progress hashmap then hashmap_rehash_one hashmap
     else if under_threshold hashmap then
       hashmap <- hashmap_rehash_start_shrink hashmap ;;
       hashmap_rehash_one hashmap
     else Some hashmap) ;;
  (* Initialize idx after possible shrink start *)
  let idx := hindex hashmap in
  node <- hashmap_find hashmap hv k ksz idx ;;
  match node with
  | Some (pos, psl0, idx) =>
      t <- table (tables hashmap idx) ;;
      _ <- REQUIRE (negb (key_is_null (t pos))) ;;
      hashmap <- hashmap_delete_node hashmap pos hv psl0 idx ;;
      Some (ISC_R_SUCCESS, hashmap)
  | None => Some (ISC_R_NOTFOUND, hashmap)
  end.

Definition isc_hashmap_add (hashmap : isc_hashmap) (hashvalp : option Z)
  (k : list Z) (ksz : Z) (v : Z) : option (isc_result * isc_hashmap) :=
  _ <- key_REQUIRE ksz ;;
  let hv := hashval_of hashmap hashvalp k ksz in
  hashmap <-
    (if rehashing_in_progress hashmap then hashmap_rehash_one hashmap
     else if over_threshold hashmap then
       hashmap <- hashmap_rehash_start_grow hashmap ;;
       hashmap_rehash_one hashmap
     else Some hashmap) ;;
  found <-
    (if rehashing_in_progress hashmap then
       let fidx := hashmap_nexttable (hindex hashmap) in
       (* Look for the value in the old table *)
       node <- hashmap_find hashmap hv k ksz fidx ;;
       Some (match node with Some _ => true | None => false end)
     else Some false) ;;
  if found then Some (ISC_R_EXISTS, hashmap)
  else hashmap_add hashmap hv k ksz v (hindex hashmap).

(** [unsigned int isc_hashmap_count]: the [size_t] counter, truncated. *)
Definition isc_hashmap_count (hashmap : isc_hashmap) : Z :=
  u32 (count hashmap).

(** ** Iterators *)

Definition isc_hashmap_iter_create (hashmap : isc_hashmap)
  : isc_hashmap_iter :=
  mk_iter 0 (hindex hashmap) None.

(** One trip of the skip loop of [isc__hashmap_iter_next]; the state is
    [iter->i]. *)
Definition iter_skip_body (tb : hashmap_table) (i : Z) : step Z (option Z) :=
  if i <? size tb then
    match table tb with
    | None => Break None
    | Some t => if key_is_null (t i) then Continue (u64 (i + 1))
                else Break (Some i)
    end
  else Break (Some i).

(** One pass of [isc__hashmap_iter_next] over the table the iterator is
    in; the call of itself on the next table is the next trip. *)
Definition iter_next_body (hashmap : isc_hashmap) (iter : isc_hashmap_iter)
  : step isc_hashmap_iter (option (isc_result * isc_hashmap_iter)) :=
  let tb := tables hashmap (iter_hindex iter) in
  match while 4294967298 (iter_skip_body tb) (iter_i iter) with
  | Some (Some i) =>
      if i <? size tb then
        Break (Some (ISC_R_SUCCESS,
                     mk_iter i (iter_hindex iter)
                       (Some (iter_hindex iter, i))))
      else if try_nexttable hashmap (iter_hindex iter) then
        Continue (mk_iter 0 (hashmap_nexttable (iter_hindex iter))
                    (iter_cur iter))
      else
        Break (Some (ISC_R_NOMORE,
                     mk_iter i (iter_hindex iter) (iter_cur iter)))
  | _ => Break None
  end.

Definition isc__hashmap_iter_next (hashmap : isc_hashmap)
  (iter : isc_hashmap_iter) : option (isc_result * isc_hashmap_iter) :=
  r <- while 3 (iter_next_body hashmap) iter ;;
  r.

Definition isc_hashmap_iter_first (hashmap : isc_hashmap)
  (iter : isc_hashmap_iter) : option (isc_result * isc_hashmap_iter) :=
  isc__hashmap_iter_next hashmap
    (mk_iter 0 (hindex hashmap) (iter_cur iter)).

Definition isc_hashmap_iter_next (hashmap : isc_hashmap)
  (iter : isc_hashmap_iter) : option (isc_result * isc_hashmap_iter) :=
  _ <- iter_cur iter ;;
  isc__hashmap_iter_next hashmap
    (mk_iter (u64 (iter_i iter + 1)) (iter_hindex iter) (iter_cur iter)).

(** The node is read at [tables[iter->hindex].table[iter->i]]; a read
    outside the array is not defined. *)
Definition isc_hashmap_iter_delcurrent_next (hashmap : isc_hashmap)
  (iter : isc_hashmap_iter)
  : option (isc_result * isc_hashmap * isc_hashmap_iter) :=
  _ <- iter_cur iter ;;
  t <- table (tables hashmap (iter_hindex iter)) ;;
  _ <- REQUIRE ((0 <=? iter_i iter)
                && (iter_i iter <? size (tables hashmap (iter_hindex iter)))) ;;
  let node := t (iter_i iter) in
  hashmap <- hashmap_delete_node hashmap (iter_i iter) (hashval node)
               (psl node) (iter_hindex iter) ;;
  ' (r, iter) <- isc__hashmap_iter_next hashmap iter ;;
  Some (r, hashmap, iter).

(** [*valuep = it->cur->value] *)
Definition isc_hashmap_iter_current (hashmap : isc_hashmap)
  (it : isc_hashmap_iter) : option Z :=
  ' (idx, pos) <- iter_cur it ;;
  t <- table (tables hashmap idx) ;;
  Some (value (t pos)).

(** [*key = it->cur->key; *keysize = it->cur->keysize] *)
Definition isc_hashmap_iter_currentkey (hashmap : isc_hashmap)
  (it : isc_hashmap_iter) : option (option (list Z) * Z) :=
  ' (idx, pos) <- iter_cur it ;;
  t <- table (tables hashmap idx) ;;
  Some (key (t pos), keysize (t pos)).

(** ** Invariants of a table and of a map *)

(** The bytes that [hashmap_match] compares. *)
Definition key_canon (cs : bool) (k : list Z) (ksz : Z) : list Z :=
  if cs then firstn (Z.to_nat ksz) k
  else map isc_ascii_tolower (firstn (Z.to_nat ksz) k).

(** The home slot of a node in a table of [2^b] slots, before masking. *)
Definition home (b : Z) (x : hashmap_node) : Z :=
  u32 (isc_hash_bits32 (hashval x) b).

(** The invariant of an occupied slot [p]: the stored [psl] is the
    distance of [p] from the home slot, and the stored key size is one
    that [hashmap_node_init] accepts. *)
Definition slot_ok (b : Z) (t : Z -> hashmap_node) (p : Z) : Prop :=
  key_is_null (t p) = false ->
  0 <= psl (t p) < 2 ^ b /\
  p = (home b (t p) + psl (t p)) mod 2 ^ b /\
  0 <= keysize (t p) <= UINT16_MAX.

Definition slot_inv (b : Z) (t : Z -> hashmap_node) : Prop :=
  forall p, 0 <= p < 2 ^ b -> slot_ok b t p.

(** Robin Hood ordering at slot [p]: a displaced node follows a node that
    is at most one step less displaced. *)
Definition robin_ok (b : Z) (t : Z -> hashmap_node) (p : Z) : Prop :=
  key_is_null (t p) = false -> 0 < psl (t p) ->
  key_is_null (t ((p - 1) mod 2 ^ b)) = false /\
  psl (t p) <= psl (t ((p - 1) mod 2 ^ b)) + 1.

Definition robin_inv (b : Z) (t : Z -> hashmap_node) : Prop :=
  forall p, 0 <= p < 2 ^ b -> robin_ok b t p.

(** A slot at which the backward shift stops. *)
Definition stop_slot (t : Z -> hashmap_node) (p : Z) : bool :=
  key_is_null (t p) || (psl (t p) =? 0).

Definition has_stop (b : Z) (t : Z -> hashmap_node) : Prop :=
  exists p, 0 <= p < 2 ^ b /\ stop_slot t p = true.

(** The number of slots below [n] whose node satisfies [P]. *)
Fixpoint cnt_upto (P : hashmap_node -> bool) (t : Z -> hashmap_node)
  (n : nat) : Z :=
  match n with
  | O => 0
  | Datatypes.S n' => cnt_upto P t n' + b2z (P (t (Z.of_nat n')))
  end.

Definition cnt (P : hashmap_node -> bool) (t : Z -> hashmap_node) (sz : Z)
  : Z :=
  cnt_upto P t (Z.to_nat sz).

Definition occupied (x : hashmap_node) : bool := negb (key_is_null x).

(** A property of a node that does not look at its [psl]. *)
Definition psl_blind (P : hashmap_node -> bool) : Prop :=
  forall x d, P (set_psl x d) = P x.

(** A property of the contents: it looks neither at [psl] nor at empty
    slots. *)
Definition content_pred (P : hashmap_node -> bool) : Prop :=
  psl_blind P /\ forall x, key_is_null x = true -> P x = false.

(** The state of the loop of [hashmap_add] before trip [i], for a table
    that was [t] and a node that was [c0] when the loop was entered: the
    table is in order, the carried node [c] would be in order at the slot
    the loop looks at, the slots ahead are untouched, and nothing is lost. *)
Definition add_inv (b : Z) (t : Z -> hashmap_node) (hash : Z)
  (c0 : hashmap_node) (i : Z) (ti : Z -> hashmap_node) (c : hashmap_node)
  : Prop :=
  slot_inv b ti /\ robin_inv b ti /\
  key_is_null c = false /\ 0 <= psl c <= i /\
  (hash + i) mod 2 ^ b = (home b c + psl c) mod 2 ^ b /\
  0 <= keysize c <= UINT16_MAX /\
  (0 < psl c ->
   key_is_null (ti ((hash + i - 1) mod 2 ^ b)) = false /\
   psl c <= psl (ti ((hash + i - 1) mod 2 ^ b)) + 1) /\
  (forall j, i <= j < 2 ^ b ->
     ti ((hash + j) mod 2 ^ b) = t ((hash + j) mod 2 ^ b)) /\
  (forall P, psl_blind P ->
     cnt P ti (2 ^ b) + b2z (P c) = cnt P t (2 ^ b) + b2z (P c0)).

(** What [hashmap_add] leaves when it has stored the node [c0]. *)
Definition add_post (b : Z) (t : Z -> hashmap_node) (c0 : hashmap_node)
  (tf : Z -> hashmap_node) : Prop :=
  slot_inv b tf /\ robin_inv b tf /\ has_stop b tf /\
  forall P, content_pred P -> cnt P tf (2 ^ b) = cnt P t (2 ^ b) + b2z (P c0).

(** The state of the shift loop of [hashmap_delete_node] for a table that
    was [t0] when the node at [e0] was to be deleted: every slot but
    [entry] is in order, the node behind [entry] would be in order one slot
    back, no empty slot has been filled, and nothing but the deleted node
    is lost. *)
Definition del_inv (b : Z) (t0 : Z -> hashmap_node) (e0 : Z)
  (ti : Z -> hashmap_node) (e : Z) : Prop :=
  0 <= e < 2 ^ b /\ key_is_null (ti e) = false /\
  (forall p, 0 <= p < 2 ^ b -> p <> e -> slot_ok b ti p) /\
  (forall p, 0 <= p < 2 ^ b -> p <> e -> p <> (e + 1) mod 2 ^ b ->
     robin_ok b ti p) /\
  (key_is_null (ti ((e + 1) mod 2 ^ b)) = false ->
   1 < psl (ti ((e + 1) mod 2 ^ b)) ->
   key_is_null (ti ((e - 1) mod 2 ^ b)) = false /\
   psl (ti ((e + 1) mod 2 ^ b)) <= psl (ti ((e - 1) mod 2 ^ b)) + 2) /\
  (forall p, key_is_null (t0 p) = true -> key_is_null (ti p) = true) /\
  (forall P, psl_blind P ->
     cnt P ti (2 ^ b) = cnt P t0 (2 ^ b) - b2z (P (t0 e0)) + b2z (P (ti e))).

(** What [hashmap_delete_node] leaves. *)
Definition del_post (b : Z) (t0 : Z -> hashmap_node) (e0 : Z)
  (tf : Z -> hashmap_node) : Prop :=
  slot_inv b tf /\ robin_inv b tf /\ has_stop b tf /\
  (forall p, key_is_null (t0 p) = true -> key_is_null (tf p) = true) /\
  forall P, content_pred P ->
    cnt P tf (2 ^ b) = cnt P t0 (2 ^ b) - b2z (P (t0 e0)).

Definition table_wf (tb : hashmap_table) : Prop :=
  exists t,
    table tb = Some t /\
    1 <= hashbits tb <= 32 /\
    size tb = 2 ^ hashbits tb /\
    hashmask tb = 2 ^ hashbits tb - 1 /\
    slot_inv (hashbits tb) t /\
    robin_inv (hashbits tb) t /\
    has_stop (hashbits tb) t.

Definition cnt_tb (P : hashmap_node -> bool) (tb : hashmap_table) : Z :=
  match table tb with
  | Some t => cnt P t (size tb)
  | None => 0
  end.

Definition active (hashmap : isc_hashmap) : hashmap_table :=
  tables hashmap (hindex hashmap).

Definition other (hashmap : isc_hashmap) : hashmap_table :=
  tables hashmap (hashmap_nexttable (hindex hashmap)).

(** Counted over both tables. *)
Definition cntm (P : hashmap_node -> bool) (hashmap : isc_hashmap) : Z :=
  cnt_tb P (active hashmap) + cnt_tb P (other hashmap).

(** The most entries a map whose active table has [b] bits holds between
    two calls. *)
Definition max_count (b : Z) : Z :=
  if b =? HASHMAP_MAX_BITS then UINT32_MAX
  else APPROX_90_PERCENT (HASHSIZE b) + 1.

(** The source table [o] while a rehash is in progress: every slot below
    [hiter] has been moved. *)
Definition source_ok (h : Z) (o : hashmap_table) : Prop :=
  table_wf o /\
  hashbits o <= 31 /\
  0 <= h <= size o /\
  forall t p, table o = Some t -> 0 <= p < h -> key_is_null (t p) = true.

(** The invariant, on the parts of a map: the case flag, [hiter], [count],
    the active table and the other table.  [slack] is the room the counter
    still has to leave for an insertion. *)
Definition wf_parts (slack : Z) (cs : bool) (h c : Z)
  (a o : hashmap_table) : Prop :=
  table_wf a /\
  (o = table_none /\ h = 0 /\ c + slack <= max_count (hashbits a)
   \/
   source_ok h o /\
     c + cnt_tb occupied o + 1 + slack <= max_count (hashbits a)) /\
  0 <= c /\
  cnt_tb occupied a + cnt_tb occupied o <= c /\
  forall hv k ksz,
    cnt_tb (fun x => hashmap_match x hv k ksz cs) a
    + cnt_tb (fun x => hashmap_match x hv k ksz cs) o <= 1.

Definition wf_slack (slack : Z) (hashmap : isc_hashmap) : Prop :=
  (hindex hashmap = 0 \/ hindex hashmap = 1) /\
  wf_parts slack (case_sensitive hashmap) (hiter hashmap) (count hashmap)
    (active hashmap) (other hashmap).

Definition wf (hashmap : isc_hashmap) : Prop := wf_slack 0 hashmap.

(** The map holds [v] under the key [(hv, k, ksz)]. *)
Definition holds (hashmap : isc_hashmap) (hv : Z) (k : list Z) (ksz : Z)
  (v : Z) : Prop :=
  0 < cntm (fun x => hashmap_match x hv k ksz (case_sensitive hashmap)
                     && (value x =? v)) hashmap.

(** The map holds the key [(hv, k, ksz)]. *)
Definition has_key (hashmap : isc_hashmap) (hv : Z) (k : list Z) (ksz : Z)
  : Prop :=
  0 < cntm (fun x => hashmap_match x hv k ksz (case_sensitive hashmap))
        hashmap.

(** Two maps with the same contents: they hash and compare keys alike, and
    every count of a property of the contents agrees. *)
Definition same_contents (h1 h2 : isc_hashmap) : Prop :=
  case_sensitive h1 = case_sensitive h2 /\
  hash_key h1 = hash_key h2 /\
  forall P, content_pred P -> cntm P h1 = cntm P h2.

(** ** Reachable maps *)

(** An iterator that stands on a node of the map. *)
Definition iter_valid (hashmap : isc_hashmap) (iter : isc_hashmap_iter)
  : Prop :=
  iter_cur iter <> None /\
  (iter_hindex iter = 0 \/ iter_hindex iter = 1) /\
  exists t, table (tables hashmap (iter_hindex iter)) = Some t /\
    0 <= iter_i iter < size (tables hashmap (iter_hindex iter)) /\
    key_is_null (t (iter_i iter)) = false.

(** The maps that a sequence of calls builds.  An [add] is issued while the
    map holds fewer than [UINT32_MAX] entries, the most that
    [isc_hashmap_count] can report.  An iterator call that needs a current
    node follows an iterator call that has returned ISC_R_SUCCESS, with no
    [add] or [delete] in between. *)
Inductive reachable : isc_hashmap -> Prop :=
| reach_create : forall bits options entropy hashmap,
    isc_hashmap_create bits options entropy = Some hashmap ->
    reachable hashmap
| reach_add : forall hashmap hashvalp k ksz v r hashmap',
    reachable hashmap ->
    count hashmap < UINT32_MAX ->
    0 <= ksz ->
    isc_hashmap_add hashmap hashvalp k ksz v = Some (r, hashmap') ->
    reachable hashmap'
| reach_delete : forall hashmap hashvalp k ksz r hashmap',
    reachable hashmap ->
    0 <= ksz ->
    isc_hashmap_delete hashmap hashvalp k ksz = Some (r, hashmap') ->
    reachable hashmap'
| reach_delcurrent : forall hashmap iter r hashmap' iter',
    iterating hashmap iter ->
    isc_hashmap_iter_delcurrent_next hashmap iter
      = Some (r, hashmap', iter') ->
    reachable hashmap'
with iterating : isc_hashmap -> isc_hashmap_iter -> Prop :=
| iterating_first : forall hashmap iter0 iter,
    reachable hashmap ->
    isc_hashmap_iter_first hashmap iter0 = Some (ISC_R_SUCCESS, iter) ->
    iterating hashmap iter
| iterating_next : forall hashmap iter iter',
    iterating hashmap iter ->
    isc_hashmap_iter_next hashmap iter = Some (ISC_R_SUCCESS, iter') ->
    iterating hashmap iter'
| iterating_delcurrent : forall hashmap iter hashmap' iter',
    iterating hashmap iter ->
    isc_hashmap_iter_delcurrent_next hashmap iter
      = Some (ISC_R_SUCCESS, hashmap', iter') ->
    iterating hashmap' iter'.

Scheme reachable_mut := Minimality for reachable Sort Prop
  with iterating_mut := Minimality for iterating Sort Prop.

Combined Scheme reachable_iterating_ind from reachable_mut, iterating_mut.

(** The maps that a sequence of calls builds when the iterator is only
    asked to delete a node that is there: [isc_hashmap_iter_delcurrent_next]
    is called, on whatever iterator, while the slot
    [tables[iter->hindex].table[iter->i]] holds a node.  An [add] is issued
    while the map holds fewer than [UINT32_MAX] entries.  [iter_first] and
    [iter_next] do not change the map. *)
Inductive built_map : isc_hashmap -> Prop :=
| bm_create : forall bits options entropy hashmap,
    isc_hashmap_create bits options entropy = Some hashmap ->
    built_map hashmap
| bm_add : forall hashmap hashvalp k ksz v r hashmap',
    built_map hashmap ->
    count hashmap < UINT32_MAX ->
    0 <= ksz ->
    isc_hashmap_add hashmap hashvalp k ksz v = Some (r, hashmap') ->
    built_map hashmap'
| bm_delete : forall hashmap hashvalp k ksz r hashmap',
    built_map hashmap ->
    0 <= ksz ->
    isc_hashmap_delete hashmap hashvalp k ksz = Some (r, hashmap') ->
    built_map hashmap'
| bm_delcurrent : forall hashmap iter r hashmap' iter',
    built_map hashmap ->
    iter_valid hashmap iter ->
    isc_hashmap_iter_delcurrent_next hashmap iter
      = Some (r, hashmap', iter') ->
    built_map hashmap'.

(** ** What the calls do, in terms of the contents *)

(** The bit width the loop of [grow_bits] stops at: the least [n] above
    [b] with [c] at most [APPROX_40_PERCENT] of [2^n] slots. *)
Definition grow_target (b c n : Z) : Prop :=
  b < n /\ c <= APPROX_40_PERCENT (HASHSIZE n) /\
  forall m, b < m < n -> APPROX_40_PERCENT (HASHSIZE m) < c.

(** The map after a table of [nb] bits has been installed as the active
    one. *)
Definition installed (hashmap : isc_hashmap) (nb : Z) : isc_hashmap :=
  set_hindex
    (set_tables hashmap (hashmap_nexttable (hindex hashmap))
       (mk_table (HASHSIZE nb) nb (u32 (HASHSIZE nb - 1))
          (Some (fun _ => node_zero))))
    (hashmap_nexttable (hindex hashmap)).

(** The first step of [isc_hashmap_add]. *)
Definition add_prestep (hashmap : isc_hashmap) : option isc_hashmap :=
  if rehashing_in_progress hashmap then hashmap_rehash_one hashmap
  else if over_threshold hashmap then
    hashmap <- hashmap_rehash_start_grow hashmap ;;
    hashmap_rehash_one hashmap
  else Some hashmap.

(** The first step of [isc_hashmap_delete]. *)
Definition delete_prestep (hashmap : isc_hashmap) : option isc_hashmap :=
  if rehashing_in_progress hashmap then hashmap_rehash_one hashmap
  else if under_threshold hashmap then
    hashmap <- hashmap_rehash_start_shrink hashmap ;;
    hashmap_rehash_one hashmap
  else Some hashmap.

(** A delete that starts the shrink of a table of 32 bits. *)
Definition shrinks_from_32 (hashmap : isc_hashmap) : Prop :=
  rehashing_in_progress hashmap = false /\
  under_threshold hashmap = true /\
  hashbits (active hashmap) = 32.

(** The node that [hashmap_add] stores for a key. *)
Definition new_node (hv : Z) (k : list Z) (ksz v : Z) : hashmap_node :=
  mk_node (Some k) v hv 0 ksz.

(** An iterator from which a pass can start. *)
Definition iter_ok (it : isc_hashmap_iter) : Prop :=
  0 <= iter_i it /\ (iter_hindex it = 0 \/ iter_hindex it = 1).

(** What a pass may return. *)
Definition iter_result_ok (hashmap : isc_hashmap)
  (r : option (isc_result * isc_hashmap_iter)) : Prop :=
  match r with
  | Some (ISC_R_SUCCESS, it') => iter_valid hashmap it'
  | _ => True
  end.

(** The slot [p] of a table is at the distance [psl] from the home slot of
    its node: [psl == (p - hash) & hashmask] in the arithmetic of
    [uint32_t]. *)
Definition psl_is_distance (tb : hashmap_table) (t : Z -> hashmap_node)
  (p : Z) : Prop :=
  psl (t p)
  = Z.land (u32 (p - isc_hash_bits32 (hashval (t p)) (hashbits tb)))
      (hashmask tb).


(* ===================================================================== *)
(** * Properties                                                          *)
(* ===================================================================== *)

(** ** Loops *)

Lemma while_nat_add {S R : Type} (body : S -> step S R) (n m : nat) (s : S) :
  while_nat body (n + m) s =
  match while_nat body n s with
  | Continue s' => while_nat body m s'
  | Break r => Break r
  end.
Proof.
  revert s. induction n as [|n IH]; intros s; simpl.
  - reflexivity.
  - destruct (body s); [apply IH | reflexivity].
Qed.

Lemma while_pos_nat {S R : Type} (body : S -> step S R) (p : positive)
  (s : S) :
  while_pos body p s = while_nat body (Pos.to_nat p) s.
Proof.
  revert s. induction p as [q IH|q IH|]; intros s.
  - rewrite Pos2Nat.inj_xI.
    replace (Datatypes.S (2 * Pos.to_nat q))
      with (1 + (Pos.to_nat q + Pos.to_nat q))%nat by lia.
    rewrite while_nat_add. simpl.
    destruct (body s) as [s0|r]; [|reflexivity].
    rewrite while_nat_add, <- IH.
    destruct (while_pos body q s0); [apply IH | reflexivity].
  - rewrite Pos2Nat.inj_xO.
    replace (2 * Pos.to_nat q)%nat
      with (Pos.to_nat q + Pos.to_nat q)%nat by lia.
    simpl. rewrite while_nat_add, <- IH.
    destruct (while_pos body q s); [apply IH | reflexivity].
  - simpl. destruct (body s); reflexivity.
Qed.

Lemma while_nat_mono {S R : Type} (body : S -> step S R) (n m : nat) (s : S)
  (r : R) :
  while_nat body n s = Break r -> (n <= m)%nat ->
  while_nat body m s = Break r.
Proof.
  intros H Hle. replace m with (n + (m - n))%nat by lia.
  rewrite while_nat_add, H. reflexivity.
Qed.

(** A loop that leaves within the fuel returns. *)
Lemma while_intro {S R : Type} (body : S -> step S R) (fuel : Z) (n : nat)
  (s : S) (r : R) :
  while_nat body n s = Break r -> Z.of_nat n <= fuel ->
  while fuel body s = Some r.
Proof.
  intros H Hle. unfold while.
  destruct fuel as [|p|p].
  - destruct n; [discriminate | lia].
  - rewrite while_pos_nat.
    rewrite (while_nat_mono body n (Pos.to_nat p) s r H) by lia.
    reflexivity.
  - lia.
Qed.

Lemma while_elim {S R : Type} (body : S -> step S R) (fuel : Z) (s : S)
  (r : R) :
  while fuel body s = Some r ->
  exists n, while_nat body n s = Break r.
Proof.
  unfold while. destruct fuel as [|p|p]; try discriminate.
  rewrite while_pos_nat. intros H. exists (Pos.to_nat p).
  destruct (while_nat body (Pos.to_nat p) s); congruence.
Qed.

Lemma bind_some {A B : Type} (m : option A) (f : A -> option B) (b : B) :
  bind m f = Some b -> exists a, m = Some a /\ f a = Some b.
Proof.
  destruct m as [a|]; simpl; intros H; [eauto | discriminate].
Qed.

Lemma REQUIRE_some (c : bool) (u : unit) : REQUIRE c = Some u -> c = true.
Proof. destruct c; [reflexivity | discriminate]. Qed.

(** ** Machine arithmetic *)

Lemma pow2_pos (b : Z) : 0 <= b -> 0 < 2 ^ b.
Proof. intros. apply Z.pow_pos_nonneg; lia. Qed.

Lemma pow2_le_32 (b : Z) : 0 <= b <= 32 -> 2 ^ b <= 4294967296.
Proof.
  intros H. change 4294967296 with (2 ^ 32).
  apply Z.pow_le_mono_r; lia.
Qed.

Lemma pow2_ge_2 (b : Z) : 1 <= b -> 2 <= 2 ^ b.
Proof.
  intros H. change 2 with (2 ^ 1) at 1. apply Z.pow_le_mono_r; lia.
Qed.

Lemma u32_range (x : Z) : 0 <= u32 x < 4294967296.
Proof. unfold u32, wrap. apply Z.mod_pos_bound. reflexivity. Qed.

Lemma u32_small (x : Z) : 0 <= x < 4294967296 -> u32 x = x.
Proof. intros. unfold u32, wrap. apply Z.mod_small. exact H. Qed.

Lemma u64_small (x : Z) : 0 <= x < 18446744073709551616 -> u64 x = x.
Proof. intros. unfold u64, wrap. apply Z.mod_small. exact H. Qed.

Lemma u16_small (x : Z) : 0 <= x <= UINT16_MAX -> u16 x = x.
Proof.
  unfold UINT16_MAX. intros. unfold u16, wrap. apply Z.mod_small.
  change (2 ^ 16) with 65536. lia.
Qed.

Lemma u8_small (x : Z) : 0 <= x < 256 -> u8 x = x.
Proof. intros. unfold u8, wrap. apply Z.mod_small. exact H. Qed.

(** Masking a 32-bit sum with [2^b - 1] is the sum modulo [2^b]. *)
Lemma mask_mod (b x : Z) :
  0 <= b <= 32 -> Z.land (u32 x) (2 ^ b - 1) = x mod 2 ^ b.
Proof.
  intros Hb.
  replace (2 ^ b - 1) with (Z.ones b)
    by (rewrite Z.ones_equiv; lia).
  rewrite Z.land_ones by lia.
  unfold u32, wrap.
  apply Z.mod_mod_divide.
  exists (2 ^ (32 - b)). rewrite <- Z.pow_add_r by lia.
  f_equal. lia.
Qed.

Lemma mod_add_l (n a c : Z) : 0 < n -> (a mod n + c) mod n = (a + c) mod n.
Proof. intros. rewrite Zplus_mod_idemp_l. reflexivity. Qed.

Lemma mod_succ_pred (n p : Z) :
  0 < n -> ((p + 1) mod n - 1) mod n = p mod n.
Proof.
  intros. rewrite <- Zminus_mod_idemp_l, Z.mod_mod by lia.
  rewrite Zminus_mod_idemp_l. f_equal. lia.
Qed.

Lemma mod_pred_succ (n p : Z) :
  0 < n -> ((p - 1) mod n + 1) mod n = p mod n.
Proof.
  intros. rewrite Zplus_mod_idemp_l. f_equal. lia.
Qed.

(** Distances below [n] from the same slot lead to different slots. *)
Lemma mod_add_inj (n h i j : Z) :
  0 <= i < n -> 0 <= j < n -> (h + i) mod n = (h + j) mod n -> i = j.
Proof.
  intros Hi Hj H.
  assert (Hn : 0 < n) by lia.
  assert (E : (i - j) mod n = 0).
  { replace (i - j) with ((h + i) - (h + j)) by lia.
    rewrite Zminus_mod, H, Z.sub_diag. apply Z.mod_0_l. lia. }
  apply Z.mod_divide in E; [|lia].
  destruct E as [q E].
  assert (q = 0) by nia. lia.
Qed.

(** Every slot is at a distance below [n] from any slot. *)
Lemma mod_dist (n h p : Z) :
  0 <= p < n -> (h + (p - h) mod n) mod n = p.
Proof.
  intros Hp. rewrite Zplus_mod_idemp_r.
  replace (h + (p - h)) with p by lia. apply Z.mod_small. exact Hp.
Qed.

Lemma mod_eq_succ (n a c : Z) :
  a mod n = c mod n -> (a + 1) mod n = (c + 1) mod n.
Proof.
  intros H. rewrite (Zplus_mod a), (Zplus_mod c), H. reflexivity.
Qed.

Lemma mod_pred_neq (n p : Z) : 2 <= n -> 0 <= p < n -> (p - 1) mod n <> p.
Proof.
  intros Hn Hp E.
  destruct (Z.eq_dec p 0) as [->|Hne].
  - assert (E2 : n - 1 = (0 - 1) mod n)
      by (apply Z.mod_unique with (q := -1); lia).
    lia.
  - rewrite Z.mod_small in E; lia.
Qed.

Lemma mod_succ_neq (n p : Z) : 2 <= n -> 0 <= p < n -> (p + 1) mod n <> p.
Proof.
  intros Hn Hp E.
  destruct (Z.eq_dec p (n - 1)) as [->|Hne].
  - replace (n - 1 + 1) with (0 + 1 * n) in E by lia.
    rewrite Z.mod_add, Z.mod_small in E; lia.
  - rewrite Z.mod_small in E; lia.
Qed.

Lemma mod_add_neq (n e d : Z) :
  0 <= e < n -> 0 < d < n -> (e + d) mod n <> e.
Proof.
  intros He Hd E.
  assert (E' : (e + d) mod n = (e + 0) mod n)
    by (rewrite Z.add_0_r, (Z.mod_small e) by lia; exact E).
  apply mod_add_inj in E'; lia.
Qed.

(** ** Stores and counts *)

Lemma upd_same (t : Z -> hashmap_node) (p : Z) (x : hashmap_node) :
  upd t p x p = x.
Proof. unfold upd. rewrite Z.eqb_refl. reflexivity. Qed.

Lemma upd_other (t : Z -> hashmap_node) (p q : Z) (x : hashmap_node) :
  q <> p -> upd t p x q = t q.
Proof.
  intros H. unfold upd. destruct (Z.eqb_spec q p); [contradiction|reflexivity].
Qed.

Lemma b2z_range (c : bool) : 0 <= b2z c <= 1.
Proof. destruct c; simpl; lia. Qed.

Lemma b2z_true (c : bool) : c = true -> b2z c = 1.
Proof. intros ->. reflexivity. Qed.

Lemma b2z_false (c : bool) : c = false -> b2z c = 0.
Proof. intros ->. reflexivity. Qed.

Lemma cnt_upto_range (P : hashmap_node -> bool) (t : Z -> hashmap_node)
  (n : nat) :
  0 <= cnt_upto P t n <= Z.of_nat n.
Proof.
  induction n as [|n IH]; simpl cnt_upto.
  - lia.
  - pose proof (b2z_range (P (t (Z.of_nat n)))). lia.
Qed.

Lemma cnt_upto_ext (P Q : hashmap_node -> bool) (t t' : Z -> hashmap_node)
  (n : nat) :
  (forall i, (i < n)%nat -> P (t (Z.of_nat i)) = Q (t' (Z.of_nat i))) ->
  cnt_upto P t n = cnt_upto Q t' n.
Proof.
  induction n as [|n IH]; intros H; simpl.
  - reflexivity.
  - rewrite IH, H by (intros; try apply H; lia). reflexivity.
Qed.

Lemma cnt_upto_le (P Q : hashmap_node -> bool) (t t' : Z -> hashmap_node)
  (n : nat) :
  (forall i, (i < n)%nat -> P (t (Z.of_nat i)) = true ->
             Q (t' (Z.of_nat i)) = true) ->
  cnt_upto P t n <= cnt_upto Q t' n.
Proof.
  induction n as [|n IH]; intros H; simpl.
  - lia.
  - assert (b2z (P (t (Z.of_nat n))) <= b2z (Q (t' (Z.of_nat n)))).
    { destruct (P (t (Z.of_nat n))) eqn:E.
      - rewrite (H n) by (auto; lia). simpl. lia.
      - pose proof (b2z_range (Q (t' (Z.of_nat n)))). simpl. lia. }
    assert (cnt_upto P t n <= cnt_upto Q t' n)
      by (apply IH; intros; apply H; [lia | assumption]).
    lia.
Qed.

Lemma cnt_upto_upd (P : hashmap_node -> bool) (t : Z -> hashmap_node)
  (q : Z) (x : hashmap_node) (n : nat) :
  0 <= q ->
  cnt_upto P (upd t q x) n =
  cnt_upto P t n + (if q <? Z.of_nat n then b2z (P x) - b2z (P (t q)) else 0).
Proof.
  intros Hq. induction n as [|n IH].
  - simpl. destruct (Z.ltb_spec q 0); lia.
  - simpl cnt_upto. rewrite IH.
    destruct (Z.ltb_spec q (Z.of_nat n)); destruct (Z.ltb_spec q (Z.of_nat (Datatypes.S n))); try lia.
    + rewrite upd_other by lia. lia.
    + replace (Z.of_nat n) with q by lia. rewrite upd_same. lia.
    + rewrite upd_other by lia. lia.
Qed.

Lemma cnt_upto_ge1 (P : hashmap_node -> bool) (t : Z -> hashmap_node)
  (n i : nat) :
  (i < n)%nat -> P (t (Z.of_nat i)) = true -> 1 <= cnt_upto P t n.
Proof.
  induction n as [|n IH]; intros Hi HP; [lia|]. simpl.
  destruct (Nat.eq_dec i n) as [->|Hne].
  - rewrite HP. pose proof (cnt_upto_range P t n). simpl. lia.
  - pose proof (b2z_range (P (t (Z.of_nat n)))).
    assert (1 <= cnt_upto P t n) by (apply IH; [lia|assumption]). lia.
Qed.

Lemma cnt_upto_ge2 (P : hashmap_node -> bool) (t : Z -> hashmap_node)
  (n i j : nat) :
  (i < j < n)%nat -> P (t (Z.of_nat i)) = true ->
  P (t (Z.of_nat j)) = true -> 2 <= cnt_upto P t n.
Proof.
  induction n as [|n IH]; intros Hi HPi HPj; [lia|]. simpl.
  destruct (Nat.eq_dec j n) as [->|Hne].
  - rewrite HPj. pose proof (cnt_upto_ge1 P t n i ltac:(lia) HPi).
    simpl. lia.
  - pose proof (b2z_range (P (t (Z.of_nat n)))).
    assert (2 <= cnt_upto P t n) by (apply IH; [lia|assumption|assumption]).
    lia.
Qed.

Lemma cnt_upto_pos (P : hashmap_node -> bool) (t : Z -> hashmap_node)
  (n : nat) :
  0 < cnt_upto P t n ->
  exists i, (i < n)%nat /\ P (t (Z.of_nat i)) = true.
Proof.
  induction n as [|n IH]; simpl; intros H; [lia|].
  destruct (P (t (Z.of_nat n))) eqn:E.
  - exists n. split; [lia|assumption].
  - simpl in H. destruct IH as [i [Hi HP]]; [lia|].
    exists i. split; [lia|assumption].
Qed.

Lemma cnt_upto_lt (P : hashmap_node -> bool) (t : Z -> hashmap_node)
  (n : nat) :
  cnt_upto P t n < Z.of_nat n ->
  exists i, (i < n)%nat /\ P (t (Z.of_nat i)) = false.
Proof.
  induction n as [|n IH]; simpl cnt_upto; intros H; [lia|].
  destruct (P (t (Z.of_nat n))) eqn:E.
  - simpl in H. destruct IH as [i [Hi HP]]; [lia|].
    exists i. split; [lia|assumption].
  - exists n. split; [lia|assumption].
Qed.

Lemma cnt_range (P : hashmap_node -> bool) (t : Z -> hashmap_node) (sz : Z) :
  0 <= sz -> 0 <= cnt P t sz <= sz.
Proof.
  intros H. unfold cnt. pose proof (cnt_upto_range P t (Z.to_nat sz)). lia.
Qed.

Lemma cnt_nonneg (P : hashmap_node -> bool) (t : Z -> hashmap_node) (sz : Z) :
  0 <= cnt P t sz.
Proof.
  unfold cnt. pose proof (cnt_upto_range P t (Z.to_nat sz)). lia.
Qed.

Lemma cnt_ext (P Q : hashmap_node -> bool) (t t' : Z -> hashmap_node)
  (sz : Z) :
  (forall p, 0 <= p < sz -> P (t p) = Q (t' p)) ->
  cnt P t sz = cnt Q t' sz.
Proof.
  intros H. unfold cnt. apply cnt_upto_ext. intros i Hi. apply H. lia.
Qed.

Lemma cnt_le (P Q : hashmap_node -> bool) (t t' : Z -> hashmap_node)
  (sz : Z) :
  (forall p, 0 <= p < sz -> P (t p) = true -> Q (t' p) = true) ->
  cnt P t sz <= cnt Q t' sz.
Proof.
  intros H. unfold cnt. apply cnt_upto_le. intros i Hi. apply H. lia.
Qed.

Lemma cnt_upd (P : hashmap_node -> bool) (t : Z -> hashmap_node) (sz q : Z)
  (x : hashmap_node) :
  0 <= q < sz ->
  cnt P (upd t q x) sz = cnt P t sz - b2z (P (t q)) + b2z (P x).
Proof.
  intros H. unfold cnt. rewrite cnt_upto_upd by lia.
  destruct (Z.ltb_spec q (Z.of_nat (Z.to_nat sz))); lia.
Qed.

Lemma cnt_ge1 (P : hashmap_node -> bool) (t : Z -> hashmap_node) (sz p : Z) :
  0 <= p < sz -> P (t p) = true -> 1 <= cnt P t sz.
Proof.
  intros Hp HP. unfold cnt.
  apply (cnt_upto_ge1 P t (Z.to_nat sz) (Z.to_nat p)); [lia|].
  rewrite Z2Nat.id by lia. exact HP.
Qed.

Lemma cnt_ge2 (P : hashmap_node -> bool) (t : Z -> hashmap_node)
  (sz p q : Z) :
  0 <= p < sz -> 0 <= q < sz -> p <> q ->
  P (t p) = true -> P (t q) = true -> 2 <= cnt P t sz.
Proof.
  intros Hp Hq Hne HP HQ. unfold cnt.
  destruct (Z.lt_ge_cases p q).
  - apply (cnt_upto_ge2 P t (Z.to_nat sz) (Z.to_nat p) (Z.to_nat q));
      [lia| |]; rewrite Z2Nat.id by lia; assumption.
  - apply (cnt_upto_ge2 P t (Z.to_nat sz) (Z.to_nat q) (Z.to_nat p));
      [lia| |]; rewrite Z2Nat.id by lia; assumption.
Qed.

Lemma cnt_pos (P : hashmap_node -> bool) (t : Z -> hashmap_node) (sz : Z) :
  0 < cnt P t sz -> exists p, 0 <= p < sz /\ P (t p) = true.
Proof.
  unfold cnt. intros H. destruct (cnt_upto_pos P t _ H) as [i [Hi HP]].
  exists (Z.of_nat i). split; [lia|assumption].
Qed.

Lemma cnt_zero (P : hashmap_node -> bool) (t : Z -> hashmap_node) (sz p : Z) :
  cnt P t sz <= 0 -> 0 <= p < sz -> P (t p) = false.
Proof.
  intros H Hp. destruct (P (t p)) eqn:E; [|reflexivity].
  pose proof (cnt_ge1 P t sz p Hp E). lia.
Qed.

Lemma cnt_lt (P : hashmap_node -> bool) (t : Z -> hashmap_node) (sz : Z) :
  cnt P t sz < sz -> exists p, 0 <= p < sz /\ P (t p) = false.
Proof.
  unfold cnt. intros H.
  destruct (cnt_upto_lt P t (Z.to_nat sz)) as [i [Hi HP]]; [lia|].
  exists (Z.of_nat i). split; [lia|assumption].
Qed.

Lemma cnt_none (P : hashmap_node -> bool) (t : Z -> hashmap_node) (sz : Z) :
  (forall p, 0 <= p < sz -> P (t p) = false) -> cnt P t sz = 0.
Proof.
  intros H. pose proof (cnt_nonneg P t sz).
  destruct (Z.eq_dec (cnt P t sz) 0) as [E|E]; [exact E|].
  destruct (cnt_pos P t sz) as [p [Hp HP]]; [lia|].
  rewrite H in HP by assumption. discriminate.
Qed.

(** ** Matching keys *)

Lemma bytes_eqb_eq (a b : list Z) : bytes_eqb a b = true <-> a = b.
Proof.
  revert b. induction a as [|x a IH]; intros [|y b]; simpl;
    try (split; [discriminate | congruence]); [tauto|].
  rewrite andb_true_iff, Z.eqb_eq, IH. split.
  - intros [-> ->]. reflexivity.
  - intros E. injection E. auto.
Qed.

Lemma hashmap_match_spec (x : hashmap_node) (hv : Z) (k : list Z) (ksz : Z)
  (cs : bool) :
  hashmap_match x hv k ksz cs = true <->
  exists nk, key x = Some nk /\ hashval x = hv /\ keysize x = ksz /\
             key_canon cs nk ksz = key_canon cs k ksz.
Proof.
  unfold hashmap_match, key_canon, memcmp_eq, isc_ascii_lowerequal.
  rewrite !andb_true_iff, !Z.eqb_eq.
  destruct (key x) as [nk|].
  - destruct cs; rewrite bytes_eqb_eq; split.
    + intros [[H1 H2] H3]. exists nk. auto.
    + intros [nk' [E [H1 [H2 H3]]]]. injection E as <-. auto.
    + intros [[H1 H2] H3]. exists nk. auto.
    + intros [nk' [E [H1 [H2 H3]]]]. injection E as <-. auto.
  - split; [intros [_ H]; discriminate | intros [nk [E _]]; discriminate].
Qed.

Lemma match_self (x : hashmap_node) (kx : list Z) (cs : bool) :
  key x = Some kx -> hashmap_match x (hashval x) kx (keysize x) cs = true.
Proof.
  intros E. apply hashmap_match_spec. exists kx. auto.
Qed.

(** Two nodes that match the same key match each other. *)
Lemma match_trans (x y : hashmap_node) (hv : Z) (k kx : list Z) (ksz : Z)
  (cs : bool) :
  hashmap_match x hv k ksz cs = true ->
  hashmap_match y hv k ksz cs = true ->
  key x = Some kx ->
  hashmap_match y (hashval x) kx (keysize x) cs = true.
Proof.
  rewrite !hashmap_match_spec.
  intros [nx [Ex [H1 [H2 H3]]]] [ny [Ey [G1 [G2 G3]]]] E.
  rewrite Ex in E. injection E as ->.
  exists ny. subst. repeat split; congruence.
Qed.

(** A node matches two keys alike when one of its peers matches both. *)
Lemma match_shift (x y : hashmap_node) (hv hv' : Z) (k k' : list Z)
  (ksz ksz' : Z) (cs : bool) :
  hashmap_match x hv k ksz cs = true ->
  hashmap_match x hv' k' ksz' cs = true ->
  hashmap_match y hv k ksz cs = hashmap_match y hv' k' ksz' cs.
Proof.
  intros H1 H2.
  apply hashmap_match_spec in H1. destruct H1 as [nx [Ex [A1 [A2 A3]]]].
  apply hashmap_match_spec in H2. destruct H2 as [nx' [Ex' [B1 [B2 B3]]]].
  rewrite Ex in Ex'. injection Ex' as <-.
  destruct (hashmap_match y hv k ksz cs) eqn:E1;
    destruct (hashmap_match y hv' k' ksz' cs) eqn:E2; try reflexivity.
  - apply hashmap_match_spec in E1. destruct E1 as [ny [Ey [C1 [C2 C3]]]].
    assert (hashmap_match y hv' k' ksz' cs = true).
    { apply hashmap_match_spec. exists ny. subst. repeat split; congruence. }
    congruence.
  - apply hashmap_match_spec in E2. destruct E2 as [ny [Ey [C1 [C2 C3]]]].
    assert (hashmap_match y hv k ksz cs = true).
    { apply hashmap_match_spec. exists ny. subst. repeat split; congruence. }
    congruence.
Qed.

Lemma match_not_null (x : hashmap_node) (hv : Z) (k : list Z) (ksz : Z)
  (cs : bool) :
  hashmap_match x hv k ksz cs = true -> key_is_null x = false.
Proof.
  intros H. apply hashmap_match_spec in H. destruct H as [nk [E _]].
  unfold key_is_null. rewrite E. reflexivity.
Qed.

Lemma match_hashval (x : hashmap_node) (hv : Z) (k : list Z) (ksz : Z)
  (cs : bool) :
  hashmap_match x hv k ksz cs = true -> hashval x = hv.
Proof.
  intros H. apply hashmap_match_spec in H. destruct H as [nk [_ [E _]]].
  exact E.
Qed.

Lemma match_zero (hv : Z) (k : list Z) (ksz : Z) (cs : bool) :
  hashmap_match node_zero hv k ksz cs = false.
Proof.
  unfold hashmap_match. simpl. rewrite andb_false_r. reflexivity.
Qed.

Lemma match_blind (hv : Z) (k : list Z) (ksz : Z) (cs : bool) :
  psl_blind (fun x => hashmap_match x hv k ksz cs).
Proof. intros x d. reflexivity. Qed.

Lemma match_value_blind (hv : Z) (k : list Z) (ksz : Z) (cs : bool) (v : Z) :
  psl_blind (fun x => hashmap_match x hv k ksz cs && (value x =? v)).
Proof. intros x d. reflexivity. Qed.

Lemma occupied_blind : psl_blind occupied.
Proof. intros x d. reflexivity. Qed.

Lemma occupied_zero : occupied node_zero = false.
Proof. reflexivity. Qed.

Lemma occupied_true (x : hashmap_node) :
  occupied x = true <-> key_is_null x = false.
Proof. unfold occupied. destruct (key_is_null x); simpl; intuition congruence. Qed.

Lemma key_is_null_false (x : hashmap_node) :
  key_is_null x = false -> exists kx, key x = Some kx.
Proof.
  unfold key_is_null. destruct (key x) as [kx|]; [eauto | discriminate].
Qed.

Lemma set_psl_null (x : hashmap_node) (d : Z) :
  key_is_null (set_psl x d) = key_is_null x.
Proof. reflexivity. Qed.

Lemma set_psl_self (x : hashmap_node) : set_psl x (psl x) = x.
Proof. destruct x. reflexivity. Qed.

(** ** The probe loop of [hashmap_find] *)

(** Behind a node at distance [d] from its home slot, the [d] slots towards
    the home slot are occupied, by nodes at least as far from theirs. *)
Lemma robin_chain (b : Z) (t : Z -> hashmap_node) (p : Z) :
  0 <= b -> robin_inv b t -> 0 <= p < 2 ^ b ->
  key_is_null (t p) = false ->
  forall j : nat, Z.of_nat j <= psl (t p) ->
    key_is_null (t ((p - Z.of_nat j) mod 2 ^ b)) = false /\
    psl (t p) - Z.of_nat j <= psl (t ((p - Z.of_nat j) mod 2 ^ b)).
Proof.
  intros Hb HR Hp Hnn. pose proof (pow2_pos b Hb) as Hn.
  induction j as [|j IH]; intros Hj.
  - simpl. rewrite Z.sub_0_r, Z.mod_small by lia. split; [assumption|lia].
  - destruct IH as [IH1 IH2]; [lia|].
    set (q := (p - Z.of_nat j) mod 2 ^ b) in *.
    assert (Hq : 0 <= q < 2 ^ b) by (apply Z.mod_pos_bound; lia).
    destruct (HR q Hq IH1) as [R1 R2]; [lia|].
    replace ((p - Z.of_nat (Datatypes.S j)) mod 2 ^ b)
      with ((q - 1) mod 2 ^ b).
    + split; [assumption|lia].
    + unfold q. rewrite Zminus_mod_idemp_l. f_equal. lia.
Qed.

Lemma find_body_eq (b : Z) (t : Z -> hashmap_node) (hash hv : Z)
  (k : list Z) (ksz : Z) (cs : bool) (d : Z) :
  0 <= b <= 32 ->
  find_body t (2 ^ b - 1) hash hv k ksz cs d =
  if key_is_null (t ((hash + d) mod 2 ^ b))
     || (psl (t ((hash + d) mod 2 ^ b)) <? d)
  then Break None
  else if hashmap_match (t ((hash + d) mod 2 ^ b)) hv k ksz cs
       then Break (Some ((hash + d) mod 2 ^ b, d))
       else Continue (u32 (d + 1)).
Proof.
  intros Hb. unfold find_body. rewrite mask_mod by assumption. reflexivity.
Qed.

(** The loop finds a key that is in the table. *)
Lemma find_loop_found (b : Z) (t : Z -> hashmap_node) (hash hv : Z)
  (k : list Z) (ksz : Z) (cs : bool) (p : Z) :
  0 <= b <= 32 -> robin_inv b t -> 0 <= p < 2 ^ b ->
  hashmap_match (t p) hv k ksz cs = true ->
  p = (hash + psl (t p)) mod 2 ^ b -> 0 <= psl (t p) < 2 ^ b ->
  forall (m : nat) (i : Z),
    0 <= i -> i + Z.of_nat m = psl (t p) ->
    exists p' d',
      while_nat (find_body t (2 ^ b - 1) hash hv k ksz cs)
        (Datatypes.S m) i = Break (Some (p', d')) /\
      hashmap_match (t p') hv k ksz cs = true /\
      p' = (hash + d') mod 2 ^ b /\ i <= d' <= psl (t p).
Proof.
  intros Hb HR Hp HM Hpos HD. pose proof (pow2_pos b ltac:(lia)) as Hn.
  pose proof (pow2_le_32 b Hb) as Hn32.
  pose proof (match_not_null _ _ _ _ _ HM) as Hnn.
  induction m as [|m IH]; intros i Hi Him.
  - simpl. rewrite find_body_eq by assumption.
    replace i with (psl (t p)) by lia. rewrite <- Hpos.
    rewrite Hnn, HM. simpl. destruct (Z.ltb_spec (psl (t p)) (psl (t p))); [lia|].
    exists p, (psl (t p)). repeat split; try assumption; lia.
  - cbn [while_nat]. rewrite find_body_eq by assumption.
    set (q := (hash + i) mod 2 ^ b).
    assert (Eq : q = (p - Z.of_nat (Z.to_nat (psl (t p) - i))) mod 2 ^ b).
    { unfold q. rewrite Z2Nat.id by lia. rewrite Hpos at 1.
      rewrite Zminus_mod_idemp_l. f_equal. lia. }
    destruct (robin_chain b t p ltac:(lia) HR Hp Hnn
                (Z.to_nat (psl (t p) - i)) ltac:(lia)) as [C1 C2].
    rewrite <- Eq in C1, C2. rewrite Z2Nat.id in C2 by lia.
    rewrite C1. simpl. destruct (Z.ltb_spec (psl (t q)) i); [lia|].
    destruct (hashmap_match (t q) hv k ksz cs) eqn:EM.
    + exists q, i. repeat split; try assumption; try reflexivity; lia.
    + rewrite u32_small by lia.
      destruct (IH (i + 1)) as [p' [d' [W [M' [E' Hd']]]]]; [lia|lia|].
      exists p', d'. repeat split; try assumption; lia.
Qed.

(** The loop leaves empty-handed when no slot holds the key, once it
    reaches a slot that is empty or holds a node closer to its home. *)
Lemma find_loop_none (b : Z) (t : Z -> hashmap_node) (hash hv : Z)
  (k : list Z) (ksz : Z) (cs : bool) (i0 : Z) :
  0 <= b <= 32 ->
  (forall p, 0 <= p < 2 ^ b -> hashmap_match (t p) hv k ksz cs = false) ->
  i0 < 4294967296 ->
  key_is_null (t ((hash + i0) mod 2 ^ b)) = true \/
    psl (t ((hash + i0) mod 2 ^ b)) < i0 ->
  forall (m : nat) (i : Z),
    0 <= i -> i + Z.of_nat m = i0 ->
    while_nat (find_body t (2 ^ b - 1) hash hv k ksz cs)
      (Datatypes.S m) i = Break None.
Proof.
  intros Hb HN Hi0 Hstop. pose proof (pow2_pos b ltac:(lia)) as Hn.
  induction m as [|m IH]; intros i Hi Him.
  - simpl. rewrite find_body_eq by assumption.
    replace i with i0 by lia.
    destruct Hstop as [-> | Hlt]; [reflexivity|].
    destruct (Z.ltb_spec (psl (t ((hash + i0) mod 2 ^ b))) i0); [|lia].
    rewrite orb_true_r. reflexivity.
  - cbn [while_nat]. rewrite find_body_eq by assumption.
    destruct (key_is_null (t ((hash + i) mod 2 ^ b))
              || (psl (t ((hash + i) mod 2 ^ b)) <? i)); [reflexivity|].
    rewrite HN by (apply Z.mod_pos_bound; lia).
    rewrite u32_small by lia. apply IH; lia.
Qed.

Lemma table_wf_inv (tb : hashmap_table) (t : Z -> hashmap_node) :
  table_wf tb -> table tb = Some t ->
  1 <= hashbits tb <= 32 /\ size tb = 2 ^ hashbits tb /\
  hashmask tb = 2 ^ hashbits tb - 1 /\ slot_inv (hashbits tb) t /\
  robin_inv (hashbits tb) t /\ has_stop (hashbits tb) t.
Proof.
  intros [t' [E H]] E'. rewrite E in E'. injection E' as <-. exact H.
Qed.

Lemma table_wf_some (tb : hashmap_table) :
  table_wf tb -> exists t, table tb = Some t.
Proof. intros [t [E _]]. eauto. Qed.

(** What [hashmap_find] does on one table: it returns the slot that holds
    the key, with the distance from the home slot, or nothing when no slot
    holds the key. *)
Lemma find_table_spec (hashmap : isc_hashmap) (hv : Z) (k : list Z)
  (ksz idx : Z) (t : Z -> hashmap_node) :
  table_wf (tables hashmap idx) ->
  table (tables hashmap idx) = Some t ->
  (hashbits (tables hashmap idx) = 32 ->
   exists p, 0 <= p < 2 ^ 32 /\ key_is_null (t p) = true) ->
  (exists pos,
     hashmap_find_table hashmap hv k ksz idx = Some (Some (pos, psl (t pos)))
     /\ 0 <= pos < size (tables hashmap idx)
     /\ hashmap_match (t pos) hv k ksz (case_sensitive hashmap) = true)
  \/
  (hashmap_find_table hashmap hv k ksz idx = Some None /\
   forall p, 0 <= p < size (tables hashmap idx) ->
     hashmap_match (t p) hv k ksz (case_sensitive hashmap) = false).
Proof.
  intros Hwf Et Hfull.
  destruct (table_wf_inv _ _ Hwf Et) as [Hb [Hsz [Hmask [HS [HR _]]]]].
  set (b := hashbits (tables hashmap idx)) in *.
  set (cs := case_sensitive hashmap).
  set (hash := u32 (isc_hash_bits32 hv b)).
  pose proof (pow2_pos b ltac:(lia)) as Hn.
  pose proof (pow2_le_32 b ltac:(lia)) as Hn32.
  unfold hashmap_find_table. rewrite Et. cbn [bind]. fold b cs hash.
  rewrite Hmask, Hsz.
  destruct (Z_lt_le_dec 0 (cnt (fun x => hashmap_match x hv k ksz cs) t (2 ^ b)))
    as [Hc|Hc].
  - left. destruct (cnt_pos _ _ _ Hc) as [p [Hp HM]].
    pose proof (match_not_null _ _ _ _ _ HM) as Hnn.
    destruct (HS p Hp Hnn) as [HD [Hpos _]].
    assert (Hh : home b (t p) = hash).
    { unfold home, hash. rewrite (match_hashval _ _ _ _ _ HM). reflexivity. }
    rewrite Hh in Hpos.
    destruct (find_loop_found b t hash hv k ksz cs p ltac:(lia) HR Hp HM Hpos HD
                (Z.to_nat (psl (t p))) 0 ltac:(lia) ltac:(lia))
      as [p' [d' [W [M' [E' Hd']]]]].
    assert (Hp' : 0 <= p' < 2 ^ b) by (subst p'; apply Z.mod_pos_bound; lia).
    pose proof (match_not_null _ _ _ _ _ M') as Hnn'.
    destruct (HS p' Hp' Hnn') as [HD' [Hpos' _]].
    assert (Hh' : home b (t p') = hash).
    { unfold home, hash. rewrite (match_hashval _ _ _ _ _ M'). reflexivity. }
    rewrite Hh' in Hpos'.
    assert (d' = psl (t p')).
    { apply (mod_add_inj (2 ^ b) hash); [lia|lia|congruence]. }
    subst d'. exists p'. split; [|split; assumption].
    apply (while_intro _ _ _ _ _ W). lia.
  - right.
    assert (HN : forall p, 0 <= p < 2 ^ b ->
                 hashmap_match (t p) hv k ksz cs = false).
    { intros p Hp. apply (cnt_zero _ _ _ _ Hc Hp). }
    split; [|exact HN].
    assert (Hex : exists i0, 0 <= i0 < 4294967296 /\ i0 <= 2 ^ b /\
              (key_is_null (t ((hash + i0) mod 2 ^ b)) = true \/
               psl (t ((hash + i0) mod 2 ^ b)) < i0)).
    { destruct (Z.eq_dec b 32) as [E32|N32].
      - destruct (Hfull E32) as [e [He Hnull]]. rewrite <- E32 in He.
        exists ((e - hash) mod 2 ^ b).
        pose proof (Z.mod_pos_bound (e - hash) (2 ^ b) Hn).
        rewrite mod_dist by assumption. repeat split; try lia. left; assumption.
      - exists (2 ^ b).
        assert (2 ^ b <= 2 ^ 31) by (apply Z.pow_le_mono_r; lia).
        change (2 ^ 31) with 2147483648 in *.
        repeat split; try lia.
        set (q := (hash + 2 ^ b) mod 2 ^ b).
        assert (Hq : 0 <= q < 2 ^ b) by (apply Z.mod_pos_bound; lia).
        destruct (key_is_null (t q)) eqn:En; [left; reflexivity|right].
        destruct (HS q Hq En) as [HD _]. lia. }
    destruct Hex as [i0 [Hi0 [Hle Hstop]]].
    apply (while_intro _ _ (Datatypes.S (Z.to_nat i0))).
    + apply (find_loop_none b t hash hv k ksz cs i0); try assumption; lia.
    + lia.
Qed.

(** ** The loop of [hashmap_add] *)

Lemma add_body_eq (b : Z) (hash hv : Z) (k : list Z) (ksz : Z) (cs : bool)
  (t : Z -> hashmap_node) (node : hashmap_node) (i : Z) :
  0 <= b <= 32 ->
  add_body (2 ^ b - 1) hash hv k ksz cs (t, node, i) =
  let pos := (hash + i) mod 2 ^ b in
  if key_is_null (t pos) then Break (inl (t, node, pos))
  else if hashmap_match (t pos) hv k ksz cs then Break (inr t)
  else if psl (t pos) <? psl node then
    Continue (upd t pos node,
              set_psl (t pos) (u32 (psl (t pos) + 1)), u32 (i + 1))
  else Continue (t, set_psl node (u32 (psl node + 1)), u32 (i + 1)).
Proof.
  intros Hb. unfold add_body. rewrite mask_mod by assumption. cbv zeta.
  destruct (key_is_null (t ((hash + i) mod 2 ^ b))); [reflexivity|].
  destruct (hashmap_match (t ((hash + i) mod 2 ^ b)) hv k ksz cs);
    [reflexivity|].
  destruct (psl (t ((hash + i) mod 2 ^ b)) <? psl node); reflexivity.
Qed.

(** A key that is in the table is met before any node is displaced: the
    loop returns ISC_R_EXISTS and leaves the table as it was. *)
Lemma add_loop_exists (b : Z) (t : Z -> hashmap_node) (hash hv : Z)
  (k : list Z) (ksz : Z) (cs : bool) (p : Z) :
  0 <= b <= 32 -> robin_inv b t -> 0 <= p < 2 ^ b ->
  hashmap_match (t p) hv k ksz cs = true ->
  p = (hash + psl (t p)) mod 2 ^ b -> 0 <= psl (t p) < 2 ^ b ->
  forall (m : nat) (i : Z) (node : hashmap_node),
    0 <= i -> i + Z.of_nat m = psl (t p) -> psl node = i ->
    while_nat (add_body (2 ^ b - 1) hash hv k ksz cs)
      (Datatypes.S m) (t, node, i) = Break (inr t).
Proof.
  intros Hb HR Hp HM Hpos HD. pose proof (pow2_pos b ltac:(lia)) as Hn.
  pose proof (pow2_le_32 b Hb) as Hn32.
  pose proof (match_not_null _ _ _ _ _ HM) as Hnn.
  induction m as [|m IH]; intros i node Hi Him Hnode.
  - cbn [while_nat]. rewrite add_body_eq by assumption. cbv zeta.
    replace i with (psl (t p)) by lia. rewrite <- Hpos.
    rewrite Hnn, HM. reflexivity.
  - cbn [while_nat]. rewrite add_body_eq by assumption. cbv zeta.
    set (q := (hash + i) mod 2 ^ b).
    assert (Eq : q = (p - Z.of_nat (Z.to_nat (psl (t p) - i))) mod 2 ^ b).
    { unfold q. rewrite Z2Nat.id by lia. rewrite Hpos at 1.
      rewrite Zminus_mod_idemp_l. f_equal. lia. }
    destruct (robin_chain b t p ltac:(lia) HR Hp Hnn
                (Z.to_nat (psl (t p) - i)) ltac:(lia)) as [C1 C2].
    rewrite <- Eq in C1, C2. rewrite Z2Nat.id in C2 by lia.
    rewrite C1.
    destruct (hashmap_match (t q) hv k ksz cs) eqn:EM; [reflexivity|].
    destruct (Z.ltb_spec (psl (t q)) (psl node)); [lia|].
    rewrite !u32_small by lia.
    apply IH; [lia|lia|]. simpl. lia.
Qed.

(** Storing a node that is in order at its slot keeps the slots in order. *)
Lemma slot_inv_upd (b : Z) (t : Z -> hashmap_node) (pos : Z)
  (x : hashmap_node) :
  slot_inv b t ->
  (key_is_null x = false ->
   0 <= psl x < 2 ^ b /\ pos = (home b x + psl x) mod 2 ^ b /\
   0 <= keysize x <= UINT16_MAX) ->
  slot_inv b (upd t pos x).
Proof.
  intros HS Hx p Hp. unfold slot_ok.
  destruct (Z.eq_dec p pos) as [->|Hne].
  - rewrite upd_same. exact Hx.
  - rewrite upd_other by assumption. apply HS. exact Hp.
Qed.

(** Storing [x] at [pos] keeps the Robin Hood ordering when [x] is in order
    behind its predecessor and the successor is in order behind [x]. *)
Lemma robin_inv_upd (b : Z) (t : Z -> hashmap_node) (pos : Z)
  (x : hashmap_node) :
  1 <= b -> robin_inv b t -> 0 <= pos < 2 ^ b ->
  (key_is_null x = false -> 0 < psl x ->
   key_is_null (t ((pos - 1) mod 2 ^ b)) = false /\
   psl x <= psl (t ((pos - 1) mod 2 ^ b)) + 1) ->
  (key_is_null (t ((pos + 1) mod 2 ^ b)) = false ->
   0 < psl (t ((pos + 1) mod 2 ^ b)) ->
   key_is_null x = false /\ psl (t ((pos + 1) mod 2 ^ b)) <= psl x + 1) ->
  robin_inv b (upd t pos x).
Proof.
  intros Hb HR Hpos Hx Hsucc p Hp. unfold robin_ok.
  pose proof (pow2_ge_2 b Hb) as Hn2.
  destruct (Z.eq_dec p pos) as [->|Hne].
  - rewrite upd_same, upd_other by (apply mod_pred_neq; lia). exact Hx.
  - rewrite upd_other by assumption.
    destruct (Z.eq_dec ((p - 1) mod 2 ^ b) pos) as [E|Hne'].
    + rewrite E, upd_same.
      assert (Ep : p = (pos + 1) mod 2 ^ b).
      { rewrite <- E, mod_pred_succ by lia. rewrite Z.mod_small; lia. }
      rewrite Ep. exact Hsucc.
    + rewrite upd_other by assumption. apply HR. exact Hp.
Qed.
(** One trip that does not leave the loop keeps the invariant. *)
Lemma add_inv_step (b : Z) (t : Z -> hashmap_node) (hash hv : Z)
  (k : list Z) (ksz : Z) (cs : bool) (c0 : hashmap_node) (i : Z)
  (ti : Z -> hashmap_node) (c : hashmap_node) :
  1 <= b <= 32 -> add_inv b t hash c0 i ti c ->
  0 <= i -> i + 1 < 2 ^ b ->
  key_is_null (ti ((hash + i) mod 2 ^ b)) = false ->
  hashmap_match (ti ((hash + i) mod 2 ^ b)) hv k ksz cs = false ->
  exists ti' c',
    add_body (2 ^ b - 1) hash hv k ksz cs (ti, c, i)
      = Continue (ti', c', i + 1) /\
    add_inv b t hash c0 (i + 1) ti' c'.
Proof.
  intros Hb (HS & HR & Hcn & Hcp & Hcpos & Hck & Hpred & Hun & Hcnt) Hi Hi1
         Hnn HM.
  pose proof (pow2_pos b ltac:(lia)) as Hn.
  pose proof (pow2_le_32 b ltac:(lia)) as Hn32.
  pose proof (pow2_ge_2 b ltac:(lia)) as Hn2.
  rewrite add_body_eq by lia. cbv zeta.
  set (pos := (hash + i) mod 2 ^ b) in *.
  assert (Hpos : 0 <= pos < 2 ^ b) by (apply Z.mod_pos_bound; lia).
  rewrite Hnn, HM.
  destruct (HS pos Hpos Hnn) as (HcurD & Hcurpos & Hcurk).
  assert (Epred : (hash + (i + 1) - 1) mod 2 ^ b = pos)
    by (unfold pos; f_equal; lia).
  assert (Epred' : (hash + i - 1) mod 2 ^ b = (pos - 1) mod 2 ^ b)
    by (unfold pos; rewrite Zminus_mod_idemp_l; reflexivity).
  assert (Esucc : (hash + (i + 1)) mod 2 ^ b = (pos + 1) mod 2 ^ b)
    by (unfold pos; rewrite Zplus_mod_idemp_l; f_equal; lia).
  destruct (Z.ltb_spec (psl (ti pos)) (psl c)) as [Hswap|Hkeep].
  - (* the carried node takes the slot *)
    rewrite !u32_small by lia.
    exists (upd ti pos c), (set_psl (ti pos) (psl (ti pos) + 1)).
    split; [reflexivity|].
    unfold add_inv. rewrite Epred, upd_same. cbn [psl set_psl keysize].
    split; [|split; [|split; [|split; [|split; [|split; [|split; [|split]]]]]]].
    + apply slot_inv_upd; [assumption|]. intros _.
      split; [lia|]. split; assumption.
    + apply robin_inv_upd; try assumption; try lia.
      * intros _ Hc. rewrite <- Epred'. apply Hpred. exact Hc.
      * intros Hs1 Hs2.
        assert (Hq : 0 <= (pos + 1) mod 2 ^ b < 2 ^ b)
          by (apply Z.mod_pos_bound; lia).
        destruct (HR _ Hq Hs1 Hs2) as [_ R2].
        rewrite mod_succ_pred, (Z.mod_small pos) in R2 by lia.
        split; [assumption|lia].
    + exact Hnn.
    + lia.
    + rewrite Esucc, Hcurpos at 1. rewrite Zplus_mod_idemp_l.
      unfold home. cbn [hashval set_psl]. f_equal. lia.
    + exact Hcurk.
    + intros _. split; [assumption|lia].
    + intros j Hj. rewrite upd_other; [apply Hun; lia|].
      unfold pos. intros E. apply mod_add_inj in E; lia.
    + intros P HP. rewrite cnt_upd by assumption.
      rewrite HP. pose proof (Hcnt P HP). lia.
  - (* the carried node moves on *)
    rewrite !u32_small by lia.
    exists ti, (set_psl c (psl c + 1)).
    split; [reflexivity|].
    unfold add_inv. rewrite Epred. cbn [psl set_psl keysize].
    split; [|split; [|split; [|split; [|split; [|split; [|split; [|split]]]]]]];
      try assumption.
    + lia.
    + rewrite Esucc, Hcpos at 1. rewrite Zplus_mod_idemp_l.
      unfold home. cbn [hashval set_psl]. f_equal. lia.
    + intros _. split; [assumption|lia].
    + intros j Hj. apply Hun. lia.
    + intros P HP. rewrite HP. apply Hcnt. exact HP.
Qed.

(** Storing the carried node into the empty slot the loop has reached. *)
Lemma add_inv_final (b : Z) (t : Z -> hashmap_node) (hash : Z)
  (c0 : hashmap_node) (i : Z) (ti : Z -> hashmap_node) (c : hashmap_node) :
  1 <= b <= 32 -> add_inv b t hash c0 i ti c -> 0 <= i < 2 ^ b ->
  key_is_null (ti ((hash + i) mod 2 ^ b)) = true ->
  add_post b t c0 (upd ti ((hash + i) mod 2 ^ b) c).
Proof.
  intros Hb (HS & HR & Hcn & Hcp & Hcpos & Hck & Hpred & Hun & Hcnt) Hi Hnull.
  pose proof (pow2_pos b ltac:(lia)) as Hn.
  pose proof (pow2_ge_2 b ltac:(lia)) as Hn2.
  set (pos := (hash + i) mod 2 ^ b) in *.
  assert (Hpos : 0 <= pos < 2 ^ b) by (apply Z.mod_pos_bound; lia).
  assert (Epred' : (hash + i - 1) mod 2 ^ b = (pos - 1) mod 2 ^ b)
    by (unfold pos; rewrite Zminus_mod_idemp_l; reflexivity).
  set (q := (pos + 1) mod 2 ^ b).
  assert (Hq : 0 <= q < 2 ^ b) by (apply Z.mod_pos_bound; lia).
  assert (Hsucc : key_is_null (ti q) = false -> 0 < psl (ti q) -> False).
  { intros Hs1 Hs2. destruct (HR q Hq Hs1 Hs2) as [R1 _].
    unfold q in R1. rewrite mod_succ_pred, (Z.mod_small pos) in R1 by lia.
    congruence. }
  unfold add_post. split; [|split; [|split]].
  - apply slot_inv_upd; [assumption|]. intros _.
    split; [lia|]. split; assumption.
  - apply robin_inv_upd; try assumption; try lia.
    + intros _ Hc. rewrite <- Epred'. apply Hpred. exact Hc.
    + intros Hs1 Hs2. exfalso. exact (Hsucc Hs1 Hs2).
  - exists q. split; [assumption|]. unfold stop_slot.
    rewrite upd_other by (apply mod_succ_neq; lia).
    destruct (key_is_null (ti q)) eqn:En; [reflexivity|].
    destruct (HS q Hq En) as [HD _].
    destruct (Z.eqb_spec (psl (ti q)) 0); [reflexivity|].
    exfalso. apply Hsucc; [reflexivity|lia].
  - intros P [HP HPnull]. rewrite cnt_upd by assumption.
    rewrite (HPnull _ Hnull). pose proof (Hcnt P HP). simpl b2z. lia.
Qed.

(** The loop stores a key that is not in the table, in a table with an
    empty slot. *)
Lemma add_loop_success (b : Z) (t : Z -> hashmap_node) (hash hv : Z)
  (k : list Z) (ksz : Z) (cs : bool) (c0 : hashmap_node) (s0 : Z) :
  1 <= b <= 32 ->
  (forall p, 0 <= p < 2 ^ b -> hashmap_match (t p) hv k ksz cs = false) ->
  0 <= s0 < 2 ^ b ->
  key_is_null (t ((hash + s0) mod 2 ^ b)) = true ->
  forall (m : nat) (i : Z) (ti : Z -> hashmap_node) (c : hashmap_node),
    add_inv b t hash c0 i ti c -> 0 <= i -> i + Z.of_nat m = s0 ->
    exists tf c' pos,
      while_nat (add_body (2 ^ b - 1) hash hv k ksz cs) (Datatypes.S m)
        (ti, c, i) = Break (inl (tf, c', pos)) /\
      0 <= pos < 2 ^ b /\
      add_post b t c0 (upd tf pos c').
Proof.
  intros Hb HN Hs0 Hnull.
  pose proof (pow2_pos b ltac:(lia)) as Hn.
  induction m as [|m IH]; intros i ti c Hinv Hi Him.
  - assert (Et : ti ((hash + i) mod 2 ^ b) = t ((hash + i) mod 2 ^ b)).
    { destruct Hinv as (_ & _ & _ & _ & _ & _ & _ & Hun & _).
      apply Hun. lia. }
    assert (En : key_is_null (ti ((hash + i) mod 2 ^ b)) = true).
    { rewrite Et. replace i with s0 by lia. exact Hnull. }
    cbn [while_nat]. rewrite add_body_eq by lia. cbv zeta. rewrite En.
    exists ti, c, ((hash + i) mod 2 ^ b).
    split; [reflexivity|]. split; [apply Z.mod_pos_bound; lia|].
    apply (add_inv_final b t hash c0 i); try assumption; lia.
  - assert (Et : ti ((hash + i) mod 2 ^ b) = t ((hash + i) mod 2 ^ b)).
    { destruct Hinv as (_ & _ & _ & _ & _ & _ & _ & Hun & _).
      apply Hun. lia. }
    destruct (key_is_null (ti ((hash + i) mod 2 ^ b))) eqn:En.
    + cbn [while_nat]. rewrite add_body_eq by lia. cbv zeta. rewrite En.
      exists ti, c, ((hash + i) mod 2 ^ b).
      split; [reflexivity|]. split; [apply Z.mod_pos_bound; lia|].
      apply (add_inv_final b t hash c0 i); try assumption; lia.
    + assert (HM : hashmap_match (ti ((hash + i) mod 2 ^ b)) hv k ksz cs
                   = false).
      { rewrite Et. apply HN. apply Z.mod_pos_bound; lia. }
      destruct (add_inv_step b t hash hv k ksz cs c0 i ti c Hb Hinv Hi
                  ltac:(lia) En HM) as [ti' [c' [Hbody Hinv']]].
      cbn [while_nat]. rewrite Hbody.
      apply IH; [assumption|lia|lia].
Qed.

(** ** The shift loop of [hashmap_delete_node] *)

Lemma delete_body_eq (b : Z) (t : Z -> hashmap_node) (e pos : Z) :
  0 <= b <= 32 ->
  delete_body (2 ^ b - 1) (2 ^ b) (t, e, pos) =
  let q := (pos + 1) mod 2 ^ b in
  if stop_slot t q then Break (Some (t, e))
  else
    let x' := set_psl (t q) (u32 (psl (t q) - 1)) in
    Continue (upd (upd t q x') e x', q, q).
Proof.
  intros Hb. unfold delete_body. rewrite mask_mod by assumption. cbv zeta.
  pose proof (Z.mod_pos_bound (pos + 1) (2 ^ b) (pow2_pos b ltac:(lia))).
  destruct (Z.ltb_spec ((pos + 1) mod 2 ^ b) (2 ^ b)); [|lia].
  cbn [negb]. unfold stop_slot.
  destruct (key_is_null (t ((pos + 1) mod 2 ^ b))
            || (psl (t ((pos + 1) mod 2 ^ b)) =? 0)); [reflexivity|].
  rewrite upd_same. reflexivity.
Qed.

Lemma stop_slot_false (t : Z -> hashmap_node) (p : Z) :
  stop_slot t p = false -> key_is_null (t p) = false /\ psl (t p) <> 0.
Proof.
  unfold stop_slot. intros H. apply orb_false_iff in H. destruct H as [H1 H2].
  split; [assumption|]. apply Z.eqb_neq. exact H2.
Qed.

Lemma del_inv_init (b : Z) (t : Z -> hashmap_node) (e : Z) :
  1 <= b -> slot_inv b t -> robin_inv b t -> 0 <= e < 2 ^ b ->
  key_is_null (t e) = false -> del_inv b t e t e.
Proof.
  intros Hb HS HR He Hnn. pose proof (pow2_ge_2 b Hb) as Hn2.
  unfold del_inv. split; [assumption|]. split; [assumption|].
  split; [intros; apply HS; assumption|].
  split; [intros; apply HR; assumption|].
  split; [|split; [auto | intros; lia]].
  intros Hs1 Hs2.
  assert (Hq : 0 <= (e + 1) mod 2 ^ b < 2 ^ b)
    by (apply Z.mod_pos_bound; lia).
  destruct (HR _ Hq Hs1 ltac:(lia)) as [_ R2].
  rewrite mod_succ_pred, (Z.mod_small e) in R2 by lia.
  destruct (HR e He Hnn ltac:(lia)) as [R3 R4].
  split; [assumption|lia].
Qed.

(** One shift keeps the invariant. *)
Lemma del_inv_step (b : Z) (t0 : Z -> hashmap_node) (e0 : Z)
  (ti : Z -> hashmap_node) (e : Z) :
  1 <= b <= 32 -> del_inv b t0 e0 ti e ->
  stop_slot ti ((e + 1) mod 2 ^ b) = false ->
  u32 (psl (ti ((e + 1) mod 2 ^ b)) - 1) = psl (ti ((e + 1) mod 2 ^ b)) - 1 /\
  del_inv b t0 e0
    (upd (upd ti ((e + 1) mod 2 ^ b)
            (set_psl (ti ((e + 1) mod 2 ^ b))
               (psl (ti ((e + 1) mod 2 ^ b)) - 1)))
         e (set_psl (ti ((e + 1) mod 2 ^ b))
              (psl (ti ((e + 1) mod 2 ^ b)) - 1)))
    ((e + 1) mod 2 ^ b).
Proof.
  intros Hb (He & Hen & J1 & J2 & J3 & Hmono & Hcnt) Hstop.
  pose proof (pow2_pos b ltac:(lia)) as Hn.
  pose proof (pow2_le_32 b ltac:(lia)) as Hn32.
  pose proof (pow2_ge_2 b ltac:(lia)) as Hn2.
  set (q := (e + 1) mod 2 ^ b) in *.
  assert (Hq : 0 <= q < 2 ^ b) by (apply Z.mod_pos_bound; lia).
  assert (Hqe : q <> e) by (apply mod_succ_neq; lia).
  destruct (stop_slot_false _ _ Hstop) as [Hxn Hx0].
  destruct (J1 q Hq Hqe Hxn) as (HxD & Hxpos & Hxk).
  set (x := ti q) in *.
  set (x' := set_psl x (psl x - 1)).
  assert (Eqe : (q - 1) mod 2 ^ b = e).
  { unfold q. rewrite mod_succ_pred, Z.mod_small by lia. reflexivity. }
  split; [apply u32_small; lia|].
  set (t2 := upd (upd ti q x') e x').
  assert (T2e : t2 e = x') by (unfold t2; apply upd_same).
  assert (T2q : t2 q = x')
    by (unfold t2; rewrite upd_other by assumption; apply upd_same).
  assert (T2o : forall p, p <> e -> p <> q -> t2 p = ti p).
  { intros p H1 H2. unfold t2. rewrite !upd_other by assumption.
    reflexivity. }
  unfold del_inv. fold t2.
  split; [assumption|]. split; [rewrite T2q; exact Hxn|].
  split; [|split; [|split; [|split]]].
  - (* slots *)
    intros p Hp Hpq. unfold slot_ok.
    destruct (Z.eq_dec p e) as [->|Hpe].
    + rewrite T2e. intros _. cbn [psl set_psl keysize x'].
      split; [lia|]. split; [|assumption].
      rewrite <- Eqe. rewrite Hxpos at 1. rewrite Zminus_mod_idemp_l.
      unfold home, x'. cbn [hashval set_psl]. f_equal. lia.
    + rewrite T2o by assumption. apply J1; assumption.
  - (* ordering *)
    intros p Hp Hpq Hpq1. unfold robin_ok.
    destruct (Z.eq_dec p e) as [->|Hpe].
    + rewrite T2e. cbn [psl set_psl x']. intros _ Hpsl.
      destruct (Z.eq_dec ((e - 1) mod 2 ^ b) q) as [E|Hne].
      * rewrite E, T2q. cbn [psl set_psl x']. split; [assumption|lia].
      * rewrite T2o; [|apply mod_pred_neq; lia|assumption].
        destruct (J3 Hxn ltac:(lia)) as [K1 K2]. split; [assumption|lia].
    + rewrite T2o by assumption.
      assert (Hpred_e : (p - 1) mod 2 ^ b <> e).
      { intros E. apply Hpq. unfold q. rewrite <- E, mod_pred_succ by lia.
        rewrite Z.mod_small; lia. }
      assert (Hpred_q : (p - 1) mod 2 ^ b <> q).
      { intros E. apply Hpq1. rewrite <- E, mod_pred_succ by lia.
        rewrite Z.mod_small; lia. }
      rewrite T2o by assumption. apply J2; assumption.
  - (* the node behind the new entry *)
    rewrite Eqe, T2e. cbn [psl set_psl x'].
    set (r := (q + 1) mod 2 ^ b).
    assert (Hr : 0 <= r < 2 ^ b) by (apply Z.mod_pos_bound; lia).
    assert (Hrq : r <> q) by (apply mod_succ_neq; lia).
    destruct (Z.eq_dec r e) as [E|Hre].
    + rewrite E, T2e. cbn [psl set_psl x']. intros _ _.
      split; [assumption|lia].
    + rewrite T2o by assumption. intros Hs1 Hs2.
      destruct (J2 r Hr Hre Hrq Hs1 ltac:(lia)) as [_ R2].
      unfold r in R2 at 2. rewrite mod_succ_pred, (Z.mod_small q) in R2 by lia.
      fold x in R2. split; [assumption|lia].
  - (* empty slots stay empty *)
    intros p Hp0. pose proof (Hmono p Hp0) as Hpi.
    destruct (Z.eq_dec p e) as [->|Hpe]; [congruence|].
    destruct (Z.eq_dec p q) as [->|Hpq]; [unfold x in Hxn; congruence|].
    rewrite T2o by assumption. exact Hpi.
  - (* contents *)
    intros P HP. unfold t2. rewrite cnt_upd by assumption.
    rewrite (upd_other _ q e) by auto. rewrite cnt_upd by assumption.
    fold t2. rewrite T2q. fold x. unfold x'. rewrite !HP.
    pose proof (Hcnt P HP). lia.
Qed.

(** Clearing the entry once the loop has met a slot at which it stops. *)
Lemma del_inv_final (b : Z) (t0 : Z -> hashmap_node) (e0 : Z)
  (ti : Z -> hashmap_node) (e : Z) :
  1 <= b <= 32 -> del_inv b t0 e0 ti e ->
  stop_slot ti ((e + 1) mod 2 ^ b) = true ->
  del_post b t0 e0 (upd ti e node_zero).
Proof.
  intros Hb (He & Hen & J1 & J2 & J3 & Hmono & Hcnt) Hstop.
  pose proof (pow2_pos b ltac:(lia)) as Hn.
  pose proof (pow2_ge_2 b ltac:(lia)) as Hn2.
  set (q := (e + 1) mod 2 ^ b) in *.
  assert (Hq : 0 <= q < 2 ^ b) by (apply Z.mod_pos_bound; lia).
  assert (Hqe : q <> e) by (apply mod_succ_neq; lia).
  unfold del_post. split; [|split; [|split; [|split]]].
  - intros p Hp. unfold slot_ok.
    destruct (Z.eq_dec p e) as [->|Hpe].
    + rewrite upd_same. discriminate.
    + rewrite upd_other by assumption. apply J1; assumption.
  - intros p Hp. unfold robin_ok.
    destruct (Z.eq_dec p e) as [->|Hpe].
    + rewrite upd_same. discriminate.
    + rewrite upd_other by assumption.
      destruct (Z.eq_dec p q) as [->|Hpq].
      * intros Hs1 Hs2. unfold stop_slot in Hstop. rewrite Hs1 in Hstop.
        cbn [orb] in Hstop. apply Z.eqb_eq in Hstop. lia.
      * assert (Hpred_e : (p - 1) mod 2 ^ b <> e).
        { intros E. apply Hpq. unfold q. rewrite <- E, mod_pred_succ by lia.
          rewrite Z.mod_small; lia. }
        rewrite upd_other by assumption. apply J2; assumption.
  - exists e. split; [assumption|]. unfold stop_slot. rewrite upd_same.
    reflexivity.
  - intros p Hp0. destruct (Z.eq_dec p e) as [->|Hpe].
    + rewrite upd_same. reflexivity.
    + rewrite upd_other by assumption. apply Hmono. exact Hp0.
  - intros P [HP HPnull]. rewrite cnt_upd by assumption.
    rewrite (HPnull node_zero) by reflexivity.
    pose proof (Hcnt P HP). simpl b2z. lia.
Qed.

(** The shift loop leaves within the distance of a slot at which it
    stops. *)
Lemma del_loop (b : Z) (t0 : Z -> hashmap_node) (e0 : Z) :
  1 <= b <= 32 ->
  forall (m : nat) (ti : Z -> hashmap_node) (e pos : Z),
    del_inv b t0 e0 ti e -> pos mod 2 ^ b = e ->
    Z.of_nat m + 1 < 2 ^ b ->
    stop_slot ti ((e + Z.of_nat m + 1) mod 2 ^ b) = true ->
    exists tf e',
      while_nat (delete_body (2 ^ b - 1) (2 ^ b)) (Datatypes.S m)
        (ti, e, pos) = Break (Some (tf, e')) /\
      0 <= e' < 2 ^ b /\
      del_post b t0 e0 (upd tf e' node_zero).
Proof.
  intros Hb. pose proof (pow2_pos b ltac:(lia)) as Hn.
  induction m as [|m IH]; intros ti e pos Hinv Hpos Hm Hstop.
  - cbn [while_nat]. rewrite delete_body_eq by lia. cbv zeta.
    assert (Eq : (pos + 1) mod 2 ^ b = (e + 1) mod 2 ^ b)
      by (rewrite <- Hpos, Zplus_mod_idemp_l; reflexivity).
    rewrite Eq. replace (e + Z.of_nat 0 + 1) with (e + 1) in Hstop by lia.
    rewrite Hstop. exists ti, e. split; [reflexivity|].
    split; [apply Hinv|]. apply del_inv_final; assumption.
  - cbn [while_nat]. rewrite delete_body_eq by lia. cbv zeta.
    assert (Eq : (pos + 1) mod 2 ^ b = (e + 1) mod 2 ^ b)
      by (rewrite <- Hpos, Zplus_mod_idemp_l; reflexivity).
    rewrite Eq. set (q := (e + 1) mod 2 ^ b).
    assert (He : 0 <= e < 2 ^ b) by apply Hinv.
    destruct (stop_slot ti q) eqn:Hq.
    + exists ti, e. split; [reflexivity|].
      split; [assumption|]. apply del_inv_final; assumption.
    + destruct (del_inv_step b t0 e0 ti e Hb Hinv Hq) as [Hu Hinv'].
      fold q in Hu, Hinv'. rewrite Hu.
      set (x' := set_psl (ti q) (psl (ti q) - 1)) in *.
      assert (Hqr : 0 <= q < 2 ^ b) by (apply Z.mod_pos_bound; lia).
      apply IH; [exact Hinv'|apply Z.mod_small; assumption|lia|].
      set (s := (e + Z.of_nat (Datatypes.S m) + 1) mod 2 ^ b) in *.
      assert (Es : (q + Z.of_nat m + 1) mod 2 ^ b = s).
      { unfold q, s. rewrite <- Zplus_assoc, Zplus_mod_idemp_l.
        f_equal. lia. }
      rewrite Es.
      assert (Hse : s <> e).
      { unfold s. rewrite <- Zplus_assoc. apply mod_add_neq; lia. }
      assert (Hsq : s <> q).
      { unfold s, q. intros E.
        rewrite <- Zplus_assoc in E. apply mod_add_inj in E; lia. }
      unfold stop_slot in *. rewrite !upd_other by assumption. exact Hstop.
Qed.

(** The shift loop on a table in order: it returns, and the table is in
    order again, without the node at [e]. *)
Lemma delete_loop_spec (b : Z) (t : Z -> hashmap_node) (e pos0 : Z) :
  1 <= b <= 32 -> slot_inv b t -> robin_inv b t -> has_stop b t ->
  0 <= e < 2 ^ b -> key_is_null (t e) = false -> pos0 mod 2 ^ b = e ->
  exists tf e',
    while 4294967297 (delete_body (2 ^ b - 1) (2 ^ b)) (t, e, pos0)
      = Some (Some (tf, e')) /\
    0 <= e' < 2 ^ b /\
    del_post b t e (upd tf e' node_zero).
Proof.
  intros Hb HS HR [s [Hs Hstop]] He Hnn Hpos.
  pose proof (pow2_pos b ltac:(lia)) as Hn.
  pose proof (pow2_le_32 b ltac:(lia)) as Hn32.
  pose proof (pow2_ge_2 b ltac:(lia)) as Hn2.
  pose proof (del_inv_init b t e ltac:(lia) HS HR He Hnn) as Hinit.
  assert (Near : forall s, 0 <= s < 2 ^ b -> s <> e -> stop_slot t s = true ->
            exists tf e',
              while 4294967297 (delete_body (2 ^ b - 1) (2 ^ b)) (t, e, pos0)
                = Some (Some (tf, e')) /\
              0 <= e' < 2 ^ b /\
              del_post b t e (upd tf e' node_zero)).
  { clear s Hs Hstop. intros s Hs Hse Hstop.
    set (d := (s - e) mod 2 ^ b).
    assert (Hd : 0 <= d < 2 ^ b) by (apply Z.mod_pos_bound; lia).
    assert (Ed : (e + d) mod 2 ^ b = s) by (apply mod_dist; assumption).
    assert (Hd0 : d <> 0).
    { intros E. rewrite E, Z.add_0_r, Z.mod_small in Ed; lia. }
    destruct (del_loop b t e Hb (Z.to_nat (d - 1)) t e pos0 Hinit Hpos)
      as [tf [e' [W [He' Hpost]]]].
    - lia.
    - replace (e + Z.of_nat (Z.to_nat (d - 1)) + 1) with (e + d) by lia.
      rewrite Ed. exact Hstop.
    - exists tf, e'. split; [|split; assumption].
      apply (while_intro _ _ _ _ _ W). lia. }
  destruct (Z.eq_dec s e) as [->|Hse]; [|apply (Near s); assumption].
  set (q := (e + 1) mod 2 ^ b).
  assert (Hq : 0 <= q < 2 ^ b) by (apply Z.mod_pos_bound; lia).
  assert (Hqe : q <> e) by (apply mod_succ_neq; lia).
  destruct (stop_slot t q) eqn:Hsq; [apply (Near q); assumption|].
  (* every other slot is passed: the loop comes round to the slot it
     has filled first *)
  destruct (del_inv_step b t e t e Hb Hinit Hsq) as [Hu Hinv'].
  fold q in Hu, Hinv'.
  destruct (stop_slot_false _ _ Hsq) as [Hxn Hx0].
  destruct (HS q Hq Hxn) as (HxD & _).
  assert (Hpe : psl (t e) = 0).
  { unfold stop_slot in Hstop. rewrite Hnn in Hstop. cbn [orb] in Hstop.
    apply Z.eqb_eq. exact Hstop. }
  assert (Hx1 : psl (t q) = 1).
  { destruct (HR q Hq Hxn ltac:(lia)) as [_ R2].
    unfold q in R2 at 2. rewrite mod_succ_pred, (Z.mod_small e) in R2 by lia.
    lia. }
  set (x' := set_psl (t q) (psl (t q) - 1)) in *.
  set (t2 := upd (upd t q x') e x') in *.
  destruct (del_loop b t e Hb (Z.to_nat (2 ^ b - 2)) t2 q q Hinv')
    as [tf [e' [W [He' Hpost]]]].
  - apply Z.mod_small. assumption.
  - lia.
  - replace (q + Z.of_nat (Z.to_nat (2 ^ b - 2)) + 1)
      with (q - 1 + 1 * 2 ^ b) by lia.
    rewrite Z.mod_add by lia.
    unfold q at 1. rewrite mod_succ_pred, (Z.mod_small e) by lia.
    unfold stop_slot, t2. rewrite upd_same. unfold x'. cbn [psl set_psl].
    rewrite Hx1. apply orb_true_r.
  - exists tf, e'. split; [|split; assumption].
    apply (while_intro _ _ (Datatypes.S (Datatypes.S (Z.to_nat (2 ^ b - 2))))).
    + cbn [while_nat]. rewrite delete_body_eq by lia. cbv zeta.
      assert (Eq : (pos0 + 1) mod 2 ^ b = q)
        by (unfold q; rewrite <- Hpos, Zplus_mod_idemp_l; reflexivity).
      rewrite Eq, Hsq, Hu. fold x' t2. exact W.
    + lia.
Qed.

(** ** Sizes and thresholds *)

Lemma HASHSIZE_pow2 (b : Z) : 0 <= b <= 63 -> HASHSIZE b = 2 ^ b.
Proof.
  intros Hb. unfold HASHSIZE. rewrite Z.shiftl_1_l. apply u64_small.
  split; [apply Z.pow_nonneg; lia|].
  change 18446744073709551616 with (2 ^ 64). apply Z.pow_lt_mono_r; lia.
Qed.

Lemma pow2_le_40 (b : Z) : 0 <= b <= 40 -> 0 < 2 ^ b <= 1099511627776.
Proof.
  intros Hb. split; [apply pow2_pos; lia|].
  change 1099511627776 with (2 ^ 40). apply Z.pow_le_mono_r; lia.
Qed.

Lemma APPROX_90_eq (x : Z) :
  0 <= x <= 1099511627776 -> APPROX_90_PERCENT x = x * 921 / 1024.
Proof.
  intros Hx. unfold APPROX_90_PERCENT. rewrite u64_small by lia.
  rewrite Z.shiftr_div_pow2 by lia. reflexivity.
Qed.

Lemma APPROX_40_eq (x : Z) :
  0 <= x <= 1099511627776 -> APPROX_40_PERCENT x = x * 409 / 1024.
Proof.
  intros Hx. unfold APPROX_40_PERCENT. rewrite u64_small by lia.
  rewrite Z.shiftr_div_pow2 by lia. reflexivity.
Qed.

Lemma APPROX_20_eq (x : Z) :
  0 <= x <= 1099511627776 -> APPROX_20_PERCENT x = x * 205 / 1024.
Proof.
  intros Hx. unfold APPROX_20_PERCENT. rewrite u64_small by lia.
  rewrite Z.shiftr_div_pow2 by lia. reflexivity.
Qed.

Lemma max_count_32 : max_count 32 = UINT32_MAX.
Proof. reflexivity. Qed.

Lemma max_count_lt32 (b : Z) :
  0 <= b < 32 -> max_count b = 2 ^ b * 921 / 1024 + 1.
Proof.
  intros Hb. unfold max_count, HASHMAP_MAX_BITS.
  destruct (Z.eqb_spec b 32); [lia|].
  rewrite HASHSIZE_pow2 by lia.
  rewrite APPROX_90_eq by (pose proof (pow2_le_40 b); lia). reflexivity.
Qed.

(** A table whose map obeys the bound on the counter is never full. *)
Lemma max_count_le (b : Z) : 1 <= b <= 32 -> max_count b <= 2 ^ b.
Proof.
  intros Hb. destruct (Z.eq_dec b 32) as [->|Hne].
  - rewrite max_count_32. unfold UINT32_MAX. change (2 ^ 32) with 4294967296.
    lia.
  - rewrite max_count_lt32 by lia.
    pose proof (pow2_ge_2 b ltac:(lia)).
    assert (2 ^ b * 921 / 1024 < 2 ^ b)
      by (apply Z.div_lt_upper_bound; lia).
    lia.
Qed.

Lemma max_count_lt (b : Z) : 1 <= b <= 32 -> max_count b <= 4294967296.
Proof.
  intros Hb. pose proof (max_count_le b Hb). pose proof (pow2_le_32 b).
  lia.
Qed.

Lemma max_count_32_lt : max_count 32 < 2 ^ 32.
Proof. reflexivity. Qed.

Lemma u32_mod_pow2 (b x : Z) : 0 <= b <= 32 -> u32 x mod 2 ^ b = x mod 2 ^ b.
Proof.
  intros Hb. unfold u32, wrap. apply Z.mod_mod_divide.
  exists (2 ^ (32 - b)). rewrite <- Z.pow_add_r by lia. f_equal. lia.
Qed.

(** ** The two tables *)

Lemma nexttable_cases (h : Z) :
  h = 0 \/ h = 1 ->
  (hashmap_nexttable h = 0 \/ hashmap_nexttable h = 1) /\
  hashmap_nexttable h <> h /\
  hashmap_nexttable (hashmap_nexttable h) = h.
Proof. intros [->| ->]; cbv; intuition congruence. Qed.

Lemma rehashing_true (hashmap : isc_hashmap) :
  table_wf (other hashmap) -> rehashing_in_progress hashmap = true.
Proof.
  intros [t [E _]]. unfold rehashing_in_progress. fold (other hashmap).
  rewrite E. reflexivity.
Qed.

Lemma rehashing_false (hashmap : isc_hashmap) :
  other hashmap = table_none -> rehashing_in_progress hashmap = false.
Proof.
  intros E. unfold rehashing_in_progress. fold (other hashmap).
  rewrite E. reflexivity.
Qed.

Lemma cnt_tb_none (P : hashmap_node -> bool) : cnt_tb P table_none = 0.
Proof. reflexivity. Qed.

Lemma cnt_tb_nonneg (P : hashmap_node -> bool) (tb : hashmap_table) :
  0 <= cnt_tb P tb.
Proof.
  unfold cnt_tb. destruct (table tb); [apply cnt_nonneg|lia].
Qed.

Lemma cnt_tb_some (P : hashmap_node -> bool) (tb : hashmap_table)
  (t : Z -> hashmap_node) :
  table tb = Some t -> cnt_tb P tb = cnt P t (size tb).
Proof. intros E. unfold cnt_tb. rewrite E. reflexivity. Qed.

(** ** [hashmap_delete_node] and [hashmap_add] on a table in order *)

Lemma hashmap_delete_node_spec (hashmap : isc_hashmap) (e hv psl0 idx : Z)
  (t : Z -> hashmap_node) :
  table_wf (tables hashmap idx) -> table (tables hashmap idx) = Some t ->
  0 <= e < size (tables hashmap idx) -> key_is_null (t e) = false ->
  hv = hashval (t e) -> psl0 = psl (t e) ->
  1 <= count hashmap < 18446744073709551616 ->
  exists tf,
    hashmap_delete_node hashmap e hv psl0 idx
      = Some (set_table (set_count hashmap (count hashmap - 1)) idx tf) /\
    del_post (hashbits (tables hashmap idx)) t e tf.
Proof.
  intros Hwf Et He Hnn Hhv Hpsl Hc.
  destruct (table_wf_inv _ _ Hwf Et) as (Hb & Hsz & Hmask & HS & HR & Hst).
  rewrite Hsz in He.
  destruct (HS e He Hnn) as (HD & Hpos & _).
  unfold hashmap_delete_node. cbv zeta.
  change (tables (set_count hashmap (u64 (count hashmap - 1))) idx)
    with (tables hashmap idx).
  rewrite Et. cbn [bind]. rewrite Hmask, Hsz.
  destruct (delete_loop_spec (hashbits (tables hashmap idx)) t e
              (u32 (u32 (isc_hash_bits32 hv (hashbits (tables hashmap idx)))
                    + psl0)))
    as [tf [e' [W [He' Hpost]]]]; try assumption.
  - rewrite u32_mod_pow2 by lia. subst hv psl0. symmetry. exact Hpos.
  - rewrite W. cbn [bind]. rewrite u64_small by lia.
    exists (upd tf e' node_zero). split; [reflexivity|assumption].
Qed.

Lemma hashmap_add_exists (hashmap : isc_hashmap) (hv : Z) (k : list Z)
  (ksz v idx : Z) (t : Z -> hashmap_node) (p : Z) :
  table_wf (tables hashmap idx) -> table (tables hashmap idx) = Some t ->
  ksz <= UINT16_MAX ->
  0 <= p < size (tables hashmap idx) ->
  hashmap_match (t p) hv k ksz (case_sensitive hashmap) = true ->
  hashmap_add hashmap hv k ksz v idx
    = Some (ISC_R_EXISTS, set_table hashmap idx t).
Proof.
  intros Hwf Et Hk Hp HM.
  destruct (table_wf_inv _ _ Hwf Et) as (Hb & Hsz & Hmask & HS & HR & Hst).
  rewrite Hsz in Hp.
  pose proof (match_not_null _ _ _ _ _ HM) as Hnn.
  destruct (HS p Hp Hnn) as (HD & Hpos & _).
  unfold hashmap_add, hashmap_node_init. cbv zeta.
  destruct (Z.leb_spec ksz UINT16_MAX); [|lia]. cbn [REQUIRE bind].
  rewrite Et. cbn [bind]. rewrite Hmask.
  assert (Hh : home (hashbits (tables hashmap idx)) (t p)
               = u32 (isc_hash_bits32 hv (hashbits (tables hashmap idx)))).
  { unfold home. rewrite (match_hashval _ _ _ _ _ HM). reflexivity. }
  rewrite Hh in Hpos.
  pose proof (pow2_le_32 (hashbits (tables hashmap idx)) ltac:(lia)).
  rewrite (while_intro _ 8589934593
             (Datatypes.S (Z.to_nat (psl (t p)))) _ (inr t)).
  - reflexivity.
  - apply (add_loop_exists (hashbits (tables hashmap idx)) t _ hv k ksz _ p
             ltac:(lia) HR Hp HM Hpos HD (Z.to_nat (psl (t p))) 0);
      [lia|lia|reflexivity].
  - lia.
Qed.

Lemma hashmap_add_success (hashmap : isc_hashmap) (hv : Z) (k : list Z)
  (ksz v idx : Z) (t : Z -> hashmap_node) :
  table_wf (tables hashmap idx) -> table (tables hashmap idx) = Some t ->
  0 <= ksz <= UINT16_MAX ->
  (forall p, 0 <= p < size (tables hashmap idx) ->
     hashmap_match (t p) hv k ksz (case_sensitive hashmap) = false) ->
  cnt occupied t (size (tables hashmap idx)) < size (tables hashmap idx) ->
  0 <= count hashmap < 18446744073709551615 ->
  exists tf,
    hashmap_add hashmap hv k ksz v idx
      = Some (ISC_R_SUCCESS,
              set_table (set_count hashmap (count hashmap + 1)) idx tf) /\
    add_post (hashbits (tables hashmap idx)) t
      (mk_node (Some k) v hv 0 ksz) tf.
Proof.
  intros Hwf Et Hk HN Hfull Hc.
  destruct (table_wf_inv _ _ Hwf Et) as (Hb & Hsz & Hmask & HS & HR & Hst).
  rewrite Hsz in HN, Hfull.
  set (b := hashbits (tables hashmap idx)) in *.
  pose proof (pow2_pos b ltac:(lia)) as Hn.
  pose proof (pow2_le_32 b ltac:(lia)) as Hn32.
  destruct (cnt_lt _ _ _ Hfull) as [e [He Hocc]].
  assert (Hen : key_is_null (t e) = true).
  { unfold occupied in Hocc. destruct (key_is_null (t e)); [reflexivity|
      discriminate]. }
  unfold hashmap_add, hashmap_node_init. cbv zeta.
  destruct (Z.leb_spec ksz UINT16_MAX); [|lia]. cbn [REQUIRE bind].
  rewrite Et. cbn [bind]. rewrite Hmask. fold b.
  rewrite u16_small by lia.
  set (hash := u32 (isc_hash_bits32 hv b)).
  set (c0 := mk_node (Some k) v hv 0 ksz).
  set (s0 := (e - hash) mod 2 ^ b).
  assert (Hs0 : 0 <= s0 < 2 ^ b) by (apply Z.mod_pos_bound; lia).
  destruct (add_loop_success b t hash hv k ksz (case_sensitive hashmap) c0 s0
              ltac:(lia) HN Hs0
              ltac:(unfold s0; rewrite mod_dist by assumption; exact Hen)
              (Z.to_nat s0) 0 t c0)
    as [tf [c' [pos [W [Hpos Hpost]]]]].
  - unfold add_inv.
    split; [assumption|]. split; [assumption|].
    split; [reflexivity|]. split; [cbn; lia|].
    split; [reflexivity|]. split; [exact Hk|].
    split; [cbn; lia|]. split; [reflexivity|]. reflexivity.
  - lia.
  - lia.
  - rewrite (while_intro _ _ _ _ _ W) by lia. cbn [bind].
    rewrite u64_small by lia.
    exists (upd tf pos c'). split; [reflexivity|assumption].
Qed.

(** ** [hashmap_find] on a map *)

Lemma occupied_false (x : hashmap_node) :
  occupied x = false -> key_is_null x = true.
Proof. unfold occupied. destruct (key_is_null x); [reflexivity|discriminate]. Qed.

(** While the counter obeys its bound, the active table has an empty
    slot. *)
Lemma wf_parts_count_le (s : Z) (cs : bool) (h c : Z) (a o : hashmap_table) :
  0 <= s -> wf_parts s cs h c a o ->
  c + s <= max_count (hashbits a) /\ cnt_tb occupied a + s <= max_count (hashbits a).
Proof.
  intros Hs (Ha & Hst & Hc & Hocc & _).
  pose proof (cnt_tb_nonneg occupied o). pose proof (cnt_tb_nonneg occupied a).
  destruct Hst as [(-> & _ & Hm) | (_ & Hm)]; split; lia.
Qed.

Lemma active_not_full (s : Z) (cs : bool) (h c : Z) (a o : hashmap_table)
  (t : Z -> hashmap_node) :
  0 <= s -> wf_parts s cs h c a o -> table a = Some t ->
  hashbits a = 32 ->
  exists p, 0 <= p < 2 ^ 32 /\ key_is_null (t p) = true.
Proof.
  intros Hs Hwf Et Hb.
  destruct (wf_parts_count_le s cs h c a o Hs Hwf) as [_ Hle].
  destruct Hwf as (Ha & _).
  destruct (table_wf_inv _ _ Ha Et) as (_ & Hsz & _).
  rewrite (cnt_tb_some _ _ _ Et), Hsz, Hb in Hle.
  rewrite max_count_32 in Hle. unfold UINT32_MAX in Hle.
  destruct (cnt_lt occupied t (2 ^ 32)) as [p [Hp Ho]].
  - change (2 ^ 32) with 4294967296 in *. lia.
  - exists p. split; [assumption|]. apply occupied_false. exact Ho.
Qed.

Lemma source_not_32 (h : Z) (o : hashmap_table) (t : Z -> hashmap_node) :
  source_ok h o -> hashbits o = 32 ->
  exists p, 0 <= p < 2 ^ 32 /\ key_is_null (t p) = true.
Proof. intros (_ & Hb & _) E. lia. Qed.

Lemma while3_break {S R : Type} (body : S -> step S R) (s : S) (r : R) :
  body s = Break r -> while 3 body s = Some r.
Proof.
  intros H. apply (while_intro body 3 1 s r); [|lia].
  cbn [while_nat]. rewrite H. reflexivity.
Qed.

Lemma while3_continue_break {S R : Type} (body : S -> step S R) (s s' : S)
  (r : R) :
  body s = Continue s' -> body s' = Break r -> while 3 body s = Some r.
Proof.
  intros H H'. apply (while_intro body 3 2 s r); [|lia].
  cbn [while_nat]. rewrite H, H'. reflexivity.
Qed.

(** [hashmap_find] from the active table on: it returns a slot that holds
    the key, or nothing when neither table holds it. *)
Lemma hashmap_find_spec (s : Z) (hashmap : isc_hashmap) (hv : Z)
  (k : list Z) (ksz : Z) :
  0 <= s -> wf_slack s hashmap ->
  (exists pos idx t,
     hashmap_find hashmap hv k ksz (hindex hashmap)
       = Some (Some (pos, psl (t pos), idx)) /\
     (idx = hindex hashmap \/ idx = hashmap_nexttable (hindex hashmap)) /\
     table (tables hashmap idx) = Some t /\
     table_wf (tables hashmap idx) /\
     0 <= pos < size (tables hashmap idx) /\
     hashmap_match (t pos) hv k ksz (case_sensitive hashmap) = true)
  \/
  (hashmap_find hashmap hv k ksz (hindex hashmap) = Some None /\
   cntm (fun x => hashmap_match x hv k ksz (case_sensitive hashmap)) hashmap
     = 0).
Proof.
  intros Hs [Hidx Hwf].
  pose proof Hwf as (Ha & Hst & Hc & Hocc & Huniq).
  destruct (table_wf_some _ Ha) as [ta Eta].
  unfold active in Eta, Ha.
  destruct (find_table_spec hashmap hv k ksz (hindex hashmap) ta Ha Eta
              (active_not_full s _ _ _ _ _ ta Hs Hwf Eta))
    as [[pos [F [Hpos HM]]] | [F HN]].
  - left. exists pos, (hindex hashmap), ta.
    split; [|repeat split; auto; apply Hpos].
    unfold hashmap_find. rewrite while3_break with (r := Some (Some (pos, psl (ta pos), hindex hashmap))).
    + reflexivity.
    + rewrite F. reflexivity.
  - assert (Ca : cnt_tb (fun x => hashmap_match x hv k ksz
                                   (case_sensitive hashmap))
                   (active hashmap) = 0).
    { unfold active. rewrite (cnt_tb_some _ _ _ Eta). apply cnt_none. exact HN. }
    destruct Hst as [(Eo & _ & _) | (Hsrc & _)].
    + right. split.
      * unfold hashmap_find. rewrite while3_break with (r := Some None).
        -- reflexivity.
        -- rewrite F. unfold try_nexttable.
           rewrite (rehashing_false _ Eo), andb_false_r. reflexivity.
      * unfold cntm. rewrite Ca, Eo, cnt_tb_none. reflexivity.
    + pose proof Hsrc as (Ho & Hob & _).
      destruct (table_wf_some _ Ho) as [to Eto].
      unfold other in Eto, Ho.
      assert (Htry : try_nexttable hashmap (hindex hashmap) = true).
      { unfold try_nexttable. rewrite Z.eqb_refl.
        apply rehashing_true. exact Ho. }
      assert (Htry' : try_nexttable hashmap
                        (hashmap_nexttable (hindex hashmap)) = false).
      { unfold try_nexttable.
        destruct (nexttable_cases _ Hidx) as (_ & Hne & _).
        destruct (Z.eqb_spec (hashmap_nexttable (hindex hashmap))
                    (hindex hashmap)); [contradiction|reflexivity]. }
      destruct (find_table_spec hashmap hv k ksz
                  (hashmap_nexttable (hindex hashmap)) to Ho Eto
                  (source_not_32 _ _ to Hsrc))
        as [[pos [F' [Hpos HM]]] | [F' HN']].
      * left. exists pos, (hashmap_nexttable (hindex hashmap)), to.
        split; [|repeat split; auto; apply Hpos].
        unfold hashmap_find.
        rewrite while3_continue_break
          with (s' := hashmap_nexttable (hindex hashmap))
               (r := Some (Some (pos, psl (to pos),
                                 hashmap_nexttable (hindex hashmap)))).
        -- reflexivity.
        -- rewrite F, Htry. reflexivity.
        -- rewrite F'. reflexivity.
      * right. split.
        -- unfold hashmap_find.
           rewrite while3_continue_break
             with (s' := hashmap_nexttable (hindex hashmap)) (r := Some None).
           ++ reflexivity.
           ++ rewrite F, Htry. reflexivity.
           ++ rewrite F', Htry'. reflexivity.
        -- unfold cntm. rewrite Ca. unfold other.
           rewrite (cnt_tb_some _ _ _ Eto). rewrite cnt_none; [reflexivity|].
           exact HN'.
Qed.

(** [hashmap_find] on the source table alone. *)
Lemma hashmap_find_other_spec (s : Z) (hashmap : isc_hashmap) (hv : Z)
  (k : list Z) (ksz : Z) :
  0 <= s -> wf_slack s hashmap -> source_ok (hiter hashmap) (other hashmap) ->
  (exists pos t,
     hashmap_find hashmap hv k ksz (hashmap_nexttable (hindex hashmap))
       = Some (Some (pos, psl (t pos), hashmap_nexttable (hindex hashmap))) /\
     table (other hashmap) = Some t /\
     0 <= pos < size (other hashmap) /\
     hashmap_match (t pos) hv k ksz (case_sensitive hashmap) = true)
  \/
  (hashmap_find hashmap hv k ksz (hashmap_nexttable (hindex hashmap))
     = Some None /\
   cnt_tb (fun x => hashmap_match x hv k ksz (case_sensitive hashmap))
     (other hashmap) = 0).
Proof.
  intros Hs [Hidx Hwf] Hsrc.
  pose proof Hsrc as (Ho & Hob & _).
  destruct (table_wf_some _ Ho) as [to Eto].
  unfold other in *.
  assert (Htry' : try_nexttable hashmap
                    (hashmap_nexttable (hindex hashmap)) = false).
  { unfold try_nexttable.
    destruct (nexttable_cases _ Hidx) as (_ & Hne & _).
    destruct (Z.eqb_spec (hashmap_nexttable (hindex hashmap))
                (hindex hashmap)); [contradiction|reflexivity]. }
  destruct (find_table_spec hashmap hv k ksz
              (hashmap_nexttable (hindex hashmap)) to Ho Eto
              (source_not_32 _ _ to Hsrc))
    as [[pos [F' [Hpos HM]]] | [F' HN']].
  - left. exists pos, to. split; [|repeat split; auto; apply Hpos].
    unfold hashmap_find.
    rewrite while3_break
      with (r := Some (Some (pos, psl (to pos),
                             hashmap_nexttable (hindex hashmap)))).
    + reflexivity.
    + rewrite F'. reflexivity.
  - right. split.
    + unfold hashmap_find. rewrite while3_break with (r := Some None).
      * reflexivity.
      * rewrite F', Htry'. reflexivity.
    + rewrite (cnt_tb_some _ _ _ Eto). apply cnt_none. exact HN'.
Qed.

(** ** Moving one node: [hashmap_rehash_one] *)

Lemma rehash_skip_loop (t : Z -> hashmap_node) (n : Z) :
  n < 4294967296 ->
  forall (m : nat) (h : Z),
    0 <= h -> h + Z.of_nat m = n ->
    exists h',
      while_nat (rehash_skip_body (Some t) n) (Datatypes.S m) h
        = Break (Some h') /\
      h <= h' <= n /\
      (forall p, h <= p < h' -> key_is_null (t p) = true) /\
      (h' < n -> key_is_null (t h') = false).
Proof.
  intros Hn. induction m as [|m IH]; intros h Hh Hm.
  - cbn [while_nat]. unfold rehash_skip_body.
    destruct (Z.ltb_spec h n); [lia|].
    exists h. split; [reflexivity|]. split; [lia|]. split; intros; lia.
  - cbn [while_nat]. unfold rehash_skip_body at 1.
    destruct (Z.ltb_spec h n); [|lia].
    destruct (key_is_null (t h)) eqn:En.
    + rewrite u32_small by lia.
      destruct (IH (h + 1)) as [h' [W [Hh' [Hnull Hnn]]]]; [lia|lia|].
      exists h'. split; [exact W|]. split; [lia|]. split; [|exact Hnn].
      intros p Hp. destruct (Z.eq_dec p h) as [->|Hne]; [exact En|].
      apply Hnull. lia.
    + exists h. split; [reflexivity|]. split; [lia|].
      split; [intros; lia|]. intros _. exact En.
Qed.

Lemma rehash_skip_spec (t : Z -> hashmap_node) (n h : Z) :
  n < 4294967296 -> 0 <= h <= n ->
  exists h',
    while 4294967297 (rehash_skip_body (Some t) n) h = Some (Some h') /\
    h <= h' <= n /\
    (forall p, h <= p < h' -> key_is_null (t p) = true) /\
    (h' < n -> key_is_null (t h') = false).
Proof.
  intros Hn Hh.
  destruct (rehash_skip_loop t n Hn (Z.to_nat (n - h)) h) as [h' [W H]];
    [lia|lia|].
  exists h'. split; [|exact H].
  apply (while_intro _ _ _ _ _ W). lia.
Qed.

Lemma table_wf_replace (tb : hashmap_table) (tf : Z -> hashmap_node) :
  table_wf tb ->
  slot_inv (hashbits tb) tf -> robin_inv (hashbits tb) tf ->
  has_stop (hashbits tb) tf ->
  table_wf (mk_table (size tb) (hashbits tb) (hashmask tb) (Some tf)).
Proof.
  intros (t & Et & Hb & Hsz & Hmask & _) HS HR Hst.
  exists tf. cbn.
  repeat (split; [first [reflexivity|assumption]|]). assumption.
Qed.

(** A fresh table is in order. *)
Lemma table_wf_fresh (bits : Z) :
  1 <= bits <= 32 ->
  table_wf (mk_table (HASHSIZE bits) bits (u32 (HASHSIZE bits - 1))
              (Some (fun _ => node_zero))).
Proof.
  intros Hb. exists (fun _ => node_zero). cbn.
  rewrite HASHSIZE_pow2 by lia.
  pose proof (pow2_pos bits ltac:(lia)). pose proof (pow2_le_32 bits ltac:(lia)).
  rewrite u32_small by lia.
  split; [reflexivity|]. split; [lia|]. split; [reflexivity|].
  split; [reflexivity|]. split; [|split].
  - intros p Hp. unfold slot_ok. cbn. discriminate.
  - intros p Hp. unfold robin_ok. cbn. discriminate.
  - exists 0. split; [lia|]. reflexivity.
Qed.

Lemma cnt_fresh (P : hashmap_node -> bool) (sz : Z) :
  P node_zero = false -> cnt P (fun _ => node_zero) sz = 0.
Proof. intros H. apply cnt_none. intros. exact H. Qed.

Lemma content_pred_zero (P : hashmap_node -> bool) :
  content_pred P -> P node_zero = false.
Proof. intros [_ H]. apply H. reflexivity. Qed.

Lemma content_pred_occupied : content_pred occupied.
Proof.
  split; [exact occupied_blind|]. intros x H. unfold occupied. rewrite H.
  reflexivity.
Qed.

Lemma content_pred_match (hv : Z) (k : list Z) (ksz : Z) (cs : bool) :
  content_pred (fun x => hashmap_match x hv k ksz cs).
Proof.
  split; [apply match_blind|]. intros x H.
  destruct (hashmap_match x hv k ksz cs) eqn:E; [|reflexivity].
  apply match_not_null in E. congruence.
Qed.

Lemma content_pred_match_value (hv : Z) (k : list Z) (ksz : Z) (cs : bool)
  (v : Z) :
  content_pred (fun x => hashmap_match x hv k ksz cs && (value x =? v)).
Proof.
  split; [apply match_value_blind|]. intros x H.
  rewrite (proj2 (content_pred_match hv k ksz cs) x H). reflexivity.
Qed.

Lemma nexttable_eqb1 (h : Z) :
  h = 0 \/ h = 1 -> (h =? hashmap_nexttable h) = false.
Proof. intros [->| ->]; reflexivity. Qed.

Lemma nexttable_eqb2 (h : Z) :
  h = 0 \/ h = 1 -> (hashmap_nexttable h =? h) = false.
Proof. intros [->| ->]; reflexivity. Qed.

(** Reads the fields off a map built by stores; [H] says that [hindex] is 0
    or 1. *)
Ltac parts H :=
  unfold active, other;
  cbn [hindex hiter count case_sensitive tables hash_key set_tables
       set_table set_hiter set_count set_hindex];
  rewrite ?Z.eqb_refl, ?(nexttable_eqb1 _ H), ?(nexttable_eqb2 _ H);
  repeat match goal with
         | |- context [tables ?h (hashmap_nexttable (hindex ?h))] =>
             fold (other h)
         | |- context [tables ?h (hindex ?h)] => fold (active h)
         end.
(** ** One step of the incremental rehash *)

Lemma set_psl_init (x : hashmap_node) (kx : list Z) :
  key x = Some kx ->
  mk_node (Some kx) (value x) (hashval x) 0 (keysize x) = set_psl x 0.
Proof. intros E. destruct x. cbn in *. subst. reflexivity. Qed.

Lemma rehash_one_full (hashmap : isc_hashmap) :
  wf_slack 0 hashmap -> source_ok (hiter hashmap) (other hashmap) ->
  exists hashmap',
    hashmap_rehash_one hashmap = Some hashmap' /\
    (cnt_tb occupied (other hashmap) = 0 /\
     rehashing_in_progress hashmap' = false
     \/
     rehashing_in_progress hashmap' = true /\
     cnt_tb occupied (other hashmap')
     = cnt_tb occupied (other hashmap) - 1) /\
    wf_slack 1 hashmap' /\
    same_contents hashmap hashmap' /\
    count hashmap' = count hashmap /\
    hindex hashmap' = hindex hashmap /\
    hashbits (active hashmap') = hashbits (active hashmap).
Proof.
  intros [Hidx Hwf] Hsrc.
  destruct Hwf as (Ha & Hst & Hc & Hocc & Huniq).
  pose proof Hsrc as (Ho & Hob & Hh & Hbelow).
  destruct Hst as [(Eo & _) | (_ & Hmax)].
  { exfalso. rewrite Eo in Ho. destruct Ho as [t [E _]]. discriminate. }
  destruct (table_wf_some _ Ha) as [ta Eta].
  destruct (table_wf_some _ Ho) as [to Eto].
  destruct (table_wf_inv _ _ Ha Eta) as (Hba & Hsza & Hmaska & HSa & HRa & Hsta).
  destruct (table_wf_inv _ _ Ho Eto) as (Hbo & Hszo & Hmasko & HSo & HRo & Hsto).
  pose proof (max_count_le _ Hba) as Hmle.
  pose proof (pow2_le_32 (hashbits (active hashmap)) ltac:(lia)) as Hna32.
  assert (Hno : 2 ^ hashbits (other hashmap) <= 2147483648).
  { change 2147483648 with (2 ^ 31). apply Z.pow_le_mono_r; lia. }
  pose proof (pow2_pos (hashbits (other hashmap)) ltac:(lia)) as Hno0.
  pose proof (cnt_tb_nonneg occupied (other hashmap)) as Hoo.
  pose proof (cnt_tb_nonneg occupied (active hashmap)) as Hao.
  unfold hashmap_rehash_one. cbv zeta.
  fold (other hashmap). rewrite Eto, Hszo.
  rewrite (u32_small (2 ^ hashbits (other hashmap))) by lia.
  destruct (rehash_skip_spec to (2 ^ hashbits (other hashmap)) (hiter hashmap))
    as [h' [W [Hh' [Hnull Hnn]]]]; [lia|lia|].
  rewrite W. cbn [bind].
  destruct (Z.eqb_spec h' (2 ^ hashbits (other hashmap))) as [Eh|Nh].
  - (* the source table is empty: rehashing is complete *)
    unfold hashmap_free_table. cbn [bind].
    eexists. split; [reflexivity|].
    unfold wf_slack, same_contents, cntm, rehashing_in_progress.
    parts Hidx.
    assert (Hempty : forall P, content_pred P ->
                       cnt_tb P (other hashmap) = 0).
    { intros P [_ HP]. rewrite (cnt_tb_some _ _ _ Eto), Hszo.
      apply cnt_none. intros p Hp. apply HP.
      destruct (Z_lt_le_dec p (hiter hashmap)).
      - apply (Hbelow to p Eto). lia.
      - apply Hnull. lia. }
    pose proof (Hempty occupied content_pred_occupied) as Eocc.
    split; [left; split; [exact Eocc|reflexivity]|].
    split; [split; [assumption|]|].
    + unfold wf_parts. split; [assumption|].
      split; [left; repeat split; lia|].
      split; [assumption|]. rewrite cnt_tb_none.
      split; [lia|]. intros hv k ksz. specialize (Huniq hv k ksz).
      rewrite (Hempty _ (content_pred_match hv k ksz _)) in Huniq. exact Huniq.
    + split; [split; [reflexivity|split; [reflexivity|]]|auto].
      intros P HP. rewrite (Hempty P HP), cnt_tb_none. reflexivity.
  - (* the node at [h'] moves to the active table *)
    assert (Hh'n : h' < 2 ^ hashbits (other hashmap)) by lia.
    specialize (Hnn Hh'n).
    cbn [bind]. change (tables (set_hiter hashmap h')) with (tables hashmap).
    fold (other hashmap). rewrite Hszo.
    destruct (Z.ltb_spec h' (2 ^ hashbits (other hashmap))); [|lia].
    cbn [REQUIRE bind].
    set (x := to h') in *.
    destruct (HSo h' ltac:(lia) Hnn) as (HxD & Hxpos & Hxk).
    destruct (key_is_null_false _ Hnn) as [kx Ekx].
    assert (Hxocc : 1 <= cnt_tb occupied (other hashmap)).
    { rewrite (cnt_tb_some _ _ _ Eto), Hszo.
      apply (cnt_ge1 occupied to _ h'); [lia|].
      apply occupied_true. exact Hnn. }
    destruct (hashmap_delete_node_spec (set_hiter hashmap h') h' (hashval x)
                (psl x) (hashmap_nexttable (hindex hashmap)) to)
      as [tfo [Edel Hdel]]; try assumption; try reflexivity.
    + change (tables (set_hiter hashmap h')) with (tables hashmap).
      fold (other hashmap). lia.
    + cbn [count set_hiter]. pose proof (max_count_lt _ Hba). lia.
    + change (hindex (set_hiter hashmap h')) with (hindex hashmap) in *.
      rewrite Edel. cbn [bind]. rewrite Ekx. cbn [bind].
      set (hm1 := set_table
         (set_count (set_hiter hashmap h') (count (set_hiter hashmap h') - 1))
         (hashmap_nexttable (hindex hashmap)) tfo) in *.
      assert (Ea1 : tables hm1 (hindex hm1) = active hashmap).
      { unfold hm1. parts Hidx. reflexivity. }
      change (tables (set_hiter hashmap h')) with (tables hashmap) in Hdel.
      fold (other hashmap) in Hdel.
      destruct Hdel as (HSf & HRf & Hstf & Hnullf & Hcntf).
      assert (Hocc_a : cnt occupied ta (2 ^ hashbits (active hashmap))
                       < 2 ^ hashbits (active hashmap)).
      { rewrite (cnt_tb_some _ _ _ Eta), Hsza in Hocc.
        pose proof (max_count_le _ Hba).
        pose proof (cnt_tb_nonneg occupied (other hashmap)). lia. }
      destruct (hashmap_add_success hm1 (hashval x) kx (keysize x) (value x)
                  (hindex hm1) ta) as [tfa [Eadd Hadd]].
      * rewrite Ea1. assumption.
      * rewrite Ea1. assumption.
      * exact Hxk.
      * rewrite Ea1, Hsza. intros p Hp.
        destruct (hashmap_match (ta p) (hashval x) kx (keysize x)
                    (case_sensitive hm1)) eqn:EM; [|reflexivity].
        exfalso.
        change (case_sensitive hm1) with (case_sensitive hashmap) in EM.
        specialize (Huniq (hashval x) kx (keysize x)).
        rewrite (cnt_tb_some _ _ _ Eta), (cnt_tb_some _ _ _ Eto), Hsza, Hszo
          in Huniq.
        pose proof (cnt_ge1 (fun x0 => hashmap_match x0 (hashval x) kx
                      (keysize x) (case_sensitive hashmap)) ta _ p Hp EM).
        assert (Hself : hashmap_match x (hashval x) kx (keysize x)
                          (case_sensitive hashmap) = true).
        { apply match_self; assumption. }
        pose proof (cnt_ge1 (fun x0 => hashmap_match x0 (hashval x) kx
                      (keysize x) (case_sensitive hashmap)) to
                      (2 ^ hashbits (other hashmap)) h'
                      ltac:(lia) Hself).
        lia.
      * rewrite Ea1, Hsza. exact Hocc_a.
      * unfold hm1. cbn [count set_table set_tables set_count set_hiter].
        pose proof (max_count_lt _ Hba). lia.
      * rewrite Eadd. cbn [bind isc_result_eqb REQUIRE].
        eexists. split; [reflexivity|].
        rewrite Ea1 in Hadd. destruct Hadd as (HSg & HRg & Hstg & Hcntg).
        rewrite (set_psl_init x kx Ekx) in Hcntg.
        assert (Ea2 : active (set_table (set_count hm1 (count hm1 + 1))
                                (hindex hm1) tfa)
                      = mk_table (size (active hashmap))
                          (hashbits (active hashmap))
                          (hashmask (active hashmap)) (Some tfa)).
        { unfold hm1. parts Hidx. reflexivity. }
        assert (Eo2 : other (set_table (set_count hm1 (count hm1 + 1))
                               (hindex hm1) tfa)
                      = mk_table (size (other hashmap))
                          (hashbits (other hashmap))
                          (hashmask (other hashmap)) (Some tfo)).
        { unfold hm1. parts Hidx. reflexivity. }
        assert (Hsum : forall P, content_pred P ->
                  cnt_tb P (mk_table (size (active hashmap))
                          (hashbits (active hashmap))
                          (hashmask (active hashmap)) (Some tfa))
                  + cnt_tb P (mk_table (size (other hashmap))
                          (hashbits (other hashmap))
                          (hashmask (other hashmap)) (Some tfo))
                  = cnt_tb P (active hashmap) + cnt_tb P (other hashmap)).
        { intros P HP. unfold cnt_tb at 1 2. cbn [table size].
          rewrite (cnt_tb_some _ _ _ Eta), (cnt_tb_some _ _ _ Eto), Hsza, Hszo.
          rewrite (Hcntg P HP), (Hcntf P HP). rewrite (proj1 HP x 0).
          fold x. lia. }
        assert (Hocc_o : cnt_tb occupied (mk_table (size (other hashmap))
                          (hashbits (other hashmap))
                          (hashmask (other hashmap)) (Some tfo))
                         = cnt_tb occupied (other hashmap) - 1).
        { unfold cnt_tb at 1. cbn [table size].
          rewrite (cnt_tb_some _ _ _ Eto), Hszo.
          rewrite (Hcntf _ content_pred_occupied). fold x.
          rewrite (proj2 (occupied_true x) Hnn). reflexivity. }
        split.
        { right. rewrite Eo2. split; [|exact Hocc_o].
          unfold rehashing_in_progress.
          change (tables ?h (hashmap_nexttable (hindex ?h))) with (other h).
          rewrite Eo2. reflexivity. }
        unfold wf_slack, same_contents, cntm. rewrite Ea2, Eo2.
        unfold hm1.
        cbn [hindex hiter count case_sensitive set_tables set_table set_hiter
             set_count hashbits].
        split; [split; [assumption|]|].
        -- unfold wf_parts. cbn [hashbits].
           split; [apply table_wf_replace; assumption|].
           split.
           { right. split.
             - split; [apply table_wf_replace; assumption|].
               cbn [hashbits size table]. split; [lia|]. split; [lia|].
               intros t p Et Hp. injection Et as <-. apply Hnullf.
               destruct (Z_lt_le_dec p (hiter hashmap)).
               + apply (Hbelow to p Eto). lia.
               + apply Hnull. lia.
             - rewrite Hocc_o. lia. }
           split; [lia|]. split.
           { rewrite (Hsum _ content_pred_occupied). lia. }
           intros hv k ksz.
           rewrite (Hsum _ (content_pred_match hv k ksz _)). apply Huniq.
        -- split; [split; [reflexivity|split; [reflexivity|]]|].
           { intros P HP. rewrite (Hsum P HP). reflexivity. }
           split; [lia|]. split; reflexivity.
Qed.

Lemma rehash_one_spec (hashmap : isc_hashmap) :
  wf_slack 0 hashmap -> source_ok (hiter hashmap) (other hashmap) ->
  exists hashmap',
    hashmap_rehash_one hashmap = Some hashmap' /\
    wf_slack 1 hashmap' /\
    same_contents hashmap hashmap' /\
    count hashmap' = count hashmap /\
    hindex hashmap' = hindex hashmap /\
    hashbits (active hashmap') = hashbits (active hashmap).
Proof.
  intros W Hsrc.
  destruct (rehash_one_full hashmap W Hsrc) as (hm' & E & _ & H).
  exists hm'. split; [exact E|exact H].
Qed.
(** ** Sizing *)

Lemma grow_target_unique (b c n n' : Z) :
  grow_target b c n -> grow_target b c n' -> n = n'.
Proof.
  intros (H1 & H2 & H3) (H1' & H2' & H3').
  destruct (Z.lt_trichotomy n n') as [L|[E|L]]; [|exact E|].
  - specialize (H3' n ltac:(lia)). lia.
  - specialize (H3 n' ltac:(lia)). lia.
Qed.

Lemma APPROX_40_pow2 (n : Z) :
  0 <= n <= 40 -> APPROX_40_PERCENT (HASHSIZE n) = 2 ^ n * 409 / 1024.
Proof.
  intros Hn. rewrite HASHSIZE_pow2 by lia.
  apply APPROX_40_eq. pose proof (pow2_le_40 n Hn). lia.
Qed.

Lemma grow_loop (b c : Z) :
  0 <= b -> c <= 4294967296 ->
  forall (k : nat) (n : Z),
    b < n -> n + Z.of_nat k = 40 ->
    (forall m, b < m < n -> APPROX_40_PERCENT (HASHSIZE m) < c) ->
    exists n', n <= n' <= 40 /\
      while_nat (grow_bits_body c) (Datatypes.S k) n = Break (Some n') /\
      grow_target b c n'.
Proof.
  intros Hb Hc. induction k as [|k IH]; intros n Hn Hk Hlow.
  - assert (n = 40) by lia. subst n. exists 40.
    split; [lia|]. cbn [while_nat]. unfold grow_bits_body.
    destruct (Z.leb_spec 64 40); [lia|].
    assert (E : APPROX_40_PERCENT (HASHSIZE 40) = 439160406016)
      by reflexivity.
    rewrite E. destruct (Z.ltb_spec 439160406016 c); [lia|].
    split; [reflexivity|]. split; [lia|]. split; [lia|]. exact Hlow.
  - cbn [while_nat]. unfold grow_bits_body at 1.
    destruct (Z.leb_spec 64 n); [lia|].
    destruct (Z.ltb_spec (APPROX_40_PERCENT (HASHSIZE n)) c) as [Hlt|Hge].
    + rewrite u32_small by lia.
      destruct (IH (n + 1)) as [n' (Hn' & W & HT)]; [lia|lia| |].
      * intros m Hm. destruct (Z.eq_dec m n) as [->|]; [exact Hlt|].
        apply Hlow. lia.
      * exists n'. split; [lia|]. split; [exact W|exact HT].
    + exists n. split; [lia|]. split; [reflexivity|].
      split; [lia|]. split; [lia|]. exact Hlow.
Qed.

Lemma grow_bits_spec (hashmap : isc_hashmap) :
  1 <= hashbits (active hashmap) <= 32 -> count hashmap <= 4294967296 ->
  exists n,
    grow_target (hashbits (active hashmap)) (count hashmap) n /\
    n <= 40 /\
    grow_bits hashmap = Some (Z.min n 32).
Proof.
  intros Hb Hc. unfold grow_bits. cbv zeta. fold (active hashmap).
  rewrite u32_small by lia.
  destruct (grow_loop (hashbits (active hashmap)) (count hashmap)
              ltac:(lia) Hc
              (Z.to_nat (40 - (hashbits (active hashmap) + 1)))
              (hashbits (active hashmap) + 1))
    as [n (Hn & W & HT)]; [lia|lia|intros m Hm; lia|].
  exists n. split; [exact HT|]. split; [lia|].
  rewrite (while_intro _ 65 _ _ _ W) by lia.
  cbn [bind]. unfold HASHMAP_MAX_BITS.
  destruct (Z.ltb_spec 32 n); f_equal; lia.
Qed.

(** What the least width gives: room for twice the entries and one. *)
Lemma grow_target_room (b c n : Z) :
  1 <= b <= 31 -> 0 <= c <= max_count b -> grow_target b c n -> n <= 40 ->
  2 * c + 1 <= max_count (Z.min n 32).
Proof.
  intros Hb Hc (Hn & Hle & _) Hn40.
  assert (Hcb : c <= 1931476993).
  { rewrite max_count_lt32 in Hc by lia.
    assert (2 ^ b <= 2 ^ 31) by (apply Z.pow_le_mono_r; lia).
    change (2 ^ 31) with 2147483648 in *.
    assert (2 ^ b * 921 / 1024 <= 2147483648 * 921 / 1024)
      by (apply Z.div_le_mono; lia).
    change (2147483648 * 921 / 1024) with 1931476992 in *. lia. }
  destruct (Z_lt_le_dec n 32) as [L|G].
  - rewrite Z.min_l by lia. rewrite max_count_lt32 by lia.
    rewrite APPROX_40_pow2 in Hle by lia.
    pose proof (pow2_pos n ltac:(lia)).
    generalize dependent (2 ^ n). intros x Hle Hx.
    Z.div_mod_to_equations. lia.
  - rewrite Z.min_r by lia. rewrite max_count_32. unfold UINT32_MAX. lia.
Qed.

(** A map that is not rehashing has only its active table. *)
Lemma wf_steady (s : Z) (hashmap : isc_hashmap) :
  wf_slack s hashmap -> rehashing_in_progress hashmap = false ->
  other hashmap = table_none /\ hiter hashmap = 0 /\
  count hashmap + s <= max_count (hashbits (active hashmap)).
Proof.
  intros [_ (_ & [H | [Hsrc _]] & _)] R; [exact H|].
  destruct Hsrc as [Ho _]. rewrite (rehashing_true _ Ho) in R. discriminate.
Qed.

Lemma wf_rehashing (s : Z) (hashmap : isc_hashmap) :
  wf_slack s hashmap -> rehashing_in_progress hashmap = true ->
  source_ok (hiter hashmap) (other hashmap).
Proof.
  intros [_ (_ & [[H _] | [Hsrc _]] & _)] R; [|exact Hsrc].
  rewrite (rehashing_false _ H) in R. discriminate.
Qed.

Lemma create_table_spec (hashmap : isc_hashmap) (nb : Z) :
  other hashmap = table_none -> 1 <= nb <= 32 ->
  hashmap_create_table hashmap (hashmap_nexttable (hindex hashmap)) (u8 nb)
  = Some (set_tables hashmap (hashmap_nexttable (hindex hashmap))
            (mk_table (HASHSIZE nb) nb (u32 (HASHSIZE nb - 1))
               (Some (fun _ => node_zero)))).
Proof.
  intros Eo Hnb. unfold hashmap_create_table. fold (other hashmap).
  rewrite Eo. cbn [hashbits table table_none]. rewrite u8_small by lia.
  unfold HASHMAP_NO_BITS, HASHMAP_MIN_BITS, HASHMAP_MAX_BITS.
  cbn [Z.eqb negb REQUIRE bind].
  destruct (Z.leb_spec 1 nb); [|lia]. destruct (Z.leb_spec nb 32); [|lia].
  reflexivity.
Qed.

Lemma installed_active (hashmap : isc_hashmap) (nb : Z) :
  active (installed hashmap nb)
  = mk_table (HASHSIZE nb) nb (u32 (HASHSIZE nb - 1))
      (Some (fun _ => node_zero)).
Proof.
  unfold installed, active.
  cbn [hindex tables set_hindex set_tables]. rewrite Z.eqb_refl. reflexivity.
Qed.

Lemma installed_other (hashmap : isc_hashmap) (nb : Z) :
  hindex hashmap = 0 \/ hindex hashmap = 1 ->
  other (installed hashmap nb) = active hashmap.
Proof.
  intros Hidx. unfold installed, active, other.
  cbn [hindex tables set_hindex set_tables].
  destruct (nexttable_cases _ Hidx) as (_ & _ & ->).
  rewrite (nexttable_eqb1 _ Hidx). reflexivity.
Qed.

Lemma cnt_tb_fresh (P : hashmap_node -> bool) (nb : Z) :
  content_pred P ->
  cnt_tb P (mk_table (HASHSIZE nb) nb (u32 (HASHSIZE nb - 1))
              (Some (fun _ => node_zero))) = 0.
Proof.
  intros HP. unfold cnt_tb. cbn [table size]. apply cnt_fresh.
  apply content_pred_zero. exact HP.
Qed.

(** Installing an empty table starts a rehash and keeps the contents. *)
Lemma installed_wf (hashmap : isc_hashmap) (nb : Z) :
  wf_slack 0 hashmap -> rehashing_in_progress hashmap = false ->
  1 <= nb <= 32 -> hashbits (active hashmap) <= 31 ->
  2 * count hashmap + 1 <= max_count nb ->
  wf_slack 0 (installed hashmap nb) /\
  source_ok (hiter (installed hashmap nb)) (other (installed hashmap nb)) /\
  same_contents hashmap (installed hashmap nb).
Proof.
  intros Hwf R Hnb Hb Hroom.
  destruct (wf_steady _ _ Hwf R) as (Eo & Eh & _).
  destruct Hwf as [Hidx (Ha & _ & Hc & Hocc & Huniq)].
  rewrite Eo, cnt_tb_none in Hocc.
  assert (Hsrc : source_ok (hiter (installed hashmap nb))
                   (other (installed hashmap nb))).
  { rewrite (installed_other _ _ Hidx).
    change (hiter (installed hashmap nb)) with (hiter hashmap). rewrite Eh.
    split; [exact Ha|]. split; [exact Hb|].
    destruct (table_wf_some _ Ha) as [ta Eta].
    destruct (table_wf_inv _ _ Ha Eta) as (Hba & Hsza & _).
    split; [pose proof (pow2_pos (hashbits (active hashmap))); lia|].
    intros t p _ Hp. lia. }
  split; [|split; [exact Hsrc|]].
  - split.
    + destruct (nexttable_cases _ Hidx) as (H & _). exact H.
    + unfold wf_parts. rewrite installed_active, (installed_other _ _ Hidx).
      change (count (installed hashmap nb)) with (count hashmap).
      change (case_sensitive (installed hashmap nb))
        with (case_sensitive hashmap).
      cbn [hashbits].
      split; [apply table_wf_fresh; exact Hnb|].
      split.
      { right. split.
        - rewrite (installed_other _ _ Hidx) in Hsrc. exact Hsrc.
        - lia. }
      split; [exact Hc|].
      split.
      { rewrite (cnt_tb_fresh _ _ content_pred_occupied). lia. }
      intros hv k ksz. rewrite (cnt_tb_fresh _ _ (content_pred_match _ _ _ _)).
      specialize (Huniq hv k ksz). rewrite Eo, cnt_tb_none in Huniq. lia.
  - split; [reflexivity|]. split; [reflexivity|].
    intros P HP. unfold cntm.
    rewrite installed_active, (installed_other _ _ Hidx), Eo, cnt_tb_none.
    rewrite (cnt_tb_fresh _ _ HP). lia.
Qed.

Lemma over_threshold_true (hashmap : isc_hashmap) :
  over_threshold hashmap = true ->
  hashbits (active hashmap) <> 32 /\
  APPROX_90_PERCENT (HASHSIZE (hashbits (active hashmap))) < count hashmap.
Proof.
  unfold over_threshold. cbv zeta. fold (active hashmap).
  unfold HASHMAP_MAX_BITS.
  destruct (Z.eqb_spec (hashbits (active hashmap)) 32); [discriminate|].
  intros H. apply Z.ltb_lt in H. split; assumption.
Qed.

Lemma over_threshold_false (hashmap : isc_hashmap) :
  over_threshold hashmap = false ->
  hashbits (active hashmap) = 32 \/
  count hashmap <= APPROX_90_PERCENT (HASHSIZE (hashbits (active hashmap))).
Proof.
  unfold over_threshold. cbv zeta. fold (active hashmap).
  unfold HASHMAP_MAX_BITS.
  destruct (Z.eqb_spec (hashbits (active hashmap)) 32); [left; assumption|].
  intros H. apply Z.ltb_ge in H. right. assumption.
Qed.

Lemma under_threshold_true (hashmap : isc_hashmap) :
  under_threshold hashmap = true ->
  hashbits (active hashmap) <> 1 /\
  count hashmap < APPROX_20_PERCENT (HASHSIZE (hashbits (active hashmap))).
Proof.
  unfold under_threshold. cbv zeta. fold (active hashmap).
  unfold HASHMAP_MIN_BITS.
  destruct (Z.eqb_spec (hashbits (active hashmap)) 1); [discriminate|].
  intros H. apply Z.ltb_lt in H. split; assumption.
Qed.

Lemma wf_bits (s : Z) (hashmap : isc_hashmap) :
  wf_slack s hashmap -> 1 <= hashbits (active hashmap) <= 32.
Proof.
  intros [_ (Ha & _)]. destruct (table_wf_some _ Ha) as [t Et].
  destruct (table_wf_inv _ _ Ha Et) as (H & _). exact H.
Qed.

Lemma wf_count (hashmap : isc_hashmap) :
  wf_slack 0 hashmap ->
  0 <= count hashmap <= max_count (hashbits (active hashmap)).
Proof.
  intros [_ Hwf]. pose proof (wf_parts_count_le 0 _ _ _ _ _ ltac:(lia) Hwf).
  destruct Hwf as (_ & _ & Hc & _). lia.
Qed.

(** [hashmap_rehash_start_grow] on a map over its threshold. *)
Lemma start_grow_spec (hashmap : isc_hashmap) :
  wf_slack 0 hashmap -> rehashing_in_progress hashmap = false ->
  over_threshold hashmap = true ->
  exists n,
    grow_target (hashbits (active hashmap)) (count hashmap) n /\
    hashmap_rehash_start_grow hashmap
    = Some (installed hashmap (Z.min n 32)) /\
    wf_slack 0 (installed hashmap (Z.min n 32)) /\
    source_ok (hiter (installed hashmap (Z.min n 32)))
      (other (installed hashmap (Z.min n 32))) /\
    same_contents hashmap (installed hashmap (Z.min n 32)).
Proof.
  intros Hwf R Hover.
  pose proof (wf_bits _ _ Hwf) as Hb. pose proof (wf_count _ Hwf) as Hc.
  destruct (over_threshold_true _ Hover) as [Hne _].
  pose proof (max_count_lt _ Hb) as Hm.
  destruct (grow_bits_spec hashmap Hb ltac:(lia)) as [n (HT & Hn & G)].
  exists n. split; [exact HT|].
  pose proof HT as (Hbn & _).
  assert (Hb31 : 1 <= hashbits (active hashmap) <= 31) by lia.
  pose proof (grow_target_room _ _ n Hb31 Hc HT Hn) as Hroom.
  destruct (wf_steady _ _ Hwf R) as (Eo & _).
  split.
  - unfold hashmap_rehash_start_grow. cbv zeta. rewrite R.
    cbn [negb REQUIRE bind]. rewrite G. cbn [bind].
    fold (active hashmap).
    destruct (Z.ltb_spec (hashbits (active hashmap)) (Z.min n 32)); [|lia].
    rewrite create_table_spec by (try assumption; lia). reflexivity.
  - apply installed_wf; try assumption; lia.
Qed.

Lemma shrink_room (b c : Z) :
  2 <= b <= 32 -> 0 <= c < APPROX_20_PERCENT (HASHSIZE b) ->
  2 * c + 1 <= max_count (b - 1).
Proof.
  intros Hb Hc. rewrite HASHSIZE_pow2 in Hc by lia.
  rewrite APPROX_20_eq in Hc
    by (pose proof (pow2_le_40 b ltac:(lia)); lia).
  rewrite max_count_lt32 by lia.
  replace (2 ^ b) with (2 * 2 ^ (b - 1)) in Hc
    by (rewrite <- Z.pow_succ_r by lia; f_equal; lia).
  pose proof (pow2_pos (b - 1) ltac:(lia)).
  generalize dependent (2 ^ (b - 1)). intros x Hx Hx0.
  Z.div_mod_to_equations. lia.
Qed.

Lemma shrink_bits_eq (hashmap : isc_hashmap) :
  1 <= hashbits (active hashmap) <= 32 ->
  shrink_bits hashmap = Z.max (hashbits (active hashmap) - 1) 1.
Proof.
  intros Hb. unfold shrink_bits. cbv zeta. fold (active hashmap).
  destruct (Z.eq_dec (hashbits (active hashmap)) 1) as [E|E].
  - rewrite E. reflexivity.
  - rewrite u32_small by lia. unfold HASHMAP_MIN_BITS.
    destruct (Z.leb_spec (hashbits (active hashmap) - 1) 1); lia.
Qed.

(** [hashmap_rehash_start_shrink] on a map under its threshold. *)
Lemma start_shrink_eq (hashmap : isc_hashmap) :
  wf_slack 0 hashmap -> rehashing_in_progress hashmap = false ->
  under_threshold hashmap = true ->
  hashmap_rehash_start_shrink hashmap
  = Some (installed hashmap (hashbits (active hashmap) - 1)).
Proof.
  intros Hwf R Hunder.
  pose proof (wf_bits _ _ Hwf) as Hb.
  destruct (under_threshold_true _ Hunder) as [Hne Hlt].
  destruct (wf_steady _ _ Hwf R) as (Eo & _).
  unfold hashmap_rehash_start_shrink. cbv zeta. rewrite R.
  cbn [negb REQUIRE bind]. rewrite shrink_bits_eq by assumption.
  fold (active hashmap). rewrite Z.max_l by lia.
  destruct (Z.ltb_spec (hashbits (active hashmap) - 1)
              (hashbits (active hashmap))); [|lia].
  rewrite create_table_spec by (try assumption; lia). reflexivity.
Qed.

Lemma start_shrink_spec (hashmap : isc_hashmap) :
  wf_slack 0 hashmap -> rehashing_in_progress hashmap = false ->
  under_threshold hashmap = true ->
  hashbits (active hashmap) <= 31 ->
  wf_slack 0 (installed hashmap (hashbits (active hashmap) - 1)) /\
  source_ok (hiter (installed hashmap (hashbits (active hashmap) - 1)))
    (other (installed hashmap (hashbits (active hashmap) - 1))) /\
  same_contents hashmap (installed hashmap (hashbits (active hashmap) - 1)).
Proof.
  intros Hwf R Hunder H31.
  pose proof (wf_bits _ _ Hwf) as Hb. pose proof (wf_count _ Hwf) as Hc.
  destruct (under_threshold_true _ Hunder) as [Hne Hlt].
  apply installed_wf; try assumption; [lia|].
  apply shrink_room; lia.
Qed.

(** ** The step that [isc_hashmap_add] and [isc_hashmap_delete] take first *)

Lemma wf_slack_weaken (s s' : Z) (hashmap : isc_hashmap) :
  s' <= s -> wf_slack s hashmap -> wf_slack s' hashmap.
Proof.
  intros Hs [Hidx (Ha & Hst & Hrest)]. split; [exact Hidx|].
  split; [exact Ha|]. split; [|exact Hrest].
  destruct Hst as [(E1 & E2 & H) | (Hsrc & H)].
  - left. repeat split; try assumption. lia.
  - right. split; [assumption|lia].
Qed.

Lemma same_contents_refl (hashmap : isc_hashmap) :
  same_contents hashmap hashmap.
Proof. split; [reflexivity|]. split; reflexivity. Qed.

Lemma same_contents_trans (h1 h2 h3 : isc_hashmap) :
  same_contents h1 h2 -> same_contents h2 h3 -> same_contents h1 h3.
Proof.
  intros (A1 & A2 & A3) (B1 & B2 & B3).
  split; [congruence|]. split; [congruence|].
  intros P HP. rewrite (A3 P HP). apply B3. exact HP.
Qed.

Lemma add_prestep_spec (hashmap : isc_hashmap) :
  wf_slack 0 hashmap ->
  exists hashmap',
    add_prestep hashmap = Some hashmap' /\
    wf_slack 0 hashmap' /\
    (count hashmap < UINT32_MAX -> wf_slack 1 hashmap') /\
    same_contents hashmap hashmap' /\
    count hashmap' = count hashmap /\
    (rehashing_in_progress hashmap = false ->
     over_threshold hashmap = true ->
     exists n, grow_target (hashbits (active hashmap)) (count hashmap) n /\
               hashbits (active hashmap') = Z.min n 32) /\
    (rehashing_in_progress hashmap = true \/
     over_threshold hashmap = false ->
     hashbits (active hashmap') = hashbits (active hashmap)).
Proof.
  intros Hwf. unfold add_prestep.
  destruct (rehashing_in_progress hashmap) eqn:R.
  - destruct (rehash_one_spec hashmap Hwf (wf_rehashing _ _ Hwf R))
      as [hm' (E & W & S & C & _ & B)].
    exists hm'. split; [exact E|].
    split; [apply (wf_slack_weaken 1); [lia|exact W]|].
    split; [intros _; exact W|].
    repeat (split; [assumption|]).
    split; [discriminate|]. intros _. exact B.
  - destruct (over_threshold hashmap) eqn:O.
    + destruct (start_grow_spec hashmap Hwf R O)
        as [n (HT & E & W & Hsrc & S)].
      rewrite E. cbn [bind].
      destruct (rehash_one_spec _ W Hsrc) as [hm' (E' & W' & S' & C' & _ & B')].
      exists hm'. split; [exact E'|].
      split; [apply (wf_slack_weaken 1); [lia|exact W']|].
      split; [intros _; exact W'|].
      split; [exact (same_contents_trans _ _ _ S S')|].
      split; [exact C'|].
      split.
      * intros _ _. exists n. split; [exact HT|].
        rewrite B', installed_active. reflexivity.
      * intros [H|H]; discriminate.
    + exists hashmap. split; [reflexivity|]. split; [exact Hwf|].
      split.
      * intros Hc.
        destruct (wf_steady _ _ Hwf R) as (Eo & Eh & _).
        destruct Hwf as [Hidx (Ha & _ & Hrest)].
        split; [exact Hidx|]. split; [exact Ha|]. split; [|exact Hrest].
        left. split; [exact Eo|]. split; [exact Eh|].
        destruct (over_threshold_false _ O) as [E|L].
        -- rewrite E, max_count_32. lia.
        -- unfold max_count.
           destruct (hashbits (active hashmap) =? HASHMAP_MAX_BITS);
             [lia|lia].
      * split; [apply same_contents_refl|]. split; [reflexivity|].
        split; [discriminate|]. reflexivity.
Qed.

(** The defect of [hashmap_rehash_one]: the size of a table of 32 bits
    does not fit its [uint32_t oldsize], which reads 0, and the table is
    freed with its nodes in it. *)
Lemma rehash_one_32 (hashmap : isc_hashmap) :
  size (other hashmap) = 2 ^ 32 -> hiter hashmap = 0 ->
  hashmap_rehash_one hashmap
  = Some (set_hiter
            (set_tables (set_hiter hashmap 0)
               (hashmap_nexttable (hindex hashmap)) table_none) 0).
Proof.
  intros Hsz Hh. unfold hashmap_rehash_one. cbv zeta.
  fold (other hashmap). rewrite Hsz, Hh.
  change (u32 (2 ^ 32)) with 0.
  rewrite (while_intro _ 4294967297 1 0 (Some 0)).
  - cbn [bind Z.eqb]. unfold hashmap_free_table. cbn [bind]. reflexivity.
  - cbn [while_nat]. unfold rehash_skip_body. cbn [Z.ltb Z.compare].
    destruct (table (other hashmap)); reflexivity.
  - lia.
Qed.

Lemma delete_prestep_spec (hashmap : isc_hashmap) :
  wf_slack 0 hashmap ->
  exists hashmap',
    delete_prestep hashmap = Some hashmap' /\
    wf_slack 0 hashmap' /\
    case_sensitive hashmap' = case_sensitive hashmap /\
    hash_key hashmap' = hash_key hashmap /\
    count hashmap' = count hashmap /\
    (forall P, content_pred P -> cntm P hashmap' <= cntm P hashmap) /\
    (~ shrinks_from_32 hashmap -> same_contents hashmap hashmap') /\
    (rehashing_in_progress hashmap = false ->
     under_threshold hashmap = true ->
     hashbits (active hashmap') = Z.max (hashbits (active hashmap) - 1) 1) /\
    (rehashing_in_progress hashmap = true \/
     under_threshold hashmap = false ->
     hashbits (active hashmap') = hashbits (active hashmap)).
Proof.
  intros Hwf. unfold delete_prestep.
  assert (Hsame : forall hm', same_contents hashmap hm' ->
            case_sensitive hm' = case_sensitive hashmap /\
            hash_key hm' = hash_key hashmap /\
            forall P, content_pred P -> cntm P hm' <= cntm P hashmap).
  { intros hm' (A & B & C). split; [congruence|]. split; [congruence|].
    intros P HP. rewrite (C P HP). lia. }
  destruct (rehashing_in_progress hashmap) eqn:R.
  - destruct (rehash_one_spec hashmap Hwf (wf_rehashing _ _ Hwf R))
      as [hm' (E & W & S & C & _ & B)].
    destruct (Hsame hm' S) as (S1 & S2 & S3).
    exists hm'. split; [exact E|].
    split; [apply (wf_slack_weaken 1); [lia|exact W]|].
    repeat (split; [assumption|]).
    split; [intros _; exact S|].
    split; [discriminate|]. intros _. exact B.
  - destruct (under_threshold hashmap) eqn:U.
    + rewrite (start_shrink_eq hashmap Hwf R U). cbn [bind].
      pose proof (wf_bits _ _ Hwf) as Hb.
      destruct (under_threshold_true _ U) as [Hne Hlt].
      destruct (Z_le_gt_dec (hashbits (active hashmap)) 31) as [L|G].
      * destruct (start_shrink_spec hashmap Hwf R U L) as (W & Hsrc & S).
        destruct (rehash_one_spec _ W Hsrc)
          as [hm' (E' & W' & S' & C' & _ & B')].
        pose proof (same_contents_trans _ _ _ S S') as S2.
        destruct (Hsame hm' S2) as (T1 & T2 & T3).
        exists hm'. split; [exact E'|].
        split; [apply (wf_slack_weaken 1); [lia|exact W']|].
        repeat (split; [assumption|]).
        split; [intros _; exact S2|].
        split.
        -- intros _ _. rewrite B', installed_active. cbn [hashbits]. lia.
        -- intros [H|H]; discriminate.
      * assert (E32 : hashbits (active hashmap) = 32) by lia.
        destruct (wf_steady _ _ Hwf R) as (Eo & Eh & _).
        pose proof Hwf as [Hidx (Ha & _ & Hc & Hocc & Huniq)].
        destruct (table_wf_some _ Ha) as [ta Eta].
        destruct (table_wf_inv _ _ Ha Eta) as (_ & Hsza & _).
        destruct (nexttable_cases _ Hidx) as (Hn1 & Hn2 & Hn3).
        rewrite (rehash_one_32
                   (installed hashmap (hashbits (active hashmap) - 1)));
          [|rewrite (installed_other _ _ Hidx), Hsza, E32; reflexivity
           |exact Eh].
        eexists. split; [reflexivity|].
        rewrite E32 in *.
        set (fresh := mk_table (HASHSIZE (32 - 1)) (32 - 1)
                        (u32 (HASHSIZE (32 - 1) - 1))
                        (Some (fun _ => node_zero))).
        assert (EA : active
                  (set_hiter
                     (set_tables (set_hiter (installed hashmap (32 - 1)) 0)
                        (hashmap_nexttable
                           (hindex (installed hashmap (32 - 1))))
                        table_none) 0) = fresh).
        { unfold installed, active.
          cbn [hindex tables set_hindex set_tables set_hiter].
          rewrite Hn3, (nexttable_eqb2 _ Hidx), Z.eqb_refl. reflexivity. }
        assert (EO : other
                  (set_hiter
                     (set_tables (set_hiter (installed hashmap (32 - 1)) 0)
                        (hashmap_nexttable
                           (hindex (installed hashmap (32 - 1))))
                        table_none) 0) = table_none).
        { unfold installed, other.
          cbn [hindex tables set_hindex set_tables set_hiter].
          rewrite Hn3, Z.eqb_refl. reflexivity. }
        assert (Hfresh : forall P, content_pred P -> cnt_tb P fresh = 0).
        { intros P HP. apply cnt_tb_fresh. exact HP. }
        assert (Hc20 : count hashmap < 859832320).
        { assert (E : APPROX_20_PERCENT (HASHSIZE 32) = 859832320)
            by reflexivity.
          lia. }
        split.
        { split; [cbn [hindex set_hiter set_tables installed set_hindex];
                  exact Hn1|].
          rewrite EA, EO. unfold wf_parts.
          cbn [hiter count case_sensitive set_hiter set_tables installed
               set_hindex].
          split; [apply table_wf_fresh; lia|].
          split.
          { left. split; [reflexivity|]. split; [reflexivity|].
            assert (E : max_count (hashbits fresh) = 1931476993)
              by reflexivity.
            lia. }
          split; [exact Hc|].
          rewrite cnt_tb_none, (Hfresh _ content_pred_occupied).
          split; [lia|]. intros hv k ksz.
          rewrite (Hfresh _ (content_pred_match hv k ksz (case_sensitive hashmap))).
          rewrite cnt_tb_none. lia. }
        split; [reflexivity|]. split; [reflexivity|]. split; [reflexivity|].
        split.
        { intros P HP. unfold cntm at 1. rewrite EA, EO, cnt_tb_none.
          rewrite (Hfresh P HP). unfold cntm.
          pose proof (cnt_tb_nonneg P (active hashmap)).
          pose proof (cnt_tb_nonneg P (other hashmap)). lia. }
        split.
        { intros H. exfalso. apply H. split; [exact R|]. split; [exact U|].
          assumption. }
        split.
        { intros _ _. rewrite EA. reflexivity. }
        intros [H|H]; discriminate.
    + destruct (Hsame hashmap (same_contents_refl _)) as (T1 & T2 & T3).
      exists hashmap. split; [reflexivity|]. split; [exact Hwf|].
      split; [reflexivity|]. split; [reflexivity|]. split; [reflexivity|].
      split; [exact T3|]. split; [intros _; apply same_contents_refl|].
      split; [discriminate|]. reflexivity.
Qed.

(** ** The calls of the interface *)

Lemma cnt_upto_add_le (P Q R : hashmap_node -> bool) (t : Z -> hashmap_node)
  (n : nat) :
  (forall x, b2z (P x) + b2z (Q x) <= b2z (R x)) ->
  cnt_upto P t n + cnt_upto Q t n <= cnt_upto R t n.
Proof.
  intros H. induction n as [|n IH]; cbn [cnt_upto]; [lia|].
  specialize (H (t (Z.of_nat n))). lia.
Qed.

Lemma cnt_tb_add_le (P Q R : hashmap_node -> bool) (tb : hashmap_table) :
  (forall x, b2z (P x) + b2z (Q x) <= b2z (R x)) ->
  cnt_tb P tb + cnt_tb Q tb <= cnt_tb R tb.
Proof.
  intros H. unfold cnt_tb. destruct (table tb); [|lia].
  unfold cnt. apply cnt_upto_add_le. exact H.
Qed.

Lemma cnt_tb_ge1 (P : hashmap_node -> bool) (tb : hashmap_table)
  (t : Z -> hashmap_node) (p : Z) :
  table tb = Some t -> 0 <= p < size tb -> P (t p) = true ->
  1 <= cnt_tb P tb.
Proof.
  intros Et Hp HP. rewrite (cnt_tb_some _ _ _ Et).
  apply (cnt_ge1 P t _ p Hp HP).
Qed.

Lemma cntm_ge1 (P : hashmap_node -> bool) (hashmap : isc_hashmap) (idx : Z)
  (t : Z -> hashmap_node) (p : Z) :
  idx = hindex hashmap \/ idx = hashmap_nexttable (hindex hashmap) ->
  table (tables hashmap idx) = Some t ->
  0 <= p < size (tables hashmap idx) -> P (t p) = true ->
  1 <= cntm P hashmap.
Proof.
  intros Hidx Et Hp HP. unfold cntm.
  pose proof (cnt_tb_nonneg P (active hashmap)).
  pose proof (cnt_tb_nonneg P (other hashmap)).
  pose proof (cnt_tb_ge1 P _ t p Et Hp HP) as H1.
  destruct Hidx as [-> | ->];
    [fold (active hashmap) in H1|fold (other hashmap) in H1]; lia.
Qed.

Lemma wf_uniq (s : Z) (hashmap : isc_hashmap) (hv : Z) (k : list Z)
  (ksz : Z) :
  wf_slack s hashmap ->
  cntm (fun x => hashmap_match x hv k ksz (case_sensitive hashmap)) hashmap
  <= 1.
Proof. intros [_ (_ & _ & _ & _ & H)]. apply H. Qed.

(** A key has one value. *)
Lemma holds_unique (s : Z) (hashmap : isc_hashmap) (hv : Z) (k : list Z)
  (ksz v1 v2 : Z) :
  wf_slack s hashmap ->
  holds hashmap hv k ksz v1 -> holds hashmap hv k ksz v2 -> v1 = v2.
Proof.
  intros Hwf H1 H2. destruct (Z.eq_dec v1 v2) as [E|N]; [exact E|].
  exfalso. pose proof (wf_uniq _ _ hv k ksz Hwf) as Hu.
  unfold holds, cntm in *.
  set (cs := case_sensitive hashmap) in *.
  assert (Hp : forall x,
            b2z (hashmap_match x hv k ksz cs && (value x =? v1))
            + b2z (hashmap_match x hv k ksz cs && (value x =? v2))
            <= b2z (hashmap_match x hv k ksz cs)).
  { intros x. destruct (hashmap_match x hv k ksz cs); cbn [andb b2z]; [|lia].
    destruct (Z.eqb_spec (value x) v1), (Z.eqb_spec (value x) v2);
      cbn [b2z]; lia. }
  pose proof (cnt_tb_add_le _ _ _ (active hashmap) Hp).
  pose proof (cnt_tb_add_le _ _ _ (other hashmap) Hp).
  lia.
Qed.

Lemma holds_has_key (hashmap : isc_hashmap) (hv : Z) (k : list Z)
  (ksz v : Z) :
  holds hashmap hv k ksz v -> has_key hashmap hv k ksz.
Proof.
  unfold holds, has_key, cntm. intros H.
  assert (Hle : forall tb,
            cnt_tb (fun x => hashmap_match x hv k ksz (case_sensitive hashmap)
                             && (value x =? v)) tb
            <= cnt_tb (fun x => hashmap_match x hv k ksz
                                  (case_sensitive hashmap)) tb).
  { intros tb. unfold cnt_tb. destruct (table tb); [|lia].
    apply cnt_le. intros p _ HP. apply andb_true_iff in HP. apply HP. }
  pose proof (Hle (active hashmap)). pose proof (Hle (other hashmap)). lia.
Qed.

(** [isc_hashmap_find] returns the value the map holds under the key, or
    ISC_R_NOTFOUND when it holds none. *)
Lemma isc_hashmap_find_spec (s : Z) (hashmap : isc_hashmap)
  (hashvalp : option Z) (k : list Z) (ksz : Z) :
  0 <= s -> wf_slack s hashmap -> ksz <= UINT16_MAX ->
  (exists v,
     isc_hashmap_find hashmap hashvalp k ksz = Some (ISC_R_SUCCESS, v) /\
     holds hashmap (hashval_of hashmap hashvalp k ksz) k ksz v)
  \/
  (isc_hashmap_find hashmap hashvalp k ksz = Some (ISC_R_NOTFOUND, 0) /\
   ~ has_key hashmap (hashval_of hashmap hashvalp k ksz) k ksz).
Proof.
  intros Hs Hwf Hk. unfold isc_hashmap_find, key_REQUIRE.
  destruct (Z.leb_spec ksz UINT16_MAX); [|lia]. cbn [REQUIRE bind]. cbv zeta.
  set (hv := hashval_of hashmap hashvalp k ksz).
  destruct (hashmap_find_spec s hashmap hv k ksz Hs Hwf)
    as [(pos & idx & t & F & Hidx & Et & Htb & Hpos & HM) | [F HN]].
  - left. exists (value (t pos)). rewrite F. cbn [bind]. rewrite Et.
    cbn [bind]. rewrite (match_not_null _ _ _ _ _ HM). cbn [negb REQUIRE bind].
    split; [reflexivity|]. unfold holds.
    pose proof (cntm_ge1 (fun x => hashmap_match x hv k ksz
                                     (case_sensitive hashmap)
                                   && (value x =? value (t pos)))
                  hashmap idx t pos Hidx Et Hpos) as H1.
    cbv beta in H1. rewrite HM, Z.eqb_refl in H1. specialize (H1 eq_refl).
    lia.
  - right. rewrite F. cbn [bind]. split; [reflexivity|].
    unfold has_key. lia.
Qed.

Lemma find_success (s : Z) (hashmap : isc_hashmap) (hashvalp : option Z)
  (k : list Z) (ksz v : Z) :
  0 <= s -> wf_slack s hashmap -> ksz <= UINT16_MAX ->
  holds hashmap (hashval_of hashmap hashvalp k ksz) k ksz v ->
  isc_hashmap_find hashmap hashvalp k ksz = Some (ISC_R_SUCCESS, v).
Proof.
  intros Hs Hwf Hk H.
  destruct (isc_hashmap_find_spec s hashmap hashvalp k ksz Hs Hwf Hk)
    as [(v' & F & H') | [F HN]].
  - rewrite F. rewrite (holds_unique _ _ _ _ _ _ _ Hwf H H'). reflexivity.
  - exfalso. apply HN. exact (holds_has_key _ _ _ _ _ H).
Qed.

Lemma find_notfound (s : Z) (hashmap : isc_hashmap) (hashvalp : option Z)
  (k : list Z) (ksz : Z) :
  0 <= s -> wf_slack s hashmap -> ksz <= UINT16_MAX ->
  ~ has_key hashmap (hashval_of hashmap hashvalp k ksz) k ksz ->
  isc_hashmap_find hashmap hashvalp k ksz = Some (ISC_R_NOTFOUND, 0).
Proof.
  intros Hs Hwf Hk H.
  destruct (isc_hashmap_find_spec s hashmap hashvalp k ksz Hs Hwf Hk)
    as [(v' & F & H') | [F HN]]; [|exact F].
  exfalso. apply H. exact (holds_has_key _ _ _ _ _ H').
Qed.

Lemma hashval_of_same (h1 h2 : isc_hashmap) (hashvalp : option Z)
  (k : list Z) (ksz : Z) :
  case_sensitive h1 = case_sensitive h2 -> hash_key h1 = hash_key h2 ->
  hashval_of h1 hashvalp k ksz = hashval_of h2 hashvalp k ksz.
Proof.
  intros E1 E2. unfold hashval_of, isc_hashmap_hash. rewrite E1, E2.
  reflexivity.
Qed.

Lemma cnt_tb_ext (P Q : hashmap_node -> bool) (tb : hashmap_table) :
  (forall x, P x = Q x) -> cnt_tb P tb = cnt_tb Q tb.
Proof.
  intros H. unfold cnt_tb. destruct (table tb); [|reflexivity].
  apply cnt_ext. intros p _. apply H.
Qed.

Lemma table_eta (tb : hashmap_table) (t : Z -> hashmap_node) :
  table tb = Some t ->
  mk_table (size tb) (hashbits tb) (hashmask tb) (Some t) = tb.
Proof. destruct tb. cbn. intros ->. reflexivity. Qed.

(** Storing the table that is there changes nothing of what the invariant
    reads. *)
Lemma set_table_same (hashmap : isc_hashmap) (idx : Z)
  (t : Z -> hashmap_node) :
  table (tables hashmap idx) = Some t ->
  forall i, tables (set_table hashmap idx t) i = tables hashmap i.
Proof.
  intros Et i. unfold set_table, set_tables. cbn [tables].
  destruct (Z.eqb_spec i idx) as [->|]; [|reflexivity].
  apply table_eta. exact Et.
Qed.

Lemma new_node_match (hv : Z) (k : list Z) (ksz v : Z) (cs : bool) :
  hashmap_match (new_node hv k ksz v) hv k ksz cs = true.
Proof. apply (match_self (new_node hv k ksz v) k cs). reflexivity. Qed.


(** [hashmap_add] on the active table of a map whose other table does not
    hold the key; a new key needs room for one more entry. *)
Lemma add_active_spec (hashmap : isc_hashmap) (hv : Z) (k : list Z)
  (ksz v : Z) :
  wf_slack 0 hashmap ->
  has_key hashmap hv k ksz \/ wf_slack 1 hashmap ->
  0 <= ksz <= UINT16_MAX ->
  cnt_tb (fun x => hashmap_match x hv k ksz (case_sensitive hashmap))
    (other hashmap) = 0 ->
  exists r hashmap',
    hashmap_add hashmap hv k ksz v (hindex hashmap) = Some (r, hashmap') /\
    wf_slack 0 hashmap' /\
    case_sensitive hashmap' = case_sensitive hashmap /\
    hash_key hashmap' = hash_key hashmap /\
    hashbits (active hashmap') = hashbits (active hashmap) /\
    ((r = ISC_R_EXISTS /\
      has_key hashmap hv k ksz /\
      same_contents hashmap hashmap' /\
      count hashmap' = count hashmap)
     \/
     (r = ISC_R_SUCCESS /\
      ~ has_key hashmap hv k ksz /\
      count hashmap' = count hashmap + 1 /\
      forall P, content_pred P ->
        cntm P hashmap' = cntm P hashmap + b2z (P (new_node hv k ksz v)))).
Proof.
  intros Hwf0 Hroom Hk Hother.
  pose proof Hwf0 as [Hidx (Ha & _ & Hc & Hocc & Huniq)].
  destruct (table_wf_some _ Ha) as [ta Eta].
  destruct (table_wf_inv _ _ Ha Eta) as (Hba & Hsza & _).
  pose proof (max_count_le _ Hba) as Hmle.
  pose proof (max_count_lt _ Hba) as Hmlt.
  set (M := fun x => hashmap_match x hv k ksz (case_sensitive hashmap)) in *.
  destruct (Z_lt_le_dec 0 (cnt_tb M (active hashmap))) as [Hpos|Hzero].
  - (* the key is in the active table *)
    rewrite (cnt_tb_some _ _ _ Eta) in Hpos.
    destruct (cnt_pos _ _ _ Hpos) as [p [Hp HM]].
    pose proof (hashmap_add_exists hashmap hv k ksz v (hindex hashmap) ta p
                  Ha Eta ltac:(lia) Hp HM) as E.
    pose proof (set_table_same hashmap (hindex hashmap) ta Eta) as Hsame.
    exists ISC_R_EXISTS, (set_table hashmap (hindex hashmap) ta).
    split; [exact E|].
    assert (EA : active (set_table hashmap (hindex hashmap) ta)
                 = active hashmap) by (unfold active at 1; apply Hsame).
    assert (EO : other (set_table hashmap (hindex hashmap) ta)
                 = other hashmap) by (unfold other at 1; apply Hsame).
    split.
    { unfold wf_slack. rewrite EA, EO. exact Hwf0. }
    split; [reflexivity|]. split; [reflexivity|].
    split; [rewrite EA; reflexivity|].
    left. split; [reflexivity|].
    split.
    { unfold has_key, cntm. fold M.
      pose proof (cnt_tb_nonneg M (other hashmap)).
      rewrite (cnt_tb_some _ _ _ Eta). lia. }
    split; [|reflexivity].
    split; [reflexivity|]. split; [reflexivity|].
    intros P _. unfold cntm. rewrite EA, EO. reflexivity.
  - (* the key is new *)
    pose proof (cnt_tb_nonneg M (active hashmap)) as Hnn.
    assert (Hz : cnt_tb M (active hashmap) = 0) by lia.
    assert (Hwf : wf_slack 1 hashmap).
    { destruct Hroom as [Hhas|H1]; [|exact H1]. exfalso.
      unfold has_key, cntm in Hhas. fold M in Hhas. lia. }
    pose proof Hwf as [_ (_ & Hst & _)].
    pose proof (wf_parts_count_le 1 _ _ _ _ _ ltac:(lia) (proj2 Hwf))
      as [Hcle Hoccle].
    destruct (hashmap_add_success hashmap hv k ksz v (hindex hashmap) ta)
      as [tf [E Hadd]]; try assumption.
    { fold (active hashmap). rewrite Hsza. intros p Hp.
      rewrite (cnt_tb_some _ _ _ Eta), Hsza in Hz.
      apply (cnt_zero M ta (2 ^ hashbits (active hashmap)) p);
        [lia|exact Hp]. }
    { fold (active hashmap). rewrite Hsza.
      rewrite (cnt_tb_some _ _ _ Eta), Hsza in Hoccle. lia. }
    { lia. }
    fold (active hashmap) in Hadd. fold (new_node hv k ksz v) in Hadd.
    destruct Hadd as (HSf & HRf & Hstf & Hcntf).
    set (hm' := set_table (set_count hashmap (count hashmap + 1))
                  (hindex hashmap) tf) in *.
    assert (EA : active hm'
                 = mk_table (size (active hashmap))
                     (hashbits (active hashmap))
                     (hashmask (active hashmap)) (Some tf)).
    { unfold hm'. parts Hidx. reflexivity. }
    assert (EO : other hm' = other hashmap).
    { unfold hm'. parts Hidx. reflexivity. }
    assert (Hsum : forall P, content_pred P ->
              cnt_tb P (active hm')
              = cnt_tb P (active hashmap) + b2z (P (new_node hv k ksz v))).
    { intros P HP. rewrite EA. unfold cnt_tb at 1. cbn [table size].
      rewrite (cnt_tb_some _ _ _ Eta), Hsza. apply Hcntf. exact HP. }
    exists ISC_R_SUCCESS, hm'. split; [exact E|].
    split.
    { split; [exact Hidx|].
      change (case_sensitive hm') with (case_sensitive hashmap).
      change (hiter hm') with (hiter hashmap).
      change (count hm') with (count hashmap + 1).
      unfold wf_parts. rewrite EO.
      split; [rewrite EA; apply table_wf_replace; assumption|].
      split.
      { rewrite EA. cbn [hashbits].
        destruct Hst as [(A1 & A2 & A3) | (A1 & A2)].
        - left. repeat split; try assumption. lia.
        - right. split; [assumption|lia]. }
      split; [lia|].
      split.
      { rewrite (Hsum _ content_pred_occupied). cbn [new_node occupied
          key_is_null key negb b2z]. lia. }
      intros hv' k' ksz'.
      rewrite (Hsum _ (content_pred_match hv' k' ksz' _)).
      destruct (hashmap_match (new_node hv k ksz v) hv' k' ksz'
                  (case_sensitive hashmap)) eqn:EM; cbn [b2z].
      - pose proof (new_node_match hv k ksz v (case_sensitive hashmap))
          as HM0.
        assert (Hext : forall y,
                  hashmap_match y hv' k' ksz' (case_sensitive hashmap)
                  = M y).
        { intros y. unfold M. apply (match_shift (new_node hv k ksz v));
            assumption. }
        rewrite (cnt_tb_ext _ M (active hashmap) Hext).
        rewrite (cnt_tb_ext _ M (other hashmap) Hext). lia.
      - specialize (Huniq hv' k' ksz'). lia. }
    split; [reflexivity|]. split; [reflexivity|].
    split; [rewrite EA; reflexivity|].
    right. split; [reflexivity|].
    split; [unfold has_key, cntm; fold M; lia|].
    split; [reflexivity|].
    intros P HP. unfold cntm. rewrite (Hsum P HP), EO. lia.
Qed.

(** [isc_hashmap_add] returns ISC_R_EXISTS and keeps the contents when the
    map holds the key, and stores the node and returns ISC_R_SUCCESS when
    it does not. *)
Lemma isc_hashmap_add_spec (hashmap : isc_hashmap) (hashvalp : option Z)
  (k : list Z) (ksz v : Z) :
  wf_slack 0 hashmap ->
  has_key hashmap (hashval_of hashmap hashvalp k ksz) k ksz \/
  count hashmap < UINT32_MAX ->
  0 <= ksz <= UINT16_MAX ->
  exists r hashmap' hm1,
    isc_hashmap_add hashmap hashvalp k ksz v = Some (r, hashmap') /\
    wf_slack 0 hashmap' /\
    case_sensitive hashmap' = case_sensitive hashmap /\
    hash_key hashmap' = hash_key hashmap /\
    add_prestep hashmap = Some hm1 /\
    hashbits (active hashmap') = hashbits (active hm1) /\
    ((r = ISC_R_EXISTS /\
      has_key hashmap (hashval_of hashmap hashvalp k ksz) k ksz /\
      same_contents hashmap hashmap' /\
      count hashmap' = count hashmap)
     \/
     (r = ISC_R_SUCCESS /\
      ~ has_key hashmap (hashval_of hashmap hashvalp k ksz) k ksz /\
      count hashmap' = count hashmap + 1 /\
      forall P, content_pred P ->
        cntm P hashmap'
        = cntm P hashmap
          + b2z (P (new_node (hashval_of hashmap hashvalp k ksz) k ksz v)))).
Proof.
  intros Hwf Hroom Hk.
  destruct (add_prestep_spec hashmap Hwf)
    as [hm1 (E1 & W0 & W1 & S1 & C1 & _)].
  pose proof S1 as (Scs & Skey & Scnt).
  unfold isc_hashmap_add, key_REQUIRE.
  destruct (Z.leb_spec ksz UINT16_MAX); [|lia]. cbn [REQUIRE bind]. cbv zeta.
  fold (add_prestep hashmap). rewrite E1. cbn [bind].
  set (hv := hashval_of hashmap hashvalp k ksz) in *.
  set (M := fun x => hashmap_match x hv k ksz (case_sensitive hm1)).
  assert (HK : has_key hashmap hv k ksz <-> 0 < cntm M hm1).
  { unfold has_key. rewrite Scs.
    rewrite (Scnt _ (content_pred_match hv k ksz (case_sensitive hm1))).
    reflexivity. }
  assert (Hroom1 : has_key hm1 hv k ksz \/ wf_slack 1 hm1).
  { destruct Hroom as [Hhas|Hc]; [left|right; exact (W1 Hc)].
    apply HK. exact Hhas. }
  assert (Hactive :
    cnt_tb M (other hm1) = 0 ->
    exists r hashmap' hm0,
      hashmap_add hm1 hv k ksz v (hindex hm1) = Some (r, hashmap') /\
      wf_slack 0 hashmap' /\
      case_sensitive hashmap' = case_sensitive hashmap /\
      hash_key hashmap' = hash_key hashmap /\
      Some hm1 = Some hm0 /\
      hashbits (active hashmap') = hashbits (active hm0) /\
      ((r = ISC_R_EXISTS /\
        has_key hashmap hv k ksz /\
        same_contents hashmap hashmap' /\
        count hashmap' = count hashmap)
       \/
       (r = ISC_R_SUCCESS /\
        ~ has_key hashmap hv k ksz /\
        count hashmap' = count hashmap + 1 /\
        forall P, content_pred P ->
          cntm P hashmap'
          = cntm P hashmap + b2z (P (new_node hv k ksz v))))).
  { intros Hother.
    destruct (add_active_spec hm1 hv k ksz v W0 Hroom1 Hk Hother)
      as (r & hm' & E & W & A1 & A2 & A3 & Hcase).
    exists r, hm', hm1. split; [exact E|]. split; [exact W|].
    split; [congruence|]. split; [congruence|]. split; [reflexivity|].
    split; [exact A3|].
    destruct Hcase as [(-> & B1 & B2 & B3) | (-> & B1 & B2 & B3)].
    - left. split; [reflexivity|]. split; [apply HK; exact B1|].
      split; [exact (same_contents_trans _ _ _ S1 B2)|]. lia.
    - right. split; [reflexivity|].
      split; [intros H'; apply B1; apply HK; exact H'|].
      split; [lia|]. intros P HP. rewrite (B3 P HP), (Scnt P HP).
      reflexivity. }
  destruct (rehashing_in_progress hm1) eqn:R.
  - destruct (hashmap_find_other_spec 0 hm1 hv k ksz ltac:(lia) W0
                (wf_rehashing _ _ W0 R))
      as [(pos & t & F & Et & Hpos & HM) | [F HN]].
    + rewrite F. cbn [bind].
      exists ISC_R_EXISTS, hm1, hm1. split; [reflexivity|].
      split; [exact W0|].
      split; [congruence|]. split; [congruence|]. split; [reflexivity|].
      split; [reflexivity|]. left. split; [reflexivity|].
      split.
      { apply HK.
        pose proof (cntm_ge1 M hm1 (hashmap_nexttable (hindex hm1)) t pos
                      (or_intror eq_refl) Et Hpos HM). lia. }
      split; [exact S1|exact C1].
    + rewrite F. cbn [bind]. apply Hactive. exact HN.
  - cbn [bind]. apply Hactive.
    destruct (wf_steady _ _ W0 R) as (Eo & _). rewrite Eo.
    apply cnt_tb_none.
Qed.

(** Deleting a node of either table keeps the map in order and removes
    that node only. *)
Lemma delete_node_wf (hashmap : isc_hashmap) (idx : Z)
  (t tf : Z -> hashmap_node) (pos : Z) :
  wf_slack 0 hashmap ->
  idx = hindex hashmap \/ idx = hashmap_nexttable (hindex hashmap) ->
  table (tables hashmap idx) = Some t ->
  0 <= pos < size (tables hashmap idx) ->
  key_is_null (t pos) = false ->
  del_post (hashbits (tables hashmap idx)) t pos tf ->
  1 <= count hashmap /\
  wf_slack 0 (set_table (set_count hashmap (count hashmap - 1)) idx tf) /\
  hashbits (active (set_table (set_count hashmap (count hashmap - 1)) idx tf))
  = hashbits (active hashmap) /\
  forall P, content_pred P ->
    cntm P (set_table (set_count hashmap (count hashmap - 1)) idx tf)
    = cntm P hashmap - b2z (P (t pos)).
Proof.
  intros Hwf Hi Et Hpos Hnn (HSf & HRf & Hstf & Hnullf & Hcntf).
  pose proof Hwf as [Hidx (Ha & Hst & Hc & Hocc & Huniq)].
  set (hm' := set_table (set_count hashmap (count hashmap - 1)) idx tf).
  pose proof (cnt_tb_nonneg occupied (active hashmap)) as Hao.
  pose proof (cnt_tb_nonneg occupied (other hashmap)) as Hoo.
  assert (Hocc1 : 1 <= cnt_tb occupied (tables hashmap idx)).
  { apply (cnt_tb_ge1 occupied _ t pos Et Hpos).
    apply occupied_true. exact Hnn. }
  assert (Hc1 : 1 <= count hashmap).
  { destruct Hi as [-> | ->];
      [fold (active hashmap) in Hocc1|fold (other hashmap) in Hocc1]; lia. }
  split; [exact Hc1|].
  assert (Hrep : forall P, content_pred P ->
            cnt_tb P (mk_table (size (tables hashmap idx))
                        (hashbits (tables hashmap idx))
                        (hashmask (tables hashmap idx)) (Some tf))
            = cnt_tb P (tables hashmap idx) - b2z (P (t pos))).
  { intros P HP. unfold cnt_tb at 1. cbn [table size].
    rewrite (cnt_tb_some _ _ _ Et).
    assert (Htw : table_wf (tables hashmap idx)).
    { destruct Hi as [-> | ->]; [exact Ha|].
      destruct Hst as [(Eo & _) | ((Ho & _) & _)]; [|exact Ho].
      unfold other in Eo. rewrite Eo in Et. discriminate. }
    destruct (table_wf_inv _ _ Htw Et) as (_ & Hsz & _).
    rewrite Hsz. apply Hcntf. exact HP. }
  destruct Hi as [Hi | Hi]; subst idx.
  - (* the active table *)
    fold (active hashmap) in *.
    assert (EA : active hm'
                 = mk_table (size (active hashmap))
                     (hashbits (active hashmap))
                     (hashmask (active hashmap)) (Some tf)).
    { unfold hm'. parts Hidx. reflexivity. }
    assert (EO : other hm' = other hashmap).
    { unfold hm'. parts Hidx. reflexivity. }
    split; [|split].
    + split; [exact Hidx|].
      change (case_sensitive hm') with (case_sensitive hashmap).
      change (hiter hm') with (hiter hashmap).
      change (count hm') with (count hashmap - 1).
      unfold wf_parts. rewrite EO, EA.
      split; [apply table_wf_replace; assumption|].
      cbn [hashbits].
      split.
      { destruct Hst as [(A1 & A2 & A3) | (A1 & A2)].
        - left. repeat split; try assumption. lia.
        - right. split; [assumption|lia]. }
      split; [lia|].
      split.
      { rewrite (Hrep _ content_pred_occupied).
        rewrite (proj2 (occupied_true _) Hnn). cbn [b2z]. lia. }
      intros hv k ksz. rewrite (Hrep _ (content_pred_match hv k ksz _)).
      specialize (Huniq hv k ksz).
      pose proof (b2z_range (hashmap_match (t pos) hv k ksz
                               (case_sensitive hashmap))). lia.
    + rewrite EA. reflexivity.
    + intros P HP. unfold cntm. rewrite EA, EO, (Hrep P HP). lia.
  - (* the table that is being emptied *)
    fold (other hashmap) in *.
    assert (EA : active hm' = active hashmap).
    { unfold hm'. parts Hidx. reflexivity. }
    assert (EO : other hm'
                 = mk_table (size (other hashmap))
                     (hashbits (other hashmap))
                     (hashmask (other hashmap)) (Some tf)).
    { unfold hm'. parts Hidx. reflexivity. }
    destruct Hst as [(Eo & _) | (Hsrc & Hmax)].
    { rewrite Eo in Et. discriminate. }
    destruct Hsrc as (Ho & Hob & Hh & Hbelow).
    split; [|split].
    + split; [exact Hidx|].
      change (case_sensitive hm') with (case_sensitive hashmap).
      change (hiter hm') with (hiter hashmap).
      change (count hm') with (count hashmap - 1).
      unfold wf_parts. rewrite EO, EA.
      split; [exact Ha|].
      split.
      { right. split.
        - split; [apply table_wf_replace; assumption|].
          cbn [hashbits size table]. split; [exact Hob|].
          split; [exact Hh|].
          intros t' p Et' Hp. injection Et' as <-. apply Hnullf.
          apply (Hbelow t p Et Hp).
        - rewrite (Hrep _ content_pred_occupied).
          rewrite (proj2 (occupied_true _) Hnn). cbn [b2z]. lia. }
      split; [lia|].
      split.
      { rewrite (Hrep _ content_pred_occupied).
        rewrite (proj2 (occupied_true _) Hnn). cbn [b2z]. lia. }
      intros hv k ksz. rewrite (Hrep _ (content_pred_match hv k ksz _)).
      specialize (Huniq hv k ksz).
      pose proof (b2z_range (hashmap_match (t pos) hv k ksz
                               (case_sensitive hashmap))). lia.
    + rewrite EA. reflexivity.
    + intros P HP. unfold cntm. rewrite EA, EO, (Hrep P HP). lia.
Qed.

(** [isc_hashmap_delete] removes the node of the key and returns
    ISC_R_SUCCESS when the map that its first step leaves holds the key, and
    returns ISC_R_NOTFOUND when it does not; the key is gone either way. *)
Lemma isc_hashmap_delete_spec (hashmap : isc_hashmap) (hashvalp : option Z)
  (k : list Z) (ksz : Z) :
  wf_slack 0 hashmap -> ksz <= UINT16_MAX ->
  exists r hashmap' hm1,
    isc_hashmap_delete hashmap hashvalp k ksz = Some (r, hashmap') /\
    wf_slack 0 hashmap' /\
    case_sensitive hashmap' = case_sensitive hashmap /\
    hash_key hashmap' = hash_key hashmap /\
    delete_prestep hashmap = Some hm1 /\
    hashbits (active hashmap') = hashbits (active hm1) /\
    ~ has_key hashmap' (hashval_of hashmap hashvalp k ksz) k ksz /\
    (forall P, content_pred P -> cntm P hashmap' <= cntm P hashmap) /\
    ((r = ISC_R_SUCCESS /\
      has_key hm1 (hashval_of hashmap hashvalp k ksz) k ksz /\
      count hashmap' = count hashmap - 1 /\
      exists x,
        hashmap_match x (hashval_of hashmap hashvalp k ksz) k ksz
          (case_sensitive hashmap) = true /\
        forall P, content_pred P ->
          cntm P hashmap' = cntm P hm1 - b2z (P x))
     \/
     (r = ISC_R_NOTFOUND /\
      ~ has_key hm1 (hashval_of hashmap hashvalp k ksz) k ksz /\
      hashmap' = hm1 /\
      count hashmap' = count hashmap)).
Proof.
  intros Hwf Hk.
  destruct (delete_prestep_spec hashmap Hwf)
    as [hm1 (E1 & W1 & Scs & Skey & C1 & Sle & _)].
  unfold isc_hashmap_delete, key_REQUIRE.
  destruct (Z.leb_spec ksz UINT16_MAX); [|lia]. cbn [REQUIRE bind]. cbv zeta.
  fold (delete_prestep hashmap). rewrite E1. cbn [bind].
  set (hv := hashval_of hashmap hashvalp k ksz).
  rewrite <- Scs.
  set (M := fun x => hashmap_match x hv k ksz (case_sensitive hm1)).
  pose proof (wf_uniq _ _ hv k ksz W1) as Hu. fold M in Hu.
  destruct (hashmap_find_spec 0 hm1 hv k ksz ltac:(lia) W1)
    as [(pos & idx & t & F & Hidx & Et & Htb & Hpos & HM) | [F HN]].
  - rewrite F. cbn [bind]. rewrite Et. cbn [bind].
    pose proof (match_not_null _ _ _ _ _ HM) as Hnn.
    rewrite Hnn. cbn [negb REQUIRE bind].
    pose proof (cntm_ge1 M hm1 idx t pos Hidx Et Hpos HM) as Hge.
    assert (Hc1 : 1 <= count hm1).
    { destruct W1 as [_ (_ & _ & _ & Hocc & _)].
      pose proof (cntm_ge1 occupied hm1 idx t pos Hidx Et Hpos
                    (proj2 (occupied_true _) Hnn)) as H1.
      unfold cntm in H1. lia. }
    pose proof (wf_count _ W1) as Hcm. pose proof (wf_bits _ _ W1) as Hb1.
    pose proof (max_count_lt _ Hb1) as Hmlt.
    destruct (hashmap_delete_node_spec hm1 pos hv (psl (t pos)) idx t
                Htb Et Hpos Hnn)
      as [tf [Edel Hdel]];
      [symmetry; exact (match_hashval _ _ _ _ _ HM)|reflexivity|lia|].
    rewrite Edel. cbn [bind].
    destruct (delete_node_wf hm1 idx t tf pos W1 Hidx Et Hpos Hnn Hdel)
      as (_ & W' & B' & Hcnt').
    eexists ISC_R_SUCCESS, _, hm1. split; [reflexivity|].
    split; [exact W'|]. split; [reflexivity|]. split; [exact Skey|].
    split; [reflexivity|]. split; [exact B'|].
    split.
    { unfold has_key.
      change (case_sensitive (set_table (set_count hm1 (count hm1 - 1))
                                idx tf)) with (case_sensitive hm1).
      fold M. rewrite (Hcnt' M (content_pred_match _ _ _ _)).
      unfold M at 2. rewrite HM. cbn [b2z]. lia. }
    split.
    { intros P HP. rewrite (Hcnt' P HP). specialize (Sle P HP).
      pose proof (b2z_range (P (t pos))). lia. }
    left. split; [reflexivity|].
    split; [unfold has_key; fold M; lia|].
    split; [cbn [count set_table set_tables set_count]; lia|].
    exists (t pos). split; [exact HM|]. exact Hcnt'.
  - rewrite F. cbn [bind].
    exists ISC_R_NOTFOUND, hm1, hm1. split; [reflexivity|].
    split; [exact W1|]. split; [reflexivity|]. split; [exact Skey|].
    split; [reflexivity|]. split; [reflexivity|].
    split; [unfold has_key; rewrite HN; lia|].
    split; [exact Sle|].
    right. split; [reflexivity|].
    split; [unfold has_key; rewrite HN; lia|]. split; [reflexivity|exact C1].
Qed.
(** ** Iterators *)

Lemma iter_skip_sound (tb : hashmap_table) (n : nat) :
  forall i0 i,
    while_nat (iter_skip_body tb) n i0 = Break (Some i) -> 0 <= i0 ->
    0 <= i /\
    (i < size tb ->
     exists t, table tb = Some t /\ key_is_null (t i) = false).
Proof.
  induction n as [|n IH]; intros i0 i W Hi0; cbn [while_nat] in W.
  - discriminate.
  - unfold iter_skip_body at 1 in W.
    destruct (Z.ltb_spec i0 (size tb)) as [Hlt|Hge].
    + destruct (table tb) as [t|] eqn:Et; [|discriminate].
      destruct (key_is_null (t i0)) eqn:Hn.
      * apply (IH _ _ W). unfold u64, wrap.
        apply Z.mod_pos_bound. reflexivity.
      * injection W as <-. split; [exact Hi0|]. intros _. exists t.
        split; [reflexivity|exact Hn].
    + injection W as <-. split; [exact Hi0|]. intros H. lia.
Qed.

Lemma while_nat_inv {S R : Type} (body : S -> step S R) (I : S -> Prop)
  (Q : R -> Prop) :
  (forall s, I s ->
     match body s with Continue s' => I s' | Break r => Q r end) ->
  forall (n : nat) (s : S) (r : R),
    I s -> while_nat body n s = Break r -> Q r.
Proof.
  intros H. induction n as [|n IH]; intros s r Hs W; cbn [while_nat] in W.
  - discriminate.
  - specialize (H s Hs). destruct (body s) as [s'|r'].
    + exact (IH s' r H W).
    + injection W as <-. exact H.
Qed.

(** One pass either stops on a node or moves to the start of the other
    table. *)
Lemma iter_next_body_sound (hashmap : isc_hashmap) (it : isc_hashmap_iter) :
  iter_ok it ->
  match iter_next_body hashmap it with
  | Continue it2 => iter_ok it2
  | Break r => iter_result_ok hashmap r
  end.
Proof.
  intros [Hi Hh]. unfold iter_next_body. cbv zeta.
  destruct (while 4294967298
              (iter_skip_body (tables hashmap (iter_hindex it)))
              (iter_i it)) as [[i|]|] eqn:Wi; [|exact I|exact I].
  destruct (while_elim _ _ _ _ Wi) as [m Wm].
  destruct (iter_skip_sound _ _ _ _ Wm Hi) as [Hi0 Hnode].
  destruct (Z.ltb_spec i (size (tables hashmap (iter_hindex it))))
    as [Hlt|Hge].
  - destruct (Hnode Hlt) as [t [Et Hn]].
    split; [discriminate|]. split; [exact Hh|].
    exists t. cbn [iter_hindex iter_i]. split; [exact Et|].
    split; [lia|exact Hn].
  - destruct (try_nexttable hashmap (iter_hindex it)); [|exact I].
    split; cbn [iter_i iter_hindex]; [lia|].
    destruct (nexttable_cases _ Hh) as (H & _). exact H.
Qed.

(** The calls, unfolded once. *)
Lemma isc__hashmap_iter_next_eq (hashmap : isc_hashmap)
  (it : isc_hashmap_iter) :
  isc__hashmap_iter_next hashmap it
  = (r <- while 3 (iter_next_body hashmap) it ;; r).
Proof. reflexivity. Qed.

Lemma isc_hashmap_iter_first_eq (hashmap : isc_hashmap)
  (it : isc_hashmap_iter) :
  isc_hashmap_iter_first hashmap it
  = isc__hashmap_iter_next hashmap
      (mk_iter 0 (hindex hashmap) (iter_cur it)).
Proof. reflexivity. Qed.

Lemma isc_hashmap_iter_next_eq (hashmap : isc_hashmap)
  (it : isc_hashmap_iter) :
  isc_hashmap_iter_next hashmap it
  = (_ <- iter_cur it ;;
     isc__hashmap_iter_next hashmap
       (mk_iter (u64 (iter_i it + 1)) (iter_hindex it) (iter_cur it))).
Proof. reflexivity. Qed.

Lemma isc_hashmap_iter_delcurrent_next_eq (hashmap : isc_hashmap)
  (iter : isc_hashmap_iter) :
  isc_hashmap_iter_delcurrent_next hashmap iter
  = (_ <- iter_cur iter ;;
     t <- table (tables hashmap (iter_hindex iter)) ;;
     _ <- REQUIRE ((0 <=? iter_i iter)
                   && (iter_i iter
                       <? size (tables hashmap (iter_hindex iter)))) ;;
     hashmap <- hashmap_delete_node hashmap (iter_i iter)
                  (hashval (t (iter_i iter))) (psl (t (iter_i iter)))
                  (iter_hindex iter) ;;
     ' (r, iter) <- isc__hashmap_iter_next hashmap iter ;;
     Some (r, hashmap, iter)).
Proof. reflexivity. Qed.

(** An iterator that [isc__hashmap_iter_next] leaves with ISC_R_SUCCESS
    stands on a node. *)
Lemma iter_next_sound (hashmap : isc_hashmap) (it it' : isc_hashmap_iter) :
  isc__hashmap_iter_next hashmap it = Some (ISC_R_SUCCESS, it') ->
  0 <= iter_i it -> iter_hindex it = 0 \/ iter_hindex it = 1 ->
  iter_valid hashmap it'.
Proof.
  intros W Hi Hh. rewrite isc__hashmap_iter_next_eq in W.
  apply bind_some in W. destruct W as [r [Wo Er]]. subst r.
  destruct (while_elim _ _ _ _ Wo) as [n Wn].
  exact (while_nat_inv (iter_next_body hashmap) iter_ok
           (iter_result_ok hashmap) (iter_next_body_sound hashmap)
           n it _ (conj Hi Hh) Wn).
Qed.

Lemma iter_first_sound (hashmap : isc_hashmap) (it0 it : isc_hashmap_iter) :
  wf_slack 0 hashmap ->
  isc_hashmap_iter_first hashmap it0 = Some (ISC_R_SUCCESS, it) ->
  iter_valid hashmap it.
Proof.
  intros [Hidx _] W. rewrite isc_hashmap_iter_first_eq in W.
  apply (iter_next_sound _ _ _ W); cbn [iter_i iter_hindex]; [lia|exact Hidx].
Qed.

Lemma iter_step_sound (hashmap : isc_hashmap) (it it' : isc_hashmap_iter) :
  iter_valid hashmap it ->
  isc_hashmap_iter_next hashmap it = Some (ISC_R_SUCCESS, it') ->
  iter_valid hashmap it'.
Proof.
  intros (Hcur & Hh & _) W. rewrite isc_hashmap_iter_next_eq in W.
  apply bind_some in W. destruct W as [c [_ W]].
  apply (iter_next_sound _ _ _ W); cbn [iter_i iter_hindex]; [|exact Hh].
  unfold u64, wrap. apply Z.mod_pos_bound. reflexivity.
Qed.

(** [isc_hashmap_iter_delcurrent_next] on an iterator that stands on a
    node. *)
Lemma iter_delcurrent_sound (hashmap hashmap' : isc_hashmap)
  (it it' : isc_hashmap_iter) (r : isc_result) :
  wf_slack 0 hashmap -> iter_valid hashmap it ->
  isc_hashmap_iter_delcurrent_next hashmap it = Some (r, hashmap', it') ->
  wf_slack 0 hashmap' /\
  case_sensitive hashmap' = case_sensitive hashmap /\
  hashbits (active hashmap') = hashbits (active hashmap) /\
  (forall P, content_pred P -> cntm P hashmap' <= cntm P hashmap) /\
  (r = ISC_R_SUCCESS -> iter_valid hashmap' it').
Proof.
  intros Hwf (Hcur & Hh & t & Et & Hi & Hn) W.
  pose proof Hwf as [Hidx (Ha & Hst & _)].
  rewrite isc_hashmap_iter_delcurrent_next_eq in W.
  apply bind_some in W. destruct W as [c [_ W]].
  apply bind_some in W. destruct W as [t' [Et' W]].
  rewrite Et in Et'. injection Et' as <-.
  apply bind_some in W. destruct W as [u [_ W]].
  apply bind_some in W. destruct W as [hm1 [Edel' W]].
  apply bind_some in W. destruct W as [[r0 it0] [Wn W]].
  injection W as <- <- <-.
  assert (Hi' : iter_hindex it = hindex hashmap \/
                iter_hindex it = hashmap_nexttable (hindex hashmap)).
  { destruct Hh as [E|E], Hidx as [E'|E']; rewrite E, E'; cbv; auto. }
  assert (Htw : table_wf (tables hashmap (iter_hindex it))).
  { destruct Hi' as [E|E]; rewrite E; [exact Ha|].
    destruct Hst as [(Eo & _) | ((Ho & _) & _)]; [|exact Ho].
    unfold other in Eo. rewrite E, Eo in Et. discriminate. }
  pose proof (wf_count _ Hwf) as Hcm. pose proof (wf_bits _ _ Hwf) as Hb.
  pose proof (max_count_lt _ Hb) as Hmlt.
  assert (Hc1 : 1 <= count hashmap).
  { destruct Hwf as [_ (_ & _ & _ & Hocc & _)].
    pose proof (cntm_ge1 occupied hashmap (iter_hindex it) t (iter_i it)
                  Hi' Et Hi (proj2 (occupied_true _) Hn)) as H1.
    unfold cntm in H1. lia. }
  destruct (hashmap_delete_node_spec hashmap (iter_i it)
              (hashval (t (iter_i it))) (psl (t (iter_i it)))
              (iter_hindex it) t Htw Et Hi Hn eq_refl eq_refl)
    as [tf [Edel Hdel]]; [lia|].
  rewrite Edel in Edel'. injection Edel' as <-.
  destruct (delete_node_wf hashmap (iter_hindex it) t tf (iter_i it)
              Hwf Hi' Et Hi Hn Hdel) as (_ & W' & B' & Hcnt').
  split; [exact W'|]. split; [reflexivity|]. split; [exact B'|].
  split.
  { intros P HP. rewrite (Hcnt' P HP).
    pose proof (b2z_range (P (t (iter_i it)))). lia. }
  intros Er. rewrite Er in Wn.
  apply (iter_next_sound _ _ _ Wn); [lia|exact Hh].
Qed.

(** ** Every reachable map is in order *)

Lemma isc_hashmap_create_eq (bits options : Z) (entropy : list Z) :
  isc_hashmap_create bits options entropy
  = (_ <- REQUIRE ((HASHMAP_MIN_BITS <=? bits)
                   && (bits <=? HASHMAP_MAX_BITS)) ;;
     hashmap_create_table
       (mk_hashmap (Z.land options ISC_HASHMAP_CASE_INSENSITIVE =? 0)
          0 0 0 entropy (fun _ => table_none)) 0 bits).
Proof. reflexivity. Qed.

Lemma isc_hashmap_create_spec (bits options : Z) (entropy : list Z)
  (hashmap : isc_hashmap) :
  isc_hashmap_create bits options entropy = Some hashmap ->
  1 <= bits <= 32 /\
  hashmap
  = set_tables
      (mk_hashmap (Z.land options ISC_HASHMAP_CASE_INSENSITIVE =? 0)
         0 0 0 entropy (fun _ => table_none)) 0
      (mk_table (HASHSIZE bits) bits (u32 (HASHSIZE bits - 1))
         (Some (fun _ => node_zero))).
Proof.
  intros H. rewrite isc_hashmap_create_eq in H.
  apply bind_some in H. destruct H as [u [Hr H]].
  apply REQUIRE_some in Hr. apply andb_true_iff in Hr.
  destruct Hr as [H1 H2]. apply Z.leb_le in H1, H2.
  unfold HASHMAP_MIN_BITS, HASHMAP_MAX_BITS in *.
  split; [lia|].
  unfold hashmap_create_table in H. cbn [tables hashbits table table_none] in H.
  unfold HASHMAP_NO_BITS, HASHMAP_MIN_BITS, HASHMAP_MAX_BITS in H.
  cbn [Z.eqb negb REQUIRE bind] in H.
  destruct (Z.leb_spec 1 bits); [|lia]. destruct (Z.leb_spec bits 32); [|lia].
  cbn [REQUIRE bind] in H. injection H as <-. reflexivity.
Qed.

Lemma max_count_pos (b : Z) : 1 <= b <= 32 -> 1 <= max_count b.
Proof.
  intros Hb. destruct (Z.eq_dec b 32) as [->|N];
    [rewrite max_count_32; unfold UINT32_MAX; lia|].
  rewrite max_count_lt32 by lia. pose proof (pow2_pos b ltac:(lia)).
  assert (0 <= 2 ^ b * 921 / 1024) by (apply Z.div_pos; lia). lia.
Qed.

Lemma create_wf (bits options : Z) (entropy : list Z)
  (hashmap : isc_hashmap) :
  isc_hashmap_create bits options entropy = Some hashmap ->
  wf hashmap /\ hashbits (active hashmap) = bits /\ count hashmap = 0 /\
  forall P, content_pred P -> cntm P hashmap = 0.
Proof.
  intros H. destruct (isc_hashmap_create_spec _ _ _ _ H) as [Hb ->].
  set (fresh := mk_table (HASHSIZE bits) bits (u32 (HASHSIZE bits - 1))
                  (Some (fun _ => node_zero))).
  assert (Hfresh : forall P, content_pred P -> cnt_tb P fresh = 0).
  { intros P HP. apply cnt_tb_fresh. exact HP. }
  split; [|split; [reflexivity|split; [reflexivity|]]].
  - split; [left; reflexivity|].
    unfold active, other. cbn [hindex tables set_tables count hiter
      case_sensitive hashmap_nexttable Z.eqb]. fold fresh.
    unfold wf_parts.
    split; [apply table_wf_fresh; exact Hb|].
    split.
    { left. split; [reflexivity|]. split; [reflexivity|].
      pose proof (max_count_pos bits Hb). cbn [hashbits fresh]. lia. }
    split; [lia|].
    rewrite cnt_tb_none, (Hfresh _ content_pred_occupied).
    split; [lia|]. intros hv k ksz.
    rewrite (Hfresh _ (content_pred_match hv k ksz
                         (Z.land options ISC_HASHMAP_CASE_INSENSITIVE =? 0))).
    rewrite cnt_tb_none. lia.
  - intros P HP. unfold cntm, active, other.
    cbn [hindex tables set_tables hashmap_nexttable Z.eqb]. fold fresh.
    rewrite (Hfresh P HP), cnt_tb_none. reflexivity.
Qed.

Lemma isc_hashmap_add_big (hashmap : isc_hashmap) (hashvalp : option Z)
  (k : list Z) (ksz v : Z) :
  UINT16_MAX < ksz -> isc_hashmap_add hashmap hashvalp k ksz v = None.
Proof.
  intros H. unfold isc_hashmap_add, key_REQUIRE.
  destruct (Z.leb_spec ksz UINT16_MAX); [lia|]. reflexivity.
Qed.

Lemma isc_hashmap_delete_big (hashmap : isc_hashmap) (hashvalp : option Z)
  (k : list Z) (ksz : Z) :
  UINT16_MAX < ksz -> isc_hashmap_delete hashmap hashvalp k ksz = None.
Proof.
  intros H. unfold isc_hashmap_delete, key_REQUIRE.
  destruct (Z.leb_spec ksz UINT16_MAX); [lia|]. reflexivity.
Qed.

(** Every map that the calls build is in order, and every iterator that
    a call left with ISC_R_SUCCESS stands on a node. *)
Lemma reachable_iterating_wf :
  (forall hashmap, reachable hashmap -> wf hashmap) /\
  (forall hashmap iter, iterating hashmap iter ->
     wf hashmap /\ iter_valid hashmap iter).
Proof.
  apply reachable_iterating_ind.
  - intros bits options entropy hashmap H.
    exact (proj1 (create_wf _ _ _ _ H)).
  - intros hashmap hashvalp k ksz v r hashmap' _ IH Hc Hk E.
    destruct (Z_le_gt_dec ksz UINT16_MAX) as [L|G].
    + destruct (isc_hashmap_add_spec hashmap hashvalp k ksz v IH
                  (or_intror Hc) (conj Hk L))
        as (r0 & hm0 & hm1 & E0 & W0 & _).
      rewrite E0 in E. injection E as _ <-. exact W0.
    + rewrite isc_hashmap_add_big in E by lia. discriminate.
  - intros hashmap hashvalp k ksz r hashmap' _ IH Hk E.
    destruct (Z_le_gt_dec ksz UINT16_MAX) as [L|G].
    + destruct (isc_hashmap_delete_spec hashmap hashvalp k ksz IH L)
        as (r0 & hm0 & hm1 & E0 & W0 & _).
      rewrite E0 in E. injection E as _ <-. exact W0.
    + rewrite isc_hashmap_delete_big in E by lia. discriminate.
  - intros hashmap iter r hashmap' iter' _ [IH1 IH2] E.
    exact (proj1 (iter_delcurrent_sound _ _ _ _ _ IH1 IH2 E)).
  - intros hashmap iter0 iter _ IH E.
    split; [exact IH|]. exact (iter_first_sound _ _ _ IH E).
  - intros hashmap iter iter' _ [IH1 IH2] E.
    split; [exact IH1|]. exact (iter_step_sound _ _ _ IH2 E).
  - intros hashmap iter hashmap' iter' _ [IH1 IH2] E.
    destruct (iter_delcurrent_sound _ _ _ _ _ IH1 IH2 E) as (W & _ & _ & _ & V).
    split; [exact W|]. apply V. reflexivity.
Qed.

Lemma reachable_wf (hashmap : isc_hashmap) : reachable hashmap -> wf hashmap.
Proof. apply reachable_iterating_wf. Qed.

(** So is every map of [built_map]. *)
Lemma built_map_wf (hashmap : isc_hashmap) : built_map hashmap -> wf hashmap.
Proof.
  induction 1 as [bits options entropy hashmap H
                 |hashmap hashvalp k ksz v r hashmap' _ IH Hc Hk E
                 |hashmap hashvalp k ksz r hashmap' _ IH Hk E
                 |hashmap iter r hashmap' iter' _ IH V E].
  - exact (proj1 (create_wf _ _ _ _ H)).
  - destruct (Z_le_gt_dec ksz UINT16_MAX) as [L|G].
    + destruct (isc_hashmap_add_spec hashmap hashvalp k ksz v IH
                  (or_intror Hc) (conj Hk L))
        as (r0 & hm0 & hm1 & E0 & W0 & _).
      rewrite E0 in E. injection E as _ <-. exact W0.
    + rewrite isc_hashmap_add_big in E by lia. discriminate.
  - destruct (Z_le_gt_dec ksz UINT16_MAX) as [L|G].
    + destruct (isc_hashmap_delete_spec hashmap hashvalp k ksz IH L)
        as (r0 & hm0 & hm1 & E0 & W0 & _).
      rewrite E0 in E. injection E as _ <-. exact W0.
    + rewrite isc_hashmap_delete_big in E by lia. discriminate.
  - exact (proj1 (iter_delcurrent_sound _ _ _ _ _ IH V E)).
Qed.

(** The maps of [reachable], where the iterator is used as the call before
    has left it, are maps of [built_map]. *)
Lemma reachable_iterating_built :
  (forall hashmap, reachable hashmap -> built_map hashmap) /\
  (forall hashmap iter, iterating hashmap iter ->
     built_map hashmap /\ iter_valid hashmap iter).
Proof.
  apply reachable_iterating_ind.
  - intros bits options entropy hashmap H.
    exact (bm_create _ _ _ _ H).
  - intros hashmap hashvalp k ksz v r hashmap' _ IH Hc Hk E.
    exact (bm_add _ _ _ _ _ _ _ IH Hc Hk E).
  - intros hashmap hashvalp k ksz r hashmap' _ IH Hk E.
    exact (bm_delete _ _ _ _ _ _ IH Hk E).
  - intros hashmap iter r hashmap' iter' _ [IH1 IH2] E.
    exact (bm_delcurrent _ _ _ _ _ IH1 IH2 E).
  - intros hashmap iter0 iter _ IH E.
    split; [exact IH|].
    exact (iter_first_sound _ _ _ (built_map_wf _ IH) E).
  - intros hashmap iter iter' _ [IH1 IH2] E.
    split; [exact IH1|]. exact (iter_step_sound _ _ _ IH2 E).
  - intros hashmap iter hashmap' iter' _ [IH1 IH2] E.
    split; [exact (bm_delcurrent _ _ _ _ _ IH1 IH2 E)|].
    destruct (iter_delcurrent_sound _ _ _ _ _ (built_map_wf _ IH1) IH2 E)
      as (_ & _ & _ & _ & V).
    apply V. reflexivity.
Qed.

Lemma reachable_built_map (hashmap : isc_hashmap) :
  reachable hashmap -> built_map hashmap.
Proof. apply reachable_iterating_built. Qed.
(** ** The properties of the map *)

Lemma find_notfound_inv (hashmap : isc_hashmap) (hashvalp : option Z)
  (k : list Z) (ksz v0 : Z) :
  wf hashmap -> ksz <= UINT16_MAX ->
  isc_hashmap_find hashmap hashvalp k ksz = Some (ISC_R_NOTFOUND, v0) ->
  ~ has_key hashmap (hashval_of hashmap hashvalp k ksz) k ksz.
Proof.
  intros Hwf Hk F.
  destruct (isc_hashmap_find_spec 0 hashmap hashvalp k ksz ltac:(lia) Hwf Hk)
    as [(v' & F' & _) | [_ HN]]; [|exact HN].
  rewrite F' in F. discriminate.
Qed.

Lemma find_success_inv (hashmap : isc_hashmap) (hashvalp : option Z)
  (k : list Z) (ksz v : Z) :
  wf hashmap -> ksz <= UINT16_MAX ->
  isc_hashmap_find hashmap hashvalp k ksz = Some (ISC_R_SUCCESS, v) ->
  holds hashmap (hashval_of hashmap hashvalp k ksz) k ksz v.
Proof.
  intros Hwf Hk F.
  destruct (isc_hashmap_find_spec 0 hashmap hashvalp k ksz ltac:(lia) Hwf Hk)
    as [(v' & F' & H) | [F' _]].
  - rewrite F' in F. injection F as <-. exact H.
  - rewrite F' in F. discriminate.
Qed.

Lemma holds_same (h1 h2 : isc_hashmap) (hv : Z) (k : list Z) (ksz v : Z) :
  same_contents h1 h2 -> holds h1 hv k ksz v -> holds h2 hv k ksz v.
Proof.
  intros (Scs & _ & Scnt) H. unfold holds in *. rewrite <- Scs.
  rewrite <- (Scnt _ (content_pred_match_value hv k ksz (case_sensitive h1) v)).
  exact H.
Qed.

Lemma has_key_same (h1 h2 : isc_hashmap) (hv : Z) (k : list Z) (ksz : Z) :
  same_contents h1 h2 -> has_key h1 hv k ksz -> has_key h2 hv k ksz.
Proof.
  intros (Scs & _ & Scnt) H. unfold has_key in *. rewrite <- Scs.
  rewrite <- (Scnt _ (content_pred_match hv k ksz (case_sensitive h1))).
  exact H.
Qed.

(** The round trip of a key.  On a map built by the calls, with room for
    one more entry, a key of at most 65535 bytes that [isc_hashmap_find]
    does not find is added with ISC_R_SUCCESS; [isc_hashmap_find] then
    returns the value added; [isc_hashmap_delete] of the key returns, and
    after it [isc_hashmap_find] returns ISC_R_NOTFOUND.  The delete returns
    ISC_R_SUCCESS unless it is the call that starts the shrink of a table of
    32 bits; there it returns ISC_R_NOTFOUND. *)
Lemma add_find_delete_round_trip (hashmap : isc_hashmap)
  (hashvalp : option Z) (k : list Z) (ksz v : Z) :
  reachable hashmap -> count hashmap < UINT32_MAX ->
  0 <= ksz <= UINT16_MAX ->
  isc_hashmap_find hashmap hashvalp k ksz = Some (ISC_R_NOTFOUND, 0) ->
  exists hm1 r hm2,
    isc_hashmap_add hashmap hashvalp k ksz v = Some (ISC_R_SUCCESS, hm1) /\
    isc_hashmap_find hm1 hashvalp k ksz = Some (ISC_R_SUCCESS, v) /\
    isc_hashmap_delete hm1 hashvalp k ksz = Some (r, hm2) /\
    isc_hashmap_find hm2 hashvalp k ksz = Some (ISC_R_NOTFOUND, 0) /\
    (r = ISC_R_SUCCESS \/ r = ISC_R_NOTFOUND /\ shrinks_from_32 hm1).
Proof.
  intros Hreach Hc Hk F.
  pose proof (reachable_wf _ Hreach) as Hwf.
  pose proof (find_notfound_inv hashmap hashvalp k ksz 0 Hwf (proj2 Hk) F)
    as Hno.
  destruct (isc_hashmap_add_spec hashmap hashvalp k ksz v Hwf
              (or_intror Hc) Hk)
    as (r1 & hm1 & hp1 & E1 & W1 & Cs1 & Ky1 & _ & _ & Hcase).
  destruct Hcase as [(_ & Hhas & _) | (-> & _ & _ & Hcnt)];
    [contradiction|].
  pose proof (hashval_of_same hm1 hashmap hashvalp k ksz Cs1 Ky1) as Ehv.
  set (hv := hashval_of hashmap hashvalp k ksz) in *.
  assert (Hholds : holds hm1 hv k ksz v).
  { unfold holds. rewrite Cs1.
    rewrite (Hcnt _ (content_pred_match_value hv k ksz
                       (case_sensitive hashmap) v)).
    rewrite new_node_match. cbn [new_node value andb]. rewrite Z.eqb_refl.
    cbn [b2z].
    pose proof (cnt_tb_nonneg
                  (fun x => hashmap_match x hv k ksz (case_sensitive hashmap)
                            && (value x =? v)) (active hashmap)).
    pose proof (cnt_tb_nonneg
                  (fun x => hashmap_match x hv k ksz (case_sensitive hashmap)
                            && (value x =? v)) (other hashmap)).
    unfold cntm. lia. }
  destruct (isc_hashmap_delete_spec hm1 hashvalp k ksz W1 ltac:(lia))
    as (r2 & hm2 & hp2 & E2 & W2 & Cs2 & Ky2 & Ep2 & _ & Hno2 & _ & Hcase2).
  rewrite Ehv in Hno2, Hcase2.
  exists hm1, r2, hm2. split; [exact E1|].
  split.
  { apply (find_success 0); [lia|exact W1|lia|]. rewrite Ehv. exact Hholds. }
  split; [exact E2|].
  split.
  { apply (find_notfound 0); [lia|exact W2|lia|].
    rewrite (hashval_of_same hm2 hm1 hashvalp k ksz Cs2 Ky2), Ehv.
    exact Hno2. }
  destruct Hcase2 as [(-> & _) | (-> & Hnk & _)]; [left; reflexivity|].
  right. split; [reflexivity|].
  destruct (delete_prestep_spec hm1 W1)
    as (hp2' & Ep2' & _ & _ & _ & _ & _ & Hsame & _).
  rewrite Ep2 in Ep2'. injection Ep2' as <-.
  destruct (rehashing_in_progress hm1) eqn:R;
    [exfalso|destruct (under_threshold hm1) eqn:U;
             [destruct (Z.eq_dec (hashbits (active hm1)) 32) as [E32|N32];
              [split; [exact R|split; [exact U|exact E32]]|exfalso]
             |exfalso]].
  all: apply Hnk; apply holds_has_key with (v := v);
    apply (holds_same hm1); [apply Hsame|exact Hholds].
  all: intros (A & B & C); congruence.
Qed.

(** C4. On a map built by any sequence of calls that holds the value [v]
    under a key, [isc_hashmap_add] of that key with any value returns
    ISC_R_EXISTS; [isc_hashmap_find] still returns [v], and the counter, and
    what [isc_hashmap_count] reports, are unchanged. *)
Theorem C4_add_existing_key (hashmap : isc_hashmap) (hashvalp : option Z)
  (k : list Z) (ksz v v' : Z) :
  reachable hashmap -> 0 <= ksz <= UINT16_MAX ->
  isc_hashmap_find hashmap hashvalp k ksz = Some (ISC_R_SUCCESS, v) ->
  exists hashmap',
    isc_hashmap_add hashmap hashvalp k ksz v' = Some (ISC_R_EXISTS, hashmap') /\
    isc_hashmap_find hashmap' hashvalp k ksz = Some (ISC_R_SUCCESS, v) /\
    count hashmap' = count hashmap /\
    isc_hashmap_count hashmap' = isc_hashmap_count hashmap.
Proof.
  intros Hreach Hk F.
  pose proof (reachable_wf _ Hreach) as Hwf.
  pose proof (find_success_inv hashmap hashvalp k ksz v Hwf (proj2 Hk) F)
    as Hholds.
  pose proof (holds_has_key _ _ _ _ _ Hholds) as Hhas.
  destruct (isc_hashmap_add_spec hashmap hashvalp k ksz v' Hwf
              (or_introl Hhas) Hk)
    as (r1 & hm1 & hp1 & E1 & W1 & Cs1 & Ky1 & _ & _ & Hcase).
  destruct Hcase as [(-> & _ & Hsame & Hcount) | (_ & Hno & _)];
    [|contradiction].
  exists hm1. split; [exact E1|].
  split.
  { apply (find_success 0); [lia|exact W1|lia|].
    rewrite (hashval_of_same hm1 hashmap hashvalp k ksz Cs1 Ky1).
    exact (holds_same _ _ _ _ _ _ Hsame Hholds). }
  split; [exact Hcount|]. unfold isc_hashmap_count. rewrite Hcount.
  reflexivity.
Qed.

(** C5. On a map built by any sequence of calls, with no rehash in
    progress: when the counter exceeds [APPROX_90_PERCENT] of the size of
    the active table, of fewer than 32 bits, [isc_hashmap_add] returns with
    an active table whose width is the least [n] above the old width with
    the counter at most [APPROX_40_PERCENT] of [2^n], or 32 when that is
    more; when the counter is below [APPROX_20_PERCENT] of the size of the
    active table, of more than one bit, [isc_hashmap_delete] returns with an
    active table of one bit less. *)
Theorem C5_grow_and_shrink_widths (hashmap : isc_hashmap)
  (hashvalp : option Z) (k : list Z) (ksz v : Z) :
  reachable hashmap -> rehashing_in_progress hashmap = false ->
  0 <= ksz <= UINT16_MAX ->
  (hashbits (active hashmap) < 32 ->
   APPROX_90_PERCENT (size (active hashmap)) < count hashmap ->
   exists r hashmap' n,
     isc_hashmap_add hashmap hashvalp k ksz v = Some (r, hashmap') /\
     grow_target (hashbits (active hashmap)) (count hashmap) n /\
     hashbits (active hashmap') = Z.min n 32 /\
     size (active hashmap') = 2 ^ Z.min n 32) /\
  (1 < hashbits (active hashmap) ->
   count hashmap < APPROX_20_PERCENT (size (active hashmap)) ->
   exists r hashmap',
     isc_hashmap_delete hashmap hashvalp k ksz = Some (r, hashmap') /\
     hashbits (active hashmap')
     = Z.max (hashbits (active hashmap) - 1) 1 /\
     size (active hashmap')
     = 2 ^ Z.max (hashbits (active hashmap) - 1) 1).
Proof.
  intros Hreach R Hk.
  pose proof (reachable_wf _ Hreach) as Hwf.
  pose proof (wf_bits _ _ Hwf) as Hb.
  assert (Hsz : size (active hashmap) = HASHSIZE (hashbits (active hashmap))).
  { destruct Hwf as [_ (Ha & _)]. destruct (table_wf_some _ Ha) as [t Et].
    destruct (table_wf_inv _ _ Ha Et) as (_ & E & _).
    rewrite E, HASHSIZE_pow2 by lia. reflexivity. }
  assert (Hsize : forall hm', wf_slack 0 hm' ->
            size (active hm') = 2 ^ hashbits (active hm')).
  { intros hm' [_ (Ha & _)]. destruct (table_wf_some _ Ha) as [t Et].
    destruct (table_wf_inv _ _ Ha Et) as (_ & E & _). exact E. }
  split.
  - intros H32 Hover. rewrite Hsz in Hover.
    assert (O : over_threshold hashmap = true).
    { unfold over_threshold. cbv zeta. fold (active hashmap).
      unfold HASHMAP_MAX_BITS.
      destruct (Z.eqb_spec (hashbits (active hashmap)) 32); [lia|].
      apply Z.ltb_lt. exact Hover. }
    assert (Hc : count hashmap < UINT32_MAX).
    { pose proof (wf_count _ Hwf) as Hc.
      rewrite max_count_lt32 in Hc by lia.
      assert (2 ^ hashbits (active hashmap) <= 2 ^ 31)
        by (apply Z.pow_le_mono_r; lia).
      change (2 ^ 31) with 2147483648 in *.
      assert (2 ^ hashbits (active hashmap) * 921 / 1024
              <= 2147483648 * 921 / 1024) by (apply Z.div_le_mono; lia).
      change (2147483648 * 921 / 1024) with 1931476992 in *.
      unfold UINT32_MAX. lia. }
    destruct (isc_hashmap_add_spec hashmap hashvalp k ksz v Hwf
                (or_intror Hc) Hk)
      as (r1 & hm1 & hp1 & E1 & W1 & _ & _ & Ep & B1 & _).
    destruct (add_prestep_spec hashmap Hwf)
      as (hp1' & Ep' & _ & _ & _ & _ & Hgrow & _).
    rewrite Ep in Ep'. injection Ep' as <-.
    destruct (Hgrow R O) as [n [HT Hn]].
    exists r1, hm1, n. split; [exact E1|]. split; [exact HT|].
    split; [congruence|]. rewrite (Hsize hm1 W1). congruence.
  - intros H1 Hunder. rewrite Hsz in Hunder.
    assert (U : under_threshold hashmap = true).
    { unfold under_threshold. cbv zeta. fold (active hashmap).
      unfold HASHMAP_MIN_BITS.
      destruct (Z.eqb_spec (hashbits (active hashmap)) 1); [lia|].
      apply Z.ltb_lt. exact Hunder. }
    destruct (isc_hashmap_delete_spec hashmap hashvalp k ksz Hwf (proj2 Hk))
      as (r1 & hm1 & hp1 & E1 & W1 & _ & _ & Ep & B1 & _).
    destruct (delete_prestep_spec hashmap Hwf)
      as (hp1' & Ep' & _ & _ & _ & _ & _ & _ & Hshrink & _).
    rewrite Ep in Ep'. injection Ep' as <-.
    pose proof (Hshrink R U) as Hn.
    exists r1, hm1. split; [exact E1|].
    split; [congruence|]. rewrite (Hsize hm1 W1). congruence.
Qed.

(** C10. On a map built by any sequence of calls the active table has
    between 1 and 32 bits and between 2 and [2^32] slots.  At 32 bits
    [isc_hashmap_add] returns with an active table of 32 bits however full
    the map is, and with ISC_R_SUCCESS for a key that the map does not hold;
    at one bit [isc_hashmap_delete] returns with an active table of one
    bit. *)
Theorem C10_bits_stay_in_range (hashmap : isc_hashmap)
  (hashvalp : option Z) (k : list Z) (ksz v : Z) :
  reachable hashmap -> 0 <= ksz <= UINT16_MAX ->
  (1 <= hashbits (active hashmap) <= 32 /\
   size (active hashmap) = 2 ^ hashbits (active hashmap) /\
   2 <= size (active hashmap) <= 2 ^ 32) /\
  (hashbits (active hashmap) = 32 -> count hashmap < UINT32_MAX ->
   over_threshold hashmap = false /\
   exists r hashmap',
     isc_hashmap_add hashmap hashvalp k ksz v = Some (r, hashmap') /\
     hashbits (active hashmap') = 32 /\
     (isc_hashmap_find hashmap hashvalp k ksz = Some (ISC_R_NOTFOUND, 0) ->
      r = ISC_R_SUCCESS)) /\
  (hashbits (active hashmap) = 1 ->
   under_threshold hashmap = false /\
   exists r hashmap',
     isc_hashmap_delete hashmap hashvalp k ksz = Some (r, hashmap') /\
     hashbits (active hashmap') = 1).
Proof.
  intros Hreach Hk.
  pose proof (reachable_wf _ Hreach) as Hwf.
  pose proof (wf_bits _ _ Hwf) as Hb.
  split; [|split].
  - split; [exact Hb|].
    destruct Hwf as [_ (Ha & _)]. destruct (table_wf_some _ Ha) as [t Et].
    destruct (table_wf_inv _ _ Ha Et) as (_ & E & _).
    split; [exact E|]. rewrite E.
    pose proof (pow2_ge_2 (hashbits (active hashmap)) ltac:(lia)).
    assert (2 ^ hashbits (active hashmap) <= 2 ^ 32)
      by (apply Z.pow_le_mono_r; lia).
    lia.
  - intros E32 Hc.
    assert (O : over_threshold hashmap = false).
    { unfold over_threshold. cbv zeta. fold (active hashmap).
      rewrite E32. reflexivity. }
    split; [exact O|].
    destruct (isc_hashmap_add_spec hashmap hashvalp k ksz v Hwf
                (or_intror Hc) Hk)
      as (r1 & hm1 & hp1 & E1 & W1 & _ & _ & Ep & B1 & Hcase).
    destruct (add_prestep_spec hashmap Hwf)
      as (hp1' & Ep' & _ & _ & _ & _ & _ & Hsame).
    rewrite Ep in Ep'. injection Ep' as <-.
    exists r1, hm1. split; [exact E1|].
    split; [rewrite B1, (Hsame (or_intror O)); exact E32|].
    intros F.
    pose proof (find_notfound_inv hashmap hashvalp k ksz 0 Hwf (proj2 Hk) F)
      as Hno.
    destruct Hcase as [(_ & Hhas & _) | (-> & _)];
      [contradiction|reflexivity].
  - intros E1.
    assert (U : under_threshold hashmap = false).
    { unfold under_threshold. cbv zeta. fold (active hashmap).
      rewrite E1. reflexivity. }
    split; [exact U|].
    destruct (isc_hashmap_delete_spec hashmap hashvalp k ksz Hwf (proj2 Hk))
      as (r1 & hm1 & hp1 & Ed & W1 & _ & _ & Ep & B1 & _).
    destruct (delete_prestep_spec hashmap Hwf)
      as (hp1' & Ep' & _ & _ & _ & _ & _ & _ & _ & Hsame).
    rewrite Ep in Ep'. injection Ep' as <-.
    exists r1, hm1. split; [exact Ed|].
    rewrite B1, (Hsame (or_intror U)). exact E1.
Qed.

Lemma slot_distance (tb : hashmap_table) (t : Z -> hashmap_node) (p : Z) :
  table_wf tb -> table tb = Some t -> 0 <= p < size tb ->
  key_is_null (t p) = false -> psl_is_distance tb t p.
Proof.
  intros Hwf Et Hp Hn.
  destruct (table_wf_inv _ _ Hwf Et) as (Hb & Hsz & Hmask & HS & _).
  rewrite Hsz in Hp. destruct (HS p Hp Hn) as (Hd & Hpos & _).
  unfold psl_is_distance. rewrite Hmask, mask_mod by lia.
  unfold home in Hpos.
  pose proof (pow2_pos (hashbits tb) ltac:(lia)) as Hn0.
  set (h := isc_hash_bits32 (hashval (t p)) (hashbits tb)) in *.
  rewrite Hpos at 2.
  rewrite Zminus_mod, Z.mod_mod by lia.
  rewrite Zplus_mod, u32_mod_pow2 by lia.
  rewrite <- Zplus_mod, <- Zminus_mod.
  replace (h + psl (t p) - h) with (psl (t p)) by lia.
  rewrite Z.mod_small by lia. reflexivity.
Qed.

(** C3. On a map built by any sequence of calls of [isc_hashmap_add],
    [isc_hashmap_delete] and the iterator in which every
    [isc_hashmap_iter_delcurrent_next] is called while the slot under its
    iterator holds a node, and every [isc_hashmap_add] while the map holds
    fewer than UINT32_MAX entries ([built_map]), every occupied slot [p] of
    either table stores in [psl] its distance from the home slot of its
    node, [(p - isc_hash_bits32(hashval, hashbits)) & hashmask]. *)
Theorem C3_psl_is_distance_from_home (hashmap : isc_hashmap) (idx : Z)
  (t : Z -> hashmap_node) (p : Z) :
  built_map hashmap -> idx = 0 \/ idx = 1 ->
  table (tables hashmap idx) = Some t ->
  0 <= p < size (tables hashmap idx) ->
  key_is_null (t p) = false ->
  psl_is_distance (tables hashmap idx) t p.
Proof.
  intros Hbuilt Hidx Et Hp Hn.
  pose proof (built_map_wf _ Hbuilt) as [Hi (Ha & Hst & _)].
  apply slot_distance; try assumption.
  assert (Hi' : idx = hindex hashmap \/
                idx = hashmap_nexttable (hindex hashmap)).
  { destruct Hidx as [E|E], Hi as [E'|E']; rewrite E, E'; cbv; auto. }
  destruct Hi' as [E|E]; rewrite E; [exact Ha|].
  destruct Hst as [(Eo & _) | ((Ho & _) & _)]; [|exact Ho].
  unfold other in Eo. rewrite E, Eo in Et. discriminate.
Qed.

(* ===================================================================== *)
(** * Further properties of the hash map                                  *)
(* ===================================================================== *)

(** Two keys that [hashmap_match] tells apart: the hash values differ, the
    sizes differ, or the bytes that are compared differ. *)
Definition other_key (cs : bool) (hv : Z) (k : list Z) (ksz : Z)
  (hv' : Z) (k' : list Z) (ksz' : Z) : Prop :=
  hv <> hv' \/ ksz <> ksz' \/ key_canon cs k ksz <> key_canon cs k' ksz'.

Lemma other_key_match (cs : bool) (hv : Z) (k : list Z) (ksz : Z)
  (hv' : Z) (k' : list Z) (ksz' : Z) (x : hashmap_node) :
  other_key cs hv k ksz hv' k' ksz' ->
  hashmap_match x hv k ksz cs = true ->
  hashmap_match x hv' k' ksz' cs = false.
Proof.
  intros Ho M.
  destruct (hashmap_match x hv' k' ksz' cs) eqn:M'; [|reflexivity].
  exfalso.
  apply hashmap_match_spec in M. destruct M as (nk & Ek & Eh & Es & Ec).
  apply hashmap_match_spec in M'.
  destruct M' as (nk' & Ek' & Eh' & Es' & Ec').
  rewrite Ek in Ek'. injection Ek' as <-.
  destruct Ho as [H | [H | H]].
  - congruence.
  - congruence.
  - apply H. rewrite <- Ec. rewrite <- Es' in Ec' at 1. rewrite Es in Ec'.
    rewrite Ec'. reflexivity.
Qed.

Lemma isc_hashmap_find_big (hashmap : isc_hashmap) (hashvalp : option Z)
  (k : list Z) (ksz : Z) :
  UINT16_MAX < ksz -> isc_hashmap_find hashmap hashvalp k ksz = None.
Proof.
  intros H. unfold isc_hashmap_find, key_REQUIRE.
  destruct (Z.leb_spec ksz UINT16_MAX); [lia|]. reflexivity.
Qed.

Lemma same_contents_sym (h1 h2 : isc_hashmap) :
  same_contents h1 h2 -> same_contents h2 h1.
Proof.
  intros (A & B & C). split; [|split]; auto.
  intros P HP. symmetry. apply C. exact HP.
Qed.

(** Two maps that agree on the nodes of a key answer a find of that key
    alike. *)
Lemma find_agree (h1 h2 : isc_hashmap) (hashvalp : option Z) (k : list Z)
  (ksz : Z) :
  wf h1 -> wf h2 ->
  case_sensitive h1 = case_sensitive h2 -> hash_key h1 = hash_key h2 ->
  (forall P, content_pred P ->
     (forall x, P x = true ->
        hashmap_match x (hashval_of h1 hashvalp k ksz) k ksz
          (case_sensitive h1) = true) ->
     cntm P h1 = cntm P h2) ->
  isc_hashmap_find h1 hashvalp k ksz = isc_hashmap_find h2 hashvalp k ksz.
Proof.
  intros W1 W2 Ecs Ehk Hagree.
  destruct (Z_le_gt_dec ksz UINT16_MAX) as [Hk|Hk].
  2:{ rewrite !isc_hashmap_find_big by lia. reflexivity. }
  pose proof (hashval_of_same h1 h2 hashvalp k ksz Ecs Ehk) as Ehv.
  destruct (isc_hashmap_find_spec 0 h1 hashvalp k ksz ltac:(lia) W1 Hk)
    as [(v & F & Hh) | (F & Hn)].
  - rewrite F. symmetry.
    apply (find_success 0); [lia|exact W2|exact Hk|].
    unfold holds in *. rewrite <- Ehv, <- Ecs.
    rewrite <- (Hagree
      (fun x => hashmap_match x (hashval_of h1 hashvalp k ksz) k ksz
                  (case_sensitive h1) && (value x =? v))
      (content_pred_match_value (hashval_of h1 hashvalp k ksz) k ksz
         (case_sensitive h1) v)).
    + exact Hh.
    + intros x Hx. apply andb_true_iff in Hx. apply Hx.
  - rewrite F. symmetry.
    apply (find_notfound 0); [lia|exact W2|exact Hk|].
    unfold has_key in *. rewrite <- Ehv, <- Ecs.
    rewrite <- (Hagree
      (fun x => hashmap_match x (hashval_of h1 hashvalp k ksz) k ksz
                  (case_sensitive h1))
      (content_pred_match (hashval_of h1 hashvalp k ksz) k ksz
         (case_sensitive h1))).
    + exact Hn.
    + intros x Hx. exact Hx.
Qed.

Lemma find_same (h1 h2 : isc_hashmap) (hashvalp : option Z) (k : list Z)
  (ksz : Z) :
  wf h1 -> wf h2 -> same_contents h1 h2 ->
  isc_hashmap_find h1 hashvalp k ksz = isc_hashmap_find h2 hashvalp k ksz.
Proof.
  intros W1 W2 (Ecs & Ehk & Hc).
  apply find_agree; try assumption.
  intros P HP _. apply Hc. exact HP.
Qed.

(** X1. A migration step on a map that the calls have built, with a rehash
    in progress, returns and changes no answer: [isc_hashmap_find] gives
    for every key what it gave before, and the counter is as it was. *)
Theorem X1_rehash_one_keeps_finds (hashmap : isc_hashmap) :
  reachable hashmap -> rehashing_in_progress hashmap = true ->
  exists hashmap',
    hashmap_rehash_one hashmap = Some hashmap' /\
    count hashmap' = count hashmap /\
    forall hashvalp k ksz,
      isc_hashmap_find hashmap' hashvalp k ksz
      = isc_hashmap_find hashmap hashvalp k ksz.
Proof.
  intros R Hre. pose proof (reachable_wf _ R) as W.
  pose proof (wf_rehashing 0 _ W Hre) as Hsrc.
  destruct (rehash_one_spec _ W Hsrc) as (hm' & E & W1 & Hs & Hc & _).
  exists hm'. split; [exact E|]. split; [exact Hc|].
  intros hashvalp k ksz. symmetry.
  apply find_same; [exact W| |exact Hs].
  apply (wf_slack_weaken 1 0); [lia|exact W1].
Qed.

(** X2. An [isc_hashmap_add] does not disturb the other keys: whatever it
    returns, a find of a key that [hashmap_match] tells apart from the
    added one gives what it gave before the call. *)
Theorem X2_add_keeps_other_keys (hashmap : isc_hashmap)
  (hashvalp : option Z) (k : list Z) (ksz v : Z) (r : isc_result)
  (hashmap' : isc_hashmap) (hashvalp' : option Z) (k' : list Z) (ksz' : Z) :
  reachable hashmap -> count hashmap < UINT32_MAX -> 0 <= ksz ->
  isc_hashmap_add hashmap hashvalp k ksz v = Some (r, hashmap') ->
  other_key (case_sensitive hashmap)
    (hashval_of hashmap hashvalp k ksz) k ksz
    (hashval_of hashmap hashvalp' k' ksz') k' ksz' ->
  isc_hashmap_find hashmap' hashvalp' k' ksz'
  = isc_hashmap_find hashmap hashvalp' k' ksz'.
Proof.
  intros R Hc Hk0 A Ho. pose proof (reachable_wf _ R) as W.
  assert (Hk : ksz <= UINT16_MAX).
  { destruct (Z_le_gt_dec ksz UINT16_MAX) as [H|H]; [exact H|].
    rewrite isc_hashmap_add_big in A by lia. discriminate. }
  destruct (isc_hashmap_add_spec hashmap hashvalp k ksz v W
              (or_intror Hc) (conj Hk0 Hk))
    as (r0 & hm0 & hm1 & E & W' & Ecs & Ehk & _ & _ & Hres).
  rewrite E in A. injection A as -> ->.
  symmetry.
  destruct Hres as [(_ & _ & Hs & _) | (_ & _ & _ & Hcnt)].
  - apply find_same; assumption.
  - apply find_agree; [exact W|exact W'|congruence|congruence|].
    intros P HP HPm. rewrite (Hcnt P HP).
    destruct (P (new_node (hashval_of hashmap hashvalp k ksz) k ksz v))
      eqn:EP; [|simpl; lia].
    exfalso. apply HPm in EP.
    rewrite (other_key_match _ _ _ _ _ _ _ _ Ho
               (new_node_match _ _ _ _ _)) in EP.
    discriminate.
Qed.

(** X3. An [isc_hashmap_delete] that does not start the shrink of a table
    of 32 bits does not disturb the other keys: whatever it returns, a
    find of a key that [hashmap_match] tells apart from the deleted one
    gives what it gave before the call. *)
Theorem X3_delete_keeps_other_keys (hashmap : isc_hashmap)
  (hashvalp : option Z) (k : list Z) (ksz : Z) (r : isc_result)
  (hashmap' : isc_hashmap) (hashvalp' : option Z) (k' : list Z) (ksz' : Z) :
  reachable hashmap -> ~ shrinks_from_32 hashmap ->
  isc_hashmap_delete hashmap hashvalp k ksz = Some (r, hashmap') ->
  other_key (case_sensitive hashmap)
    (hashval_of hashmap hashvalp k ksz) k ksz
    (hashval_of hashmap hashvalp' k' ksz') k' ksz' ->
  isc_hashmap_find hashmap' hashvalp' k' ksz'
  = isc_hashmap_find hashmap hashvalp' k' ksz'.
Proof.
  intros R Hns D Ho. pose proof (reachable_wf _ R) as W.
  assert (Hk : ksz <= UINT16_MAX).
  { destruct (Z_le_gt_dec ksz UINT16_MAX) as [H|H]; [exact H|].
    rewrite isc_hashmap_delete_big in D by lia. discriminate. }
  destruct (isc_hashmap_delete_spec hashmap hashvalp k ksz W Hk)
    as (r0 & hm0 & hm1 & E & W' & Ecs & Ehk & Ep & _ & _ & _ & Hres).
  rewrite E in D. injection D as -> ->.
  destruct (delete_prestep_spec hashmap W)
    as (hm1' & Ep' & W1 & _ & _ & _ & _ & Hsame & _).
  rewrite Ep in Ep'. injection Ep' as <-.
  specialize (Hsame Hns). destruct Hsame as (Ecs1 & Ehk1 & Hc1).
  symmetry.
  apply find_agree; [exact W|exact W'|congruence|congruence|].
  intros P HP HPm. rewrite (Hc1 P HP).
  destruct Hres as [(_ & _ & _ & x & Mx & Hcnt) | (_ & _ & -> & _)];
    [|reflexivity].
  rewrite (Hcnt P HP).
  destruct (P x) eqn:EP; [|simpl; lia].
  exfalso. apply HPm in EP.
  rewrite (other_key_match _ _ _ _ _ _ _ _ Ho Mx) in EP. discriminate.
Qed.

Lemma has_key_find (hashmap : isc_hashmap) (hashvalp : option Z)
  (k : list Z) (ksz : Z) :
  wf hashmap -> ksz <= UINT16_MAX ->
  has_key hashmap (hashval_of hashmap hashvalp k ksz) k ksz ->
  exists v, isc_hashmap_find hashmap hashvalp k ksz = Some (ISC_R_SUCCESS, v).
Proof.
  intros W Hk H.
  destruct (isc_hashmap_find_spec 0 hashmap hashvalp k ksz ltac:(lia) W Hk)
    as [(v & F & _) | (_ & Hn)]; [eauto|contradiction].
Qed.

Lemma reachable_count_range (hashmap : isc_hashmap) :
  reachable hashmap -> 0 <= count hashmap <= UINT32_MAX.
Proof.
  intros R. pose proof (reachable_wf _ R) as W.
  pose proof (wf_count _ W) as Hc. pose proof (wf_bits 0 _ W) as Hb.
  pose proof (max_count_lt _ Hb).
  destruct (Z.eq_dec (hashbits (active hashmap)) 32) as [E|N].
  - rewrite E, max_count_32 in Hc. exact Hc.
  - pose proof (max_count_le _ Hb). 
    assert (2 ^ hashbits (active hashmap) <= 2 ^ 31)
      by (apply Z.pow_le_mono_r; lia).
    change (2 ^ 31) with 2147483648 in *. unfold UINT32_MAX. lia.
Qed.

(** X4. On a map that the calls have built, [isc_hashmap_add] of a key of
    at most 65535 bytes returns, and its result tells whether the key was
    there: ISC_R_SUCCESS when a find returned ISC_R_NOTFOUND, and then
    [isc_hashmap_count] is one more; ISC_R_EXISTS when a find returned
    ISC_R_SUCCESS, and then [isc_hashmap_count] is as before. *)
Theorem X4_add_result_and_count (hashmap : isc_hashmap)
  (hashvalp : option Z) (k : list Z) (ksz v : Z) :
  reachable hashmap -> count hashmap < UINT32_MAX ->
  0 <= ksz <= UINT16_MAX ->
  exists r hashmap',
    isc_hashmap_add hashmap hashvalp k ksz v = Some (r, hashmap') /\
    (r = ISC_R_SUCCESS /\
     isc_hashmap_find hashmap hashvalp k ksz = Some (ISC_R_NOTFOUND, 0) /\
     isc_hashmap_count hashmap' = isc_hashmap_count hashmap + 1
     \/
     r = ISC_R_EXISTS /\
     (exists v0,
        isc_hashmap_find hashmap hashvalp k ksz = Some (ISC_R_SUCCESS, v0)) /\
     isc_hashmap_count hashmap' = isc_hashmap_count hashmap).
Proof.
  intros R Hc Hk. pose proof (reachable_wf _ R) as W.
  pose proof (reachable_count_range _ R) as Hr.
  destruct (isc_hashmap_add_spec hashmap hashvalp k ksz v W
              (or_intror Hc) Hk)
    as (r & hm' & hm1 & E & W' & _ & _ & _ & _ & Hres).
  exists r, hm'. split; [exact E|].
  unfold isc_hashmap_count.
  destruct Hres as [(-> & Hh & _ & Ec) | (-> & Hn & Ec & _)].
  - right. split; [reflexivity|]. split.
    + apply has_key_find; [exact W|lia|exact Hh].
    + rewrite Ec. reflexivity.
  - left. split; [reflexivity|]. split.
    + apply (find_notfound 0); [lia|exact W|lia|exact Hn].
    + rewrite Ec. unfold UINT32_MAX in *. rewrite !u32_small by lia.
      reflexivity.
Qed.

(** X5. On a map that the calls have built, an [isc_hashmap_delete] that
    does not start the shrink of a table of 32 bits returns, and a find of
    the key then returns ISC_R_NOTFOUND.  The result is ISC_R_SUCCESS when
    a find returned ISC_R_SUCCESS before, and then [isc_hashmap_count] is
    one less; it is ISC_R_NOTFOUND when a find returned ISC_R_NOTFOUND,
    and then the count and the answer to every find are as before. *)
Theorem X5_delete_result_and_count (hashmap : isc_hashmap)
  (hashvalp : option Z) (k : list Z) (ksz : Z) :
  reachable hashmap -> ~ shrinks_from_32 hashmap -> ksz <= UINT16_MAX ->
  exists r hashmap',
    isc_hashmap_delete hashmap hashvalp k ksz = Some (r, hashmap') /\
    isc_hashmap_find hashmap' hashvalp k ksz = Some (ISC_R_NOTFOUND, 0) /\
    (r = ISC_R_SUCCESS /\
     (exists v0,
        isc_hashmap_find hashmap hashvalp k ksz = Some (ISC_R_SUCCESS, v0)) /\
     isc_hashmap_count hashmap' = isc_hashmap_count hashmap - 1
     \/
     r = ISC_R_NOTFOUND /\
     isc_hashmap_find hashmap hashvalp k ksz = Some (ISC_R_NOTFOUND, 0) /\
     isc_hashmap_count hashmap' = isc_hashmap_count hashmap /\
     forall hashvalp' k' ksz',
       isc_hashmap_find hashmap' hashvalp' k' ksz'
       = isc_hashmap_find hashmap hashvalp' k' ksz').
Proof.
  intros R Hns Hk. pose proof (reachable_wf _ R) as W.
  pose proof (reachable_count_range _ R) as Hr.
  destruct (isc_hashmap_delete_spec hashmap hashvalp k ksz W Hk)
    as (r & hm' & hm1 & E & W' & Ecs & Ehk & Ep & _ & Hgone & _ & Hres).
  destruct (delete_prestep_spec hashmap W)
    as (hm1' & Ep' & W1 & _ & _ & _ & _ & Hsame & _).
  rewrite Ep in Ep'. injection Ep' as <-.
  specialize (Hsame Hns).
  exists r, hm'. split; [exact E|].
  pose proof (hashval_of_same hm' hashmap hashvalp k ksz Ecs Ehk) as Ehv.
  split.
  { apply (find_notfound 0); [lia|exact W'|exact Hk|].
    rewrite Ehv. exact Hgone. }
  unfold isc_hashmap_count.
  destruct Hres as [(-> & Hh & Ec & _) | (-> & Hn & -> & Ec)].
  - left. split; [reflexivity|].
    apply (has_key_same _ _ _ _ _ (same_contents_sym _ _ Hsame)) in Hh.
    split; [apply has_key_find; [exact W|exact Hk|exact Hh]|].
    assert (1 <= count hashmap).
    { destruct W as [_ (_ & _ & _ & Hocc & _)].
      unfold has_key, cntm in Hh.
      pose proof (cnt_tb_add_le
        (fun x => hashmap_match x (hashval_of hashmap hashvalp k ksz) k ksz
                    (case_sensitive hashmap))
        (fun _ => false) occupied (active hashmap)) as Ha.
      pose proof (cnt_tb_add_le
        (fun x => hashmap_match x (hashval_of hashmap hashvalp k ksz) k ksz
                    (case_sensitive hashmap))
        (fun _ => false) occupied (other hashmap)) as Hb.
      assert (Hx : forall x,
        b2z (hashmap_match x (hashval_of hashmap hashvalp k ksz) k ksz
               (case_sensitive hashmap)) + b2z false <= b2z (occupied x)).
      { intros x.
        destruct (hashmap_match x _ k ksz _) eqn:M; simpl.
        - apply match_not_null in M. apply occupied_true in M. rewrite M.
          simpl. lia.
        - destruct (occupied x); simpl; lia. }
      specialize (Ha Hx). specialize (Hb Hx).
      pose proof (cnt_tb_nonneg (fun _ => false) (active hashmap)).
      pose proof (cnt_tb_nonneg (fun _ => false) (other hashmap)).
      lia. }
    rewrite Ec. unfold UINT32_MAX in *. rewrite !u32_small by lia.
    reflexivity.
  - right. split; [reflexivity|]. split.
    + apply (find_notfound 0); [lia|exact W|exact Hk|].
      intros Hh. apply Hn.
      exact (has_key_same _ _ _ _ _ Hsame Hh).
    + split; [rewrite Ec; reflexivity|].
      intros hashvalp' k' ksz'. symmetry.
      apply find_same; assumption.
Qed.

(** X6. On a map built by any sequence of calls in which every
    [isc_hashmap_iter_delcurrent_next] is called while the slot under its
    iterator holds a node, and every [isc_hashmap_add] while the map holds
    fewer than UINT32_MAX entries ([built_map]), a key is
    stored once: two slots, in either table, whose nodes [hashmap_match]
    accepts for the same key are the same slot of the same table. *)
Theorem X6_key_stored_once (hashmap : isc_hashmap) (hv : Z) (k : list Z)
  (ksz : Z) (idx idx' : Z) (t t' : Z -> hashmap_node) (p p' : Z) :
  built_map hashmap -> idx = 0 \/ idx = 1 -> idx' = 0 \/ idx' = 1 ->
  table (tables hashmap idx) = Some t ->
  table (tables hashmap idx') = Some t' ->
  0 <= p < size (tables hashmap idx) ->
  0 <= p' < size (tables hashmap idx') ->
  hashmap_match (t p) hv k ksz (case_sensitive hashmap) = true ->
  hashmap_match (t' p') hv k ksz (case_sensitive hashmap) = true ->
  idx = idx' /\ p = p'.
Proof.
  intros R Hi Hi' Et Et' Hp Hp' M M'.
  pose proof (built_map_wf _ R) as W.
  pose proof (wf_uniq 0 hashmap hv k ksz W) as Hu.
  destruct W as [Hidx _].
  set (P := fun x => hashmap_match x hv k ksz (case_sensitive hashmap)) in *.
  destruct (Z.eq_dec idx idx') as [<-|Hne].
  - split; [reflexivity|].
    rewrite Et in Et'. injection Et' as <-.
    destruct (Z.eq_dec p p') as [Epp|Npp]; [exact Epp|exfalso].
    pose proof (cnt_ge2 P t (size (tables hashmap idx)) p p' Hp Hp' Npp M M')
      as H2.
    unfold cntm, active, other in Hu.
    pose proof (cnt_tb_nonneg P (tables hashmap (hindex hashmap))).
    pose proof (cnt_tb_nonneg P
                  (tables hashmap (hashmap_nexttable (hindex hashmap)))).
    pose proof (cnt_tb_some P _ _ Et) as Ec.
    destruct Hi as [-> | ->]; destruct Hidx as [Eh | Eh];
      rewrite Eh in *; cbn [hashmap_nexttable Z.eqb] in *; lia.
  - exfalso.
    pose proof (cnt_tb_ge1 P _ t p Et Hp M) as H1.
    pose proof (cnt_tb_ge1 P _ t' p' Et' Hp' M') as H1'.
    unfold cntm, active, other in Hu.
    destruct Hi as [-> | ->]; destruct Hi' as [-> | ->];
      try (exfalso; apply Hne; reflexivity);
      destruct Hidx as [Eh | Eh];
      rewrite Eh in *; cbn [hashmap_nexttable Z.eqb] in *; lia.
Qed.

Lemma wf_count_range (hashmap : isc_hashmap) :
  wf hashmap -> 0 <= count hashmap <= UINT32_MAX.
Proof.
  intros W.
  pose proof (wf_count _ W) as Hc. pose proof (wf_bits 0 _ W) as Hb.
  pose proof (max_count_lt _ Hb).
  destruct (Z.eq_dec (hashbits (active hashmap)) 32) as [E|N].
  - rewrite E, max_count_32 in Hc. exact Hc.
  - pose proof (max_count_le _ Hb).
    assert (2 ^ hashbits (active hashmap) <= 2 ^ 31)
      by (apply Z.pow_le_mono_r; lia).
    change (2 ^ 31) with 2147483648 in *. unfold UINT32_MAX. lia.
Qed.

(** X7. On a map built by any sequence of calls in which every
    [isc_hashmap_iter_delcurrent_next] is called while the slot under its
    iterator holds a node, and every [isc_hashmap_add] while the map holds
    fewer than UINT32_MAX entries ([built_map]): the
    counter is at least the number of nodes in the two tables; and while
    the active table has fewer than 32 bits the counter is at most one
    more than [APPROX_90_PERCENT] of the size of that table, which is below
    UINT32_MAX, so that [isc_hashmap_count] reports it without
    truncation. *)
Theorem X7_count_within_bounds (hashmap : isc_hashmap) :
  built_map hashmap ->
  cntm occupied hashmap <= count hashmap /\
  (hashbits (active hashmap) < 32 ->
   count hashmap <= APPROX_90_PERCENT (size (active hashmap)) + 1 /\
   count hashmap < UINT32_MAX /\
   isc_hashmap_count hashmap = count hashmap).
Proof.
  intros R. pose proof (built_map_wf _ R) as W.
  pose proof (wf_count _ W) as Hc. pose proof (wf_bits 0 _ W) as Hb.
  assert (Hlow : cntm occupied hashmap <= count hashmap).
  { destruct W as [_ (_ & _ & _ & Hocc & _)]. unfold cntm. exact Hocc. }
  split; [exact Hlow|].
  intros H32.
  assert (H90 : count hashmap
                <= APPROX_90_PERCENT (size (active hashmap)) + 1).
  { destruct W as [_ (Ha & _)].
    destruct Ha as (t & _ & _ & Esz & _).
    rewrite Esz. unfold max_count, HASHMAP_MAX_BITS in Hc.
    destruct (Z.eqb_spec (hashbits (active hashmap)) 32); [lia|].
    rewrite HASHSIZE_pow2 in Hc by lia. apply Hc. }
  assert (Hmax : count hashmap < UINT32_MAX).
  { rewrite max_count_lt32 in Hc by lia.
    assert (2 ^ hashbits (active hashmap) <= 2 ^ 31)
      by (apply Z.pow_le_mono_r; lia).
    change (2 ^ 31) with 2147483648 in *.
    assert (2 ^ hashbits (active hashmap) * 921 / 1024
            <= 2147483648 * 921 / 1024) by (apply Z.div_le_mono; lia).
    change (2147483648 * 921 / 1024) with 1931476992 in *.
    unfold UINT32_MAX. lia. }
  split; [exact H90|]. split; [exact Hmax|].
  unfold isc_hashmap_count. apply u32_small.
  pose proof (wf_count_range _ W) as Hr.
  unfold UINT32_MAX in Hmax. lia.
Qed.

(** X8. [isc_hashmap_create] returns for 1 to 32 bits and fails its
    REQUIRE for any other width.  The map it returns has one table of
    [2^bits] slots, no rehash in progress and count 0, and every find on
    it returns ISC_R_NOTFOUND. *)
Theorem X8_create_gives_empty_map (bits options : Z) (entropy : list Z) :
  (1 <= bits <= 32 ->
   exists hashmap,
     isc_hashmap_create bits options entropy = Some hashmap /\
     hashbits (active hashmap) = bits /\
     size (active hashmap) = 2 ^ bits /\
     rehashing_in_progress hashmap = false /\
     isc_hashmap_count hashmap = 0 /\
     forall hashvalp k ksz, ksz <= UINT16_MAX ->
       isc_hashmap_find hashmap hashvalp k ksz = Some (ISC_R_NOTFOUND, 0)) /\
  (~ 1 <= bits <= 32 -> isc_hashmap_create bits options entropy = None).
Proof.
  split.
  - intros Hb.
    assert (E : exists hashmap,
               isc_hashmap_create bits options entropy = Some hashmap).
    { rewrite isc_hashmap_create_eq.
      unfold HASHMAP_MIN_BITS, HASHMAP_MAX_BITS, hashmap_create_table.
      assert (E1 : (1 <=? bits) = true) by (apply Z.leb_le; lia).
      assert (E2 : (bits <=? 32) = true) by (apply Z.leb_le; lia).
      rewrite E1, E2. cbn. unfold HASHMAP_MIN_BITS, HASHMAP_MAX_BITS.
      rewrite E1, E2. cbn. eauto. }
    destruct E as [hm E]. exists hm. split; [exact E|].
    destruct (create_wf _ _ _ _ E) as (W & Ebits & Ec & Hempty).
    destruct (isc_hashmap_create_spec _ _ _ _ E) as (_ & Ehm).
    split; [exact Ebits|]. split.
    { destruct W as [_ (Ha & _)]. destruct Ha as (t & _ & _ & Esz & _).
      rewrite Esz, Ebits. reflexivity. }
    split; [rewrite Ehm; reflexivity|].
    split; [unfold isc_hashmap_count; rewrite Ec; reflexivity|].
    intros hashvalp k ksz Hk.
    apply (find_notfound 0); [lia|exact W|exact Hk|].
    unfold has_key. rewrite Hempty by apply content_pred_match. lia.
  - intros Hb. rewrite isc_hashmap_create_eq.
    unfold HASHMAP_MIN_BITS, HASHMAP_MAX_BITS.
    destruct (Z.leb_spec 1 bits); [|reflexivity].
    destruct (Z.leb_spec bits 32); [lia|reflexivity].
Qed.

(** ** Passes of an iterator *)

(** The slot [p] of table [idx] is at or after the position of the
    iterator in the order of a pass: further on in the table the iterator
    is in, or in the table the pass goes to next. *)
Definition slot_from (hashmap : isc_hashmap) (it : isc_hashmap_iter)
  (idx p : Z) : Prop :=
  (idx = iter_hindex it /\ iter_i it <= p) \/
  (try_nexttable hashmap (iter_hindex it) = true /\
   idx = hashmap_nexttable (iter_hindex it)).

(** The slot is after the position of the iterator. *)
Definition slot_ahead (hashmap : isc_hashmap) (it : isc_hashmap_iter)
  (idx p : Z) : Prop :=
  (idx = iter_hindex it /\ iter_i it < p) \/
  (try_nexttable hashmap (iter_hindex it) = true /\
   idx = hashmap_nexttable (iter_hindex it)).

(** The slot [p] of table [idx] holds a node. *)
Definition node_at (hashmap : isc_hashmap) (idx p : Z) : Prop :=
  (idx = 0 \/ idx = 1) /\
  exists t, table (tables hashmap idx) = Some t /\
    0 <= p < size (tables hashmap idx) /\
    key_is_null (t p) = false.

Lemma iter_skip_loop (tb : hashmap_table) (t : Z -> hashmap_node) :
  table tb = Some t -> size tb <= 4294967296 ->
  forall (m : nat) (i0 : Z),
    0 <= i0 -> i0 + Z.of_nat m = size tb ->
    exists i,
      while_nat (iter_skip_body tb) (Datatypes.S m) i0 = Break (Some i) /\
      i0 <= i <= size tb /\
      (forall p, i0 <= p < i -> key_is_null (t p) = true) /\
      (i < size tb -> key_is_null (t i) = false).
Proof.
  intros Et Hsz. induction m as [|m IH]; intros i0 Hi Hm.
  - cbn [while_nat]. unfold iter_skip_body.
    destruct (Z.ltb_spec i0 (size tb)); [lia|].
    exists i0. split; [reflexivity|]. split; [lia|]. split; intros; lia.
  - cbn [while_nat]. unfold iter_skip_body at 1.
    destruct (Z.ltb_spec i0 (size tb)); [|lia]. rewrite Et.
    destruct (key_is_null (t i0)) eqn:En.
    + rewrite u64_small by lia.
      destruct (IH (i0 + 1)) as [i [W [Hi' [Hnull Hnn]]]]; [lia|lia|].
      exists i. split; [exact W|]. split; [lia|]. split; [|exact Hnn].
      intros p Hp. destruct (Z.eq_dec p i0) as [->|Hne]; [exact En|].
      apply Hnull. lia.
    + exists i0. split; [reflexivity|]. split; [lia|].
      split; [intros; lia|]. intros _. exact En.
Qed.

Lemma iter_skip_spec (tb : hashmap_table) (t : Z -> hashmap_node) (i0 : Z) :
  table tb = Some t -> size tb <= 4294967296 -> 0 <= i0 <= size tb ->
  exists i,
    while 4294967298 (iter_skip_body tb) i0 = Some (Some i) /\
    i0 <= i <= size tb /\
    (forall p, i0 <= p < i -> key_is_null (t p) = true) /\
    (i < size tb -> key_is_null (t i) = false).
Proof.
  intros Et Hsz Hi.
  destruct (iter_skip_loop tb t Et Hsz (Z.to_nat (size tb - i0)) i0)
    as [i [W H]]; [lia|lia|].
  exists i. split; [|exact H].
  apply (while_intro _ _ _ _ _ W). lia.
Qed.

Lemma while_3 {S R : Type} (body : S -> step S R) (s : S) :
  while 3 body s
  = match body s with
    | Break r => Some r
    | Continue s0 =>
        match body s0 with
        | Break r => Some r
        | Continue s1 =>
            match body s1 with
            | Break r => Some r
            | Continue _ => None
            end
        end
    end.
Proof.
  unfold while. cbn [while_pos].
  destruct (body s) as [s0|r]; [|reflexivity].
  destruct (body s0) as [s1|r]; reflexivity.
Qed.

(** One pass over the table the iterator is in. *)
Lemma iter_next_body_spec (hashmap : isc_hashmap) (it : isc_hashmap_iter)
  (t : Z -> hashmap_node) :
  table (tables hashmap (iter_hindex it)) = Some t ->
  size (tables hashmap (iter_hindex it)) <= 4294967296 ->
  0 <= iter_i it <= size (tables hashmap (iter_hindex it)) ->
  exists i,
    iter_i it <= i <= size (tables hashmap (iter_hindex it)) /\
    (forall p, iter_i it <= p < i -> key_is_null (t p) = true) /\
    (i < size (tables hashmap (iter_hindex it)) ->
     key_is_null (t i) = false) /\
    iter_next_body hashmap it
    = if i <? size (tables hashmap (iter_hindex it)) then
        Break (Some (ISC_R_SUCCESS,
                     mk_iter i (iter_hindex it) (Some (iter_hindex it, i))))
      else if try_nexttable hashmap (iter_hindex it) then
        Continue (mk_iter 0 (hashmap_nexttable (iter_hindex it))
                    (iter_cur it))
      else
        Break (Some (ISC_R_NOMORE,
                     mk_iter i (iter_hindex it) (iter_cur it))).
Proof.
  intros Et Hsz Hi.
  destruct (iter_skip_spec _ t (iter_i it) Et Hsz Hi)
    as (i & W & Hi' & Hnull & Hnn).
  exists i. split; [exact Hi'|]. split; [exact Hnull|].
  split; [exact Hnn|].
  unfold iter_next_body. cbv zeta. rewrite W. reflexivity.
Qed.

Lemma wf_table_size (hashmap : isc_hashmap) (idx : Z)
  (t : Z -> hashmap_node) :
  wf hashmap ->
  idx = hindex hashmap \/ idx = hashmap_nexttable (hindex hashmap) ->
  table (tables hashmap idx) = Some t ->
  0 < size (tables hashmap idx) <= 4294967296.
Proof.
  intros [Hidx (Ha & Hst & _)] Hi Et.
  assert (Htw : table_wf (tables hashmap idx)).
  { destruct Hi as [E|E]; rewrite E; [exact Ha|].
    destruct Hst as [(Eo & _) | ((Ho & _) & _)]; [|exact Ho].
    unfold other in Eo. rewrite E, Eo in Et. discriminate. }
  destruct (table_wf_inv _ _ Htw Et) as (Hb & Hsz & _).
  rewrite Hsz. pose proof (pow2_pos (hashbits (tables hashmap idx))).
  pose proof (pow2_le_32 (hashbits (tables hashmap idx))). lia.
Qed.

(** [isc__hashmap_iter_next] from a position in a table of the map: it
    returns; with ISC_R_SUCCESS the iterator stands on the first node at
    or after the position, with ISC_R_NOMORE there is no such node. *)
Lemma iter_pass_spec (hashmap : isc_hashmap) (it : isc_hashmap_iter)
  (t : Z -> hashmap_node) :
  wf hashmap ->
  iter_hindex it = hindex hashmap \/
  iter_hindex it = hashmap_nexttable (hindex hashmap) ->
  table (tables hashmap (iter_hindex it)) = Some t ->
  0 <= iter_i it <= size (tables hashmap (iter_hindex it)) ->
  exists r it',
    isc__hashmap_iter_next hashmap it = Some (r, it') /\
    (r = ISC_R_SUCCESS /\
     iter_valid hashmap it' /\
     iter_cur it' = Some (iter_hindex it', iter_i it') /\
     slot_from hashmap it (iter_hindex it') (iter_i it') /\
     (forall idx p, node_at hashmap idx p -> slot_from hashmap it idx p ->
        (idx = iter_hindex it' /\ p = iter_i it') \/
        slot_ahead hashmap it' idx p)
     \/
     r = ISC_R_NOMORE /\
     forall idx p, node_at hashmap idx p -> ~ slot_from hashmap it idx p).
Proof.
  intros W Hh Et Hi. pose proof W as [Hidx _].
  pose proof (wf_table_size _ _ _ W Hh Et) as Hsz.
  assert (Hh01 : iter_hindex it = 0 \/ iter_hindex it = 1).
  { destruct Hh as [E|E]; rewrite E; [exact Hidx|].
    apply (nexttable_cases _ Hidx). }
  rewrite isc__hashmap_iter_next_eq, while_3.
  destruct (iter_next_body_spec hashmap it t Et ltac:(lia) Hi)
    as (i & Hi' & Hnull & Hnn & ->).
  destruct (Z.ltb_spec i (size (tables hashmap (iter_hindex it))))
    as [Hlt|Hge].
  - (* a node in the table the iterator is in *)
    cbn [bind]. eexists _, _. split; [reflexivity|]. left.
    split; [reflexivity|]. cbn [iter_hindex iter_i iter_cur].
    split.
    { split; [discriminate|]. split; [exact Hh01|]. exists t.
      cbn [iter_hindex iter_i]. split; [exact Et|].
      split; [lia|exact (Hnn Hlt)]. }
    split; [reflexivity|]. split; [left; split; [reflexivity|lia]|].
    intros idx p (_ & t' & Et' & Hp & Hn') [(-> & Hfrom) | (Htry & ->)].
    + rewrite Et in Et'. injection Et' as <-.
      destruct (Z.lt_trichotomy p i) as [H|[H|H]].
      * rewrite Hnull in Hn' by lia. discriminate.
      * left. split; [reflexivity|exact H].
      * right. left. cbn [iter_hindex iter_i]. split; [reflexivity|exact H].
    + right. right. cbn [iter_hindex]. split; [exact Htry|reflexivity].
  - assert (Ei : i = size (tables hashmap (iter_hindex it))) by lia.
    assert (Hempty : forall idx p, node_at hashmap idx p ->
              idx = iter_hindex it -> iter_i it <= p -> False).
    { intros idx p (_ & t' & Et' & Hp & Hn') -> Hfrom.
      rewrite Et in Et'. injection Et' as <-.
      rewrite Hnull in Hn' by lia. discriminate. }
    destruct (try_nexttable hashmap (iter_hindex it)) eqn:Htry.
    + (* on to the other table *)
      unfold try_nexttable in Htry. apply andb_true_iff in Htry.
      destruct Htry as [Eh Hre]. apply Z.eqb_eq in Eh.
      assert (Htry : try_nexttable hashmap (iter_hindex it) = true).
      { unfold try_nexttable. rewrite Eh, Z.eqb_refl, Hre. reflexivity. }
      unfold rehashing_in_progress in Hre.
      destruct (table (tables hashmap (hashmap_nexttable (hindex hashmap))))
        as [t2|] eqn:Et2; [|discriminate].
      pose proof (wf_table_size _ _ _ W (or_intror eq_refl) Et2) as Hsz2.
      set (it2 := mk_iter 0 (hashmap_nexttable (iter_hindex it))
                    (iter_cur it)).
      assert (Et2' : table (tables hashmap (iter_hindex it2)) = Some t2).
      { unfold it2. cbn [iter_hindex]. rewrite Eh. exact Et2. }
      assert (Hsz2' : size (tables hashmap (iter_hindex it2)) <= 4294967296).
      { unfold it2. cbn [iter_hindex]. rewrite Eh. lia. }
      assert (Hi2 : 0 <= iter_i it2 <= size (tables hashmap (iter_hindex it2))).
      { unfold it2. cbn [iter_hindex iter_i]. rewrite Eh. lia. }
      destruct (iter_next_body_spec hashmap it2 t2 Et2' Hsz2' Hi2)
        as (i2 & Hi2' & Hnull2 & Hnn2 & ->).
      assert (Hntry : try_nexttable hashmap (iter_hindex it2) = false).
      { unfold try_nexttable, it2. cbn [iter_hindex]. rewrite Eh.
        rewrite (nexttable_eqb2 _ Hidx). reflexivity. }
      rewrite Hntry.
      assert (Hh2 : iter_hindex it2 = 0 \/ iter_hindex it2 = 1).
      { unfold it2. cbn [iter_hindex]. apply (nexttable_cases _ Hh01). }
      destruct (Z.ltb_spec i2 (size (tables hashmap (iter_hindex it2))))
        as [Hlt2|Hge2].
      * cbn [bind]. eexists _, _. split; [reflexivity|]. left.
        split; [reflexivity|]. cbn [iter_hindex iter_i iter_cur].
        split.
        { split; [discriminate|]. split; [exact Hh2|]. exists t2.
          cbn [iter_hindex iter_i]. split; [exact Et2'|].
          split; [unfold it2 in Hi2'; cbn [iter_i] in Hi2'; lia|].
          exact (Hnn2 Hlt2). }
        split; [reflexivity|].
        split; [right; split; [exact Htry|reflexivity]|].
        intros idx p Hnode [(E & Hfrom) | (_ & E)].
        { exfalso. exact (Hempty idx p Hnode E Hfrom). }
        destruct Hnode as (_ & t' & Et' & Hp & Hn').
        subst idx. fold (iter_hindex it2) in Et', Hp |- *.
        change (hashmap_nexttable (iter_hindex it)) with (iter_hindex it2)
          in Et', Hp |- *.
        rewrite Et2' in Et'. injection Et' as <-.
        destruct (Z.lt_trichotomy p i2) as [H|[H|H]].
        -- rewrite Hnull2 in Hn'
             by (unfold it2; cbn [iter_i]; lia). discriminate.
        -- left. split; [reflexivity|exact H].
        -- right. left. cbn [iter_hindex iter_i].
           split; [reflexivity|exact H].
      * cbn [bind]. eexists _, _. split; [reflexivity|]. right.
        split; [reflexivity|].
        intros idx p Hnode [(E & Hfrom) | (_ & E)].
        { exact (Hempty idx p Hnode E Hfrom). }
        destruct Hnode as (_ & t' & Et' & Hp & Hn').
        subst idx.
        change (hashmap_nexttable (iter_hindex it)) with (iter_hindex it2)
          in Et', Hp.
        rewrite Et2' in Et'. injection Et' as <-.
        rewrite Hnull2 in Hn'
          by (unfold it2; cbn [iter_i]; lia). discriminate.
    + cbn [bind]. eexists _, _. split; [reflexivity|]. right.
      split; [reflexivity|].
      intros idx p Hnode [(E & Hfrom) | (Habs & _)]; [|congruence].
      exact (Hempty idx p Hnode E Hfrom).
Qed.

(** ** What every stored node satisfies *)

(** A property of the contents that no node made by [hashmap_add] for a
    hash value of 32 bits has is never met in a map that the calls have
    built. *)
Lemma reachable_content_zero (P : hashmap_node -> bool) :
  content_pred P ->
  (forall hv k ksz v, 0 <= hv < 4294967296 ->
     P (new_node hv k ksz v) = false) ->
  (forall hashmap, reachable hashmap -> wf hashmap /\ cntm P hashmap = 0) /\
  (forall hashmap iter, iterating hashmap iter ->
     (wf hashmap /\ iter_valid hashmap iter) /\ cntm P hashmap = 0).
Proof.
  intros HP Hnew.
  assert (Hnn : forall hashmap, 0 <= cntm P hashmap).
  { intros hm. unfold cntm.
    pose proof (cnt_tb_nonneg P (active hm)).
    pose proof (cnt_tb_nonneg P (other hm)). lia. }
  assert (Hhv : forall hashmap hashvalp k ksz,
            0 <= hashval_of hashmap hashvalp k ksz < 4294967296).
  { intros hm [hv|] k ksz; cbn [hashval_of]; [|unfold isc_hashmap_hash];
      apply u32_range. }
  apply reachable_iterating_ind.
  - intros bits options entropy hashmap H.
    destruct (create_wf _ _ _ _ H) as (W & _ & _ & Hz).
    split; [exact W|]. apply Hz. exact HP.
  - intros hashmap hashvalp k ksz v r hashmap' _ [IH Hz] Hc Hk E.
    destruct (Z_le_gt_dec ksz UINT16_MAX) as [L|G].
    + destruct (isc_hashmap_add_spec hashmap hashvalp k ksz v IH
                  (or_intror Hc) (conj Hk L))
        as (r0 & hm0 & hm1 & E0 & W0 & _ & _ & _ & _ & Hres).
      rewrite E0 in E. injection E as _ <-. split; [exact W0|].
      destruct Hres as [(_ & _ & (_ & _ & Hs) & _) | (_ & _ & _ & Hcnt)].
      * rewrite <- (Hs P HP). exact Hz.
      * rewrite (Hcnt P HP), Hz, Hnew by apply Hhv. reflexivity.
    + rewrite isc_hashmap_add_big in E by lia. discriminate.
  - intros hashmap hashvalp k ksz r hashmap' _ [IH Hz] Hk E.
    destruct (Z_le_gt_dec ksz UINT16_MAX) as [L|G].
    + destruct (isc_hashmap_delete_spec hashmap hashvalp k ksz IH L)
        as (r0 & hm0 & hm1 & E0 & W0 & _ & _ & _ & _ & _ & Hle & _).
      rewrite E0 in E. injection E as _ <-. split; [exact W0|].
      pose proof (Hle P HP). pose proof (Hnn hm0). lia.
    + rewrite isc_hashmap_delete_big in E by lia. discriminate.
  - intros hashmap iter r hashmap' iter' _ [[IH1 IH2] Hz] E.
    destruct (iter_delcurrent_sound _ _ _ _ _ IH1 IH2 E)
      as (W & _ & _ & Hle & _).
    split; [exact W|].
    pose proof (Hle P HP). pose proof (Hnn hashmap'). lia.
  - intros hashmap iter0 iter _ [IH Hz] E.
    split; [|exact Hz]. split; [exact IH|].
    exact (iter_first_sound _ _ _ IH E).
  - intros hashmap iter iter' _ [[IH1 IH2] Hz] E.
    split; [|exact Hz]. split; [exact IH1|].
    exact (iter_step_sound _ _ _ IH2 E).
  - intros hashmap iter hashmap' iter' _ [[IH1 IH2] Hz] E.
    destruct (iter_delcurrent_sound _ _ _ _ _ IH1 IH2 E)
      as (W & _ & _ & Hle & V).
    split; [split; [exact W|apply V; reflexivity]|].
    pose proof (Hle P HP). pose proof (Hnn hashmap'). lia.
Qed.

(** A node whose hash value does not fit 32 bits. *)
Definition hashval_wide (x : hashmap_node) : bool :=
  occupied x && negb ((0 <=? hashval x) && (hashval x <? 4294967296)).

Lemma content_pred_hashval_wide : content_pred hashval_wide.
Proof.
  split.
  - intros x d. reflexivity.
  - intros x H. unfold hashval_wide, occupied. rewrite H. reflexivity.
Qed.

(** The hash value of every stored node fits 32 bits. *)
Lemma stored_hashval_range (hashmap : isc_hashmap) (idx : Z)
  (t : Z -> hashmap_node) (p : Z) :
  reachable hashmap ->
  idx = hindex hashmap \/ idx = hashmap_nexttable (hindex hashmap) ->
  table (tables hashmap idx) = Some t ->
  0 <= p < size (tables hashmap idx) -> key_is_null (t p) = false ->
  0 <= hashval (t p) < 4294967296.
Proof.
  intros R Hi Et Hp Hn.
  assert (Hz : cntm hashval_wide hashmap = 0).
  { apply (proj1 (reachable_content_zero hashval_wide
                    content_pred_hashval_wide
                    ltac:(intros hv k ksz v Hhv; unfold hashval_wide;
                          cbn [hashval new_node];
                          destruct (Z.leb_spec 0 hv); [|lia];
                          destruct (Z.ltb_spec hv 4294967296); [|lia];
                          apply andb_false_r))); exact R. }
  destruct (hashval_wide (t p)) eqn:E.
  - pose proof (cntm_ge1 hashval_wide hashmap idx t p Hi Et Hp E). lia.
  - unfold hashval_wide in E. apply (proj2 (occupied_true _)) in Hn.
    rewrite Hn in E. cbn [andb] in E. apply negb_false_iff in E.
    apply andb_true_iff in E. destruct E as [A B].
    apply Z.leb_le in A. apply Z.ltb_lt in B. lia.
Qed.

Lemma idx_cases (hashmap : isc_hashmap) (idx : Z) :
  hindex hashmap = 0 \/ hindex hashmap = 1 -> idx = 0 \/ idx = 1 ->
  idx = hindex hashmap \/ idx = hashmap_nexttable (hindex hashmap).
Proof. intros [E|E] [->| ->]; rewrite E; cbv; auto. Qed.

(** Every node of the map is the one the iterator stands on, or is ahead
    of it. *)
Definition iter_front (hashmap : isc_hashmap) (it : isc_hashmap_iter)
  : Prop :=
  forall idx p, node_at hashmap idx p ->
    (idx = iter_hindex it /\ p = iter_i it) \/ slot_ahead hashmap it idx p.

Lemma iter_first_spec (hashmap : isc_hashmap) (it0 : isc_hashmap_iter) :
  reachable hashmap ->
  exists r it,
    isc_hashmap_iter_first hashmap it0 = Some (r, it) /\
    (r = ISC_R_SUCCESS /\ iterating hashmap it /\ iter_front hashmap it
     \/
     r = ISC_R_NOMORE /\ forall idx p, ~ node_at hashmap idx p).
Proof.
  intros R. pose proof (reachable_wf _ R) as W.
  pose proof W as [Hidx (Ha & _)].
  destruct (table_wf_some _ Ha) as [t Et].
  rewrite isc_hashmap_iter_first_eq.
  set (it1 := mk_iter 0 (hindex hashmap) (iter_cur it0)).
  pose proof (wf_table_size _ _ _ W (or_introl eq_refl) Et) as Hsz.
  assert (Hfrom : forall idx p, node_at hashmap idx p ->
            slot_from hashmap it1 idx p).
  { intros idx p (Hi & t' & Et' & Hp & _).
    destruct (idx_cases hashmap idx Hidx Hi) as [->| ->].
    - left. cbn [iter_hindex iter_i it1]. split; [reflexivity|lia].
    - right. cbn [iter_hindex it1]. split; [|reflexivity].
      unfold try_nexttable, rehashing_in_progress.
      rewrite Z.eqb_refl, Et'. reflexivity. }
  destruct (iter_pass_spec hashmap it1 t W (or_introl eq_refl) Et)
    as (r & it & E & Hres).
  { cbn [iter_i iter_hindex it1]. lia. }
  exists r, it. split; [exact E|].
  destruct Hres as [(-> & V & _ & _ & Hcov) | (-> & Hnone)].
  - left. split; [reflexivity|].
    split.
    { apply (iterating_first hashmap it0 it R).
      rewrite isc_hashmap_iter_first_eq. exact E. }
    intros idx p Hnode. apply Hcov; [exact Hnode|]. apply Hfrom. exact Hnode.
  - right. split; [reflexivity|].
    intros idx p Hnode. apply (Hnone idx p Hnode). apply Hfrom. exact Hnode.
Qed.

(** X9. [isc_hashmap_iter_first] on a map that the calls have built
    returns.  With ISC_R_SUCCESS the iterator stands on a node, and every
    other node of the two tables is ahead of it in the order of the pass;
    with ISC_R_NOMORE neither table holds a node. *)
Theorem X9_iter_first_finds_first_node (hashmap : isc_hashmap)
  (it0 : isc_hashmap_iter) :
  reachable hashmap ->
  exists r it,
    isc_hashmap_iter_first hashmap it0 = Some (r, it) /\
    (r = ISC_R_SUCCESS /\
     iter_valid hashmap it /\
     (forall idx p, node_at hashmap idx p ->
        (idx = iter_hindex it /\ p = iter_i it) \/
        slot_ahead hashmap it idx p)
     \/
     r = ISC_R_NOMORE /\ forall idx p, ~ node_at hashmap idx p).
Proof.
  intros R.
  destruct (iter_first_spec hashmap it0 R) as (r & it & E & Hres).
  exists r, it. split; [exact E|].
  destruct Hres as [(-> & I & Hfront) | (-> & Hnone)].
  - left. split; [reflexivity|].
    split; [exact (proj2 (proj2 reachable_iterating_wf _ _ I))|].
    exact Hfront.
  - right. split; [reflexivity|exact Hnone].
Qed.


Lemma iter_next_spec (hashmap : isc_hashmap) (it : isc_hashmap_iter) :
  iterating hashmap it ->
  exists r it',
    isc_hashmap_iter_next hashmap it = Some (r, it') /\
    (r = ISC_R_SUCCESS /\
     iterating hashmap it' /\
     slot_ahead hashmap it (iter_hindex it') (iter_i it') /\
     (forall idx p, node_at hashmap idx p -> slot_ahead hashmap it idx p ->
        (idx = iter_hindex it' /\ p = iter_i it') \/
        slot_ahead hashmap it' idx p)
     \/
     r = ISC_R_NOMORE /\
     forall idx p, node_at hashmap idx p -> ~ slot_ahead hashmap it idx p).
Proof.
  intros I.
  destruct (proj2 reachable_iterating_wf _ _ I)
    as (W & Hcur & Hh & t & Et & Hi & Hn).
  pose proof W as [Hidx _].
  pose proof (idx_cases hashmap _ Hidx Hh) as Hh'.
  pose proof (wf_table_size _ _ _ W Hh' Et) as Hsz.
  rewrite isc_hashmap_iter_next_eq.
  destruct (iter_cur it) as [c|] eqn:Ec; [|contradiction]. cbn [bind].
  rewrite u64_small by lia.
  set (it1 := mk_iter (iter_i it + 1) (iter_hindex it) (Some c)).
  assert (Hsame : forall idx p,
            slot_from hashmap it1 idx p <-> slot_ahead hashmap it idx p).
  { intros idx p. unfold slot_from, slot_ahead.
    cbn [iter_hindex iter_i it1]. intuition lia. }
  destruct (iter_pass_spec hashmap it1 t W Hh' Et)
    as (r & it' & E & Hres).
  { cbn [iter_i iter_hindex it1]. lia. }
  exists r, it'. split; [exact E|].
  destruct Hres as [(-> & V & _ & Hpos & Hcov) | (-> & Hnone)].
  - left. split; [reflexivity|].
    split.
    { apply (iterating_next _ it); [exact I|].
      rewrite isc_hashmap_iter_next_eq, Ec. cbn [bind].
      rewrite u64_small by lia. exact E. }
    split; [apply Hsame; exact Hpos|].
    intros idx p Hnode Hahead. apply Hcov; [exact Hnode|].
    apply Hsame. exact Hahead.
  - right. split; [reflexivity|].
    intros idx p Hnode Hahead. apply (Hnone idx p Hnode).
    apply Hsame. exact Hahead.
Qed.

(** X10. [isc_hashmap_iter_next] on an iterator that stands on a node
    returns.  With ISC_R_SUCCESS the iterator stands on a node ahead of
    the one it left, and no node lies between the two: every node that was
    ahead is the new one or is still ahead; with ISC_R_NOMORE no node is
    ahead. *)
Theorem X10_iter_next_skips_no_node (hashmap : isc_hashmap)
  (it : isc_hashmap_iter) :
  iterating hashmap it ->
  exists r it',
    isc_hashmap_iter_next hashmap it = Some (r, it') /\
    (r = ISC_R_SUCCESS /\
     iter_valid hashmap it' /\
     slot_ahead hashmap it (iter_hindex it') (iter_i it') /\
     (forall idx p, node_at hashmap idx p -> slot_ahead hashmap it idx p ->
        (idx = iter_hindex it' /\ p = iter_i it') \/
        slot_ahead hashmap it' idx p)
     \/
     r = ISC_R_NOMORE /\
     forall idx p, node_at hashmap idx p -> ~ slot_ahead hashmap it idx p).
Proof.
  intros I.
  destruct (iter_next_spec hashmap it I) as (r & it' & E & Hres).
  exists r, it'. split; [exact E|].
  destruct Hres as [(-> & I' & Hpos & Hcov) | (-> & Hnone)].
  - left. split; [reflexivity|].
    split; [exact (proj2 (proj2 reachable_iterating_wf _ _ I'))|].
    split; [exact Hpos|exact Hcov].
  - right. split; [reflexivity|exact Hnone].
Qed.

Lemma iterating_reachable (hashmap : isc_hashmap) (it : isc_hashmap_iter) :
  iterating hashmap it -> reachable hashmap.
Proof.
  induction 1 as [hm it0 it R E | hm it it' I IH E | hm it hm' it' I IH E].
  - exact R.
  - exact IH.
  - exact (reach_delcurrent _ _ _ _ _ I E).
Qed.

Lemma wf_table_wf (hashmap : isc_hashmap) (idx : Z)
  (t : Z -> hashmap_node) :
  wf hashmap ->
  idx = hindex hashmap \/ idx = hashmap_nexttable (hindex hashmap) ->
  table (tables hashmap idx) = Some t ->
  table_wf (tables hashmap idx).
Proof.
  intros [Hidx (Ha & Hst & _)] Hi Et.
  destruct Hi as [E|E]; rewrite E; [exact Ha|].
  destruct Hst as [(Eo & _) | ((Ho & _) & _)]; [|exact Ho].
  unfold other in Eo. rewrite E, Eo in Et. discriminate.
Qed.

(** An iterator that [isc__hashmap_iter_next] leaves with ISC_R_SUCCESS
    has [cur] at its position. *)
Lemma iter_next_cur (hashmap : isc_hashmap) (it it' : isc_hashmap_iter) :
  isc__hashmap_iter_next hashmap it = Some (ISC_R_SUCCESS, it') ->
  iter_cur it' = Some (iter_hindex it', iter_i it').
Proof.
  intros W. rewrite isc__hashmap_iter_next_eq in W.
  apply bind_some in W. destruct W as [r [Wo Er]]. subst r.
  destruct (while_elim _ _ _ _ Wo) as [n Wn].
  apply (while_nat_inv (iter_next_body hashmap) (fun _ => True)
           (fun r => match r with
                     | Some (ISC_R_SUCCESS, x) =>
                         iter_cur x = Some (iter_hindex x, iter_i x)
                     | _ => True
                     end)) with (n := n) (s := it) (r := Some (ISC_R_SUCCESS, it'));
    [|exact I|exact Wn].
  intros s _. unfold iter_next_body. cbv zeta.
  destruct (while 4294967298
              (iter_skip_body (tables hashmap (iter_hindex s)))
              (iter_i s)) as [[i|]|]; [|exact I|exact I].
  destruct (i <? size (tables hashmap (iter_hindex s))); [reflexivity|].
  destruct (try_nexttable hashmap (iter_hindex s)); exact I.
Qed.

Lemma iterating_cur (hashmap : isc_hashmap) (it : isc_hashmap_iter) :
  iterating hashmap it -> iter_cur it = Some (iter_hindex it, iter_i it).
Proof.
  intros I.
  destruct I as [hm it0 it R E | hm it it' I E | hm it hm' it' I E].
  - rewrite isc_hashmap_iter_first_eq in E. exact (iter_next_cur _ _ _ E).
  - rewrite isc_hashmap_iter_next_eq in E.
    apply bind_some in E. destruct E as [c [_ E]].
    exact (iter_next_cur _ _ _ E).
  - rewrite isc_hashmap_iter_delcurrent_next_eq in E.
    apply bind_some in E. destruct E as [c [_ E]].
    apply bind_some in E. destruct E as [t' [_ E]].
    apply bind_some in E. destruct E as [u [_ E]].
    apply bind_some in E. destruct E as [hm1 [_ E]].
    apply bind_some in E. destruct E as [[r0 it0] [Wn E]].
    injection E as -> <- <-.
    exact (iter_next_cur _ _ _ Wn).
Qed.

(** What an iterator that stands on a node knows of it. *)
Lemma iterating_node (hashmap : isc_hashmap) (it : isc_hashmap_iter) :
  iterating hashmap it ->
  wf hashmap /\
  (iter_hindex it = hindex hashmap \/
   iter_hindex it = hashmap_nexttable (hindex hashmap)) /\
  iter_cur it = Some (iter_hindex it, iter_i it) /\
  exists t k,
    table (tables hashmap (iter_hindex it)) = Some t /\
    0 <= iter_i it < size (tables hashmap (iter_hindex it)) /\
    key (t (iter_i it)) = Some k /\
    0 <= hashval (t (iter_i it)) < 4294967296 /\
    0 <= keysize (t (iter_i it)) <= UINT16_MAX.
Proof.
  intros I.
  destruct (proj2 reachable_iterating_wf _ _ I)
    as (W & Hcur & Hh & t & Et & Hi & Hn).
  pose proof W as [Hidx _].
  pose proof (idx_cases hashmap _ Hidx Hh) as Hh'.
  split; [exact W|]. split; [exact Hh'|].
  split; [exact (iterating_cur _ _ I)|].
  destruct (key_is_null_false _ Hn) as [k Ek].
  exists t, k. split; [exact Et|]. split; [exact Hi|]. split; [exact Ek|].
  split.
  - exact (stored_hashval_range hashmap _ t _ (iterating_reachable _ _ I)
             Hh' Et Hi Hn).
  - pose proof (wf_table_wf _ _ _ W Hh' Et) as Htw.
    destruct (table_wf_inv _ _ Htw Et) as (_ & Hsz & _ & HS & _).
    rewrite Hsz in Hi. exact (proj2 (proj2 (HS _ Hi Hn))).
Qed.

(** X11. While an iterator stands on a node, [isc_hashmap_iter_current]
    and [isc_hashmap_iter_currentkey] yield the value, the key and the key
    size of that node, and [isc_hashmap_find] with the key and the hash
    value of the node returns ISC_R_SUCCESS and the same value. *)
Theorem X11_iter_current_is_found (hashmap : isc_hashmap)
  (it : isc_hashmap_iter) :
  iterating hashmap it ->
  exists t k,
    table (tables hashmap (iter_hindex it)) = Some t /\
    key (t (iter_i it)) = Some k /\
    isc_hashmap_iter_currentkey hashmap it
    = Some (Some k, keysize (t (iter_i it))) /\
    isc_hashmap_iter_current hashmap it = Some (value (t (iter_i it))) /\
    isc_hashmap_find hashmap (Some (hashval (t (iter_i it)))) k
      (keysize (t (iter_i it)))
    = Some (ISC_R_SUCCESS, value (t (iter_i it))).
Proof.
  intros I.
  destruct (iterating_node _ _ I)
    as (W & Hh & Ecur & t & k & Et & Hi & Ek & Hhv & Hks).
  exists t, k. split; [exact Et|]. split; [exact Ek|].
  unfold isc_hashmap_iter_currentkey, isc_hashmap_iter_current.
  rewrite Ecur. cbn [bind]. rewrite Et. cbn [bind]. rewrite Ek.
  split; [reflexivity|]. split; [reflexivity|].
  apply (find_success 0); [lia|exact W|lia|].
  unfold holds. cbn [hashval_of]. rewrite u32_small by lia.
  assert (H1 : 1 <= cntm
           (fun x => hashmap_match x (hashval (t (iter_i it))) k
                       (keysize (t (iter_i it))) (case_sensitive hashmap)
                     && (value x =? value (t (iter_i it))))
           hashmap); [|lia].
  apply (cntm_ge1 _ hashmap _ t (iter_i it) Hh Et Hi).
  rewrite (match_self _ _ _ Ek), Z.eqb_refl. reflexivity.
Qed.

(** [isc_hashmap_iter_delcurrent_next] on an iterator that stands on the
    node [t (iter_i it)]: it returns, and takes that node out of the
    contents. *)
Lemma iter_delcurrent_spec (hashmap : isc_hashmap) (it : isc_hashmap_iter)
  (t : Z -> hashmap_node) :
  iterating hashmap it ->
  table (tables hashmap (iter_hindex it)) = Some t ->
  exists r hashmap' it',
    isc_hashmap_iter_delcurrent_next hashmap it = Some (r, hashmap', it') /\
    wf hashmap' /\
    (r = ISC_R_SUCCESS /\ iter_valid hashmap' it' \/ r = ISC_R_NOMORE) /\
    case_sensitive hashmap' = case_sensitive hashmap /\
    hash_key hashmap' = hash_key hashmap /\
    1 <= count hashmap /\
    count hashmap' = count hashmap - 1 /\
    (forall P, content_pred P ->
       cntm P hashmap' = cntm P hashmap - b2z (P (t (iter_i it)))) /\
    (forall idx p, node_at hashmap' idx p -> node_at hashmap idx p) /\
    (forall idx, try_nexttable hashmap' idx = try_nexttable hashmap idx) /\
    (r = ISC_R_SUCCESS ->
     forall idx p, node_at hashmap' idx p -> slot_from hashmap' it idx p ->
       (idx = iter_hindex it' /\ p = iter_i it') \/
       slot_ahead hashmap' it' idx p) /\
    (r = ISC_R_NOMORE ->
     forall idx p, node_at hashmap' idx p -> ~ slot_from hashmap' it idx p).
Proof.
  intros I Et.
  destruct (iterating_node _ _ I)
    as (W & Hh & Ecur & t0 & k & Et0 & Hi & Ek & Hhv & Hks).
  rewrite Et in Et0. injection Et0 as <-.
  pose proof (reachable_count_range _ (iterating_reachable _ _ I)) as Hr.
  assert (Hn : key_is_null (t (iter_i it)) = false).
  { unfold key_is_null. rewrite Ek. reflexivity. }
  pose proof (wf_table_wf _ _ _ W Hh Et) as Htw.
  pose proof (wf_table_size _ _ _ W Hh Et) as Hsz.
  assert (Hc1 : 1 <= count hashmap).
  { destruct W as [_ (_ & _ & _ & Hocc & _)].
    pose proof (cntm_ge1 occupied hashmap (iter_hindex it) t (iter_i it)
                  Hh Et Hi (proj2 (occupied_true _) Hn)) as H1.
    unfold cntm in H1. lia. }
  destruct (hashmap_delete_node_spec hashmap (iter_i it)
              (hashval (t (iter_i it))) (psl (t (iter_i it)))
              (iter_hindex it) t Htw Et Hi Hn eq_refl eq_refl)
    as [tf [Edel Hdel]]; [unfold UINT32_MAX in Hr; lia|].
  destruct (delete_node_wf hashmap (iter_hindex it) t tf (iter_i it)
              W Hh Et Hi Hn Hdel) as (_ & W' & _ & Hcnt).
  set (hm1 := set_table (set_count hashmap (count hashmap - 1))
                (iter_hindex it) tf) in *.
  assert (Et1 : table (tables hm1 (iter_hindex it)) = Some tf).
  { unfold hm1, set_table, set_tables. cbn [tables table].
    rewrite Z.eqb_refl. reflexivity. }
  assert (Es1 : size (tables hm1 (iter_hindex it))
                = size (tables hashmap (iter_hindex it))).
  { unfold hm1, set_table, set_tables. cbn [tables table set_count].
    rewrite Z.eqb_refl. reflexivity. }
  destruct (iter_pass_spec hm1 it tf W' Hh Et1)
    as (r & it' & E & Hres); [rewrite Es1; lia|].
  rewrite isc_hashmap_iter_delcurrent_next_eq, Ecur. cbn [bind].
  rewrite Et. cbn [bind].
  assert (Hreq : (0 <=? iter_i it)
                 && (iter_i it <? size (tables hashmap (iter_hindex it)))
                 = true).
  { apply andb_true_iff. split; [apply Z.leb_le|apply Z.ltb_lt]; lia. }
  rewrite Hreq. cbn [REQUIRE bind]. rewrite Edel. cbn [bind].
  rewrite E. cbn [bind].
  exists r, hm1, it'. split; [reflexivity|]. split; [exact W'|].
  split.
  { destruct Hres as [(-> & V & _) | (-> & _)]; [left|right]; auto. }
  split; [reflexivity|]. split; [reflexivity|]. split; [exact Hc1|].
  split; [reflexivity|]. split; [exact Hcnt|].
  assert (Eother : forall idx, idx <> iter_hindex it ->
            tables hm1 idx = tables hashmap idx).
  { intros idx Hne. unfold hm1, set_table, set_tables.
    cbn [tables set_count].
    destruct (Z.eqb_spec idx (iter_hindex it)); [contradiction|reflexivity]. }
  split.
  { intros idx p (Hi01 & t' & Et' & Hp & Hn').
    split; [exact Hi01|].
    destruct (Z.eq_dec idx (iter_hindex it)) as [->|Hne].
    - rewrite Et1 in Et'. injection Et' as <-. rewrite Es1 in Hp.
      exists t. split; [exact Et|]. split; [exact Hp|].
      destruct Hdel as (_ & _ & _ & Hnullf & _).
      destruct (key_is_null (t p)) eqn:En; [|reflexivity].
      rewrite (Hnullf p En) in Hn'. discriminate.
    - rewrite (Eother idx Hne) in Et', Hp.
      exists t'. auto. }
  split.
  { intros idx. unfold try_nexttable, rehashing_in_progress.
    change (hindex hm1) with (hindex hashmap).
    destruct (Z.eq_dec (hashmap_nexttable (hindex hashmap)) (iter_hindex it))
      as [E1|N1].
    - rewrite E1, Et1, Et. reflexivity.
    - rewrite (Eother _ N1). reflexivity. }
  split.
  - intros ->. destruct Hres as [(_ & _ & _ & _ & Hcov) | (Habs & _)];
      [exact Hcov|discriminate].
  - intros ->. destruct Hres as [(Habs & _) | (_ & Hnone)];
      [discriminate|exact Hnone].
Qed.

(** X12. [isc_hashmap_iter_delcurrent_next] on an iterator that stands on
    a node returns ISC_R_SUCCESS, on a node, or ISC_R_NOMORE.  It deletes
    the current node and nothing else: [isc_hashmap_count] is one less, a
    find of the key of the node returns ISC_R_NOTFOUND, and a find of a key
    that [hashmap_match] tells apart from it gives what it gave before. *)
Theorem X12_iter_delcurrent_deletes_current (hashmap : isc_hashmap)
  (it : isc_hashmap_iter) (t : Z -> hashmap_node) (k : list Z) :
  iterating hashmap it ->
  table (tables hashmap (iter_hindex it)) = Some t ->
  key (t (iter_i it)) = Some k ->
  exists r hashmap' it',
    isc_hashmap_iter_delcurrent_next hashmap it = Some (r, hashmap', it') /\
    (r = ISC_R_SUCCESS /\ iter_valid hashmap' it' \/ r = ISC_R_NOMORE) /\
    isc_hashmap_count hashmap' = isc_hashmap_count hashmap - 1 /\
    isc_hashmap_find hashmap' (Some (hashval (t (iter_i it)))) k
      (keysize (t (iter_i it))) = Some (ISC_R_NOTFOUND, 0) /\
    forall hashvalp' k' ksz',
      other_key (case_sensitive hashmap)
        (hashval (t (iter_i it))) k (keysize (t (iter_i it)))
        (hashval_of hashmap hashvalp' k' ksz') k' ksz' ->
      isc_hashmap_find hashmap' hashvalp' k' ksz'
      = isc_hashmap_find hashmap hashvalp' k' ksz'.
Proof.
  intros I Et Ek.
  destruct (iterating_node _ _ I)
    as (W & Hh & Ecur & t0 & k0 & Et0 & Hi & Ek0 & Hhv & Hks).
  rewrite Et in Et0. injection Et0 as <-.
  rewrite Ek in Ek0. injection Ek0 as <-.
  pose proof (reachable_count_range _ (iterating_reachable _ _ I)) as Hr.
  destruct (iter_delcurrent_spec hashmap it t I Et)
    as (r & hm1 & it' & E & W' & Hres & Ecs & Ehk & Hc1 & Ec & Hcnt & _).
  exists r, hm1, it'. split; [exact E|]. split; [exact Hres|].
  split.
  { unfold isc_hashmap_count. rewrite Ec.
    unfold UINT32_MAX in Hr. rewrite !u32_small by lia. reflexivity. }
  set (x := t (iter_i it)) in *.
  assert (Mx : hashmap_match x (hashval x) k (keysize x)
                 (case_sensitive hashmap) = true)
    by exact (match_self _ _ _ Ek).
  split.
  - apply (find_notfound 0); [lia|exact W'|lia|].
    unfold has_key. cbn [hashval_of]. rewrite u32_small by lia.
    rewrite Ecs.
    rewrite (Hcnt _ (content_pred_match (hashval x) k (keysize x)
                       (case_sensitive hashmap))).
    rewrite Mx.
    pose proof (wf_uniq 0 hashmap (hashval x) k (keysize x) W).
    cbn [b2z]. lia.
  - intros hashvalp' k' ksz' Ho. symmetry.
    apply find_agree; [exact W|exact W'|congruence|congruence|].
    intros P HP HPm. rewrite (Hcnt P HP).
    destruct (P x) eqn:EP; [|simpl; lia].
    exfalso. apply HPm in EP.
    rewrite (other_key_match _ _ _ _ _ _ _ _ Ho Mx) in EP. discriminate.
Qed.

(** ** Destroying a map *)

Lemma cnt_succ (P : hashmap_node -> bool) (t : Z -> hashmap_node) (i : Z) :
  0 <= i -> cnt P t (i + 1) = cnt P t i + b2z (P (t i)).
Proof.
  intros Hi. unfold cnt.
  replace (Z.to_nat (i + 1)) with (Datatypes.S (Z.to_nat i)) by lia.
  cbn [cnt_upto]. rewrite Z2Nat.id by lia. reflexivity.
Qed.

Lemma while_nat_unfold {S R : Type} (body : S -> step S R) (n : nat)
  (s : S) :
  while_nat body (Datatypes.S n) s
  = match body s with
    | Continue s' => while_nat body n s'
    | Break r => Break r
    end.
Proof. reflexivity. Qed.

Lemma u64_sub_l (a b : Z) : u64 (u64 a - b) = u64 (a - b).
Proof. unfold u64, wrap. apply Zminus_mod_idemp_l. Qed.

(** The clean-up loop of [hashmap_free_table] takes one off the counter
    for every node from slot [i] on. *)
Lemma free_table_loop (sz : Z) :
  forall (m : nat) (i : Z) (t : Z -> hashmap_node) (c : Z),
    0 <= i -> i + Z.of_nat m = sz ->
    0 <= c < 18446744073709551616 ->
    exists t',
      while_nat (free_table_body sz) (Datatypes.S m) (i, t, c)
      = Break (t', u64 (c - (cnt occupied t sz - cnt occupied t i))).
Proof.
  induction m as [|m IH]; intros i t c Hi Hm Hc.
  - cbn [while_nat]. unfold free_table_body.
    destruct (Z.ltb_spec i sz); [lia|].
    exists t. replace i with sz by lia.
    rewrite Z.sub_diag, Z.sub_0_r, u64_small by lia. reflexivity.
  - rewrite while_nat_unfold. unfold free_table_body at 1.
    destruct (Z.ltb_spec i sz); [|lia].
    destruct (key_is_null (t i)) eqn:En.
    + destruct (IH (i + 1) t c) as [t' W]; [lia|lia|lia|].
      exists t'. rewrite W. do 2 f_equal.
      rewrite (cnt_succ occupied t i Hi). unfold occupied at 3.
      rewrite En. cbn [negb b2z]. f_equal. lia.
    + assert (Hc' : 0 <= u64 (c - 1) < 18446744073709551616).
      { unfold u64, wrap. apply Z.mod_pos_bound. reflexivity. }
      destruct (IH (i + 1) (upd t i node_zero) (u64 (c - 1)))
        as [t' W]; [lia|lia|exact Hc'|].
      exists t'. rewrite W. do 2 f_equal.
      rewrite u64_sub_l.
      rewrite (cnt_upd occupied t sz i node_zero) by lia.
      rewrite (cnt_upd occupied t (i + 1) i node_zero) by lia.
      rewrite (cnt_succ occupied t i Hi).
      rewrite (proj2 (occupied_true (t i)) En), occupied_zero.
      cbn [b2z]. f_equal. lia.
Qed.

Lemma hashmap_free_table_cleanup (hashmap : isc_hashmap) (idx : Z)
  (t : Z -> hashmap_node) :
  table (tables hashmap idx) = Some t ->
  0 <= size (tables hashmap idx) ->
  0 <= count hashmap < 18446744073709551616 ->
  hashmap_free_table hashmap idx true
  = Some (set_tables
            (set_count hashmap
               (u64 (count hashmap - cnt_tb occupied (tables hashmap idx))))
            idx table_none).
Proof.
  intros Et Hsz Hc. unfold hashmap_free_table. rewrite Et. cbn [bind].
  destruct (free_table_loop (size (tables hashmap idx))
              (Z.to_nat (size (tables hashmap idx))) 0 t (count hashmap))
    as [t' W]; [lia|lia|exact Hc|].
  rewrite (while_intro _ (size (tables hashmap idx) + 1) _ _ _ W) by lia.
  cbn [bind]. unfold cnt_tb. rewrite Et.
  replace (cnt occupied t 0) with 0 by reflexivity.
  rewrite Z.sub_0_r. reflexivity.
Qed.


(** One turn of the loop of [isc_hashmap_destroy]. *)
Lemma destroy_table (hashmap : isc_hashmap) (idx : Z) :
  (forall t, table (tables hashmap idx) = Some t ->
     0 <= size (tables hashmap idx)) ->
  0 <= count hashmap < 18446744073709551616 ->
  exists hashmap',
    match table (tables hashmap idx) with
    | Some _ => hashmap_free_table hashmap idx true
    | None => Some hashmap
    end = Some hashmap' /\
    count hashmap'
    = u64 (count hashmap - cnt_tb occupied (tables hashmap idx)) /\
    forall j, j <> idx -> tables hashmap' j = tables hashmap j.
Proof.
  intros Hsz Hc.
  destruct (table (tables hashmap idx)) as [t|] eqn:Et.
  - rewrite (hashmap_free_table_cleanup hashmap idx t Et (Hsz t eq_refl) Hc).
    eexists. split; [reflexivity|]. split; [reflexivity|].
    intros j Hj. cbn [set_tables tables set_count].
    destruct (Z.eqb_spec j idx); [contradiction|reflexivity].
  - exists hashmap. split; [reflexivity|]. split; [|reflexivity].
    unfold cnt_tb. rewrite Et, Z.sub_0_r, u64_small by lia. reflexivity.
Qed.

Lemma destroy_spec (hashmap : isc_hashmap) :
  wf hashmap -> 0 <= count hashmap <= UINT32_MAX ->
  (isc_hashmap_destroy hashmap = Some tt
   <-> count hashmap = cntm occupied hashmap).
Proof.
  intros W Hr. unfold UINT32_MAX in Hr.
  pose proof W as [Hidx (_ & _ & _ & Hocc & _)].
  assert (Hn : cntm occupied hashmap
               = cnt_tb occupied (tables hashmap 0)
                 + cnt_tb occupied (tables hashmap 1)).
  { unfold cntm, active, other.
    destruct Hidx as [E|E]; rewrite E; cbn [hashmap_nexttable Z.eqb]; lia. }
  fold (cntm occupied hashmap) in Hocc.
  assert (Hsz : forall idx t, idx = 0 \/ idx = 1 ->
            table (tables hashmap idx) = Some t ->
            0 <= size (tables hashmap idx)).
  { intros idx t Hi Et.
    pose proof (wf_table_size _ _ _ W (idx_cases _ _ Hidx Hi) Et). lia. }
  destruct (destroy_table hashmap 0) as (hm1 & E1 & Ec1 & Ht1);
    [intros t; apply Hsz; auto|lia|].
  destruct (destroy_table hm1 1) as (hm2 & E2 & Ec2 & Ht2).
  { intros t. rewrite (Ht1 1) by lia. apply Hsz. auto. }
  { rewrite Ec1. unfold u64, wrap. apply Z.mod_pos_bound. reflexivity. }
  unfold isc_hashmap_destroy. rewrite E1. cbn [bind]. rewrite E2.
  cbn [bind].
  rewrite Ec2, Ec1, (Ht1 1), u64_sub_l by lia.
  pose proof (cnt_tb_nonneg occupied (tables hashmap 0)).
  pose proof (cnt_tb_nonneg occupied (tables hashmap 1)).
  rewrite u64_small by lia.
  destruct (Z.eqb_spec (count hashmap - cnt_tb occupied (tables hashmap 0)
                        - cnt_tb occupied (tables hashmap 1)) 0) as [E|N];
    cbn [REQUIRE]; split; intros HH; try reflexivity; try lia; discriminate.
Qed.

(** X13. [isc_hashmap_destroy] on a map that the calls have built frees
    the tables and passes its [INSIST(hashmap->count == 0)] exactly when
    the counter equals the number of nodes that the two tables hold. *)
Theorem X13_destroy_checks_count (hashmap : isc_hashmap) :
  reachable hashmap ->
  (isc_hashmap_destroy hashmap = Some tt
   <-> count hashmap = cntm occupied hashmap).
Proof.
  intros R. apply destroy_spec.
  - exact (reachable_wf _ R).
  - exact (reachable_count_range _ R).
Qed.

(** What [isc_hashmap_iter_delcurrent_next] takes off the counter and off
    the tables when the slot under the iterator holds a node. *)
Lemma iter_delcurrent_counts (hashmap hashmap' : isc_hashmap)
  (it it' : isc_hashmap_iter) (r : isc_result) (t : Z -> hashmap_node) :
  wf hashmap -> iter_valid hashmap it ->
  table (tables hashmap (iter_hindex it)) = Some t ->
  isc_hashmap_iter_delcurrent_next hashmap it = Some (r, hashmap', it') ->
  count hashmap' = count hashmap - 1 /\
  forall P, content_pred P ->
    cntm P hashmap' = cntm P hashmap - b2z (P (t (iter_i it))).
Proof.
  intros Hwf (Hcur & Hh & t0 & Et0 & Hi & Hn) Et W.
  rewrite Et in Et0. injection Et0 as <-.
  pose proof Hwf as [Hidx (Ha & Hst & _)].
  rewrite isc_hashmap_iter_delcurrent_next_eq in W.
  apply bind_some in W. destruct W as [c [_ W]].
  apply bind_some in W. destruct W as [t' [Et' W]].
  rewrite Et in Et'. injection Et' as <-.
  apply bind_some in W. destruct W as [u [_ W]].
  apply bind_some in W. destruct W as [hm1 [Edel' W]].
  apply bind_some in W. destruct W as [[r0 it0] [Wn W]].
  injection W as <- <- <-.
  pose proof (idx_cases hashmap _ Hidx Hh) as Hi'.
  pose proof (wf_table_wf _ _ _ Hwf Hi' Et) as Htw.
  pose proof (wf_count_range _ Hwf) as Hr.
  assert (Hc1 : 1 <= count hashmap).
  { destruct Hwf as [_ (_ & _ & _ & Hocc & _)].
    pose proof (cntm_ge1 occupied hashmap (iter_hindex it) t (iter_i it)
                  Hi' Et Hi (proj2 (occupied_true _) Hn)) as H1.
    unfold cntm in H1. lia. }
  destruct (hashmap_delete_node_spec hashmap (iter_i it)
              (hashval (t (iter_i it))) (psl (t (iter_i it)))
              (iter_hindex it) t Htw Et Hi Hn eq_refl eq_refl)
    as [tf [Edel Hdel]]; [unfold UINT32_MAX in Hr; lia|].
  rewrite Edel in Edel'. injection Edel' as <-.
  destruct (delete_node_wf hashmap (iter_hindex it) t tf (iter_i it)
              Hwf Hi' Et Hi Hn Hdel) as (_ & _ & _ & Hcnt).
  split; [reflexivity|exact Hcnt].
Qed.

(** X14. The calls keep the counter exact.  On a map built by any sequence of calls in which every
    [isc_hashmap_iter_delcurrent_next] is called while the slot under its
    iterator holds a node, and every [isc_hashmap_add] while the map holds
    fewer than UINT32_MAX entries ([built_map]) whose counter equals the number
    of nodes in the two tables, the counter equals that number again after
    an [isc_hashmap_add] issued while the counter is below UINT32_MAX,
    after an [isc_hashmap_delete] that does not start the shrink of a table
    of 32 bits, and after an [isc_hashmap_iter_delcurrent_next] called
    while the slot under its iterator holds a node ([iter_valid]). *)
Theorem X14_calls_keep_count_exact (hashmap : isc_hashmap) :
  built_map hashmap -> count hashmap = cntm occupied hashmap ->
  (forall hashvalp k ksz v r hashmap',
     count hashmap < UINT32_MAX -> 0 <= ksz ->
     isc_hashmap_add hashmap hashvalp k ksz v = Some (r, hashmap') ->
     count hashmap' = cntm occupied hashmap') /\
  (forall hashvalp k ksz r hashmap',
     ~ shrinks_from_32 hashmap ->
     isc_hashmap_delete hashmap hashvalp k ksz = Some (r, hashmap') ->
     count hashmap' = cntm occupied hashmap') /\
  (forall it r hashmap' it',
     iter_valid hashmap it ->
     isc_hashmap_iter_delcurrent_next hashmap it = Some (r, hashmap', it') ->
     count hashmap' = cntm occupied hashmap').
Proof.
  intros R Hex. pose proof (built_map_wf _ R) as W.
  split; [|split].
  - intros hashvalp k ksz v r hashmap' Hc Hk0 A.
    assert (Hk : ksz <= UINT16_MAX).
    { destruct (Z_le_gt_dec ksz UINT16_MAX) as [H|H]; [exact H|].
      rewrite isc_hashmap_add_big in A by lia. discriminate. }
    destruct (isc_hashmap_add_spec hashmap hashvalp k ksz v W
                (or_intror Hc) (conj Hk0 Hk))
      as (r0 & hm0 & hm1 & E & _ & _ & _ & _ & _ & Hres).
    rewrite E in A. injection A as -> ->.
    destruct Hres as [(_ & _ & (_ & _ & Hs) & Ec) | (_ & _ & Ec & Hcnt)].
    + rewrite Ec, <- (Hs occupied content_pred_occupied). exact Hex.
    + rewrite Ec, (Hcnt occupied content_pred_occupied), Hex.
      reflexivity.
  - intros hashvalp k ksz r hashmap' Hns D.
    assert (Hk : ksz <= UINT16_MAX).
    { destruct (Z_le_gt_dec ksz UINT16_MAX) as [H|H]; [exact H|].
      rewrite isc_hashmap_delete_big in D by lia. discriminate. }
    destruct (isc_hashmap_delete_spec hashmap hashvalp k ksz W Hk)
      as (r0 & hm0 & hm1 & E & _ & _ & _ & Ep & _ & _ & _ & Hres).
    rewrite E in D. injection D as -> ->.
    destruct (delete_prestep_spec hashmap W)
      as (hm1' & Ep' & _ & _ & _ & _ & _ & Hsame & _).
    rewrite Ep in Ep'. injection Ep' as <-.
    destruct (Hsame Hns) as (_ & _ & Hs).
    destruct Hres as [(_ & _ & Ec & x & Mx & Hcnt) | (_ & _ & -> & Ec)].
    + rewrite Ec, (Hcnt occupied content_pred_occupied),
        <- (Hs occupied content_pred_occupied), Hex.
      apply match_not_null in Mx. apply occupied_true in Mx.
      rewrite Mx. reflexivity.
    + rewrite Ec, <- (Hs occupied content_pred_occupied). exact Hex.
  - intros it r hashmap' it' V D.
    pose proof V as (_ & _ & t & Et & _ & Hn).
    destruct (iter_delcurrent_counts hashmap hashmap' it it' r t W V Et D)
      as (Ec & Hcnt).
    rewrite Ec, (Hcnt occupied content_pred_occupied), Hex.
    rewrite (proj2 (occupied_true _) Hn). reflexivity.
Qed.

(** ** The bytes of a key that count *)

Lemma match_canon (x : hashmap_node) (hv : Z) (k k' : list Z) (ksz : Z)
  (cs : bool) :
  key_canon cs k ksz = key_canon cs k' ksz ->
  hashmap_match x hv k ksz cs = hashmap_match x hv k' ksz cs.
Proof.
  intros Hc.
  destruct (hashmap_match x hv k ksz cs) eqn:M.
  - symmetry. apply hashmap_match_spec in M.
    destruct M as (nk & Ek & Eh & Es & Ec).
    apply hashmap_match_spec. exists nk. rewrite <- Hc. auto.
  - destruct (hashmap_match x hv k' ksz cs) eqn:M'; [|reflexivity].
    apply hashmap_match_spec in M'.
    destruct M' as (nk & Ek & Eh & Es & Ec).
    rewrite <- M. apply hashmap_match_spec. exists nk. rewrite Hc. auto.
Qed.

(** X15. [isc_hashmap_find] looks at the first [keysize] bytes of the key
    only, and on a map created with ISC_HASHMAP_CASE_INSENSITIVE at their
    lower-case forms: two keys that agree there, looked up with the same
    hash value, get the same answer. *)
Theorem X15_find_compares_canonical_bytes (hashmap : isc_hashmap) (hv : Z)
  (k k' : list Z) (ksz : Z) :
  reachable hashmap ->
  key_canon (case_sensitive hashmap) k ksz
  = key_canon (case_sensitive hashmap) k' ksz ->
  isc_hashmap_find hashmap (Some hv) k ksz
  = isc_hashmap_find hashmap (Some hv) k' ksz.
Proof.
  intros R Hc. pose proof (reachable_wf _ R) as W.
  destruct (Z_le_gt_dec ksz UINT16_MAX) as [Hk|Hk].
  2:{ rewrite !isc_hashmap_find_big by lia. reflexivity. }
  assert (Hm : forall x,
            hashmap_match x (u32 hv) k ksz (case_sensitive hashmap)
            = hashmap_match x (u32 hv) k' ksz (case_sensitive hashmap)).
  { intros x. apply match_canon. exact Hc. }
  destruct (isc_hashmap_find_spec 0 hashmap (Some hv) k ksz ltac:(lia) W Hk)
    as [(v & F & Hh) | (F & Hn)]; rewrite F; symmetry.
  - apply (find_success 0); [lia|exact W|exact Hk|].
    unfold holds, cntm in *. cbn [hashval_of] in *.
    rewrite <- (cnt_tb_ext
      (fun x => hashmap_match x (u32 hv) k ksz (case_sensitive hashmap)
                && (value x =? v))
      (fun x => hashmap_match x (u32 hv) k' ksz (case_sensitive hashmap)
                && (value x =? v)) (active hashmap))
      by (intros x; rewrite Hm; reflexivity).
    rewrite <- (cnt_tb_ext
      (fun x => hashmap_match x (u32 hv) k ksz (case_sensitive hashmap)
                && (value x =? v))
      (fun x => hashmap_match x (u32 hv) k' ksz (case_sensitive hashmap)
                && (value x =? v)) (other hashmap))
      by (intros x; rewrite Hm; reflexivity).
    exact Hh.
  - apply (find_notfound 0); [lia|exact W|exact Hk|].
    unfold has_key, cntm in *. cbn [hashval_of] in *.
    rewrite <- (cnt_tb_ext
      (fun x => hashmap_match x (u32 hv) k ksz (case_sensitive hashmap))
      (fun x => hashmap_match x (u32 hv) k' ksz (case_sensitive hashmap))
      (active hashmap)) by exact Hm.
    rewrite <- (cnt_tb_ext
      (fun x => hashmap_match x (u32 hv) k ksz (case_sensitive hashmap))
      (fun x => hashmap_match x (u32 hv) k' ksz (case_sensitive hashmap))
      (other hashmap)) by exact Hm.
    exact Hn.
Qed.

(** ** A rehash, step by step *)

(** [n] calls of [hashmap_rehash_one] in a row. *)
Fixpoint rehash_steps (n : nat) (hashmap : isc_hashmap)
  : option isc_hashmap :=
  match n with
  | O => Some hashmap
  | Datatypes.S n' =>
      hashmap <- hashmap_rehash_one hashmap ;;
      rehash_steps n' hashmap
  end.

Lemma rehash_steps_S (n : nat) (hashmap : isc_hashmap) :
  rehash_steps (Datatypes.S n) hashmap
  = (hashmap <- hashmap_rehash_one hashmap ;; rehash_steps n hashmap).
Proof. reflexivity. Qed.

Lemma rehash_steps_spec (n : nat) :
  forall hashmap,
    wf hashmap -> rehashing_in_progress hashmap = true ->
    cnt_tb occupied (other hashmap) = Z.of_nat n ->
    (forall m hm', (m <= n)%nat -> rehash_steps m hashmap = Some hm' ->
       rehashing_in_progress hm' = true) /\
    exists hashmap',
      rehash_steps (Datatypes.S n) hashmap = Some hashmap' /\
      rehashing_in_progress hashmap' = false /\
      wf hashmap' /\
      same_contents hashmap hashmap' /\
      count hashmap' = count hashmap.
Proof.
  induction n as [|n IH]; intros hashmap W Hre Hn.
  - split.
    { intros m hm' Hm E. replace m with O in E by lia.
      injection E as <-. exact Hre. }
    destruct (rehash_one_full hashmap W (wf_rehashing 0 _ W Hre))
      as (hm1 & E & Hp & W1 & S & C & _).
    pose proof (cnt_tb_nonneg occupied (other hm1)).
    destruct Hp as [(_ & Hdone) | (_ & Hless)]; [|lia].
    exists hm1. rewrite rehash_steps_S, E. cbn [bind rehash_steps].
    split; [reflexivity|]. split; [exact Hdone|].
    split; [apply (wf_slack_weaken 1 0); [lia|exact W1]|]. auto.
  - destruct (rehash_one_full hashmap W (wf_rehashing 0 _ W Hre))
      as (hm1 & E & Hp & W1 & S & C & _).
    destruct Hp as [(Hz & _) | (Hre1 & Hless)]; [lia|].
    assert (W1' : wf hm1) by (apply (wf_slack_weaken 1 0); [lia|exact W1]).
    destruct (IH hm1 W1' Hre1 ltac:(lia))
      as (Hbefore & hm' & E' & Hdone & W' & S' & C').
    split.
    { intros m hm2 Hm E2. destruct m as [|m].
      - injection E2 as <-. exact Hre.
      - rewrite rehash_steps_S, E in E2. cbn [bind] in E2.
        apply (Hbefore m hm2); [lia|exact E2]. }
    exists hm'. split.
    { rewrite rehash_steps_S, E. cbn [bind]. exact E'. }
    split; [exact Hdone|]. split; [exact W'|].
    split; [exact (same_contents_trans _ _ _ S S')|]. lia.
Qed.

(** X21. A rehash ends, and where it is expected to: on a map that the
    calls have built, with a rehash in progress and [n] nodes left in the
    old table, [n + 1] calls of [hashmap_rehash_one] in a row all return,
    the rehash is still in progress after each of the first [n], and after
    the last the old table is gone; the counter and the answer to every
    find are then as they were. *)
Theorem X21_rehash_ends_after_nodes_plus_one (hashmap : isc_hashmap)
  (n : nat) :
  reachable hashmap -> rehashing_in_progress hashmap = true ->
  cnt_tb occupied (other hashmap) = Z.of_nat n ->
  (forall m hm', (m <= n)%nat -> rehash_steps m hashmap = Some hm' ->
     rehashing_in_progress hm' = true) /\
  exists hashmap',
    rehash_steps (Datatypes.S n) hashmap = Some hashmap' /\
    rehashing_in_progress hashmap' = false /\
    count hashmap' = count hashmap /\
    forall hashvalp k ksz,
      isc_hashmap_find hashmap' hashvalp k ksz
      = isc_hashmap_find hashmap hashvalp k ksz.
Proof.
  intros R Hre Hn. pose proof (reachable_wf _ R) as W.
  destruct (rehash_steps_spec n hashmap W Hre Hn)
    as (Hbefore & hm' & E & Hdone & W' & S & C).
  split; [exact Hbefore|].
  exists hm'. split; [exact E|]. split; [exact Hdone|]. split; [exact C|].
  intros hashvalp k ksz. symmetry. apply find_same; assumption.
Qed.

(** ** The shrink of a table of 32 bits *)

(** The first step of a delete that starts the shrink of a table of 32
    bits leaves a map without nodes. *)
Lemma delete_prestep_32 (hashmap : isc_hashmap) :
  wf hashmap -> shrinks_from_32 hashmap ->
  exists hm1,
    delete_prestep hashmap = Some hm1 /\
    forall P, content_pred P -> cntm P hm1 = 0.
Proof.
  intros Hwf (R & U & E32). unfold delete_prestep. rewrite R, U.
  rewrite (start_shrink_eq hashmap Hwf R U). cbn [bind].
  destruct (wf_steady _ _ Hwf R) as (Eo & Eh & _).
  pose proof Hwf as [Hidx (Ha & _)].
  destruct (table_wf_some _ Ha) as [ta Eta].
  destruct (table_wf_inv _ _ Ha Eta) as (_ & Hsza & _).
  destruct (nexttable_cases _ Hidx) as (Hn1 & Hn2 & Hn3).
  rewrite (rehash_one_32
             (installed hashmap (hashbits (active hashmap) - 1)));
    [|rewrite (installed_other _ _ Hidx), Hsza, E32; reflexivity
     |exact Eh].
  eexists. split; [reflexivity|].
  rewrite E32.
  set (fresh := mk_table (HASHSIZE (32 - 1)) (32 - 1)
                  (u32 (HASHSIZE (32 - 1) - 1))
                  (Some (fun _ => node_zero))).
  assert (EA : active
            (set_hiter
               (set_tables (set_hiter (installed hashmap (32 - 1)) 0)
                  (hashmap_nexttable
                     (hindex (installed hashmap (32 - 1))))
                  table_none) 0) = fresh).
  { unfold installed, active.
    cbn [hindex tables set_hindex set_tables set_hiter].
    rewrite Hn3, (nexttable_eqb2 _ Hidx), Z.eqb_refl. reflexivity. }
  assert (EO : other
            (set_hiter
               (set_tables (set_hiter (installed hashmap (32 - 1)) 0)
                  (hashmap_nexttable
                     (hindex (installed hashmap (32 - 1))))
                  table_none) 0) = table_none).
  { unfold installed, other.
    cbn [hindex tables set_hindex set_tables set_hiter].
    rewrite Hn3, Z.eqb_refl. reflexivity. }
  intros P HP. unfold cntm. rewrite EA, EO, cnt_tb_none.
  unfold fresh. rewrite (cnt_tb_fresh P (32 - 1) HP). reflexivity.
Qed.

(** X22. What the shrink of a table of 32 bits costs: on a map that the
    calls have built, a delete that starts that shrink returns
    ISC_R_NOTFOUND for every key, held or not, and leaves the counter as it
    was and a map on which every find returns ISC_R_NOTFOUND; when the
    counter was not 0, [isc_hashmap_destroy] on that map fails its
    INSIST. *)
Theorem X22_shrink_from_32_bits_empties_map (hashmap : isc_hashmap)
  (hashvalp : option Z) (k : list Z) (ksz : Z) :
  reachable hashmap -> shrinks_from_32 hashmap ->
  0 <= ksz <= UINT16_MAX ->
  exists hashmap',
    isc_hashmap_delete hashmap hashvalp k ksz
    = Some (ISC_R_NOTFOUND, hashmap') /\
    count hashmap' = count hashmap /\
    (forall hashvalp' k' ksz', ksz' <= UINT16_MAX ->
       isc_hashmap_find hashmap' hashvalp' k' ksz'
       = Some (ISC_R_NOTFOUND, 0)) /\
    (1 <= count hashmap -> isc_hashmap_destroy hashmap' = None).
Proof.
  intros R Hs Hk. pose proof (reachable_wf _ R) as W.
  pose proof (reachable_count_range _ R) as Hr.
  destruct (isc_hashmap_delete_spec hashmap hashvalp k ksz W (proj2 Hk))
    as (r & hm' & hm1 & E & W' & _ & _ & Ep & _ & _ & _ & Hres).
  destruct (delete_prestep_32 hashmap W Hs) as (hm1' & Ep' & Hz).
  rewrite Ep in Ep'. injection Ep' as <-.
  destruct Hres as [(_ & Hh & _) | (-> & _ & -> & Ec)].
  { exfalso. unfold has_key in Hh.
    rewrite (Hz _ (content_pred_match _ k ksz (case_sensitive hm1))) in Hh.
    lia. }
  exists hm1. split; [exact E|]. split; [exact Ec|]. split.
  - intros hashvalp' k' ksz' Hk'.
    apply (find_notfound 0); [lia|exact W'|exact Hk'|].
    unfold has_key.
    rewrite (Hz _ (content_pred_match _ k' ksz' (case_sensitive hm1))).
    lia.
  - intros Hc1.
    destruct (isc_hashmap_destroy hm1) as [[]|] eqn:D; [|reflexivity].
    exfalso.
    apply (destroy_spec hm1 W' ltac:(rewrite Ec; exact Hr)) in D.
    rewrite (Hz _ content_pred_occupied) in D. lia.
Qed.

(** ** A whole pass *)

(** The place of a slot in the order of a pass: the slots of the active
    table, then those of the old table. *)
Definition slot_rank (hashmap : isc_hashmap) (idx p : Z) : Z :=
  if idx =? hindex hashmap then p else size (active hashmap) + p.

(** The result of [isc_hashmap_iter_first] followed by [n] calls of
    [isc_hashmap_iter_next], each made while the one before has returned
    ISC_R_SUCCESS. *)
Fixpoint iter_nth (n : nat) (hashmap : isc_hashmap) (it0 : isc_hashmap_iter)
  : option (isc_result * isc_hashmap_iter) :=
  match n with
  | O => isc_hashmap_iter_first hashmap it0
  | Datatypes.S n' =>
      match iter_nth n' hashmap it0 with
      | Some (ISC_R_SUCCESS, it) => isc_hashmap_iter_next hashmap it
      | r => r
      end
  end.

Lemma iter_nth_S (n : nat) (hashmap : isc_hashmap) (it0 : isc_hashmap_iter) :
  iter_nth (Datatypes.S n) hashmap it0
  = match iter_nth n hashmap it0 with
    | Some (ISC_R_SUCCESS, it) => isc_hashmap_iter_next hashmap it
    | r => r
    end.
Proof. reflexivity. Qed.

Lemma iter_nth_0 (hashmap : isc_hashmap) (it0 : isc_hashmap_iter) :
  iter_nth 0 hashmap it0 = isc_hashmap_iter_first hashmap it0.
Proof. reflexivity. Qed.

(** A call that has returned ISC_R_SUCCESS follows one that has. *)
Lemma iter_nth_prev (n : nat) (hashmap : isc_hashmap)
  (it0 it : isc_hashmap_iter) :
  iter_nth (Datatypes.S n) hashmap it0 = Some (ISC_R_SUCCESS, it) ->
  exists it', iter_nth n hashmap it0 = Some (ISC_R_SUCCESS, it') /\
              isc_hashmap_iter_next hashmap it' = Some (ISC_R_SUCCESS, it).
Proof.
  rewrite iter_nth_S.
  destruct (iter_nth n hashmap it0) as [[r it']|]; [|discriminate].
  destruct r; try discriminate. eauto.
Qed.

Lemma iter_nth_iterating (hashmap : isc_hashmap) (it0 : isc_hashmap_iter) :
  reachable hashmap ->
  forall n it, iter_nth n hashmap it0 = Some (ISC_R_SUCCESS, it) ->
    iterating hashmap it.
Proof.
  intros R. induction n as [|n IH]; intros it E.
  - rewrite iter_nth_0 in E. exact (iterating_first _ _ _ R E).
  - destruct (iter_nth_prev _ _ _ _ E) as (it' & E' & En).
    exact (iterating_next _ _ _ (IH _ E') En).
Qed.

Lemma ahead_rank (hashmap : isc_hashmap) (it : isc_hashmap_iter)
  (idx p : Z) :
  iterating hashmap it -> slot_ahead hashmap it idx p -> 0 <= p ->
  slot_rank hashmap (iter_hindex it) (iter_i it) < slot_rank hashmap idx p.
Proof.
  intros I Ha Hp.
  destruct (iterating_node _ _ I)
    as (W & Hh & _ & t & k & Et & Hi & _).
  pose proof W as [Hidx _].
  unfold slot_rank.
  destruct Ha as [(-> & Hlt) | (Htry & ->)].
  - destruct (iter_hindex it =? hindex hashmap); lia.
  - unfold try_nexttable in Htry. apply andb_true_iff in Htry.
    destruct Htry as [Eh _]. apply Z.eqb_eq in Eh.
    rewrite Eh in *. rewrite Z.eqb_refl, (nexttable_eqb2 _ Hidx).
    fold (active hashmap) in Hi. lia.
Qed.

(** The ranks of the nodes of a pass go up. *)
Lemma iter_nth_rank (hashmap : isc_hashmap) (it0 : isc_hashmap_iter) :
  reachable hashmap ->
  forall b a ita itb,
    (a < b)%nat ->
    iter_nth a hashmap it0 = Some (ISC_R_SUCCESS, ita) ->
    iter_nth b hashmap it0 = Some (ISC_R_SUCCESS, itb) ->
    slot_rank hashmap (iter_hindex ita) (iter_i ita)
    < slot_rank hashmap (iter_hindex itb) (iter_i itb).
Proof.
  intros R. induction b as [|b IH]; intros a ita itb Hab Ea Eb; [lia|].
  destruct (iter_nth_prev _ _ _ _ Eb) as (it' & E' & En).
  pose proof (iter_nth_iterating hashmap it0 R _ _ E') as I'.
  assert (Hstep : slot_rank hashmap (iter_hindex it') (iter_i it')
                  < slot_rank hashmap (iter_hindex itb) (iter_i itb)).
  { destruct (iter_next_spec hashmap it' I') as (r & it2 & E2 & Hres).
    rewrite En in E2. injection E2 as <- <-.
    destruct Hres as [(_ & I2 & Hpos & _) | (Habs & _)]; [|discriminate].
    apply (ahead_rank _ _ _ _ I' Hpos).
    destruct (iterating_node _ _ I2) as (_ & _ & _ & t & k & _ & Hi & _).
    lia. }
  destruct (Nat.eq_dec a b) as [->|Hne].
  - rewrite Ea in E'. injection E' as <-. exact Hstep.
  - pose proof (IH a ita it' ltac:(lia) Ea E'). lia.
Qed.

(** From a node of the pass on, every node that is ahead is reached. *)
Lemma iter_nth_reaches (hashmap : isc_hashmap) (it0 : isc_hashmap_iter)
  (idx p : Z) :
  reachable hashmap -> node_at hashmap idx p ->
  forall (k : nat) (n : nat) (it : isc_hashmap_iter),
    iter_nth n hashmap it0 = Some (ISC_R_SUCCESS, it) ->
    (idx = iter_hindex it /\ p = iter_i it) \/ slot_ahead hashmap it idx p ->
    slot_rank hashmap idx p
    - slot_rank hashmap (iter_hindex it) (iter_i it) <= Z.of_nat k ->
    exists n' it',
      iter_nth n' hashmap it0 = Some (ISC_R_SUCCESS, it') /\
      iter_hindex it' = idx /\ iter_i it' = p.
Proof.
  intros R Hnode.
  assert (Hp0 : 0 <= p) by (destruct Hnode as (_ & t & _ & Hp & _); lia).
  induction k as [|k IH]; intros n it E Hat Hk.
  - destruct Hat as [(-> & ->) | Ha]; [eauto|].
    pose proof (ahead_rank _ _ _ _ (iter_nth_iterating _ _ R _ _ E) Ha Hp0).
    lia.
  - destruct Hat as [(-> & ->) | Ha]; [eauto|].
    pose proof (iter_nth_iterating _ _ R _ _ E) as I.
    destruct (iter_next_spec hashmap it I) as (r & it2 & E2 & Hres).
    destruct Hres as [(-> & I2 & Hpos & Hcov) | (-> & Hnone)].
    + apply (IH (Datatypes.S n) it2).
      * rewrite iter_nth_S, E. exact E2.
      * exact (Hcov idx p Hnode Ha).
      * pose proof (ahead_rank _ _ _ _ I Hpos).
        destruct (iterating_node _ _ I2)
          as (_ & _ & _ & t & k2 & _ & Hi & _).
        lia.
    + exfalso. exact (Hnone idx p Hnode Ha).
Qed.

(** X23. A pass visits every node, once: on a map that the calls have
    built, for every node of the two tables there is exactly one [n] such
    that [isc_hashmap_iter_first] followed by [n] calls of
    [isc_hashmap_iter_next] returns ISC_R_SUCCESS with the iterator on
    that node. *)
Theorem X23_pass_visits_every_node_once (hashmap : isc_hashmap)
  (it0 : isc_hashmap_iter) (idx p : Z) :
  reachable hashmap -> node_at hashmap idx p ->
  exists n it,
    iter_nth n hashmap it0 = Some (ISC_R_SUCCESS, it) /\
    iter_hindex it = idx /\ iter_i it = p /\
    forall m it_m,
      iter_nth m hashmap it0 = Some (ISC_R_SUCCESS, it_m) ->
      iter_hindex it_m = idx -> iter_i it_m = p -> m = n.
Proof.
  intros R Hnode.
  destruct (iter_first_spec hashmap it0 R) as (r & it1 & E1 & Hres).
  destruct Hres as [(-> & I1 & Hfront) | (_ & Hnone)];
    [|exfalso; exact (Hnone idx p Hnode)].
  assert (Hk : exists k : nat,
            slot_rank hashmap idx p
            - slot_rank hashmap (iter_hindex it1) (iter_i it1)
            <= Z.of_nat k).
  { exists (Z.to_nat (slot_rank hashmap idx p
                      - slot_rank hashmap (iter_hindex it1) (iter_i it1))).
    lia. }
  destruct Hk as [k Hk].
  destruct (iter_nth_reaches hashmap it0 idx p R Hnode k 0 it1)
    as (n & it & En & Ei & Ep); [rewrite iter_nth_0; exact E1| |exact Hk|].
  { exact (Hfront idx p Hnode). }
  exists n, it. split; [exact En|]. split; [exact Ei|]. split; [exact Ep|].
  intros m it_m Em Emi Emp.
  destruct (Nat.lt_trichotomy m n) as [Hlt|[Heq|Hgt]]; [|exact Heq|].
  - pose proof (iter_nth_rank hashmap it0 R n m it_m it Hlt Em En) as H.
    rewrite Emi, Emp, Ei, Ep in H. lia.
  - pose proof (iter_nth_rank hashmap it0 R m n it it_m Hgt En Em) as H.
    rewrite Emi, Emp, Ei, Ep in H. lia.
Qed.

(** ** Deleting every node with an iterator *)

(** The loop [for (r = isc_hashmap_iter_first(it); r == ISC_R_SUCCESS;
    r = isc_hashmap_iter_delcurrent_next(it))], from the test of [r] on and
    with at most [n] trips. *)
Fixpoint delcurrent_loop (n : nat) (r : isc_result) (hashmap : isc_hashmap)
  (it : isc_hashmap_iter)
  : option (isc_result * isc_hashmap * isc_hashmap_iter) :=
  match r with
  | ISC_R_SUCCESS =>
      match n with
      | O => None
      | Datatypes.S n' =>
          ' (r, hashmap, it) <- isc_hashmap_iter_delcurrent_next hashmap it ;;
          delcurrent_loop n' r hashmap it
      end
  | _ => Some (r, hashmap, it)
  end.

Definition iter_delete_all (n : nat) (hashmap : isc_hashmap)
  (it0 : isc_hashmap_iter)
  : option (isc_result * isc_hashmap * isc_hashmap_iter) :=
  ' (r, it) <- isc_hashmap_iter_first hashmap it0 ;;
  delcurrent_loop n r hashmap it.

Lemma delcurrent_loop_S (n : nat) (hashmap : isc_hashmap)
  (it : isc_hashmap_iter) :
  delcurrent_loop (Datatypes.S n) ISC_R_SUCCESS hashmap it
  = (' (r, hashmap, it) <- isc_hashmap_iter_delcurrent_next hashmap it ;;
     delcurrent_loop n r hashmap it).
Proof. reflexivity. Qed.

Lemma delcurrent_loop_nomore (n : nat) (hashmap : isc_hashmap)
  (it : isc_hashmap_iter) :
  delcurrent_loop n ISC_R_NOMORE hashmap it
  = Some (ISC_R_NOMORE, hashmap, it).
Proof. destruct n; reflexivity. Qed.

Lemma iter_delete_all_eq (n : nat) (hashmap : isc_hashmap)
  (it0 : isc_hashmap_iter) :
  iter_delete_all n hashmap it0
  = (' (r, it) <- isc_hashmap_iter_first hashmap it0 ;;
     delcurrent_loop n r hashmap it).
Proof. reflexivity. Qed.

Lemma no_node_cntm (hashmap : isc_hashmap) :
  wf hashmap -> (forall idx p, ~ node_at hashmap idx p) ->
  cntm occupied hashmap = 0.
Proof.
  intros [Hidx _] Hnone.
  assert (Hz : forall idx, idx = 0 \/ idx = 1 ->
            cnt_tb occupied (tables hashmap idx) = 0).
  { intros idx Hi.
    pose proof (cnt_tb_nonneg occupied (tables hashmap idx)) as H0.
    destruct (Z.eq_dec (cnt_tb occupied (tables hashmap idx)) 0) as [E|N];
      [exact E|exfalso].
    unfold cnt_tb in N, H0.
    destruct (table (tables hashmap idx)) as [t|] eqn:Et; [|lia].
    destruct (cnt_pos occupied t (size (tables hashmap idx)) ltac:(lia))
      as (p & Hp & Ho).
    apply (Hnone idx p). split; [exact Hi|]. exists t.
    split; [exact Et|]. split; [exact Hp|]. apply occupied_true. exact Ho. }
  unfold cntm, active, other.
  rewrite (Hz (hindex hashmap) Hidx).
  rewrite (Hz _ (proj1 (nexttable_cases _ Hidx))). reflexivity.
Qed.

Lemma node_cntm (hashmap : isc_hashmap) (idx p : Z) :
  wf hashmap -> node_at hashmap idx p -> 1 <= cntm occupied hashmap.
Proof.
  intros [Hidx _] (Hi & t & Et & Hp & Hn).
  apply (cntm_ge1 occupied hashmap idx t p (idx_cases _ _ Hidx Hi) Et Hp).
  apply occupied_true. exact Hn.
Qed.

Lemma delcurrent_loop_spec (n : nat) :
  forall hashmap it,
    iterating hashmap it -> iter_front hashmap it ->
    cntm occupied hashmap = Z.of_nat n ->
    exists hashmap' it',
      delcurrent_loop n ISC_R_SUCCESS hashmap it
      = Some (ISC_R_NOMORE, hashmap', it') /\
      wf hashmap' /\
      (forall idx p, ~ node_at hashmap' idx p) /\
      count hashmap' = count hashmap - Z.of_nat n.
Proof.
  induction n as [|n IH]; intros hashmap it I Hfront Hn.
  - exfalso.
    destruct (proj2 reachable_iterating_wf _ _ I)
      as (W & _ & Hh & t & Et & Hi & Hnn).
    pose proof (node_cntm hashmap (iter_hindex it) (iter_i it) W
                  (conj Hh (ex_intro _ t (conj Et (conj Hi Hnn))))).
    lia.
  - destruct (iterating_node _ _ I)
      as (W & Hh & _ & t & k & Et & Hi & Ek & _).
    destruct (iter_delcurrent_spec hashmap it t I Et)
      as (r & hm1 & it1 & E & W1 & Hres & _ & _ & _ & Ec & Hcnt & Hold
          & Htry & Hcov & Hnone).
    assert (Hocc : cntm occupied hm1 = Z.of_nat n).
    { rewrite (Hcnt occupied content_pred_occupied), Hn.
      unfold occupied, key_is_null. rewrite Ek. cbn [negb b2z]. lia. }
    assert (Hfrom : forall idx p, node_at hm1 idx p ->
              slot_from hm1 it idx p).
    { intros idx p Hnode.
      destruct (Hfront idx p (Hold idx p Hnode)) as [(-> & ->) | Ha].
      - left. split; [reflexivity|lia].
      - destruct Ha as [(-> & Hlt) | (Ht & ->)].
        + left. split; [reflexivity|lia].
        + right. split; [rewrite Htry; exact Ht|reflexivity]. }
    rewrite delcurrent_loop_S, E. cbn [bind].
    destruct Hres as [(-> & V) | ->].
    + destruct (IH hm1 it1) as (hm' & it' & E' & W' & Hnone' & Ec').
      * exact (iterating_delcurrent _ _ _ _ I E).
      * intros idx p Hnode.
        exact (Hcov eq_refl idx p Hnode (Hfrom idx p Hnode)).
      * exact Hocc.
      * exists hm', it'. split; [exact E'|]. split; [exact W'|].
        split; [exact Hnone'|]. lia.
    + exists hm1, it1. rewrite delcurrent_loop_nomore.
      split; [reflexivity|]. split; [exact W1|].
      assert (Hgone : forall idx p, ~ node_at hm1 idx p).
      { intros idx p Hnode.
        exact (Hnone eq_refl idx p Hnode (Hfrom idx p Hnode)). }
      split; [exact Hgone|].
      pose proof (no_node_cntm hm1 W1 Hgone). lia.
Qed.

(** X24. The loop that deletes with an iterator empties the map: on a map
    that the calls have built, [isc_hashmap_iter_first] followed by
    [isc_hashmap_iter_delcurrent_next] for as long as the result is
    ISC_R_SUCCESS ends with ISC_R_NOMORE after as many deletions as the
    tables hold nodes, at most; no table then holds a node, every find
    returns ISC_R_NOTFOUND, and the counter is less by the number of nodes
    there were. *)
Theorem X24_delete_with_iterator_empties_map (hashmap : isc_hashmap)
  (it0 : isc_hashmap_iter) :
  reachable hashmap ->
  exists hashmap' it',
    iter_delete_all (Z.to_nat (cntm occupied hashmap)) hashmap it0
    = Some (ISC_R_NOMORE, hashmap', it') /\
    (forall idx p, ~ node_at hashmap' idx p) /\
    count hashmap' = count hashmap - cntm occupied hashmap /\
    forall hashvalp k ksz, ksz <= UINT16_MAX ->
      isc_hashmap_find hashmap' hashvalp k ksz = Some (ISC_R_NOTFOUND, 0).
Proof.
  intros R. pose proof (reachable_wf _ R) as W.
  assert (H0 : 0 <= cntm occupied hashmap).
  { unfold cntm. pose proof (cnt_tb_nonneg occupied (active hashmap)).
    pose proof (cnt_tb_nonneg occupied (other hashmap)). lia. }
  assert (Hfind : forall hm', wf hm' ->
            (forall idx p, ~ node_at hm' idx p) ->
            forall hashvalp k ksz, ksz <= UINT16_MAX ->
              isc_hashmap_find hm' hashvalp k ksz
              = Some (ISC_R_NOTFOUND, 0)).
  { intros hm' W' Hnone hashvalp k ksz Hk.
    apply (find_notfound 0); [lia|exact W'|exact Hk|].
    unfold has_key. intros Hh.
    pose proof (no_node_cntm hm' W' Hnone) as Hz. unfold cntm in Hz, Hh.
    pose proof (cnt_tb_add_le
      (fun x => hashmap_match x (hashval_of hm' hashvalp k ksz) k ksz
                  (case_sensitive hm'))
      (fun _ => false) occupied (active hm')) as Ha.
    pose proof (cnt_tb_add_le
      (fun x => hashmap_match x (hashval_of hm' hashvalp k ksz) k ksz
                  (case_sensitive hm'))
      (fun _ => false) occupied (other hm')) as Hb.
    assert (Hx : forall x,
      b2z (hashmap_match x (hashval_of hm' hashvalp k ksz) k ksz
             (case_sensitive hm')) + b2z false <= b2z (occupied x)).
    { intros x.
      destruct (hashmap_match x _ k ksz _) eqn:M; simpl.
      - apply match_not_null in M. apply occupied_true in M. rewrite M.
        simpl. lia.
      - destruct (occupied x); simpl; lia. }
    specialize (Ha Hx). specialize (Hb Hx).
    pose proof (cnt_tb_nonneg (fun _ => false) (active hm')).
    pose proof (cnt_tb_nonneg (fun _ => false) (other hm')).
    pose proof (cnt_tb_nonneg occupied (active hm')).
    pose proof (cnt_tb_nonneg occupied (other hm')).
    lia. }
  rewrite iter_delete_all_eq.
  destruct (iter_first_spec hashmap it0 R) as (r & it1 & E1 & Hres).
  rewrite E1. cbn [bind].
  destruct Hres as [(-> & I1 & Hfront) | (-> & Hnone)].
  - destruct (delcurrent_loop_spec (Z.to_nat (cntm occupied hashmap))
                hashmap it1 I1 Hfront ltac:(lia))
      as (hm' & it' & E & W' & Hnone & Ec).
    exists hm', it'. split; [exact E|]. split; [exact Hnone|].
    split; [lia|]. exact (Hfind hm' W' Hnone).
  - exists hashmap, it1.
    split; [apply delcurrent_loop_nomore|].
    split; [exact Hnone|].
    split; [rewrite (no_node_cntm hashmap W Hnone); lia|].
    exact (Hfind hashmap W Hnone).
Qed.

End Hashmap.

(** ** The map at concrete inputs *)

(** Modelled from the spec: the home slot is taken from the high bits of the
    hash value, [h >> shift] with [shift = 32 - bits]. *)
Definition hash_bits32_high (val bits : Z) : Z :=
  Z.shiftr (u32 val) (32 - bits).

(** A keyed hash for the examples below; the theorems hold for every
    function in its place. *)
Definition keyed_hash (hash_key input : list Z) (inlen : Z)
  (case_sensitive : bool) : Z :=
  fold_left
    (fun a x => u32 (a * 31 + (if case_sensitive then x
                               else isc_ascii_tolower x)))
    (firstn (Z.to_nat inlen) input)
    (fold_left (fun a x => u32 (a * 31 + x)) hash_key 7).

(** The map that a call leaves when it returns. *)
Definition map_of (r : option (isc_result * isc_hashmap))
  (default : isc_hashmap) : isc_hashmap :=
  match r with
  | Some (_, hashmap) => hashmap
  | None => default
  end.

Definition empty_map : isc_hashmap :=
  mk_hashmap true 0 0 0 [] (fun _ => table_none).

(** [isc_hashmap_create] with 1, 4 and 32 bits. *)
Definition map_1bit : isc_hashmap :=
  match isc_hashmap_create 1 0 [] with Some h => h | None => empty_map end.

Definition map_4bit : isc_hashmap :=
  match isc_hashmap_create 4 0 [] with Some h => h | None => empty_map end.

Definition map_32bit : isc_hashmap :=
  match isc_hashmap_create 32 0 [] with Some h => h | None => empty_map end.

(** The keys [k] and [l], with the hash values the caller passes. *)
Definition key_k : list Z := [107].
Definition key_l : list Z := [108].

(** [map_1bit] after [add(k, 42)], and after [add(l, 43)] too. *)
Definition map_1bit_k : isc_hashmap :=
  map_of (isc_hashmap_add hash_bits32_high keyed_hash map_1bit
            (Some 5) key_k 1 42) empty_map.

Definition map_1bit_kl : isc_hashmap :=
  map_of (isc_hashmap_add hash_bits32_high keyed_hash map_1bit_k
            (Some 4026531840) key_l 1 43) empty_map.

(** [map_32bit] after [add(k, 42)]. *)
Definition map_32bit_k : isc_hashmap :=
  map_of (isc_hashmap_add hash_bits32_high keyed_hash map_32bit
            (Some 5) key_k 1 42) empty_map.

Lemma map_1bit_reachable : reachable hash_bits32_high keyed_hash map_1bit.
Proof. apply (reach_create _ _ 1 0 []). reflexivity. Qed.

Lemma map_4bit_reachable : reachable hash_bits32_high keyed_hash map_4bit.
Proof. apply (reach_create _ _ 4 0 []). reflexivity. Qed.

Lemma map_32bit_reachable : reachable hash_bits32_high keyed_hash map_32bit.
Proof. apply (reach_create _ _ 32 0 []). reflexivity. Qed.
Lemma map_1bit_k_reachable :
  reachable hash_bits32_high keyed_hash map_1bit_k.
Proof.
  apply (reach_add _ _ map_1bit (Some 5) key_k 1 42 ISC_R_SUCCESS).
  - exact map_1bit_reachable.
  - vm_compute. reflexivity.
  - lia.
  - vm_compute. reflexivity.
Qed.

Lemma map_1bit_kl_reachable :
  reachable hash_bits32_high keyed_hash map_1bit_kl.
Proof.
  apply (reach_add _ _ map_1bit_k (Some 4026531840) key_l 1 43
           ISC_R_SUCCESS).
  - exact map_1bit_k_reachable.
  - vm_compute. reflexivity.
  - lia.
  - vm_compute. reflexivity.
Qed.

Lemma map_32bit_k_reachable :
  reachable hash_bits32_high keyed_hash map_32bit_k.
Proof.
  apply (reach_add _ _ map_32bit (Some 5) key_k 1 42 ISC_R_SUCCESS).
  - exact map_32bit_reachable.
  - vm_compute. reflexivity.
  - lia.
  - vm_compute. reflexivity.
Qed.

Definition key_m : list Z := [109].

(** The round trip on the map of one bit that holds [k] and [l], with the
    key [m]: the add starts a grow. *)
Example round_trip_on_1bit_map :
  exists hm1 r hm2,
    isc_hashmap_add hash_bits32_high keyed_hash map_1bit_kl (Some 7) key_m 1
      44
    = Some (ISC_R_SUCCESS, hm1) /\
    isc_hashmap_find hash_bits32_high keyed_hash hm1 (Some 7) key_m 1
    = Some (ISC_R_SUCCESS, 44) /\
    isc_hashmap_delete hash_bits32_high keyed_hash hm1 (Some 7) key_m 1
    = Some (r, hm2) /\
    isc_hashmap_find hash_bits32_high keyed_hash hm2 (Some 7) key_m 1
    = Some (ISC_R_NOTFOUND, 0) /\
    (r = ISC_R_SUCCESS \/
     r = ISC_R_NOTFOUND /\ shrinks_from_32 hm1).
Proof.
  apply (add_find_delete_round_trip hash_bits32_high keyed_hash
           map_1bit_kl (Some 7) key_m 1 44).
  - exact map_1bit_kl_reachable.
  - vm_compute. reflexivity.
  - unfold UINT16_MAX. lia.
  - vm_compute. reflexivity.
Qed.

(** C4 on the map of one bit that holds 42 under [k]. *)
Lemma C4_witness :
  exists hashmap',
    isc_hashmap_add hash_bits32_high keyed_hash map_1bit_kl (Some 5) key_k 1
      99
    = Some (ISC_R_EXISTS, hashmap') /\
    isc_hashmap_find hash_bits32_high keyed_hash hashmap' (Some 5) key_k 1
    = Some (ISC_R_SUCCESS, 42) /\
    count hashmap' = count map_1bit_kl /\
    isc_hashmap_count hashmap' = isc_hashmap_count map_1bit_kl.
Proof.
  apply (C4_add_existing_key hash_bits32_high keyed_hash map_1bit_kl
           (Some 5) key_k 1 42 99).
  - exact map_1bit_kl_reachable.
  - unfold UINT16_MAX. lia.
  - vm_compute. reflexivity.
Defined.

(** C5 on the map of one bit that holds two entries, where an add grows
    the map to three bits, and on the empty map of four bits, where a
    delete shrinks it to three. *)
Lemma C5_witness :
  (exists r hashmap' n,
     isc_hashmap_add hash_bits32_high keyed_hash map_1bit_kl (Some 7) key_m
       1 44 = Some (r, hashmap') /\
     grow_target (hashbits (active map_1bit_kl)) (count map_1bit_kl) n /\
     hashbits (active hashmap') = Z.min n 32 /\
     size (active hashmap') = 2 ^ Z.min n 32) /\
  (exists r hashmap',
     isc_hashmap_delete hash_bits32_high keyed_hash map_4bit (Some 7) key_m 1
     = Some (r, hashmap') /\
     hashbits (active hashmap') = Z.max (hashbits (active map_4bit) - 1) 1 /\
     size (active hashmap')
     = 2 ^ Z.max (hashbits (active map_4bit) - 1) 1).
Proof.
  split.
  - apply (C5_grow_and_shrink_widths hash_bits32_high keyed_hash
             map_1bit_kl (Some 7) key_m 1 44).
    + exact map_1bit_kl_reachable.
    + vm_compute. reflexivity.
    + unfold UINT16_MAX. lia.
    + vm_compute. reflexivity.
    + vm_compute. reflexivity.
  - apply (C5_grow_and_shrink_widths hash_bits32_high keyed_hash
             map_4bit (Some 7) key_m 1 44).
    + exact map_4bit_reachable.
    + vm_compute. reflexivity.
    + unfold UINT16_MAX. lia.
    + vm_compute. reflexivity.
    + vm_compute. reflexivity.
Defined.

(** [isc_hashmap_create] with 3 bits, and the map after [add(k, 42)]. *)
Definition map_3bit : isc_hashmap :=
  match isc_hashmap_create 3 0 [] with Some h => h | None => empty_map end.

Definition map_3bit_k : isc_hashmap :=
  map_of (isc_hashmap_add hash_bits32_high keyed_hash map_3bit
            (Some 5) key_k 1 42) empty_map.

Lemma map_3bit_k_reachable :
  reachable hash_bits32_high keyed_hash map_3bit_k.
Proof.
  apply (reach_add _ _ map_3bit (Some 5) key_k 1 42 ISC_R_SUCCESS).
  - apply (reach_create _ _ 3 0 []). reflexivity.
  - vm_compute. reflexivity.
  - lia.
  - vm_compute. reflexivity.
Qed.

(** C5, with the thresholds read as exact percentages.  The map of 3 bits
    that holds one entry has 8 slots: the counter, 1, is below 20% of 8,
    and the table is above the minimum; yet [APPROX_20_PERCENT] of 8 is
    [(8 * 205) >> 10 = 1], the counter is not below it, and a delete starts
    no shrink: the active table keeps its 3 bits. *)
Lemma C5_counterexample :
  reachable hash_bits32_high keyed_hash map_3bit_k /\
  rehashing_in_progress map_3bit_k = false /\
  hashbits (active map_3bit_k) = 3 /\
  size (active map_3bit_k) = 8 /\
  count map_3bit_k = 1 /\
  100 * count map_3bit_k < 20 * size (active map_3bit_k) /\
  APPROX_20_PERCENT (size (active map_3bit_k)) = 1 /\
  exists hashmap',
    isc_hashmap_delete hash_bits32_high keyed_hash map_3bit_k (Some 6) key_l
      1 = Some (ISC_R_NOTFOUND, hashmap') /\
    rehashing_in_progress hashmap' = false /\
    hashbits (active hashmap') = 3 /\
    Z.max (hashbits (active map_3bit_k) - 1) 1 = 2.
Proof.
  split; [exact map_3bit_k_reachable|].
  repeat (split; [vm_compute; reflexivity|]).
  exists (map_of (isc_hashmap_delete hash_bits32_high keyed_hash map_3bit_k
                    (Some 6) key_l 1) empty_map).
  repeat split; vm_compute; reflexivity.
Qed.

(** C10 on the map of 32 bits that holds [k], for the add, and on the map
    of one bit that holds [k] and [l], for the delete. *)
Lemma C10_witness :
  ((1 <= hashbits (active map_32bit_k) <= 32 /\
    size (active map_32bit_k) = 2 ^ hashbits (active map_32bit_k) /\
    2 <= size (active map_32bit_k) <= 2 ^ 32) /\
   over_threshold map_32bit_k = false /\
   exists r hashmap',
     isc_hashmap_add hash_bits32_high keyed_hash map_32bit_k (Some 7) key_m
       1 44 = Some (r, hashmap') /\
     hashbits (active hashmap') = 32 /\
     (isc_hashmap_find hash_bits32_high keyed_hash map_32bit_k (Some 7)
        key_m 1 = Some (ISC_R_NOTFOUND, 0) ->
      r = ISC_R_SUCCESS)) /\
  (under_threshold map_1bit_kl = false /\
   exists r hashmap',
     isc_hashmap_delete hash_bits32_high keyed_hash map_1bit_kl (Some 5)
       key_k 1 = Some (r, hashmap') /\
     hashbits (active hashmap') = 1).
Proof.
  split.
  - destruct (C10_bits_stay_in_range hash_bits32_high keyed_hash
                map_32bit_k (Some 7) key_m 1 44) as (H1 & H2 & _).
    + exact map_32bit_k_reachable.
    + unfold UINT16_MAX. lia.
    + split; [exact H1|]. apply H2; vm_compute; reflexivity.
  - destruct (C10_bits_stay_in_range hash_bits32_high keyed_hash
                map_1bit_kl (Some 5) key_k 1 44) as (_ & _ & H3).
    + exact map_1bit_kl_reachable.
    + unfold UINT16_MAX. lia.
    + apply H3. vm_compute. reflexivity.
Defined.

(** The table of [map_1bit_kl] at index 0. *)
Definition table_1bit_kl : Z -> hashmap_node :=
  match table (tables map_1bit_kl 0) with
  | Some t => t
  | None => fun _ => node_zero
  end.

(** C3 on the two slots of the map of one bit that holds [k] and [l]. *)
Lemma C3_witness :
  psl_is_distance hash_bits32_high (tables map_1bit_kl 0) table_1bit_kl 0 /\
  psl_is_distance hash_bits32_high (tables map_1bit_kl 0) table_1bit_kl 1.
Proof.
  split.
  - apply (C3_psl_is_distance_from_home hash_bits32_high keyed_hash
             map_1bit_kl 0 table_1bit_kl 0).
    + exact (reachable_built_map _ _ _ map_1bit_kl_reachable).
    + left. reflexivity.
    + vm_compute. reflexivity.
    + vm_compute. split; [discriminate|reflexivity].
    + vm_compute. reflexivity.
  - apply (C3_psl_is_distance_from_home hash_bits32_high keyed_hash
             map_1bit_kl 0 table_1bit_kl 1).
    + exact (reachable_built_map _ _ _ map_1bit_kl_reachable).
    + left. reflexivity.
    + vm_compute. reflexivity.
    + vm_compute. split; [discriminate|reflexivity].
    + vm_compute. reflexivity.
Defined.

(** The map of 3 bits that holds [k] and [l], both with the home slot 0,
    in the slots 0 and 1, and [m], with the home slot 5, in the slot 5. *)
Definition map_3bit_kl : isc_hashmap :=
  map_of (isc_hashmap_add hash_bits32_high keyed_hash map_3bit_k
            (Some 6) key_l 1 43) empty_map.

Definition map_3bit_klm : isc_hashmap :=
  map_of (isc_hashmap_add hash_bits32_high keyed_hash map_3bit_kl
            (Some 2684354560) key_m 1 44) empty_map.

(** [map_3bit_klm] after [delete(m)]. *)
Definition map_3bit_klm_minus_m : isc_hashmap :=
  map_of (isc_hashmap_delete hash_bits32_high keyed_hash map_3bit_klm
            (Some 2684354560) key_m 1) empty_map.

Definition table_3bit_klm_minus_m : Z -> hashmap_node :=
  match table (tables map_3bit_klm_minus_m 0) with
  | Some t => t
  | None => fun _ => node_zero
  end.

(** The iterator that stood on the node of [m], in the slot 5 of table 0,
    before the delete. *)
Definition iter_on_m : isc_hashmap_iter := mk_iter 5 0 (Some (0, 5)).

(** [map_3bit_klm_minus_m] after [isc_hashmap_iter_delcurrent_next] on
    that iterator, and its table. *)
Definition map_3bit_stale : isc_hashmap :=
  match isc_hashmap_iter_delcurrent_next hash_bits32_high
          map_3bit_klm_minus_m iter_on_m with
  | Some (_, hashmap, _) => hashmap
  | None => empty_map
  end.

Definition table_3bit_stale : Z -> hashmap_node :=
  match table (tables map_3bit_stale 0) with
  | Some t => t
  | None => fun _ => node_zero
  end.

(** C3, for any sequence of calls.  On the map of 3 bits that holds [k],
    [l] and [m], an iterator is taken to the node of [m] by
    [isc_hashmap_iter_first] and two [isc_hashmap_iter_next]; then
    [isc_hashmap_delete] removes [m], and the slot 5 under the iterator is
    empty.  [isc_hashmap_iter_delcurrent_next] asks only for
    [iter->cur != NULL]: it reads the hash value 0 and the psl 0 of the empty
    slot, shifts back from the home slot of that hash value, 0, and so moves
    [l] from the slot 1 into the slot 5 with the psl 0.  The call returns
    ISC_R_SUCCESS; the node of [l], whose home slot is 0, now stands in the
    slot 5 with a psl of 0, not 5. *)
Lemma C3_counterexample :
  reachable hash_bits32_high keyed_hash map_3bit_klm /\
  (exists it1 it2,
     isc_hashmap_iter_first map_3bit_klm
       (isc_hashmap_iter_create map_3bit_klm) = Some (ISC_R_SUCCESS, it1) /\
     isc_hashmap_iter_next map_3bit_klm it1 = Some (ISC_R_SUCCESS, it2) /\
     isc_hashmap_iter_next map_3bit_klm it2
     = Some (ISC_R_SUCCESS, iter_on_m)) /\
  isc_hashmap_iter_currentkey map_3bit_klm iter_on_m
  = Some (Some key_m, 1) /\
  isc_hashmap_delete hash_bits32_high keyed_hash map_3bit_klm
    (Some 2684354560) key_m 1
  = Some (ISC_R_SUCCESS, map_3bit_klm_minus_m) /\
  table (tables map_3bit_klm_minus_m 0) = Some table_3bit_klm_minus_m /\
  key_is_null (table_3bit_klm_minus_m 5) = true /\
  iter_cur iter_on_m <> None /\
  isc_hashmap_iter_delcurrent_next hash_bits32_high map_3bit_klm_minus_m
    iter_on_m
  = Some (ISC_R_SUCCESS, map_3bit_stale, iter_on_m) /\
  table (tables map_3bit_stale 0) = Some table_3bit_stale /\
  size (tables map_3bit_stale 0) = 8 /\
  hashmask (tables map_3bit_stale 0) = 7 /\
  key (table_3bit_stale 5) = Some key_l /\
  key_is_null (table_3bit_stale 5) = false /\
  hash_bits32_high (hashval (table_3bit_stale 5))
    (hashbits (tables map_3bit_stale 0)) = 0 /\
  psl (table_3bit_stale 5) = 0 /\
  ~ psl_is_distance hash_bits32_high (tables map_3bit_stale 0)
      table_3bit_stale 5.
Proof.
  split.
  { apply (reach_add _ _ map_3bit_kl (Some 2684354560) key_m 1 44
             ISC_R_SUCCESS); [|vm_compute; reflexivity|lia
                              |vm_compute; reflexivity].
    apply (reach_add _ _ map_3bit_k (Some 6) key_l 1 43 ISC_R_SUCCESS);
      [exact map_3bit_k_reachable|vm_compute; reflexivity|lia
      |vm_compute; reflexivity]. }
  split.
  { exists (mk_iter 0 0 (Some (0, 0))), (mk_iter 1 0 (Some (0, 1))).
    repeat split; vm_compute; reflexivity. }
  repeat (split; [vm_compute; first [reflexivity|discriminate]|]).
  vm_compute. discriminate.
Qed.

(** The map of 32 bits that holds [k], after [hashmap_rehash_start_shrink],
    and after the [hashmap_rehash_one] that follows. *)
Definition map_32bit_k_shrinking : isc_hashmap :=
  match hashmap_rehash_start_shrink map_32bit_k with
  | Some h => h
  | None => empty_map
  end.

Definition map_32bit_k_rehashed : isc_hashmap :=
  match hashmap_rehash_one hash_bits32_high map_32bit_k_shrinking with
  | Some h => h
  | None => empty_map
  end.

(** C2. A migration step that loses a key.  On the map of 32 bits that
    holds 42 under [k], which is under the threshold of a delete, the shrink
    is started, and the key is still found, in the source table; the one
    step of [hashmap_rehash_one] that follows reads the size [2^32] of the
    source table into its [uint32_t oldsize], 0, takes the table for
    migrated and frees it: the key is no longer found, the counter still
    says 1, and no rehash is in progress. *)
Theorem C2_rehash_one_loses_keys_of_32_bit_table :
  reachable hash_bits32_high keyed_hash map_32bit_k /\
  rehashing_in_progress map_32bit_k = false /\
  under_threshold map_32bit_k = true /\
  isc_hashmap_find hash_bits32_high keyed_hash map_32bit_k (Some 5) key_k 1
  = Some (ISC_R_SUCCESS, 42) /\
  hashmap_rehash_start_shrink map_32bit_k = Some map_32bit_k_shrinking /\
  rehashing_in_progress map_32bit_k_shrinking = true /\
  hashbits (active map_32bit_k_shrinking) = 31 /\
  size (other map_32bit_k_shrinking) = 4294967296 /\
  isc_hashmap_find hash_bits32_high keyed_hash map_32bit_k_shrinking
    (Some 5) key_k 1 = Some (ISC_R_SUCCESS, 42) /\
  hashmap_rehash_one hash_bits32_high map_32bit_k_shrinking
  = Some map_32bit_k_rehashed /\
  rehashing_in_progress map_32bit_k_rehashed = false /\
  isc_hashmap_find hash_bits32_high keyed_hash map_32bit_k_rehashed
    (Some 5) key_k 1 = Some (ISC_R_NOTFOUND, 0) /\
  count map_32bit_k_rehashed = 1.
Proof.
  split; [exact map_32bit_k_reachable|].
  repeat split; vm_compute; reflexivity.
Qed.

(** [map_32bit_k] after [delete(l)]. *)
Definition map_32bit_k_minus_l : isc_hashmap :=
  map_of (isc_hashmap_delete hash_bits32_high keyed_hash map_32bit_k
            (Some 6) key_l 1) empty_map.

(** C9. A delete that returns ISC_R_NOTFOUND and changes the mapping.  On
    the map of 32 bits that holds 42 under [k], the delete of the key [l],
    which the map does not hold, returns ISC_R_NOTFOUND; after it the key
    [k] is not found either, while the counter still says 1. *)
Theorem C9_failed_delete_drops_32_bit_table :
  reachable hash_bits32_high keyed_hash map_32bit_k /\
  isc_hashmap_find hash_bits32_high keyed_hash map_32bit_k (Some 5) key_k 1
  = Some (ISC_R_SUCCESS, 42) /\
  isc_hashmap_find hash_bits32_high keyed_hash map_32bit_k (Some 6) key_l 1
  = Some (ISC_R_NOTFOUND, 0) /\
  isc_hashmap_count map_32bit_k = 1 /\
  isc_hashmap_delete hash_bits32_high keyed_hash map_32bit_k (Some 6) key_l 1
  = Some (ISC_R_NOTFOUND, map_32bit_k_minus_l) /\
  isc_hashmap_find hash_bits32_high keyed_hash map_32bit_k_minus_l
    (Some 5) key_k 1 = Some (ISC_R_NOTFOUND, 0) /\
  isc_hashmap_count map_32bit_k_minus_l = 1.
Proof.
  split; [exact map_32bit_k_reachable|].
  repeat split; vm_compute; reflexivity.
Qed.

(** [map_32bit_k] after [delete(k)]. *)
Definition map_32bit_k_minus_k : isc_hashmap :=
  map_of (isc_hashmap_delete hash_bits32_high keyed_hash map_32bit_k
            (Some 5) key_k 1) empty_map.

(** C1. A round trip whose delete fails.  The empty map of 32 bits does
    not hold [k]; [isc_hashmap_add] of [k] returns ISC_R_SUCCESS and
    [isc_hashmap_find] returns the value added, 42.  The
    [isc_hashmap_delete] of [k] that follows starts the shrink of the table
    and, in [hashmap_rehash_one], frees the table of [2^32] slots with the
    node in it: the delete finds no node and returns ISC_R_NOTFOUND, and
    the counter still says 1. *)
Theorem C1_delete_of_added_key_returns_notfound :
  reachable hash_bits32_high keyed_hash map_32bit /\
  count map_32bit < UINT32_MAX /\
  isc_hashmap_find hash_bits32_high keyed_hash map_32bit (Some 5) key_k 1
  = Some (ISC_R_NOTFOUND, 0) /\
  isc_hashmap_add hash_bits32_high keyed_hash map_32bit (Some 5) key_k 1 42
  = Some (ISC_R_SUCCESS, map_32bit_k) /\
  isc_hashmap_find hash_bits32_high keyed_hash map_32bit_k (Some 5) key_k 1
  = Some (ISC_R_SUCCESS, 42) /\
  isc_hashmap_delete hash_bits32_high keyed_hash map_32bit_k (Some 5) key_k 1
  = Some (ISC_R_NOTFOUND, map_32bit_k_minus_k) /\
  isc_hashmap_find hash_bits32_high keyed_hash map_32bit_k_minus_k (Some 5)
    key_k 1 = Some (ISC_R_NOTFOUND, 0) /\
  isc_hashmap_count map_32bit_k_minus_k = 1.
Proof.
  split; [exact map_32bit_reachable|].
  repeat split; vm_compute; reflexivity.
Qed.

(* ===================================================================== *)
(** * The further properties of the hash map, on the maps above           *)
(* ===================================================================== *)

(** [map_1bit_kl] after [add(m, 44)]: the add has started a grow and has
    moved one node, the rehash is still in progress. *)
Definition map_1bit_klm : isc_hashmap :=
  map_of (isc_hashmap_add hash_bits32_high keyed_hash map_1bit_kl
            (Some 7) key_m 1 44) empty_map.

Lemma map_1bit_klm_reachable :
  reachable hash_bits32_high keyed_hash map_1bit_klm.
Proof.
  apply (reach_add _ _ map_1bit_kl (Some 7) key_m 1 44 ISC_R_SUCCESS).
  - exact map_1bit_kl_reachable.
  - vm_compute. reflexivity.
  - lia.
  - vm_compute. reflexivity.
Qed.

(** [map_1bit_kl] after [delete(l)]. *)
Definition map_1bit_kl_minus_l : isc_hashmap :=
  map_of (isc_hashmap_delete hash_bits32_high keyed_hash map_1bit_kl
            (Some 4026531840) key_l 1) empty_map.

(** A map of 3 bits with case-insensitive keys that holds 42 under "A". *)
Definition key_A : list Z := [65].
Definition key_a : list Z := [97].

Definition map_3bit_ci : isc_hashmap :=
  match isc_hashmap_create 3 ISC_HASHMAP_CASE_INSENSITIVE [] with
  | Some h => h
  | None => empty_map
  end.

Definition map_3bit_ci_A : isc_hashmap :=
  map_of (isc_hashmap_add hash_bits32_high keyed_hash map_3bit_ci
            (Some 5) key_A 1 42) empty_map.

Lemma map_3bit_ci_A_reachable :
  reachable hash_bits32_high keyed_hash map_3bit_ci_A.
Proof.
  apply (reach_add _ _ map_3bit_ci (Some 5) key_A 1 42 ISC_R_SUCCESS).
  - apply (reach_create _ _ 3 ISC_HASHMAP_CASE_INSENSITIVE []). reflexivity.
  - vm_compute. reflexivity.
  - lia.
  - vm_compute. reflexivity.
Qed.

(** The iterator on [map_1bit_kl] after [isc_hashmap_iter_first]: it
    stands on slot 0 of table 0, the node of [k]. *)
Definition iter_1bit_kl : isc_hashmap_iter := mk_iter 0 0 (Some (0, 0)).

Lemma iter_1bit_kl_iterating :
  iterating hash_bits32_high keyed_hash map_1bit_kl iter_1bit_kl.
Proof.
  apply (iterating_first _ _ map_1bit_kl
           (isc_hashmap_iter_create map_1bit_kl)).
  - exact map_1bit_kl_reachable.
  - vm_compute. reflexivity.
Qed.

(** X1 on [map_1bit_klm]. *)
Lemma X1_witness :
  exists hashmap',
    hashmap_rehash_one hash_bits32_high map_1bit_klm = Some hashmap' /\
    count hashmap' = count map_1bit_klm /\
    forall hashvalp k ksz,
      isc_hashmap_find hash_bits32_high keyed_hash hashmap' hashvalp k ksz
      = isc_hashmap_find hash_bits32_high keyed_hash map_1bit_klm hashvalp
          k ksz.
Proof.
  apply (X1_rehash_one_keeps_finds hash_bits32_high keyed_hash
           map_1bit_klm).
  - exact map_1bit_klm_reachable.
  - vm_compute. reflexivity.
Defined.

(** X2: the add of [l] to [map_1bit_k] and the key [k]. *)
Lemma X2_witness :
  isc_hashmap_find hash_bits32_high keyed_hash map_1bit_kl (Some 5) key_k 1
  = isc_hashmap_find hash_bits32_high keyed_hash map_1bit_k (Some 5) key_k 1.
Proof.
  apply (X2_add_keeps_other_keys hash_bits32_high keyed_hash map_1bit_k
           (Some 4026531840) key_l 1 43 ISC_R_SUCCESS map_1bit_kl
           (Some 5) key_k 1).
  - exact map_1bit_k_reachable.
  - vm_compute. reflexivity.
  - lia.
  - vm_compute. reflexivity.
  - left. vm_compute. discriminate.
Defined.

(** X3: the delete of [l] from [map_1bit_kl] and the key [k]. *)
Lemma X3_witness :
  isc_hashmap_find hash_bits32_high keyed_hash map_1bit_kl_minus_l (Some 5)
    key_k 1
  = isc_hashmap_find hash_bits32_high keyed_hash map_1bit_kl (Some 5) key_k
      1.
Proof.
  apply (X3_delete_keeps_other_keys hash_bits32_high keyed_hash map_1bit_kl
           (Some 4026531840) key_l 1 ISC_R_SUCCESS map_1bit_kl_minus_l
           (Some 5) key_k 1).
  - exact map_1bit_kl_reachable.
  - intros (_ & _ & H). vm_compute in H. discriminate H.
  - vm_compute. reflexivity.
  - left. vm_compute. discriminate.
Defined.

(** X4: the add of [l] to [map_1bit_k]. *)
Lemma X4_witness :
  exists r hashmap',
    isc_hashmap_add hash_bits32_high keyed_hash map_1bit_k
      (Some 4026531840) key_l 1 43 = Some (r, hashmap') /\
    (r = ISC_R_SUCCESS /\
     isc_hashmap_find hash_bits32_high keyed_hash map_1bit_k
       (Some 4026531840) key_l 1 = Some (ISC_R_NOTFOUND, 0) /\
     isc_hashmap_count hashmap' = isc_hashmap_count map_1bit_k + 1
     \/
     r = ISC_R_EXISTS /\
     (exists v0,
        isc_hashmap_find hash_bits32_high keyed_hash map_1bit_k
          (Some 4026531840) key_l 1 = Some (ISC_R_SUCCESS, v0)) /\
     isc_hashmap_count hashmap' = isc_hashmap_count map_1bit_k).
Proof.
  apply (X4_add_result_and_count hash_bits32_high keyed_hash map_1bit_k
           (Some 4026531840) key_l 1 43).
  - exact map_1bit_k_reachable.
  - vm_compute. reflexivity.
  - unfold UINT16_MAX. lia.
Defined.

(** X5: the delete of [k] from [map_1bit_kl]. *)
Lemma X5_witness :
  exists r hashmap',
    isc_hashmap_delete hash_bits32_high keyed_hash map_1bit_kl (Some 5)
      key_k 1 = Some (r, hashmap') /\
    isc_hashmap_find hash_bits32_high keyed_hash hashmap' (Some 5) key_k 1
    = Some (ISC_R_NOTFOUND, 0) /\
    (r = ISC_R_SUCCESS /\
     (exists v0,
        isc_hashmap_find hash_bits32_high keyed_hash map_1bit_kl (Some 5)
          key_k 1 = Some (ISC_R_SUCCESS, v0)) /\
     isc_hashmap_count hashmap' = isc_hashmap_count map_1bit_kl - 1
     \/
     r = ISC_R_NOTFOUND /\
     isc_hashmap_find hash_bits32_high keyed_hash map_1bit_kl (Some 5)
       key_k 1 = Some (ISC_R_NOTFOUND, 0) /\
     isc_hashmap_count hashmap' = isc_hashmap_count map_1bit_kl /\
     forall hashvalp' k' ksz',
       isc_hashmap_find hash_bits32_high keyed_hash hashmap' hashvalp' k'
         ksz'
       = isc_hashmap_find hash_bits32_high keyed_hash map_1bit_kl hashvalp'
           k' ksz').
Proof.
  apply (X5_delete_result_and_count hash_bits32_high keyed_hash map_1bit_kl
           (Some 5) key_k 1).
  - exact map_1bit_kl_reachable.
  - intros (_ & _ & H). vm_compute in H. discriminate H.
  - unfold UINT16_MAX. lia.
Defined.

(** X6 on slot 0 of [map_1bit_kl], which holds [k]. *)
Lemma X6_witness : 0 = 0 /\ 0 = 0.
Proof.
  apply (X6_key_stored_once hash_bits32_high keyed_hash map_1bit_kl 5 key_k
           1 0 0 table_1bit_kl table_1bit_kl 0 0).
  - exact (reachable_built_map _ _ _ map_1bit_kl_reachable).
  - left. reflexivity.
  - left. reflexivity.
  - vm_compute. reflexivity.
  - vm_compute. reflexivity.
  - vm_compute. split; [discriminate|reflexivity].
  - vm_compute. split; [discriminate|reflexivity].
  - vm_compute. reflexivity.
  - vm_compute. reflexivity.
Defined.

(** X7 on [map_1bit_kl]. *)
Lemma X7_witness :
  cntm occupied map_1bit_kl <= count map_1bit_kl /\
  (hashbits (active map_1bit_kl) < 32 ->
   count map_1bit_kl <= APPROX_90_PERCENT (size (active map_1bit_kl)) + 1 /\
   count map_1bit_kl < UINT32_MAX /\
   isc_hashmap_count map_1bit_kl = count map_1bit_kl).
Proof.
  apply (X7_count_within_bounds hash_bits32_high keyed_hash map_1bit_kl).
  exact (reachable_built_map _ _ _ map_1bit_kl_reachable).
Defined.

(** X9 on [map_1bit_kl]. *)
Lemma X9_witness :
  exists r it,
    isc_hashmap_iter_first map_1bit_kl (isc_hashmap_iter_create map_1bit_kl)
    = Some (r, it) /\
    (r = ISC_R_SUCCESS /\
     iter_valid map_1bit_kl it /\
     (forall idx p, node_at map_1bit_kl idx p ->
        (idx = iter_hindex it /\ p = iter_i it) \/
        slot_ahead map_1bit_kl it idx p)
     \/
     r = ISC_R_NOMORE /\ forall idx p, ~ node_at map_1bit_kl idx p).
Proof.
  apply (X9_iter_first_finds_first_node hash_bits32_high keyed_hash
           map_1bit_kl (isc_hashmap_iter_create map_1bit_kl)).
  exact map_1bit_kl_reachable.
Defined.

(** X10 on the iterator that stands on the first node of [map_1bit_kl]. *)
Lemma X10_witness :
  exists r it',
    isc_hashmap_iter_next map_1bit_kl iter_1bit_kl = Some (r, it') /\
    (r = ISC_R_SUCCESS /\
     iter_valid map_1bit_kl it' /\
     slot_ahead map_1bit_kl iter_1bit_kl (iter_hindex it') (iter_i it') /\
     (forall idx p, node_at map_1bit_kl idx p ->
        slot_ahead map_1bit_kl iter_1bit_kl idx p ->
        (idx = iter_hindex it' /\ p = iter_i it') \/
        slot_ahead map_1bit_kl it' idx p)
     \/
     r = ISC_R_NOMORE /\
     forall idx p, node_at map_1bit_kl idx p ->
       ~ slot_ahead map_1bit_kl iter_1bit_kl idx p).
Proof.
  apply (X10_iter_next_skips_no_node hash_bits32_high keyed_hash
           map_1bit_kl iter_1bit_kl).
  exact iter_1bit_kl_iterating.
Defined.

(** X11 on the same iterator. *)
Lemma X11_witness :
  exists t k,
    table (tables map_1bit_kl (iter_hindex iter_1bit_kl)) = Some t /\
    key (t (iter_i iter_1bit_kl)) = Some k /\
    isc_hashmap_iter_currentkey map_1bit_kl iter_1bit_kl
    = Some (Some k, keysize (t (iter_i iter_1bit_kl))) /\
    isc_hashmap_iter_current map_1bit_kl iter_1bit_kl
    = Some (value (t (iter_i iter_1bit_kl))) /\
    isc_hashmap_find hash_bits32_high keyed_hash map_1bit_kl
      (Some (hashval (t (iter_i iter_1bit_kl)))) k
      (keysize (t (iter_i iter_1bit_kl)))
    = Some (ISC_R_SUCCESS, value (t (iter_i iter_1bit_kl))).
Proof.
  apply (X11_iter_current_is_found hash_bits32_high keyed_hash map_1bit_kl
           iter_1bit_kl).
  exact iter_1bit_kl_iterating.
Defined.

(** X12 on the same iterator: the node of [k] is deleted. *)
Lemma X12_witness :
  exists r hashmap' it',
    isc_hashmap_iter_delcurrent_next hash_bits32_high map_1bit_kl
      iter_1bit_kl = Some (r, hashmap', it') /\
    (r = ISC_R_SUCCESS /\ iter_valid hashmap' it' \/ r = ISC_R_NOMORE) /\
    isc_hashmap_count hashmap' = isc_hashmap_count map_1bit_kl - 1 /\
    isc_hashmap_find hash_bits32_high keyed_hash hashmap'
      (Some (hashval (table_1bit_kl (iter_i iter_1bit_kl)))) key_k
      (keysize (table_1bit_kl (iter_i iter_1bit_kl)))
    = Some (ISC_R_NOTFOUND, 0) /\
    forall hashvalp' k' ksz',
      other_key (case_sensitive map_1bit_kl)
        (hashval (table_1bit_kl (iter_i iter_1bit_kl))) key_k
        (keysize (table_1bit_kl (iter_i iter_1bit_kl)))
        (hashval_of keyed_hash map_1bit_kl hashvalp' k' ksz') k' ksz' ->
      isc_hashmap_find hash_bits32_high keyed_hash hashmap' hashvalp' k'
        ksz'
      = isc_hashmap_find hash_bits32_high keyed_hash map_1bit_kl hashvalp'
          k' ksz'.
Proof.
  apply (X12_iter_delcurrent_deletes_current hash_bits32_high keyed_hash
           map_1bit_kl iter_1bit_kl table_1bit_kl key_k).
  - exact iter_1bit_kl_iterating.
  - vm_compute. reflexivity.
  - vm_compute. reflexivity.
Defined.

(** X13 on [map_1bit_kl]. *)
Lemma X13_witness :
  isc_hashmap_destroy map_1bit_kl = Some tt
  <-> count map_1bit_kl = cntm occupied map_1bit_kl.
Proof.
  apply (X13_destroy_checks_count hash_bits32_high keyed_hash map_1bit_kl).
  exact map_1bit_kl_reachable.
Defined.

(** X14 on [map_1bit_kl], whose counter and tables both have two nodes. *)
Lemma X14_witness :
  (forall hashvalp k ksz v r hashmap',
     count map_1bit_kl < UINT32_MAX -> 0 <= ksz ->
     isc_hashmap_add hash_bits32_high keyed_hash map_1bit_kl hashvalp k ksz
       v = Some (r, hashmap') ->
     count hashmap' = cntm occupied hashmap') /\
  (forall hashvalp k ksz r hashmap',
     ~ shrinks_from_32 map_1bit_kl ->
     isc_hashmap_delete hash_bits32_high keyed_hash map_1bit_kl hashvalp k
       ksz = Some (r, hashmap') ->
     count hashmap' = cntm occupied hashmap') /\
  (forall it r hashmap' it',
     iter_valid map_1bit_kl it ->
     isc_hashmap_iter_delcurrent_next hash_bits32_high map_1bit_kl it
     = Some (r, hashmap', it') ->
     count hashmap' = cntm occupied hashmap').
Proof.
  apply (X14_calls_keep_count_exact hash_bits32_high keyed_hash
           map_1bit_kl).
  - exact (reachable_built_map _ _ _ map_1bit_kl_reachable).
  - vm_compute. reflexivity.
Defined.

(** X15 on the case-insensitive map that holds "A": "a" is found too. *)
Lemma X15_witness :
  isc_hashmap_find hash_bits32_high keyed_hash map_3bit_ci_A (Some 5) key_A 1
  = isc_hashmap_find hash_bits32_high keyed_hash map_3bit_ci_A (Some 5)
      key_a 1.
Proof.
  apply (X15_find_compares_canonical_bytes hash_bits32_high keyed_hash
           map_3bit_ci_A 5 key_A key_a 1).
  - exact map_3bit_ci_A_reachable.
  - vm_compute. reflexivity.
Defined.

(** X21 on [map_1bit_klm], whose old table has one node left: two steps
    end the rehash. *)
Lemma X21_witness :
  (forall m hm', (m <= 1)%nat ->
     rehash_steps hash_bits32_high m map_1bit_klm = Some hm' ->
     rehashing_in_progress hm' = true) /\
  exists hashmap',
    rehash_steps hash_bits32_high 2 map_1bit_klm = Some hashmap' /\
    rehashing_in_progress hashmap' = false /\
    count hashmap' = count map_1bit_klm /\
    forall hashvalp k ksz,
      isc_hashmap_find hash_bits32_high keyed_hash hashmap' hashvalp k ksz
      = isc_hashmap_find hash_bits32_high keyed_hash map_1bit_klm hashvalp
          k ksz.
Proof.
  apply (X21_rehash_ends_after_nodes_plus_one hash_bits32_high keyed_hash
           map_1bit_klm 1).
  - exact map_1bit_klm_reachable.
  - vm_compute. reflexivity.
  - vm_compute. reflexivity.
Defined.

(** X22 on the map of 32 bits that holds [k], with a delete of [l]. *)
Lemma X22_witness :
  exists hashmap',
    isc_hashmap_delete hash_bits32_high keyed_hash map_32bit_k (Some 6)
      key_l 1 = Some (ISC_R_NOTFOUND, hashmap') /\
    count hashmap' = count map_32bit_k /\
    (forall hashvalp' k' ksz', ksz' <= UINT16_MAX ->
       isc_hashmap_find hash_bits32_high keyed_hash hashmap' hashvalp' k'
         ksz' = Some (ISC_R_NOTFOUND, 0)) /\
    (1 <= count map_32bit_k -> isc_hashmap_destroy hashmap' = None).
Proof.
  apply (X22_shrink_from_32_bits_empties_map hash_bits32_high keyed_hash
           map_32bit_k (Some 6) key_l 1).
  - exact map_32bit_k_reachable.
  - split; [vm_compute; reflexivity|].
    split; vm_compute; reflexivity.
  - unfold UINT16_MAX. lia.
Defined.

(** X23 on [map_1bit_kl] and its node in slot 1, the node of [l]. *)
Lemma X23_witness :
  exists n it,
    iter_nth n map_1bit_kl (isc_hashmap_iter_create map_1bit_kl)
    = Some (ISC_R_SUCCESS, it) /\
    iter_hindex it = 0 /\ iter_i it = 1 /\
    forall m it_m,
      iter_nth m map_1bit_kl (isc_hashmap_iter_create map_1bit_kl)
      = Some (ISC_R_SUCCESS, it_m) ->
      iter_hindex it_m = 0 -> iter_i it_m = 1 -> m = n.
Proof.
  apply (X23_pass_visits_every_node_once hash_bits32_high keyed_hash
           map_1bit_kl (isc_hashmap_iter_create map_1bit_kl) 0 1).
  - exact map_1bit_kl_reachable.
  - split; [left; reflexivity|]. exists table_1bit_kl.
    split; [vm_compute; reflexivity|].
    split; [vm_compute; split; [discriminate|reflexivity]|].
    vm_compute. reflexivity.
Defined.

(** X24 on [map_1bit_kl]. *)
Lemma X24_witness :
  exists hashmap' it',
    iter_delete_all hash_bits32_high
      (Z.to_nat (cntm occupied map_1bit_kl)) map_1bit_kl
      (isc_hashmap_iter_create map_1bit_kl)
    = Some (ISC_R_NOMORE, hashmap', it') /\
    (forall idx p, ~ node_at hashmap' idx p) /\
    count hashmap' = count map_1bit_kl - cntm occupied map_1bit_kl /\
    forall hashvalp k ksz, ksz <= UINT16_MAX ->
      isc_hashmap_find hash_bits32_high keyed_hash hashmap' hashvalp k ksz
      = Some (ISC_R_NOTFOUND, 0).
Proof.
  apply (X24_delete_with_iterator_empties_map hash_bits32_high keyed_hash
           map_1bit_kl (isc_hashmap_iter_create map_1bit_kl)).
  exact map_1bit_kl_reachable.
Defined.
(* ===================================================================== *)
(** * Properties of the TLS context helpers                               *)
(* ===================================================================== *)

(** ** ALPN scan *)

Lemma alpn_wire_app (a b : list (list Z)) :
  alpn_wire (a ++ b) = alpn_wire a ++ alpn_wire b.
Proof. unfold alpn_wire. apply flat_map_app. Qed.

Lemma alpn_wire_cons (q : list Z) (recs : list (list Z)) :
  alpn_wire (q :: recs) = alpn_record q ++ alpn_wire recs.
Proof. reflexivity. Qed.

Lemma bytes_eqb_refl (a : list Z) : bytes_eqb a a = true.
Proof. apply bytes_eqb_eq. reflexivity. Qed.

Lemma bytes_eqb_neq (a b : list Z) : a <> b -> bytes_eqb a b = false.
Proof.
  intros H. destruct (bytes_eqb a b) eqn:E; [|reflexivity].
  apply bytes_eqb_eq in E. contradiction.
Qed.

(** What [memcmp] sees at the start of a record: the needle, when the
    record is the needle, and something else when it is another record. *)
Lemma record_memcmp (p q : list Z) (rest : list Z) :
  memcmp_eq (alpn_record q ++ rest) (alpn_record p)
    (Z.of_nat (length (alpn_record p)))
  = if list_eq_dec Z.eq_dec q p then true else false.
Proof.
  unfold memcmp_eq. rewrite Nat2Z.id.
  rewrite (firstn_all (alpn_record p)).
  destruct (list_eq_dec Z.eq_dec q p) as [->|N].
  - rewrite firstn_app, firstn_all, Nat.sub_diag, firstn_O, app_nil_r.
    apply bytes_eqb_refl.
  - apply bytes_eqb_neq. intros E. apply N.
    unfold alpn_record in *. cbn [length app] in E.
    cbn [firstn] in E. injection E as E1 E2.
    apply Nat2Z.inj in E1.
    rewrite firstn_app, <- E1, firstn_all, Nat.sub_diag, firstn_O,
      app_nil_r in E2.
    exact E2.
Qed.

Lemma skipn_wire (pre recs : list (list Z)) :
  skipn (Z.to_nat (Z.of_nat (length (alpn_wire pre))))
    (alpn_wire (pre ++ recs))
  = alpn_wire recs.
Proof.
  rewrite Nat2Z.id, alpn_wire_app, skipn_app, skipn_all, Nat.sub_diag.
  reflexivity.
Qed.

Lemma byte_at_wire (pre : list (list Z)) (q : list Z)
  (recs : list (list Z)) :
  byte_at (alpn_wire (pre ++ q :: recs)) (Z.of_nat (length (alpn_wire pre)))
  = Z.of_nat (length q).
Proof.
  unfold byte_at. rewrite Nat2Z.id, alpn_wire_app, app_nth2 by lia.
  rewrite Nat.sub_diag, alpn_wire_cons. reflexivity.
Qed.

Lemma wire_length_snoc (pre : list (list Z)) (q : list Z) :
  Z.of_nat (length (alpn_wire (pre ++ [q])))
  = Z.of_nat (length (alpn_wire pre)) + (Z.of_nat (length q) + 1).
Proof.
  rewrite alpn_wire_app, length_app. cbn [alpn_wire flat_map].
  rewrite app_nil_r. unfold alpn_record. cbn [length]. lia.
Qed.

(** The scan advances record by record: at the start of a record that is
    not the needle, with room for the needle, the loop moves to the start
    of the next record, [1 + in[i]] bytes on. *)
Lemma protoneg_body_next (pre : list (list Z)) (q p : list Z)
  (recs : list (list Z)) :
  q <> p ->
  Z.of_nat (length (alpn_wire pre)) + Z.of_nat (length (alpn_record p))
  <= Z.of_nat (length (alpn_wire (pre ++ q :: recs))) ->
  protoneg_body (alpn_wire (pre ++ q :: recs))
    (Z.of_nat (length (alpn_wire (pre ++ q :: recs))))
    (alpn_record p) (Z.of_nat (length (alpn_record p)))
    (Z.of_nat (length (alpn_wire pre)))
  = Continue (Z.of_nat (length (alpn_wire (pre ++ [q])))).
Proof.
  intros N Hroom. unfold protoneg_body.
  destruct (Z.leb_spec
              (Z.of_nat (length (alpn_wire pre))
               + Z.of_nat (length (alpn_record p)))
              (Z.of_nat (length (alpn_wire (pre ++ q :: recs)))));
    [|lia].
  rewrite skipn_wire, alpn_wire_cons, record_memcmp.
  destruct (list_eq_dec Z.eq_dec q p); [contradiction|].
  rewrite byte_at_wire, wire_length_snoc. reflexivity.
Qed.

(** At the start of a record that is the needle the loop returns the
    offset of the payload and its length. *)
Lemma protoneg_body_found (pre : list (list Z)) (p : list Z)
  (recs : list (list Z)) :
  protoneg_body (alpn_wire (pre ++ p :: recs))
    (Z.of_nat (length (alpn_wire (pre ++ p :: recs))))
    (alpn_record p) (Z.of_nat (length (alpn_record p)))
    (Z.of_nat (length (alpn_wire pre)))
  = Break (Some (Z.of_nat (length (alpn_wire pre)) + 1,
                 Z.of_nat (length p))).
Proof.
  unfold protoneg_body.
  destruct (Z.leb_spec
              (Z.of_nat (length (alpn_wire pre))
               + Z.of_nat (length (alpn_record p)))
              (Z.of_nat (length (alpn_wire (pre ++ p :: recs))))) as [_|H].
  - rewrite skipn_wire, alpn_wire_cons, record_memcmp.
    destruct (list_eq_dec Z.eq_dec p p); [|contradiction].
    rewrite byte_at_wire. reflexivity.
  - exfalso. rewrite alpn_wire_app, length_app, alpn_wire_cons, length_app
      in H. fold (alpn_record p) in H. lia.
Qed.

Lemma while_nat_S {S R : Type} (body : S -> step S R) (n : nat) (s : S) :
  while_nat body (Datatypes.S n) s
  = match body s with
    | Continue s' => while_nat body n s'
    | Break r => Break r
    end.
Proof. reflexivity. Qed.

(** The loop from the start of a record on, over the records that are
    left. *)
Lemma protoneg_loop (p : list Z) (all : list (list Z)) :
  forall (recs pre : list (list Z)),
    all = pre ++ recs ->
    (exists r1 r2,
       recs = r1 ++ p :: r2 /\ ~ In p r1 /\
       while_nat
         (protoneg_body (alpn_wire all) (Z.of_nat (length (alpn_wire all)))
            (alpn_record p) (Z.of_nat (length (alpn_record p))))
         (Datatypes.S (length r1)) (Z.of_nat (length (alpn_wire pre)))
       = Break (Some (Z.of_nat (length (alpn_wire (pre ++ r1))) + 1,
                      Z.of_nat (length p))))
    \/
    (~ In p recs /\
     exists n, (n <= Datatypes.S (length recs))%nat /\
       while_nat
         (protoneg_body (alpn_wire all) (Z.of_nat (length (alpn_wire all)))
            (alpn_record p) (Z.of_nat (length (alpn_record p))))
         n (Z.of_nat (length (alpn_wire pre)))
       = Break None).
Proof.
  induction recs as [|q recs IH]; intros pre Hall.
  - right. split; [intros []|]. exists 1%nat. split; [lia|].
    cbn [while_nat]. unfold protoneg_body. rewrite app_nil_r in Hall.
    subst all.
    destruct (Z.leb_spec
                (Z.of_nat (length (alpn_wire pre))
                 + Z.of_nat (length (alpn_record p)))
                (Z.of_nat (length (alpn_wire pre)))) as [H|_];
      [|reflexivity].
    exfalso. cbn [alpn_record length] in H. lia.
  - destruct (list_eq_dec Z.eq_dec q p) as [->|N].
    + left. exists [], recs. split; [reflexivity|]. split; [intros []|].
      cbn [length while_nat]. subst all. rewrite protoneg_body_found.
      rewrite app_nil_r. reflexivity.
    + destruct (Z_le_gt_dec
                  (Z.of_nat (length (alpn_wire pre))
                   + Z.of_nat (length (alpn_record p)))
                  (Z.of_nat (length (alpn_wire all)))) as [Hroom|Hno].
      * assert (Hall' : all = (pre ++ [q]) ++ recs)
          by (rewrite <- app_assoc; exact Hall).
        assert (Hstep :
          protoneg_body (alpn_wire all) (Z.of_nat (length (alpn_wire all)))
            (alpn_record p) (Z.of_nat (length (alpn_record p)))
            (Z.of_nat (length (alpn_wire pre)))
          = Continue (Z.of_nat (length (alpn_wire (pre ++ [q]))))).
        { subst all. apply protoneg_body_next; assumption. }
        destruct (IH (pre ++ [q]) Hall')
          as [(r1 & r2 & E & Hnot & W) | (Hnot & n & Hn & W)].
        -- left. exists (q :: r1), r2. split; [rewrite E; reflexivity|].
           split.
           { intros [H|H]; [contradiction|]. exact (Hnot H). }
           cbn [length]. rewrite while_nat_S, Hstep.
           rewrite W, <- app_assoc. reflexivity.
        -- right. split.
           { intros [H|H]; [contradiction|]. exact (Hnot H). }
           exists (Datatypes.S n). split; [cbn [length]; lia|].
           rewrite while_nat_S, Hstep. exact W.
      * (* no room for the needle: the records left are shorter *)
        right. split.
        { intros Hin. apply in_split in Hin.
          destruct Hin as (l1 & l2 & E).
          assert (Hl : Z.of_nat (length (alpn_wire all))
                       = Z.of_nat (length (alpn_wire pre))
                         + Z.of_nat (length (alpn_wire (q :: recs)))).
          { rewrite Hall, alpn_wire_app, length_app. lia. }
          rewrite E, alpn_wire_app, length_app, alpn_wire_cons, length_app
            in Hl.
          fold (alpn_record p) in Hl. lia. }
        exists 1%nat. split; [lia|]. cbn [while_nat]. unfold protoneg_body.
        destruct (Z.leb_spec
                    (Z.of_nat (length (alpn_wire pre))
                     + Z.of_nat (length (alpn_record p)))
                    (Z.of_nat (length (alpn_wire all)))); [lia|reflexivity].
Qed.

Lemma wire_records_le (recs : list (list Z)) :
  Z.of_nat (length recs) <= Z.of_nat (length (alpn_wire recs)).
Proof.
  induction recs as [|q recs IH]; [reflexivity|].
  rewrite alpn_wire_cons, length_app. unfold alpn_record. cbn [length]. lia.
Qed.

(** C7. On the wire form of a list of protocol names, each behind its
    length byte, with the needle a name behind its length byte: when the
    name is in the list, [protoneg_check_protocol] returns true at its
    first record, with the offset of the payload of that record and its
    length, and the payload is the name; when the name is not in the list
    it returns false.  The records before the needle are passed one by one
    ([protoneg_body_next]). *)
Theorem C7_alpn_scan_finds_complete_record (recs : list (list Z))
  (p : list Z) :
  Forall alpn_name_ok recs -> alpn_name_ok p ->
  (In p recs ->
   exists r1 r2,
     recs = r1 ++ p :: r2 /\ ~ In p r1 /\
     protoneg_check_protocol (alpn_wire recs)
       (Z.of_nat (length (alpn_wire recs)))
       (alpn_record p) (Z.of_nat (length (alpn_record p)))
     = Some (Some (Z.of_nat (length (alpn_wire r1)) + 1,
                   Z.of_nat (length p))) /\
     firstn (length p)
       (skipn (Z.to_nat (Z.of_nat (length (alpn_wire r1)) + 1))
          (alpn_wire recs)) = p) /\
  (~ In p recs ->
   protoneg_check_protocol (alpn_wire recs)
     (Z.of_nat (length (alpn_wire recs)))
     (alpn_record p) (Z.of_nat (length (alpn_record p)))
   = Some None).
Proof.
  intros _ _.
  pose proof (wire_records_le recs) as Hle.
  destruct (protoneg_loop p recs recs [] eq_refl)
    as [(r1 & r2 & E & Hnot & W) | (Hnot & n & Hn & W)].
  - split; [intros _|intros H; exfalso; apply H; rewrite E;
                     apply in_elt].
    exists r1, r2. split; [exact E|]. split; [exact Hnot|].
    split.
    + unfold protoneg_check_protocol.
      apply (while_intro _ _ _ _ _ W).
      assert (Z.of_nat (length r1) <= Z.of_nat (length recs)).
      { rewrite E, length_app. cbn [length]. lia. }
      lia.
    + rewrite E at 1. rewrite alpn_wire_app, alpn_wire_cons.
      replace (Z.to_nat (Z.of_nat (length (alpn_wire r1)) + 1))
        with (length (alpn_wire r1) + 1)%nat by lia.
      rewrite skipn_app, skipn_all2 by lia.
      replace (length (alpn_wire r1) + 1 - length (alpn_wire r1))%nat
        with 1%nat by lia.
      cbn [app]. unfold alpn_record. cbn [app skipn].
      rewrite firstn_app, firstn_all, Nat.sub_diag, firstn_O, app_nil_r.
      reflexivity.
  - split; [intros H; contradiction|intros _].
    unfold protoneg_check_protocol.
    apply (while_intro _ _ _ _ _ W). lia.
Qed.
(** ** Protocol-version mask *)

(** C8. In every build, for every context and every mask over the versions
    1.2 and 1.3 that is not zero, with [no_tls1_2] the value of
    SSL_OP_NO_TLSv1_2 and [no_tls1_3] that of SSL_OP_NO_TLSv1_3, 0 where
    the build does not define the macro: [isc_tlsctx_set_protocols] fails
    an assertion when TLS 1.2 is in the mask and [no_tls1_2] is 0, or
    TLS 1.3 is in the mask and [no_tls1_3] is 0; otherwise it sets
    [no_tls1_2] if TLS 1.2 is not in the mask and [no_tls1_3] if TLS 1.3 is
    not, and then clears [no_tls1_2] if TLS 1.2 is in the mask and
    [no_tls1_3] if TLS 1.3 is.  A zero mask fails the REQUIRE. *)
Theorem C8_set_protocols_masks (SSL_OP_NO_TLSv1_2 SSL_OP_NO_TLSv1_3 : option Z)
  (ctx : isc_tlsctx) (tls_versions : Z) :
  1 <= tls_versions <= 3 ->
  let no_tls1_2 := match SSL_OP_NO_TLSv1_2 with Some b => b | None => 0 end in
  let no_tls1_3 := match SSL_OP_NO_TLSv1_3 with Some b => b | None => 0 end in
  let tls1_2 := negb (Z.land tls_versions ISC_TLS_PROTO_VER_1_2 =? 0) in
  let tls1_3 := negb (Z.land tls_versions ISC_TLS_PROTO_VER_1_3 =? 0) in
  isc_tlsctx_set_protocols SSL_OP_NO_TLSv1_2 SSL_OP_NO_TLSv1_3 ctx
    tls_versions
  = (if (tls1_2 && (no_tls1_2 =? 0)) || (tls1_3 && (no_tls1_3 =? 0))
     then None
     else Some (SSL_CTX_clear_options
                  (SSL_CTX_set_options ctx
                     (Z.lor (if tls1_2 then 0 else no_tls1_2)
                        (if tls1_3 then 0 else no_tls1_3)))
                  (Z.lor (if tls1_2 then no_tls1_2 else 0)
                     (if tls1_3 then no_tls1_3 else 0)))) /\
  isc_tlsctx_set_protocols SSL_OP_NO_TLSv1_2 SSL_OP_NO_TLSv1_3 ctx 0 = None.
Proof.
  intros Hv. cbv zeta.
  assert (Hcases : tls_versions = 1 \/ tls_versions = 2 \/ tls_versions = 3)
    by lia.
  split; [|reflexivity].
  destruct ctx as [o].
  destruct Hcases as [-> | [-> | ->]];
    destruct SSL_OP_NO_TLSv1_2 as [[|b12|b12]|];
    destruct SSL_OP_NO_TLSv1_3 as [[|b13|b13]|];
    vm_compute; reflexivity.
Qed.

(** ** TLS context cache *)

Lemma cache_REQUIRE_ok (AF_INET AF_INET6 : Z) (name : list Z)
  (transport family : Z) :
  cache_args_ok AF_INET AF_INET6 name transport family ->
  cache_REQUIRE AF_INET AF_INET6 name transport family = Some tt.
Proof.
  intros (Hn & Ht & Hf). unfold cache_REQUIRE.
  destruct name as [|c name]; [contradiction|]. cbn [length Nat.eqb negb
    REQUIRE bind].
  assert (E1 : (isc_tlsctx_cache_none <? transport)
               && (transport <? isc_tlsctx_cache_count) = true).
  { destruct Ht as [-> | ->]; reflexivity. }
  rewrite E1. cbn [REQUIRE bind].
  assert (E2 : (family =? AF_INET) || (family =? AF_INET6) = true).
  { destruct Hf as [-> | ->]; rewrite Z.eqb_refl;
      [reflexivity|apply orb_true_r]. }
  rewrite E2. reflexivity.
Qed.

Lemma isc_ht_find_notfound (ht : isc_ht) (key : list Z) (r : isc_result)
  (v : Z) :
  isc_ht_find ht key = (r, v) ->
  r = ISC_R_SUCCESS \/ (r = ISC_R_NOTFOUND /\ v = 0).
Proof.
  induction ht as [|[k0 v0] ht IH]; cbn [isc_ht_find].
  - intros E. injection E as <- <-. right. split; reflexivity.
  - destruct (bytes_eqb k0 key); [|exact IH].
    intros E. injection E as <- <-. left. reflexivity.
Qed.

Lemma isc_ht_find_snoc (ht : isc_ht) (key : list Z) (v v0 : Z) :
  isc_ht_find ht key = (ISC_R_NOTFOUND, v0) ->
  isc_ht_find (ht ++ [(key, v)]) key = (ISC_R_SUCCESS, v).
Proof.
  induction ht as [|[k1 v1] ht IH]; cbn [isc_ht_find app].
  - intros _. rewrite bytes_eqb_refl. reflexivity.
  - destruct (bytes_eqb k1 key); [discriminate|exact IH].
Qed.

Lemma entry_set_same (e : isc_tlsctx_cache_entry) (t : Z) (f : bool)
  (ctx : Z) :
  entry_set e t f ctx t f = ctx.
Proof.
  unfold entry_set. rewrite Z.eqb_refl, Bool.eqb_reflx. reflexivity.
Qed.

Lemma entry_set_other (e : isc_tlsctx_cache_entry) (t t' : Z) (f f' : bool)
  (ctx : Z) :
  t' <> t \/ f' <> f -> entry_set e t f ctx t' f' = e t' f'.
Proof.
  intros H. unfold entry_set.
  destruct (Z.eqb_spec t' t) as [->|]; [|reflexivity].
  destruct (Bool.eqb f' f) eqn:E; [|reflexivity].
  apply Bool.eqb_prop in E. destruct H; contradiction.
Qed.

Lemma heap_store_same (h : Z -> isc_tlsctx_cache_entry) (a : Z)
  (e : isc_tlsctx_cache_entry) :
  heap_store h a e a = e.
Proof. unfold heap_store. rewrite Z.eqb_refl. reflexivity. Qed.

(** C6. For every cache, name, transport and family that the calls accept,
    with [slot] what the cache holds in the (transport, family) slot of the
    entry of the name, and for every [pfound], NULL or the address of a
    cell with any content:
    - [isc_tlsctx_cache_find] returns the context of the slot, or
      ISC_R_NOTFOUND when the slot is NULL or the name has no entry;
    - when the slot is occupied and [pfound] is NULL or points to a NULL
      cell, [isc_tlsctx_cache_add] returns ISC_R_EXISTS, leaves the cache as
      it is and stores the context of the slot through [pfound], when that
      is not NULL; when [pfound] points to a cell that is not NULL the
      INSIST fails;
    - when the slot is NULL, in an entry that exists or in the zeroed entry
      that the call creates, it installs the context, returns
      ISC_R_SUCCESS and leaves the cell of [pfound] with the content it
      had, NULL or not; a find then returns the installed context;
    - the other slots of the name are left as they were, and an entry
      that the call creates has them NULL. *)
Theorem C6_cache_add_find (AF_INET AF_INET6 : Z) (cache : isc_tlsctx_cache)
  (name : list Z) (transport family ctx : Z) (pfound : option Z) :
  cache_args_ok AF_INET AF_INET6 name transport family ->
  ctx <> 0 ->
  let slot := cache_slot AF_INET6 cache name transport family in
  (isc_tlsctx_cache_find AF_INET AF_INET6 cache name transport family
   = if slot =? 0 then Some (ISC_R_NOTFOUND, 0)
     else Some (ISC_R_SUCCESS, slot)) /\
  (slot <> 0 -> pfound_ok pfound ->
   isc_tlsctx_cache_add AF_INET AF_INET6 cache name transport family ctx
     pfound
   = Some (ISC_R_EXISTS, cache,
           match pfound with Some _ => Some slot | None => None end)) /\
  (slot <> 0 -> ~ pfound_ok pfound ->
   isc_tlsctx_cache_add AF_INET AF_INET6 cache name transport family ctx
     pfound = None) /\
  (slot = 0 ->
   exists cache',
     isc_tlsctx_cache_add AF_INET AF_INET6 cache name transport family ctx
       pfound
     = Some (ISC_R_SUCCESS, cache', pfound) /\
     cache_has_entry cache' name = true /\
     isc_tlsctx_cache_find AF_INET AF_INET6 cache' name transport family
     = Some (ISC_R_SUCCESS, ctx) /\
     (forall transport' family',
        transport' <> transport \/
        (family' =? AF_INET6) <> (family =? AF_INET6) ->
        cache_slot AF_INET6 cache' name transport' family'
        = cache_slot AF_INET6 cache name transport' family') /\
     (cache_has_entry cache name = false ->
      forall transport' family',
        transport' <> transport \/
        (family' =? AF_INET6) <> (family =? AF_INET6) ->
        cache_slot AF_INET6 cache' name transport' family' = 0)).
Proof.
  intros Hargs Hctx slot.
  pose proof (cache_REQUIRE_ok _ _ _ _ _ Hargs) as Hreq.
  assert (Hc : negb (ctx =? 0) = true).
  { destruct (Z.eqb_spec ctx 0); [contradiction|reflexivity]. }
  unfold isc_tlsctx_cache_find, isc_tlsctx_cache_add.
  rewrite Hreq, Hc. cbn [REQUIRE bind]. cbv zeta.
  unfold slot, cache_slot, cache_has_entry.
  destruct (isc_ht_find (data cache) name) as [r entry] eqn:F.
  destruct (isc_ht_find_notfound _ _ _ _ F) as [-> | [-> ->]].
  - (* the name has an entry *)
    cbn [isc_result_eqb andb fst].
    set (s := heap cache entry (transport - 1) (family =? AF_INET6)).
    destruct (Z.eqb_spec s 0) as [E0|N0]; cbn [negb].
    + split; [reflexivity|]. split; [intros H; contradiction|].
      split; [intros H; contradiction|]. intros _.
      eexists. split; [reflexivity|]. cbn [data heap].
      rewrite F. cbn [fst isc_result_eqb andb].
      rewrite heap_store_same, entry_set_same.
      destruct (Z.eqb_spec ctx 0); [contradiction|]. cbn [negb].
      split; [reflexivity|]. split; [reflexivity|].
      split; [|intros H; discriminate].
      intros transport' family' Hne.
      rewrite entry_set_other; [reflexivity|].
      destruct Hne as [H|H]; [left; lia|right; exact H].
    + split; [reflexivity|].
      split; [intros _ [-> | ->]; reflexivity|].
      split; [|intros H; contradiction]. intros _ Hpf.
      destruct pfound as [x|]; [|exfalso; apply Hpf; left; reflexivity].
      destruct (Z.eqb_spec x 0) as [->|Nx];
        [exfalso; apply Hpf; right; reflexivity|reflexivity].
  - (* the name has no entry *)
    cbn [isc_result_eqb andb negb fst REQUIRE bind Z.eqb].
    split; [reflexivity|]. split; [intros H; contradiction|].
    split; [intros H; contradiction|]. intros _.
    unfold isc_ht_add. rewrite F. cbn [isc_result_eqb REQUIRE bind].
    eexists. split; [reflexivity|]. cbn [data heap].
    rewrite (isc_ht_find_snoc _ _ (brk cache) _ F).
    cbn [fst isc_result_eqb andb].
    rewrite heap_store_same, entry_set_same.
    destruct (Z.eqb_spec ctx 0); [contradiction|]. cbn [negb].
    split; [reflexivity|]. split; [reflexivity|].
    assert (Hother : forall transport' family',
              transport' <> transport \/
              (family' =? AF_INET6) <> (family =? AF_INET6) ->
              entry_set entry_zero (transport - 1) (family =? AF_INET6) ctx
                (transport' - 1) (family' =? AF_INET6) = 0).
    { intros transport' family' Hne.
      rewrite entry_set_other; [reflexivity|].
      destruct Hne as [H|H]; [left; lia|right; exact H]. }
    split; [exact Hother|]. intros _. exact Hother.
Qed.

(** ** The TLS helpers at concrete inputs *)

(** The names "h2", "dot" and "xyz". *)
Definition name_h2 : list Z := [104; 50].
Definition name_dot : list Z := ISC_TLS_DOT_PROTO_ALPN_ID.
Definition name_xyz : list Z := [120; 121; 122].

Lemma name_h2_ok : alpn_name_ok name_h2.
Proof. split; [cbn; lia|]. repeat constructor; lia. Qed.

Lemma name_dot_ok : alpn_name_ok name_dot.
Proof. split; [cbn; lia|]. repeat constructor; lia. Qed.

Lemma name_xyz_ok : alpn_name_ok name_xyz.
Proof. split; [cbn; lia|]. repeat constructor; lia. Qed.

Lemma names_ok : Forall alpn_name_ok [name_h2; name_dot].
Proof.
  apply Forall_cons; [apply name_h2_ok|].
  apply Forall_cons; [apply name_dot_ok|apply Forall_nil].
Qed.

(** C7 on the list "h2", "dot": the needle "dot" is found at its record,
    the needle "xyz" is not found. *)
Lemma C7_witness :
  (exists r1 r2,
     [name_h2; name_dot] = r1 ++ name_dot :: r2 /\ ~ In name_dot r1 /\
     protoneg_check_protocol (alpn_wire [name_h2; name_dot])
       (Z.of_nat (length (alpn_wire [name_h2; name_dot])))
       (alpn_record name_dot) (Z.of_nat (length (alpn_record name_dot)))
     = Some (Some (Z.of_nat (length (alpn_wire r1)) + 1,
                   Z.of_nat (length name_dot))) /\
     firstn (length name_dot)
       (skipn (Z.to_nat (Z.of_nat (length (alpn_wire r1)) + 1))
          (alpn_wire [name_h2; name_dot])) = name_dot) /\
  protoneg_check_protocol (alpn_wire [name_h2; name_dot])
    (Z.of_nat (length (alpn_wire [name_h2; name_dot])))
    (alpn_record name_xyz) (Z.of_nat (length (alpn_record name_xyz)))
  = Some None.
Proof.
  split.
  - apply (C7_alpn_scan_finds_complete_record [name_h2; name_dot] name_dot).
    + exact names_ok.
    + apply name_dot_ok.
    + right. left. reflexivity.
  - apply (C7_alpn_scan_finds_complete_record [name_h2; name_dot] name_xyz).
    + exact names_ok.
    + apply name_xyz_ok.
    + intros [H|[H|[]]]; discriminate H.
Defined.

(** The option bits of OpenSSL 3. *)
Definition openssl_NO_TLSv1_2 : option Z := Some 134217728.
Definition openssl_NO_TLSv1_3 : option Z := Some 536870912.

(** C8 on a context with no option set and the mask of TLS 1.3 alone:
    SSL_OP_NO_TLSv1_2 is set, SSL_OP_NO_TLSv1_3 is cleared. *)
Lemma C8_witness :
  isc_tlsctx_set_protocols openssl_NO_TLSv1_2 openssl_NO_TLSv1_3
    (mk_tlsctx 0) ISC_TLS_PROTO_VER_1_3
  = Some (SSL_CTX_clear_options
            (SSL_CTX_set_options (mk_tlsctx 0) 134217728) 536870912).
Proof.
  destruct (C8_set_protocols_masks openssl_NO_TLSv1_2 openssl_NO_TLSv1_3
              (mk_tlsctx 0) ISC_TLS_PROTO_VER_1_3) as [H _].
  - unfold ISC_TLS_PROTO_VER_1_3. lia.
  - exact H.
Defined.

(** An empty cache, and the name "n". *)
Definition cache_empty : isc_tlsctx_cache :=
  mk_cache [] (fun _ => entry_zero) 1.

Definition name_n : list Z := [110].

(** C6 on the empty cache, with [pfound] the address of a cell that holds
    99: the find fails, the add of the context 7 for DoT over IPv4
    succeeds and leaves 99 in the cell, and the find then returns 7. *)
Lemma C6_witness :
  isc_tlsctx_cache_find 2 10 cache_empty name_n isc_tlsctx_cache_tls 2
  = Some (ISC_R_NOTFOUND, 0) /\
  exists cache',
    isc_tlsctx_cache_add 2 10 cache_empty name_n isc_tlsctx_cache_tls 2 7
      (Some 99)
    = Some (ISC_R_SUCCESS, cache', Some 99) /\
    cache_has_entry cache' name_n = true /\
    isc_tlsctx_cache_find 2 10 cache' name_n isc_tlsctx_cache_tls 2
    = Some (ISC_R_SUCCESS, 7) /\
    (forall transport' family',
       transport' <> isc_tlsctx_cache_tls \/
       (family' =? 10) <> (2 =? 10) ->
       cache_slot 10 cache' name_n transport' family'
       = cache_slot 10 cache_empty name_n transport' family') /\
    (cache_has_entry cache_empty name_n = false ->
     forall transport' family',
       transport' <> isc_tlsctx_cache_tls \/
       (family' =? 10) <> (2 =? 10) ->
       cache_slot 10 cache' name_n transport' family' = 0).
Proof.
  destruct (C6_cache_add_find 2 10 cache_empty name_n isc_tlsctx_cache_tls
              2 7 (Some 99)) as (H1 & _ & _ & H4).
  - split; [discriminate|]. split; [left; reflexivity|left; reflexivity].
  - discriminate.
  - split; [exact H1|]. apply H4. reflexivity.
Defined.

(* ===================================================================== *)
(** * Further properties of the TLS helpers                               *)
(* ===================================================================== *)

(** ** The ALPN scan on any buffer *)

Lemma memcmp_eq_record (buf name : list Z) :
  memcmp_eq buf (alpn_record name) (Z.of_nat (length (alpn_record name)))
  = true ->
  firstn (length (alpn_record name)) buf = alpn_record name.
Proof.
  unfold memcmp_eq. rewrite Nat2Z.id. intros H.
  apply bytes_eqb_eq in H. rewrite firstn_all in H. exact H.
Qed.

Lemma byte_at_range (buf : list Z) (i : Z) :
  Forall (fun b => 0 <= b <= 255) buf -> 0 <= byte_at buf i <= 255.
Proof.
  intros H. unfold byte_at.
  destruct (Nat.lt_ge_cases (Z.to_nat i) (length buf)) as [L|G].
  - rewrite Forall_forall in H. apply H. apply nth_In. exact L.
  - rewrite nth_overflow by exact G. lia.
Qed.

(** What the scan may return for the needle [alpn_record name]: the name,
    with its length, inside the first [in_len] bytes of the buffer. *)
Definition alpn_result_ok (inb : list Z) (in_len : Z) (name : list Z)
  (r : option (Z * Z)) : Prop :=
  match r with
  | Some (off, len) =>
      len = Z.of_nat (length name) /\
      1 <= off /\ off + len <= in_len /\
      firstn (length name) (skipn (Z.to_nat off) inb) = name
  | None => True
  end.

Lemma record_at (inb name : list Z) (i : Z) :
  0 <= i ->
  firstn (length (alpn_record name)) (skipn (Z.to_nat i) inb)
  = alpn_record name ->
  byte_at inb i = Z.of_nat (length name) /\
  firstn (length name) (skipn (Z.to_nat (i + 1)) inb) = name.
Proof.
  intros Hi H. unfold alpn_record in H. cbn [length] in H.
  destruct (skipn (Z.to_nat i) inb) as [|b rest] eqn:Es; [discriminate|].
  cbn [firstn] in H. injection H as Hb Hrest.
  split.
  - unfold byte_at.
    rewrite <- (firstn_skipn (Z.to_nat i) inb) at 1.
    assert (Hl : length (firstn (Z.to_nat i) inb) = Z.to_nat i).
    { apply firstn_length_le.
      destruct (Nat.le_gt_cases (Z.to_nat i) (length inb)) as [L|G];
        [exact L|].
      rewrite skipn_all2 in Es by lia. discriminate. }
    rewrite app_nth2 by lia. rewrite Hl, Nat.sub_diag, Es. exact Hb.
  - replace (Z.to_nat (i + 1)) with (1 + Z.to_nat i)%nat by lia.
    rewrite <- skipn_skipn, Es. exact Hrest.
Qed.

Lemma protoneg_loop_any (inb : list Z) (in_len : Z) (name : list Z) :
  Forall (fun b => 0 <= b <= 255) inb ->
  forall (n : nat) (i : Z),
    0 <= i -> in_len - i <= Z.of_nat n ->
    exists r,
      while_nat
        (protoneg_body inb in_len (alpn_record name)
           (Z.of_nat (length (alpn_record name)))) (Datatypes.S n) i
      = Break r /\
      alpn_result_ok inb in_len name r.
Proof.
  intros Hb.
  assert (Hkl : Z.of_nat (length (alpn_record name))
                = Z.of_nat (length name) + 1).
  { unfold alpn_record. cbn [length]. lia. }
  assert (Hstep : forall i, 0 <= i ->
            match protoneg_body inb in_len (alpn_record name)
                    (Z.of_nat (length (alpn_record name))) i with
            | Continue i' => i < i' /\ i + 1 <= in_len
            | Break r => alpn_result_ok inb in_len name r /\
                         (r = None -> in_len < i + Z.of_nat (length name) + 1)
            end).
  { intros i Hi. unfold protoneg_body.
    destruct (Z.leb_spec (i + Z.of_nat (length (alpn_record name))) in_len)
      as [Hle|Hgt].
    - destruct (memcmp_eq (skipn (Z.to_nat i) inb) (alpn_record name)
                  (Z.of_nat (length (alpn_record name)))) eqn:M.
      + apply memcmp_eq_record in M.
        destruct (record_at inb name i Hi M) as [Ebyte Ename].
        split; [|discriminate].
        cbn [alpn_result_ok]. rewrite Ebyte.
        split; [reflexivity|]. split; [lia|]. split; [lia|exact Ename].
      + pose proof (byte_at_range inb i Hb). lia.
    - split; [exact I|]. intros _. lia. }
  induction n as [|n IH]; intros i Hi Hn.
  - rewrite while_nat_S. specialize (Hstep i Hi).
    destruct (protoneg_body inb in_len (alpn_record name)
                (Z.of_nat (length (alpn_record name))) i) as [i'|r].
    + cbn in Hn. lia.
    + exists r. split; [reflexivity|apply Hstep].
  - rewrite while_nat_S. specialize (Hstep i Hi).
    destruct (protoneg_body inb in_len (alpn_record name)
                (Z.of_nat (length (alpn_record name))) i) as [i'|r].
    + apply IH; lia.
    + exists r. split; [reflexivity|apply Hstep].
Qed.

(** X16. On any buffer of bytes, well formed or not, the ALPN scan for a
    protocol name returns: the loop ends.  When it returns true, the length
    it stores is the length of the name, and the pointer it stores is to a
    copy of the name that lies inside the first [in_len] bytes of the
    buffer. *)
Theorem X16_alpn_scan_stays_in_buffer (inb : list Z) (in_len : Z)
  (name : list Z) :
  Forall (fun b => 0 <= b <= 255) inb ->
  0 <= in_len <= Z.of_nat (length inb) ->
  exists r,
    protoneg_check_protocol inb in_len (alpn_record name)
      (Z.of_nat (length (alpn_record name))) = Some r /\
    alpn_result_ok inb in_len name r.
Proof.
  intros Hb Hlen.
  destruct (protoneg_loop_any inb in_len name Hb (Z.to_nat in_len) 0)
    as (r & W & Hr); [lia|lia|].
  exists r. split; [|exact Hr].
  unfold protoneg_check_protocol.
  apply (while_intro _ _ _ _ _ W). lia.
Qed.

(** The scan at a position where the needle fits reads the first [in_len]
    bytes only. *)
Lemma protoneg_body_prefix (inb : list Z) (in_len : Z) (key : list Z)
  (key_len : Z) (i : Z) :
  1 <= key_len -> 0 <= i ->
  protoneg_body inb in_len key key_len i
  = protoneg_body (firstn (Z.to_nat in_len) inb) in_len key key_len i.
Proof.
  intros Hk Hi. unfold protoneg_body.
  destruct (Z.leb_spec (i + key_len) in_len) as [Hle|Hgt]; [|reflexivity].
  assert (Em : memcmp_eq (skipn (Z.to_nat i) (firstn (Z.to_nat in_len) inb))
                 key key_len
               = memcmp_eq (skipn (Z.to_nat i) inb) key key_len).
  { unfold memcmp_eq. f_equal.
    rewrite skipn_firstn_comm, firstn_firstn. f_equal. lia. }
  assert (Eb : byte_at (firstn (Z.to_nat in_len) inb) i = byte_at inb i).
  { unfold byte_at. rewrite nth_firstn.
    destruct (Nat.ltb_spec (Z.to_nat i) (Z.to_nat in_len)); [reflexivity|lia]. }
  rewrite Em, Eb. reflexivity.
Qed.

Lemma protoneg_loop_prefix (inb : list Z) (in_len : Z) (key : list Z)
  (key_len : Z) :
  1 <= key_len -> Forall (fun b => 0 <= b <= 255) inb ->
  forall (n : nat) (i : Z),
    0 <= i ->
    while_nat (protoneg_body inb in_len key key_len) n i
    = while_nat
        (protoneg_body (firstn (Z.to_nat in_len) inb) in_len key key_len)
        n i.
Proof.
  intros Hk Hb. induction n as [|n IH]; intros i Hi; [reflexivity|].
  rewrite !while_nat_S.
  rewrite <- (protoneg_body_prefix inb in_len key key_len i Hk Hi).
  unfold protoneg_body at 1 3.
  destruct (i + key_len <=? in_len); [|reflexivity].
  destruct (memcmp_eq (skipn (Z.to_nat i) inb) key key_len); [reflexivity|].
  apply IH. pose proof (byte_at_range inb i Hb). lia.
Qed.

(** X17. The ALPN scan for a needle of at least one byte reads the first
    [in_len] bytes of the buffer only: on two buffers that agree there it
    returns the same. *)
Theorem X17_alpn_scan_reads_in_len_bytes (inb inb' : list Z) (in_len : Z)
  (key : list Z) (key_len : Z) :
  1 <= key_len ->
  Forall (fun b => 0 <= b <= 255) inb ->
  Forall (fun b => 0 <= b <= 255) inb' ->
  firstn (Z.to_nat in_len) inb = firstn (Z.to_nat in_len) inb' ->
  protoneg_check_protocol inb in_len key key_len
  = protoneg_check_protocol inb' in_len key key_len.
Proof.
  intros Hk Hb Hb' E. unfold protoneg_check_protocol, while.
  destruct (in_len + 1) as [|p|p]; try reflexivity.
  rewrite !while_pos_nat.
  rewrite (protoneg_loop_prefix inb in_len key key_len Hk Hb _ 0) by lia.
  rewrite (protoneg_loop_prefix inb' in_len key key_len Hk Hb' _ 0) by lia.
  rewrite E. reflexivity.
Qed.

(** ** The protocol mask *)

Lemma set_protocols_parts (no12 no13 : option Z) (ctx : isc_tlsctx)
  (m : Z) (c : isc_tlsctx) :
  isc_tlsctx_set_protocols no12 no13 ctx m = Some c ->
  exists (n : nat) (s : protocols_state),
    m <> 0 /\
    while_nat (set_protocols_body no12 no13 m) n
      (mk_protocols_state ISC_TLS_PROTO_VER_1_2 0 0 m) = Break (Some s) /\
    ps_versions s = 0 /\
    forall ctx',
      isc_tlsctx_set_protocols no12 no13 ctx' m
      = Some (SSL_CTX_clear_options
                (SSL_CTX_set_options ctx' (ps_set_options s))
                (ps_clear_options s)).
Proof.
  intros H. unfold isc_tlsctx_set_protocols in H.
  apply bind_some in H. destruct H as [u1 [E1 H]].
  apply bind_some in H. destruct H as [r [E2 H]].
  apply bind_some in H. destruct H as [s [E3 H]]. cbn in E3. subst r.
  apply bind_some in H. destruct H as [u2 [E4 H]].
  destruct (while_elim _ _ _ _ E2) as [n Wn].
  exists n, s.
  split.
  { apply REQUIRE_some in E1. intros ->. discriminate. }
  split; [exact Wn|]. split.
  { apply REQUIRE_some in E4. apply Z.eqb_eq in E4. exact E4. }
  intros ctx'. unfold isc_tlsctx_set_protocols.
  rewrite E1. cbn [bind]. rewrite E2. cbn [bind]. rewrite E4. reflexivity.
Qed.

(** The state of the loop of [isc_tlsctx_set_protocols] before the trip
    for the version [ps_tls_ver]: the versions that have had their trip
    are out of [versions], and their disable-bits are in one of the two
    option words. *)
Definition protocols_inv (no12 no13 : option Z) (m : Z)
  (s : protocols_state) : Prop :=
  (ps_tls_ver s = 1 /\ ps_versions s = m /\
   Z.lor (ps_set_options s) (ps_clear_options s) = 0) \/
  (ps_tls_ver s = 2 /\
   ps_versions s = Z.land m (u32 (Z.lnot 1)) /\
   Z.lor (ps_set_options s) (ps_clear_options s)
   = disable_bit no12 no13 1) \/
  (ps_tls_ver s = 4 /\
   ps_versions s = Z.land (Z.land m (u32 (Z.lnot 1))) (u32 (Z.lnot 2)) /\
   Z.lor (ps_set_options s) (ps_clear_options s)
   = Z.lor (disable_bit no12 no13 1) (disable_bit no12 no13 2)).

Definition protocols_post (no12 no13 : option Z) (m : Z)
  (r : option protocols_state) : Prop :=
  match r with
  | Some s =>
      ps_versions s = Z.land (Z.land m (u32 (Z.lnot 1))) (u32 (Z.lnot 2)) /\
      Z.lor (ps_set_options s) (ps_clear_options s)
      = Z.lor (disable_bit no12 no13 1) (disable_bit no12 no13 2)
  | None => True
  end.

Lemma lor_lor_l (a b c : Z) : Z.lor (Z.lor a b) c = Z.lor (Z.lor a c) b.
Proof.
  rewrite <- !Z.lor_assoc. f_equal. apply Z.lor_comm.
Qed.

Lemma set_protocols_body_inv (no12 no13 : option Z) (m : Z)
  (s : protocols_state) :
  protocols_inv no12 no13 m s ->
  match set_protocols_body no12 no13 m s with
  | Continue s' => protocols_inv no12 no13 m s'
  | Break r => protocols_post no12 no13 m r
  end.
Proof.
  destruct s as [v so co vs]. unfold protocols_inv. cbn [ps_tls_ver
    ps_versions ps_set_options ps_clear_options].
  intros [(-> & -> & E) | [(-> & -> & E) | (-> & -> & E)]];
    unfold set_protocols_body, isc_tls_protocol_supported;
    cbn [ps_tls_ver ps_versions ps_set_options ps_clear_options].
  - change (1 <? ISC_TLS_PROTO_VER_UNDEFINED) with true. cbv iota.
    change (get_tls_version_disable_bit no12 no13 1)
      with (Some (disable_bit no12 no13 1)). cbn [bind].
    destruct (Z.land m 1 =? 0).
    + right. left. cbn [ps_tls_ver ps_versions ps_set_options
        ps_clear_options].
      split; [reflexivity|]. split; [reflexivity|].
      rewrite lor_lor_l, E. apply Z.lor_0_l.
    + destruct (negb (disable_bit no12 no13 1 =? 0)); [|exact I].
      right. left. cbn [ps_tls_ver ps_versions ps_set_options
        ps_clear_options].
      split; [reflexivity|]. split; [reflexivity|].
      rewrite Z.lor_assoc, E. apply Z.lor_0_l.
  - change (2 <? ISC_TLS_PROTO_VER_UNDEFINED) with true. cbv iota.
    change (get_tls_version_disable_bit no12 no13 2)
      with (Some (disable_bit no12 no13 2)). cbn [bind].
    destruct (Z.land m 2 =? 0).
    + right. right. cbn [ps_tls_ver ps_versions ps_set_options
        ps_clear_options].
      split; [reflexivity|]. split; [reflexivity|].
      rewrite lor_lor_l, E. reflexivity.
    + destruct (negb (disable_bit no12 no13 2 =? 0)); [|exact I].
      right. right. cbn [ps_tls_ver ps_versions ps_set_options
        ps_clear_options].
      split; [reflexivity|]. split; [reflexivity|].
      rewrite Z.lor_assoc, E. reflexivity.
  - change (4 <? ISC_TLS_PROTO_VER_UNDEFINED) with false. cbv iota.
    cbn [protocols_post ps_versions ps_set_options ps_clear_options].
    split; [reflexivity|exact E].
Qed.

Lemma set_protocols_post (no12 no13 : option Z) (m : Z) (n : nat)
  (r : option protocols_state) :
  while_nat (set_protocols_body no12 no13 m) n
    (mk_protocols_state ISC_TLS_PROTO_VER_1_2 0 0 m) = Break r ->
  protocols_post no12 no13 m r.
Proof.
  intros W.
  apply (while_nat_inv (set_protocols_body no12 no13 m)
           (protocols_inv no12 no13 m) (protocols_post no12 no13 m)
           (set_protocols_body_inv no12 no13 m) n
           (mk_protocols_state ISC_TLS_PROTO_VER_1_2 0 0 m) r); [|exact W].
  left. cbn. auto.
Qed.

(** X18. [isc_tlsctx_set_protocols] fails its last INSIST for every mask
    of 32 bits that has a bit other than those of the versions 1.2 and
    1.3, in every build and whatever the versions in the mask. *)
Theorem X18_set_protocols_rejects_unknown_bits
  (SSL_OP_NO_TLSv1_2 SSL_OP_NO_TLSv1_3 : option Z) (ctx : isc_tlsctx)
  (tls_versions : Z) :
  4 <= tls_versions < 4294967296 ->
  isc_tlsctx_set_protocols SSL_OP_NO_TLSv1_2 SSL_OP_NO_TLSv1_3 ctx
    tls_versions = None.
Proof.
  intros Hm.
  destruct (isc_tlsctx_set_protocols SSL_OP_NO_TLSv1_2 SSL_OP_NO_TLSv1_3
              ctx tls_versions) as [c|] eqn:H; [exfalso|reflexivity].
  destruct (set_protocols_parts _ _ _ _ _ H) as (n & s & _ & W & Hv & _).
  destruct (set_protocols_post _ _ _ _ _ W) as [Ev _].
  rewrite Hv in Ev. rewrite <- Z.land_assoc in Ev.
  change (Z.land (u32 (Z.lnot 1)) (u32 (Z.lnot 2)))
    with (Z.shiftl (Z.ones 30) 2) in Ev.
  assert (Hl : 2 <= Z.log2 tls_versions < 32).
  { split.
    - change 2 with (Z.log2 4). apply Z.log2_le_mono. lia.
    - apply Z.log2_lt_pow2; [lia|]. change (2 ^ 32) with 4294967296. lia. }
  assert (Hbit : Z.testbit
            (Z.land tls_versions (Z.shiftl (Z.ones 30) 2))
            (Z.log2 tls_versions) = true).
  { rewrite Z.land_spec, Z.bit_log2 by lia.
    rewrite Z.shiftl_spec by lia. rewrite Z.ones_spec_low by lia.
    reflexivity. }
  rewrite <- Ev, Z.bits_0 in Hbit. discriminate.
Qed.

Lemma options_merge (o s1 c1 s2 c2 : Z) :
  Z.lor s1 c1 = Z.lor s2 c2 ->
  Z.land (Z.lor (Z.land (Z.lor o s1) (Z.lnot c1)) s2) (Z.lnot c2)
  = Z.land (Z.lor o s2) (Z.lnot c2).
Proof.
  intros E. apply Z.bits_inj'. intros n Hn.
  assert (En : Z.testbit s1 n || Z.testbit c1 n
               = Z.testbit s2 n || Z.testbit c2 n)
    by (rewrite <- !Z.lor_spec, E; reflexivity).
  rewrite !Z.land_spec, !Z.lor_spec, !Z.land_spec, !Z.lnot_spec,
    !Z.lor_spec by exact Hn.
  destruct (Z.testbit o n), (Z.testbit s1 n), (Z.testbit c1 n),
    (Z.testbit s2 n), (Z.testbit c2 n); cbn in *; congruence.
Qed.

(** X19. The last call of [isc_tlsctx_set_protocols] decides: when the
    call with a first mask and the call with a second mask both return on
    a context, the second call on what the first has left gives what the
    second call alone gives.  With the same mask twice: a second call
    changes nothing. *)
Theorem X19_set_protocols_last_call_wins
  (SSL_OP_NO_TLSv1_2 SSL_OP_NO_TLSv1_3 : option Z) (ctx : isc_tlsctx)
  (m1 m2 : Z) (c1 c2 : isc_tlsctx) :
  isc_tlsctx_set_protocols SSL_OP_NO_TLSv1_2 SSL_OP_NO_TLSv1_3 ctx m1
  = Some c1 ->
  isc_tlsctx_set_protocols SSL_OP_NO_TLSv1_2 SSL_OP_NO_TLSv1_3 ctx m2
  = Some c2 ->
  isc_tlsctx_set_protocols SSL_OP_NO_TLSv1_2 SSL_OP_NO_TLSv1_3 c1 m2
  = Some c2.
Proof.
  intros H1 H2.
  destruct (set_protocols_parts _ _ _ _ _ H1) as (n1 & s1 & _ & W1 & _ & F1).
  destruct (set_protocols_parts _ _ _ _ _ H2) as (n2 & s2 & _ & W2 & _ & F2).
  destruct (set_protocols_post _ _ _ _ _ W1) as [_ E1].
  destruct (set_protocols_post _ _ _ _ _ W2) as [_ E2].
  rewrite (F1 ctx) in H1. injection H1 as <-.
  rewrite (F2 ctx) in H2. injection H2 as <-.
  rewrite F2. f_equal.
  unfold SSL_CTX_clear_options, SSL_CTX_set_options. cbn [ssl_options].
  f_equal. apply options_merge. rewrite E1, E2. reflexivity.
Qed.

(** ** The cache *)

(** The caches that the calls build. *)
Inductive cache_built (AF_INET AF_INET6 : Z) : isc_tlsctx_cache -> Prop :=
| built_new : cache_built AF_INET AF_INET6 isc_tlsctx_cache_new
| built_add : forall cache name transport family ctx pfound r cache' pfound',
    cache_built AF_INET AF_INET6 cache ->
    isc_tlsctx_cache_add AF_INET AF_INET6 cache name transport family ctx
      pfound = Some (r, cache', pfound') ->
    cache_built AF_INET AF_INET6 cache'.

(** No two names share an entry, and every entry has been allocated. *)
Definition cache_inv (cache : isc_tlsctx_cache) : Prop :=
  NoDup (map snd (data cache)) /\
  Forall (fun kv => snd kv < brk cache) (data cache).

Lemma isc_ht_find_in (ht : isc_ht) (key : list Z) (e : Z) :
  isc_ht_find ht key = (ISC_R_SUCCESS, e) -> In (key, e) ht.
Proof.
  induction ht as [|[k0 v0] ht IH]; cbn [isc_ht_find]; [discriminate|].
  destruct (bytes_eqb k0 key) eqn:B.
  - intros E. injection E as <-. apply bytes_eqb_eq in B. subst k0.
    left. reflexivity.
  - intros E. right. exact (IH E).
Qed.

Lemma isc_ht_find_app_other (ht : isc_ht) (name key : list Z) (v : Z) :
  key <> name ->
  isc_ht_find (ht ++ [(name, v)]) key = isc_ht_find ht key.
Proof.
  intros Hne. induction ht as [|[k0 v0] ht IH]; cbn [isc_ht_find app].
  - rewrite bytes_eqb_neq by congruence. reflexivity.
  - destruct (bytes_eqb k0 key); [reflexivity|exact IH].
Qed.

Lemma nodup_snd_key (ht : isc_ht) (k1 k2 : list Z) (v : Z) :
  NoDup (map snd ht) -> In (k1, v) ht -> In (k2, v) ht -> k1 = k2.
Proof.
  induction ht as [|[k0 v0] ht IH]; cbn [map snd]; [contradiction|].
  intros Hnd [E1|I1] [E2|I2].
  - congruence.
  - injection E1 as -> ->. inversion Hnd as [|? ? Hni _]; subst.
    exfalso. apply Hni. apply (in_map snd _ _ I2).
  - injection E2 as -> ->. inversion Hnd as [|? ? Hni _]; subst.
    exfalso. apply Hni. apply (in_map snd _ _ I1).
  - inversion Hnd; subst. apply IH; assumption.
Qed.

Lemma nodup_snoc (l : list Z) (x : Z) :
  NoDup l -> ~ In x l -> NoDup (l ++ [x]).
Proof.
  induction l as [|y l IH]; cbn [app]; intros Hnd Hni.
  - constructor; [intros []|constructor].
  - inversion Hnd as [|? ? Hy Hl]; subst. constructor.
    + intros Hi. apply in_app_or in Hi. destruct Hi as [Hi|[E|[]]].
      * contradiction.
      * apply Hni. left. congruence.
    + apply IH; [exact Hl|]. intros Hi. apply Hni. right. exact Hi.
Qed.

(** The three ways [isc_tlsctx_cache_add] returns. *)
Lemma isc_tlsctx_cache_add_cases (AF_INET AF_INET6 : Z)
  (cache : isc_tlsctx_cache) (name : list Z) (transport family ctx : Z)
  (pfound : option Z) (r : isc_result) (cache' : isc_tlsctx_cache)
  (pfound' : option Z) :
  isc_tlsctx_cache_add AF_INET AF_INET6 cache name transport family ctx
    pfound = Some (r, cache', pfound') ->
  cache' = cache
  \/
  (exists entry,
     isc_ht_find (data cache) name = (ISC_R_SUCCESS, entry) /\
     heap cache entry (transport - 1) (family =? AF_INET6) = 0 /\
     cache' = mk_cache (data cache)
                (heap_store (heap cache) entry
                   (entry_set (heap cache entry) (transport - 1)
                      (family =? AF_INET6) ctx))
                (brk cache))
  \/
  (isc_ht_find (data cache) name = (ISC_R_NOTFOUND, 0) /\
   cache' = mk_cache (data cache ++ [(name, brk cache)])
              (heap_store (heap cache) (brk cache)
                 (entry_set entry_zero (transport - 1)
                    (family =? AF_INET6) ctx))
              (brk cache + 1)).
Proof.
  intros H. unfold isc_tlsctx_cache_add in H.
  apply bind_some in H. destruct H as [u1 [_ H]].
  apply bind_some in H. destruct H as [u2 [_ H]].
  cbv zeta in H.
  destruct (isc_ht_find (data cache) name) as [res entry] eqn:F.
  destruct (isc_ht_find_notfound _ _ _ _ F) as [-> | [-> ->]].
  - cbn [isc_result_eqb andb] in H.
    destruct (heap cache entry (transport - 1) (family =? AF_INET6) =? 0)
      eqn:E0; cbn [negb] in H.
    + injection H as _ <- _. right. left. exists entry.
      apply Z.eqb_eq in E0. auto.
    + left. destruct pfound as [x|].
      * apply bind_some in H. destruct H as [u3 [_ H]].
        injection H as _ <- _. reflexivity.
      * injection H as _ <- _. reflexivity.
  - cbn [isc_result_eqb andb negb REQUIRE bind] in H.
    unfold isc_ht_add in H. rewrite F in H.
    cbn [isc_result_eqb REQUIRE bind] in H.
    injection H as _ <- _. right. right. auto.
Qed.

Lemma cache_add_inv (AF_INET AF_INET6 : Z) (cache : isc_tlsctx_cache)
  (name : list Z) (transport family ctx : Z) (pfound : option Z)
  (r : isc_result) (cache' : isc_tlsctx_cache) (pfound' : option Z) :
  cache_inv cache ->
  isc_tlsctx_cache_add AF_INET AF_INET6 cache name transport family ctx
    pfound = Some (r, cache', pfound') ->
  cache_inv cache'.
Proof.
  intros [Hnd Hlt] H.
  destruct (isc_tlsctx_cache_add_cases _ _ _ _ _ _ _ _ _ _ _ H)
    as [-> | [(entry & _ & _ & ->) | (_ & ->)]].
  - split; assumption.
  - split; assumption.
  - split; cbn [data brk].
    + rewrite map_app. cbn [map snd].
      apply nodup_snoc; [exact Hnd|].
      intros Hi. apply in_map_iff in Hi.
      destruct Hi as [kv [E Hi]].
      rewrite Forall_forall in Hlt. specialize (Hlt kv Hi). lia.
    + apply Forall_app. split.
      * apply (Forall_impl _ (P := fun kv => snd kv < brk cache));
          [intros kv Hkv; lia|exact Hlt].
      * constructor; [cbn; lia|constructor].
Qed.

Lemma cache_built_inv (AF_INET AF_INET6 : Z) (cache : isc_tlsctx_cache) :
  cache_built AF_INET AF_INET6 cache -> cache_inv cache.
Proof.
  induction 1 as [|cache name transport family ctx pfound r cache' pfound'
                   _ IH H].
  - split; cbn; constructor.
  - exact (cache_add_inv _ _ _ _ _ _ _ _ _ _ _ IH H).
Qed.

Lemma cache_add_other_slot (AF_INET AF_INET6 : Z)
  (cache : isc_tlsctx_cache) (name : list Z) (transport family ctx : Z)
  (pfound : option Z) (r : isc_result) (cache' : isc_tlsctx_cache)
  (pfound' : option Z) (name' : list Z) (transport' family' : Z) :
  cache_inv cache ->
  isc_tlsctx_cache_add AF_INET AF_INET6 cache name transport family ctx
    pfound = Some (r, cache', pfound') ->
  name' <> name \/ transport' <> transport \/
  (family' =? AF_INET6) <> (family =? AF_INET6) ->
  isc_tlsctx_cache_find AF_INET AF_INET6 cache' name' transport' family'
  = isc_tlsctx_cache_find AF_INET AF_INET6 cache name' transport' family'.
Proof.
  intros [Hnd Hlt] H Hne.
  assert (Hslot : name' = name ->
            transport' - 1 <> transport - 1 \/
            (family' =? AF_INET6) <> (family =? AF_INET6)).
  { intros E. destruct Hne as [N|[N|N]];
      [contradiction|left; lia|right; exact N]. }
  unfold isc_tlsctx_cache_find.
  destruct (cache_REQUIRE AF_INET AF_INET6 name' transport' family');
    [|reflexivity].
  cbn [bind]. cbv zeta.
  destruct (isc_tlsctx_cache_add_cases _ _ _ _ _ _ _ _ _ _ _ H)
    as [-> | [(entry & F & _ & ->) | (F & ->)]]; [reflexivity| |];
    cbn [data heap].
  - (* a slot of an entry that exists *)
    destruct (isc_ht_find (data cache) name') as [res e'] eqn:F'.
    assert (E : res = ISC_R_SUCCESS ->
              heap_store (heap cache) entry
                (entry_set (heap cache entry) (transport - 1)
                   (family =? AF_INET6) ctx) e' (transport' - 1)
                (family' =? AF_INET6)
              = heap cache e' (transport' - 1) (family' =? AF_INET6)).
    { intros ->. unfold heap_store.
      destruct (Z.eqb_spec e' entry) as [->|]; [|reflexivity].
      apply entry_set_other. apply Hslot.
      exact (nodup_snd_key _ _ _ _ Hnd (isc_ht_find_in _ _ _ F')
               (isc_ht_find_in _ _ _ F)). }
    destruct (isc_ht_find_notfound _ _ _ _ F') as [-> | [-> ->]].
    + rewrite (E eq_refl). reflexivity.
    + reflexivity.
  - (* a slot of the entry that the add creates *)
    destruct (list_eq_dec Z.eq_dec name' name) as [->|Nn].
    + rewrite (isc_ht_find_snoc _ _ (brk cache) _ F), F.
      rewrite heap_store_same.
      rewrite entry_set_other by (apply Hslot; reflexivity).
      reflexivity.
    + rewrite (isc_ht_find_app_other _ _ _ _ Nn).
      destruct (isc_ht_find (data cache) name') as [res e'] eqn:F'.
      destruct (isc_ht_find_notfound _ _ _ _ F') as [-> | [-> ->]];
        [|reflexivity].
      assert (He : e' < brk cache).
      { rewrite Forall_forall in Hlt.
        exact (Hlt _ (isc_ht_find_in _ _ _ F')). }
      unfold heap_store.
      destruct (Z.eqb_spec e' (brk cache)); [lia|]. reflexivity.
Qed.

(** X20. An [isc_tlsctx_cache_add] touches one slot: in a cache that the
    calls have built, whatever the add returns, [isc_tlsctx_cache_find]
    gives for every other name, and for every other (transport, family)
    slot of the same name, what it gave before. *)
Theorem X20_cache_add_keeps_other_slots (AF_INET AF_INET6 : Z)
  (cache : isc_tlsctx_cache) (name : list Z) (transport family ctx : Z)
  (pfound : option Z) (r : isc_result) (cache' : isc_tlsctx_cache)
  (pfound' : option Z) (name' : list Z) (transport' family' : Z) :
  cache_built AF_INET AF_INET6 cache ->
  isc_tlsctx_cache_add AF_INET AF_INET6 cache name transport family ctx
    pfound = Some (r, cache', pfound') ->
  name' <> name \/ transport' <> transport \/
  (family' =? AF_INET6) <> (family =? AF_INET6) ->
  isc_tlsctx_cache_find AF_INET AF_INET6 cache' name' transport' family'
  = isc_tlsctx_cache_find AF_INET AF_INET6 cache name' transport' family'.
Proof.
  intros B H Hne.
  apply (cache_add_other_slot AF_INET AF_INET6 cache name transport family
           ctx pfound r cache' pfound'); [|exact H|exact Hne].
  exact (cache_built_inv _ _ _ B).
Qed.

(** What a find that returns ISC_R_SUCCESS has read. *)
Lemma cache_find_success (AF_INET AF_INET6 : Z) (cache : isc_tlsctx_cache)
  (name : list Z) (transport family c : Z) :
  isc_tlsctx_cache_find AF_INET AF_INET6 cache name transport family
  = Some (ISC_R_SUCCESS, c) ->
  exists entry,
    isc_ht_find (data cache) name = (ISC_R_SUCCESS, entry) /\
    heap cache entry (transport - 1) (family =? AF_INET6) = c /\ c <> 0.
Proof.
  unfold isc_tlsctx_cache_find. intros H.
  apply bind_some in H. destruct H as [u [_ H]]. cbv zeta in H.
  destruct (isc_ht_find (data cache) name) as [res entry] eqn:F.
  destruct (isc_ht_find_notfound _ _ _ _ F) as [-> | [-> ->]].
  - cbn [isc_result_eqb andb] in H.
    destruct (Z.eqb_spec
                (heap cache entry (transport - 1) (family =? AF_INET6)) 0)
      as [E0|N0]; cbn [negb] in H.
    + discriminate.
    + injection H as <-. exists entry. auto.
  - cbn [isc_result_eqb andb negb REQUIRE bind] in H. discriminate.
Qed.

(** X25. The cache never replaces a context: in a cache that the calls
    have built, once [isc_tlsctx_cache_find] returns a context for a name,
    transport and family, it returns the same context after any further
    [isc_tlsctx_cache_add], for that slot or for any other. *)
Theorem X25_cache_never_replaces_context (AF_INET AF_INET6 : Z)
  (cache : isc_tlsctx_cache) (name : list Z) (transport family c : Z)
  (name2 : list Z) (transport2 family2 ctx2 : Z) (pfound : option Z)
  (r : isc_result) (cache' : isc_tlsctx_cache) (pfound' : option Z) :
  cache_built AF_INET AF_INET6 cache ->
  isc_tlsctx_cache_find AF_INET AF_INET6 cache name transport family
  = Some (ISC_R_SUCCESS, c) ->
  isc_tlsctx_cache_add AF_INET AF_INET6 cache name2 transport2 family2 ctx2
    pfound = Some (r, cache', pfound') ->
  isc_tlsctx_cache_find AF_INET AF_INET6 cache' name transport family
  = Some (ISC_R_SUCCESS, c).
Proof.
  intros B F A.
  destruct (list_eq_dec Z.eq_dec name name2) as [En|Nn].
  2:{ rewrite <- F.
      apply (cache_add_other_slot AF_INET AF_INET6 cache name2 transport2
               family2 ctx2 pfound r cache' pfound');
        [exact (cache_built_inv _ _ _ B)|exact A|left; exact Nn]. }
  destruct (Z.eq_dec transport transport2) as [Et|Nt].
  2:{ rewrite <- F.
      apply (cache_add_other_slot AF_INET AF_INET6 cache name2 transport2
               family2 ctx2 pfound r cache' pfound');
        [exact (cache_built_inv _ _ _ B)|exact A|right; left; exact Nt]. }
  destruct (Bool.bool_dec (family =? AF_INET6) (family2 =? AF_INET6))
    as [Ef|Nf].
  2:{ rewrite <- F.
      apply (cache_add_other_slot AF_INET AF_INET6 cache name2 transport2
               family2 ctx2 pfound r cache' pfound');
        [exact (cache_built_inv _ _ _ B)|exact A|right; right; exact Nf]. }
  (* the add is for the slot itself: it finds the context there *)
  subst name2 transport2.
  destruct (cache_find_success _ _ _ _ _ _ _ F) as (entry & Fe & Eh & Hc).
  destruct (isc_tlsctx_cache_add_cases _ _ _ _ _ _ _ _ _ _ _ A)
    as [-> | [(entry' & Fe' & E0 & _) | (Fn & _)]].
  - exact F.
  - exfalso. rewrite Fe in Fe'. injection Fe' as <-.
    rewrite <- Ef, Eh in E0. contradiction.
  - rewrite Fe in Fn. discriminate.
Qed.

(** ** The further properties of the TLS helpers at concrete inputs *)

(** A buffer that is not a list of records: the record "h2", then a length
    byte that points past the end. *)
Definition alpn_truncated : list Z := [2; 104; 50; 200; 100].

(** X16 on the truncated buffer, for the name "dot". *)
Lemma X16_witness :
  exists r,
    protoneg_check_protocol alpn_truncated 5 (alpn_record name_dot)
      (Z.of_nat (length (alpn_record name_dot))) = Some r /\
    alpn_result_ok alpn_truncated 5 name_dot r.
Proof.
  apply (X16_alpn_scan_stays_in_buffer alpn_truncated 5 name_dot).
  - unfold alpn_truncated. repeat constructor; lia.
  - cbn. lia.
Defined.

(** X17 on two buffers that hold the record "dot" in their first four
    bytes and differ behind it. *)
Lemma X17_witness :
  protoneg_check_protocol [3; 100; 111; 116; 9] 4 DOT_PROTO_ALPN
    DOT_PROTO_ALPN_LEN
  = protoneg_check_protocol [3; 100; 111; 116; 7; 7] 4 DOT_PROTO_ALPN
      DOT_PROTO_ALPN_LEN.
Proof.
  apply (X17_alpn_scan_reads_in_len_bytes [3; 100; 111; 116; 9]
           [3; 100; 111; 116; 7; 7] 4 DOT_PROTO_ALPN DOT_PROTO_ALPN_LEN).
  - vm_compute. discriminate.
  - repeat constructor; lia.
  - repeat constructor; lia.
  - reflexivity.
Defined.

(** X18 on the mask 4, the first bit behind those of the two versions. *)
Lemma X18_witness :
  isc_tlsctx_set_protocols openssl_NO_TLSv1_2 openssl_NO_TLSv1_3
    (mk_tlsctx 0) 4 = None.
Proof.
  apply (X18_set_protocols_rejects_unknown_bits openssl_NO_TLSv1_2
           openssl_NO_TLSv1_3 (mk_tlsctx 0) 4).
  lia.
Defined.

(** The context with no option set after a call with a mask. *)
Definition ctx_after (tls_versions : Z) : isc_tlsctx :=
  match isc_tlsctx_set_protocols openssl_NO_TLSv1_2 openssl_NO_TLSv1_3
          (mk_tlsctx 0) tls_versions with
  | Some c => c
  | None => mk_tlsctx 0
  end.

(** X19: TLS 1.2 only, then TLS 1.3 only. *)
Lemma X19_witness :
  isc_tlsctx_set_protocols openssl_NO_TLSv1_2 openssl_NO_TLSv1_3
    (ctx_after ISC_TLS_PROTO_VER_1_2) ISC_TLS_PROTO_VER_1_3
  = Some (ctx_after ISC_TLS_PROTO_VER_1_3).
Proof.
  apply (X19_set_protocols_last_call_wins openssl_NO_TLSv1_2
           openssl_NO_TLSv1_3 (mk_tlsctx 0) ISC_TLS_PROTO_VER_1_2
           ISC_TLS_PROTO_VER_1_3).
  - vm_compute. reflexivity.
  - vm_compute. reflexivity.
Defined.

(** The new cache after the add of the context 7 under "n" for DoT over
    IPv4. *)
Definition cache_n_tls : isc_tlsctx_cache :=
  match isc_tlsctx_cache_add 2 10 isc_tlsctx_cache_new name_n
          isc_tlsctx_cache_tls 2 7 None with
  | Some (_, cache, _) => cache
  | None => isc_tlsctx_cache_new
  end.

(** X20: that add and the DoH slot of "n". *)
Lemma X20_witness :
  isc_tlsctx_cache_find 2 10 cache_n_tls name_n isc_tlsctx_cache_https 2
  = isc_tlsctx_cache_find 2 10 isc_tlsctx_cache_new name_n
      isc_tlsctx_cache_https 2.
Proof.
  apply (X20_cache_add_keeps_other_slots 2 10 isc_tlsctx_cache_new name_n
           isc_tlsctx_cache_tls 2 7 None ISC_R_SUCCESS cache_n_tls None
           name_n isc_tlsctx_cache_https 2).
  - apply built_new.
  - reflexivity.
  - right. left. discriminate.
Defined.

(** X25: the context 7 under "n" for DoT over IPv4 stays after an add of
    the context 8 for the same slot. *)
Lemma X25_witness :
  isc_tlsctx_cache_find 2 10
    (match isc_tlsctx_cache_add 2 10 cache_n_tls name_n isc_tlsctx_cache_tls
             2 8 None with
     | Some (_, cache, _) => cache
     | None => cache_n_tls
     end) name_n isc_tlsctx_cache_tls 2
  = Some (ISC_R_SUCCESS, 7).
Proof.
  apply (X25_cache_never_replaces_context 2 10 cache_n_tls name_n
           isc_tlsctx_cache_tls 2 7 name_n isc_tlsctx_cache_tls 2 8 None
           ISC_R_EXISTS _ None).
  - apply (built_add 2 10 isc_tlsctx_cache_new name_n isc_tlsctx_cache_tls
             2 7 None ISC_R_SUCCESS cache_n_tls None).
    + apply built_new.
    + reflexivity.
  - reflexivity.
  - reflexivity.
Defined.
